(** * gurl: the Gin handler scanner and the cURL synthesizer

    A shallow embedding of [goScanner.ts] and [curlGenerator.ts], and of
    what [ui.ts] and [extension.ts] make of them: the code lenses, the
    commands on a symbol and the escaping of the overlay.

    Texts are sequences of code units; the embedding covers the code units
    0..255, one [ascii] each.  Offsets into a text are [nat] where the source
    can only produce a non-negative number and [Z] where it computes with
    them ([findMatchingBrace] returns -1, [slice] takes negative bounds). *)

From Stdlib Require Import ZArith Lia List String Ascii Bool NArith Sorted.
From stdpp Require Import base option strings gmap pretty.
From Equations Require Import Equations.
Import ListNotations.

Local Open Scope string_scope.
Local Open Scope list_scope.

(** ** Code-unit classes of the pattern language *)

Module Chars.

Definition code (a : ascii) : N := N_of_ascii a.

Definition between (lo hi : N) (a : ascii) : bool :=
  (lo <=? code a)%N && (code a <=? hi)%N.

(** The double quote and the backslash. *)
Definition quote : ascii := "034".
Definition backslash : ascii := "092".

Definition one (x : ascii) (a : ascii) : bool := Ascii.eqb a x.
Definition notOne (x : ascii) (a : ascii) : bool := negb (Ascii.eqb a x).
Definition any (_ : ascii) : bool := true.

(** [0-9] *)
Definition digit : ascii -> bool := between 48 57.
(** [A-Z] *)
Definition upper : ascii -> bool := between 65 90.
(** [a-z] *)
Definition lower : ascii -> bool := between 97 122.
(** [A-Za-z_] and [a-zA-Z_] *)
Definition identStart (a : ascii) : bool := upper a || lower a || one "_" a.
(** [A-Za-z0-9_], which is also \w *)
Definition word (a : ascii) : bool := identStart a || digit a.
(** \s below code unit 256: TAB, LF, VT, FF, CR, space, NBSP *)
Definition space (a : ascii) : bool := between 9 13 a || one " " a || (code a =? 160)%N.
(** a line terminator below code unit 256: LF, CR *)
Definition lineTerminator (a : ascii) : bool := (code a =? 10)%N || (code a =? 13)%N.
(** . without the s flag *)
Definition dot (a : ascii) : bool := negb (lineTerminator a).

End Chars.

(** ** Patterns

    The abstract syntax of the regular expressions the source writes, and a
    backtracking matcher with the priorities of the ECMAScript one: the left
    alternative first, a greedy star tries one more iteration first, a lazy
    one tries to stop first, an iteration that consumes nothing is refused. *)

Inductive regex : Type :=
| Eps
| Chr (p : ascii -> bool)
| Seq (r1 r2 : regex)
| Alt (r1 r2 : regex)
| Star (greedy : bool) (r : regex)
| Group (n : nat) (r : regex)
| WordB
| Bol
| Eol
| NegLook (r : regex).

Module Rx.

Fixpoint lit (s : string) : regex :=
  match s with
  | EmptyString => Eps
  | String a s' => Seq (Chr (Chars.one a)) (lit s')
  end.

Fixpoint seq (rs : list regex) : regex :=
  match rs with
  | [] => Eps
  | [r] => r
  | r :: rs' => Seq r (seq rs')
  end.

Fixpoint alt (rs : list regex) : regex :=
  match rs with
  | [] => Chr (fun _ => false)
  | [r] => r
  | r :: rs' => Alt r (alt rs')
  end.

Definition star (r : regex) : regex := Star true r.
Definition lazyStar (r : regex) : regex := Star false r.
Definition plus (r : regex) : regex := Seq r (Star true r).
Definition opt (r : regex) : regex := Alt r Eps.

(** any white space, and at least one *)
Definition ws : regex := star (Chr Chars.space).
Definition ws1 : regex := plus (Chr Chars.space).
(** an identifier: one of [A-Za-z_], then any number of [A-Za-z0-9_] *)
Definition ident : regex := Seq (Chr Chars.identStart) (star (Chr Chars.word)).
(** identifiers joined by dots *)
Definition qualified : regex := Seq ident (star (Seq (lit ".") ident)).
(** \d+ *)
Definition digits : regex := plus (Chr Chars.digit).

End Rx.

(** The matcher's position in a text: the offset, the code unit before it
    (for \b) and the code units from it on. *)
Record cursor : Type := Cursor {
  pos : nat;
  prev : option ascii;
  rest : list ascii
}.

Definition captures : Type := list (option string).

Definition start (text : string) : cursor :=
  Cursor 0 None (list_ascii_of_string text).

Definition advance (c : cursor) : cursor :=
  match rest c with
  | [] => c
  | a :: t => Cursor (S (pos c)) (Some a) t
  end.

Fixpoint setCapture (n : nat) (v : string) (g : captures) : captures :=
  match n, g with
  | O, [] => [Some v]
  | O, _ :: g' => Some v :: g'
  | S n', [] => None :: setCapture n' v []
  | S n', x :: g' => x :: setCapture n' v g'
  end.

(** m[n] for n >= 1; [None] is undefined *)
Definition capture (n : nat) (g : captures) : option string :=
  match n with
  | O => None
  | S n' => match nth_error g n' with Some (Some v) => Some v | _ => None end
  end.

Definition isWordAt (o : option ascii) : bool :=
  match o with Some a => Chars.word a | None => false end.

Definition consumed (c c' : cursor) : string :=
  string_of_list_ascii (firstn (pos c' - pos c) (rest c)).

Definition outcome : Type := (cursor * captures)%type.

(** The iterations of a star whose body is matched by [step]: one more
    iteration first when the star is greedy, the continuation first when it
    is lazy; an iteration that does not move the cursor is refused.  [n]
    bounds the iterations, and one more than the code units left is enough. *)
Section Iterate.

Variable step : cursor -> captures -> (cursor -> captures -> option outcome) -> option outcome.
Variable greedy : bool.
Variable k : cursor -> captures -> option outcome.

Fixpoint iterate (n : nat) (c : cursor) (g : captures) : option outcome :=
  match n with
  | O => k c g
  | S n' =>
      let again :=
        step c g (fun c' g' => if (pos c <? pos c')%nat then iterate n' c' g' else None) in
      if greedy then
        match again with
        | Some o => Some o
        | None => k c g
        end
      else
        match k c g with
        | Some o => Some o
        | None => again
        end
  end.

End Iterate.

Fixpoint run (r : regex) (c : cursor) (g : captures)
    (k : cursor -> captures -> option outcome) {struct r} : option outcome :=
  match r with
  | Eps => k c g
  | Chr p =>
      match rest c with
      | a :: _ => if p a then k (advance c) g else None
      | [] => None
      end
  | Seq r1 r2 => run r1 c g (fun c' g' => run r2 c' g' k)
  | Alt r1 r2 =>
      match run r1 c g k with
      | Some o => Some o
      | None => run r2 c g k
      end
  | Star greedy r1 => iterate (run r1) greedy k (S (List.length (rest c))) c g
  | Group n r1 =>
      run r1 c g (fun c' g' => k c' (setCapture (Nat.pred n) (consumed c c') g'))
  | WordB =>
      if xorb (isWordAt (prev c)) (isWordAt (head (rest c))) then k c g else None
  | Bol => if (pos c =? 0)%nat then k c g else None
  | Eol => match rest c with [] => k c g | _ :: _ => None end
  | NegLook r1 =>
      match run r1 c g (fun c' g' => Some (c', g')) with
      | Some _ => None
      | None => k c g
      end
  end.

(** One result of [RegExp.prototype.exec]: m.index, the lastIndex a global
    pattern is left with, and m[1], m[2], ... *)
Record rmatch : Type := RMatch {
  index : nat;
  lastIndex : nat;
  groups : captures
}.

Definition grp (n : nat) (m : rmatch) : option string := capture n (groups m).

(** m[n] where the pattern makes the group take part in every match *)
Definition grp' (n : nat) (m : rmatch) : string := default "" (grp n m).

Definition matchAt (r : regex) (c : cursor) : option (rmatch * cursor) :=
  match run r c [] (fun c' g' => Some (c', g')) with
  | Some (c', g') => Some (RMatch (pos c) (pos c') g', c')
  | None => None
  end.

(** The leftmost match at or after the cursor. *)
Fixpoint scan (r : regex) (p : nat) (pv : option ascii) (rs : list ascii)
    : option (rmatch * cursor) :=
  match matchAt r (Cursor p pv rs) with
  | Some x => Some x
  | None =>
      match rs with
      | [] => None
      | a :: t => scan r (S p) (Some a) t
      end
  end.

Definition scanFrom (r : regex) (c : cursor) : option (rmatch * cursor) :=
  scan r (pos c) (prev c) (rest c).

(** [re.exec(text)] on a pattern whose lastIndex is 0. *)
Definition exec (r : regex) (text : string) : option rmatch :=
  option_map fst (scanFrom r (start text)).

(** [re.test(text)] on a pattern without the g flag. *)
Definition test (r : regex) (text : string) : bool :=
  match exec r text with Some _ => true | None => false end.

(** [while ((m = re.exec(text))) { ... }] on a fresh global pattern: the
    matches in the order the loop sees them.  A match that consumes nothing
    would leave lastIndex where it was and the source loop would not end; the
    patterns looped over all consume at least one code unit
    ([looped_patterns_progress], [scan_progress]), and the embedding stops
    at such a match.  [fuel] bounds the iterations; one more than the length
    of the text is never met ([execAll_enough]). *)
Fixpoint execLoop (r : regex) (fuel : nat) (c : cursor) : list rmatch :=
  match fuel with
  | O => []
  | S fuel' =>
      match scanFrom r c with
      | None => []
      | Some (m, c') =>
          if (index m <? lastIndex m)%nat then m :: execLoop r fuel' c' else [m]
      end
  end.

Definition execAll (r : regex) (text : string) : list rmatch :=
  execLoop r (S (String.length text)) (start text).

(** ** The string and object primitives of the host language *)

Module Js.

Fixpoint startsWith (s p : string) {struct p} : bool :=
  match p, s with
  | EmptyString, _ => true
  | String c p', String a s' => Ascii.eqb a c && startsWith s' p'
  | String _ _, EmptyString => false
  end.

Definition endsWith (s p : string) : bool :=
  let n := String.length s in
  let k := String.length p in
  (k <=? n)%nat && String.eqb (substring (n - k) k s) p.

(** The offset a relative bound stands for: negative bounds count from the
    end, and every bound is clamped to the text. *)
Definition clampIndex (len : nat) (i : Z) : nat :=
  if (i <? 0)%Z then Z.to_nat (Z.max (Z.of_nat len + i) 0)
  else Nat.min (Z.to_nat i) len.

(** [s.slice(a, b)] *)
Definition slice (s : string) (a b : Z) : string :=
  let from := clampIndex (String.length s) a in
  let to := clampIndex (String.length s) b in
  substring from (to - from) s.

(** [s.slice(a)] *)
Definition sliceFrom (s : string) (a : Z) : string :=
  let from := clampIndex (String.length s) a in
  substring from (String.length s - from) s.

(** [s[i]], [None] for undefined *)
Definition at_ (s : string) (i : nat) : option ascii := String.get i s.

Fixpoint trimStart (s : string) : string :=
  match s with
  | String a s' => if Chars.space a then trimStart s' else s
  | EmptyString => EmptyString
  end.

Fixpoint trimEnd (s : string) : string :=
  match s with
  | EmptyString => EmptyString
  | String a s' =>
      match trimEnd s' with
      | EmptyString => if Chars.space a then EmptyString else String a EmptyString
      | t => String a t
      end
  end.

Definition trim (s : string) : string := trimEnd (trimStart s).

(** [s.split(sep)] for a one-unit separator: never an empty array *)
Fixpoint split (sep : ascii) (s : string) : list string :=
  match s with
  | EmptyString => [EmptyString]
  | String a s' =>
      if Ascii.eqb a sep then EmptyString :: split sep s'
      else
        match split sep s' with
        | [] => [String a EmptyString]
        | w :: ws => String a w :: ws
        end
  end.

Fixpoint join (sep : string) (l : list string) : string :=
  match l with
  | [] => ""
  | [x] => x
  | x :: l' => x +:+ sep +:+ join sep l'
  end.

Definition lowerUnit (a : ascii) : ascii :=
  let n := Chars.code a in
  if Chars.upper a || (Chars.between 192 222 a && negb (n =? 215)%N)
  then ascii_of_N (n + 32) else a.

Fixpoint toLowerCase (s : string) : string :=
  match s with
  | EmptyString => EmptyString
  | String a s' => String (lowerUnit a) (toLowerCase s')
  end.

(** [s.charAt(0)] *)
Definition charAt0 (s : string) : string :=
  match s with
  | EmptyString => ""
  | String a _ => String a ""
  end.

(** [s.replace(re, by)] where [by] holds no dollar sign: every match of a
    global pattern, the first one otherwise. *)
Fixpoint rebuild (text : string) (from : nat) (ms : list rmatch) (by_ : string) : string :=
  match ms with
  | [] => substring from (String.length text - from) text
  | m :: ms' =>
      substring from (index m - from) text +:+ by_ +:+ rebuild text (lastIndex m) ms' by_
  end.

Definition replace (r : regex) (global : bool) (text by_ : string) : string :=
  if global then rebuild text 0 (execAll r text) by_
  else match exec r text with
       | Some m => rebuild text 0 [m] by_
       | None => text
       end.

(** [Array.from(new Set(l))]: the first occurrence of each value, in order *)
Fixpoint dedupe (seen : list string) (l : list string) : list string :=
  match l with
  | [] => []
  | x :: l' =>
      if bool_decide (x ∈ seen) then dedupe seen l'
      else x :: dedupe (x :: seen) l'
  end.

Definition unique (l : list string) : list string := dedupe [] l.

End Js.

(** ** goScanner.ts *)

Inductive BodyType : Type := json | form | multipart | none | unknown.

Record Field : Type := mkField {
  fname : string;
  goType : string
}.

Record HandlerParams : Type := mkParams {
  pathParams : list string;
  queryParams : list string;
  headers : list string;
  cookies : list string;
  bodyType : BodyType;
  jsonStructName : option string;
  jsonFields : option (list Field)
}.

(** A vscode.Range is kept as the two offsets it is built from. *)
Record HandlerFunction : Type := mkHandler {
  name : string;
  filePath : string;
  nameRange : nat * nat;
  contextParamName : option string;
  ginAlias : string;
  params : HandlerParams
}.

Record RouteRegistration : Type := mkRoute {
  method : string;
  path : string;
  handlerName : string;
  routeFile : string;
  range : nat * nat
}.

(** What the scanner uses of a vscode.TextDocument: doc.uri.fsPath and
    doc.getText(). *)
Record TextDocument : Type := mkDoc {
  fsPath : string;
  getText : string
}.

Definition HTTP_METHODS : list string :=
  ["GET"; "POST"; "PUT"; "DELETE"; "PATCH"; "OPTIONS"; "HEAD"].
Definition METHOD_ANY : string := "ANY".

(** [x || d] on a possibly undefined string: the empty string is falsy *)
Definition orElse (x : option string) (d : string) : string :=
  match x with
  | Some (String a s) => String a s
  | _ => d
  end.

Definition joinPaths (a b : string) : string :=
  let left := if Js.endsWith a "/" then Js.slice a 0 (-1) else a in
  let right := if Js.startsWith b "/" then b else "/" +:+ b in
  left +:+ right.

Definition lastSegment (qualified : string) : string :=
  List.last (Js.split "." qualified) "".

Definition lowerCamel (s : string) : string :=
  match s with
  | EmptyString => s
  | _ => Js.toLowerCase (Js.charAt0 s) +:+ Js.sliceFrom s 1
  end.

(** *** The patterns of goScanner.ts

    A pattern built with [new RegExp] from a template splices in an import
    alias, a variable name or a type name.  Each of those is itself a capture
    of the identifier pattern (or the constant gin), so the spliced text has
    no pattern syntax of its own and stands for itself: [Rx.lit]. *)

Module Pat.

Definition q : regex := Chr (Chars.one Chars.quote).
Definition notQuote : ascii -> bool := Chars.notOne Chars.quote.
Definition notParen : ascii -> bool := Chars.notOne ")".
Definition notTick : ascii -> bool := Chars.notOne "`".
Definition ginPath : regex :=
  Rx.seq [q; Rx.lit "github"; Chr Chars.dot; Rx.lit "com/gin-gonic/gin"; q].

Definition importBlockRegex : regex :=
  Rx.seq [Rx.lit "import"; Rx.ws; Rx.lit "("; Group 1 (Rx.lazyStar (Chr Chars.any)); Rx.lit ")"].
Definition aliasLine : regex :=
  Rx.seq [Chr (Chars.one "010"); Rx.ws; Rx.opt (Group 1 Rx.ident); Rx.ws; ginPath].
Definition singleImport : regex :=
  Rx.seq [Rx.lit "import"; Rx.ws1; Rx.opt (Group 1 Rx.ident); Rx.ws; ginPath].

Definition contextParam (ginAlias : string) : regex :=
  Rx.seq [Group 1 Rx.ident; Rx.ws; Rx.lit "*"; Rx.ws; Rx.lit ginAlias; Rx.lit ".Context"].

(** [ctxVar || '[a-zA-Z_][a-zA-Z0-9_]*'] *)
Definition cPattern (ctxVar : option string) : regex :=
  match ctxVar with
  | Some (String a v) => Rx.lit (String a v)
  | _ => Rx.ident
  end.

Definition call (c : regex) (names : list string) : regex :=
  Rx.seq [c; Rx.lit "."; Group 1 (Rx.alt (map Rx.lit names)); Rx.ws; Rx.lit "("].

Definition jsonBind (c : regex) : regex := call c ["ShouldBindJSON"; "BindJSON"].
Definition formBind (c : regex) : regex := call c ["PostForm"].
Definition multipart (c : regex) : regex :=
  Rx.seq [c; Rx.lit "."; Group 1 (Rx.alt [Rx.lit "FormFile"; Rx.lit "MultipartForm"]); WordB].
Definition queryBind (c : regex) : regex := call c ["ShouldBindQuery"; "BindQuery"].
Definition genericBind (c : regex) : regex := call c ["ShouldBind"; "Bind"].

Definition anyBind (c : regex) : regex :=
  Rx.seq [call c ["ShouldBindJSON"; "BindJSON"; "ShouldBind"; "Bind"]; Rx.ws; Rx.lit "&"; Rx.ws].
Definition structLit (c : regex) : regex :=
  Rx.seq [anyBind c; Group 2 Rx.ident; Rx.ws; Rx.lit "{"].
Definition addrVar (c : regex) : regex :=
  Rx.seq [anyBind c; Group 2 Rx.ident].

(** the argument that follows the opening parenthesis: a non-empty literal *)
Definition literalArg (n : nat) : regex :=
  Rx.seq [Rx.ws; q; Group n (Rx.plus (Chr notQuote)); q].

Definition qpRe (c : regex) : regex :=
  Rx.seq [call c ["Query"; "DefaultQuery"; "QueryArray"; "QueryMap"]; literalArg 2].
Definition accessor (c : regex) (accessorName : string) : regex :=
  Rx.seq [c; Rx.lit "."; Rx.lit accessorName; Rx.ws; Rx.lit "("; literalArg 1].
Definition ppRe (c : regex) : regex := accessor c "Param".
Definition ghRe (c : regex) : regex := accessor c "GetHeader".
Definition rhRe (c : regex) : regex := accessor c "Request.Header.Get".
Definition ckRe (c : regex) : regex := accessor c "Cookie".

Definition varDecl (varName : string) : regex :=
  Rx.seq [WordB; Rx.lit "var"; Rx.ws1; Rx.lit varName; Rx.ws1; Rx.opt (Rx.lit "*");
          Group 1 Rx.ident; WordB].
Definition varLiteral1 (varName : string) : regex :=
  Rx.seq [WordB; Rx.lit varName; Rx.ws; Chr (fun a => Chars.one ":" a || Chars.one "=" a);
          Rx.ws; Rx.opt (Rx.lit "&"); Rx.ws; Group 1 Rx.ident; Rx.ws; Rx.lit "{"].
Definition varLiteral2 (varName : string) : regex :=
  Rx.seq [WordB; Rx.lit varName; Rx.ws; Rx.lit "=";
          Rx.ws; Rx.opt (Rx.lit "&"); Rx.ws; Group 1 Rx.ident; Rx.ws; Rx.lit "{"].
Definition varNew (varName : string) : regex :=
  Rx.seq [WordB; Rx.lit varName; Rx.ws; Rx.lit ":="; Rx.ws; Rx.lit "new("; Rx.ws;
          Group 1 Rx.ident; Rx.ws; Rx.lit ")"].

Definition defRe (typeName : string) : regex :=
  Rx.seq [Rx.lit "type"; Rx.ws1; Rx.lit typeName; Rx.ws1; Rx.lit "struct"; Rx.ws; Rx.lit "{";
          Group 1 (Rx.lazyStar (Chr Chars.any)); Rx.lit "}"].
(** not a backtick, a space or a tab *)
Definition typeUnit (a : ascii) : bool :=
  notTick a && Chars.notOne " " a && Chars.notOne "009" a.
Definition fieldLine : regex :=
  Rx.seq [Bol; Rx.ws; Group 1 Rx.ident; Rx.ws1;
          Group 2 (Rx.plus (Chr typeUnit));
          Rx.opt (Rx.seq [Rx.ws1; Rx.lit "`"; Group 3 (Rx.star (Chr notTick)); Rx.lit "`"])].
Definition jsonTag : regex :=
  Rx.seq [Rx.lit "json:"; q; Group 1 (Rx.plus (Chr notQuote)); q].

Definition receiver : regex :=
  Rx.seq [Rx.lit "("; Rx.star (Chr notParen); Rx.lit ")"; Rx.ws].
Definition pattern1 (ginAlias : string) : regex :=
  Rx.seq [Rx.lit "func"; Rx.ws; Rx.opt receiver; Group 1 Rx.ident; Rx.ws; Rx.lit "(";
          Group 2 (Rx.seq [Rx.star (Chr notParen); Rx.lit ginAlias; Rx.lit ".Context";
                           Rx.star (Chr notParen)]);
          Rx.lit ")"; Rx.ws; Rx.lit "{"].
Definition handlerFuncType (ginAlias : string) : regex :=
  Alt (Rx.seq [Rx.lit "("; Rx.lit ginAlias; Rx.lit ".HandlerFunc)"])
      (Rx.seq [Rx.lit ginAlias; Rx.lit ".HandlerFunc"]).
Definition factoryTail (ginAlias : string) : regex :=
  Rx.seq [Group 1 Rx.ident; Rx.ws; Rx.lit "("; Rx.ws; Rx.lit ")"; Rx.ws;
          handlerFuncType ginAlias; Rx.ws; Rx.lit "{"].
Definition pattern2 (ginAlias : string) : regex :=
  Rx.seq [Rx.lit "func"; Rx.ws1; factoryTail ginAlias].
Definition pattern2Method (ginAlias : string) : regex :=
  Rx.seq [Rx.lit "func"; Rx.ws; receiver; factoryTail ginAlias].
Definition innerCtxParam (ginAlias : string) : regex :=
  Rx.seq [Rx.lit "func"; Rx.ws; Rx.lit "("; Rx.ws; Group 1 Rx.ident; Rx.ws; Rx.lit "*"; Rx.ws;
          Rx.lit ginAlias; Rx.lit ".Context"; Rx.ws; Rx.lit ")"].

(** a quoted path literal, possibly empty, in group [n] *)
Definition pathArg (n : nat) : regex :=
  Rx.seq [Rx.ws; q; Group n (Rx.star (Chr notQuote)); q].
(** the handler reference in group [n], and the empty call that may follow *)
Definition handlerArg (n : nat) : regex :=
  Rx.seq [Rx.ws; Rx.lit ","; Rx.ws; Group n Rx.qualified;
          Rx.opt (Rx.seq [Rx.ws; Rx.lit "("; Rx.ws; Rx.lit ")"])].

Definition routeRegex : regex :=
  Rx.seq [WordB; Group 1 Rx.ident; Rx.lit ".";
          Group 2 (Rx.alt (map Rx.lit
                             ["GET"; "POST"; "PUT"; "DELETE"; "PATCH"; "OPTIONS"; "HEAD"]));
          Rx.ws; Rx.lit "("; pathArg 3; handlerArg 4].
Definition handleRegex : regex :=
  Rx.seq [WordB; Group 1 Rx.ident; Rx.lit ".Handle"; Rx.ws; Rx.lit "("; Rx.ws; q;
          Group 2 (Rx.plus (Chr Chars.upper)); q; Rx.ws; Rx.lit ","; pathArg 3; handlerArg 4].
Definition anyRegex : regex :=
  Rx.seq [WordB; Group 1 Rx.ident; Rx.lit ".Any"; Rx.ws; Rx.lit "("; pathArg 2; handlerArg 3].

Definition rootParam (ginAlias : string) : regex :=
  Rx.seq [Rx.lit "("; Rx.ws; Group 1 Rx.ident; Rx.ws; Rx.lit "*"; Rx.ws;
          Rx.lit ginAlias; Rx.lit ".Engine"].
Definition rootAssign (ginAlias : string) : regex :=
  Rx.seq [WordB; Group 1 Rx.ident; Rx.ws; Rx.lit ":="; Rx.ws; Rx.lit ginAlias; Rx.lit ".";
          Alt (Rx.lit "Default") (Rx.lit "New"); Rx.ws; Rx.lit "("].
Definition groupRegex : regex :=
  Rx.seq [WordB; Group 1 Rx.ident; Rx.ws; Chr (fun a => Chars.one ":" a || Chars.one "=" a);
          Rx.lit "="; Rx.ws; Group 2 Rx.ident; Rx.lit ".Group"; Rx.ws; Rx.lit "("; pathArg 3].

Definition runName : regex :=
  Rx.seq [Rx.lit "."; Chr (fun a => Chars.one "R" a || Chars.one "r" a); Rx.lit "un"].
Definition runRe : regex :=
  Rx.seq [runName; Rx.opt (Rx.lit "TLS"); Rx.ws; Rx.lit "("; pathArg 1].
Definition runTLS : regex := Rx.seq [Rx.lit ".RunTLS"; Rx.ws; Rx.lit "("].
Definition listenRe : regex :=
  Rx.seq [Rx.lit "http"; Rx.lit ".ListenAndServe"; Rx.ws; Rx.lit "("; pathArg 1].
Definition runNoArgs : regex := Rx.seq [runName; Rx.ws; Rx.lit "("; Rx.ws; Rx.lit ")"].

Definition hostChar (a : ascii) : bool :=
  Chars.word a || Chars.one "." a || Chars.one "-" a.
Definition ipPort : regex :=
  Rx.seq [Bol; Rx.digits; Rx.lit "."; Rx.digits; Rx.lit "."; Rx.digits; Rx.lit "."; Rx.digits;
          Rx.lit ":"; Rx.digits; Eol].
Definition hostPort : regex :=
  Rx.seq [Bol; Rx.plus (Chr hostChar); Rx.lit ":"; Rx.digits; Eol].

End Pat.

(** *** The functions of goScanner.ts *)

Fixpoint firstAlias (blocks : list rmatch) : option string :=
  match blocks with
  | [] => None
  | m :: blocks' =>
      let block := grp' 1 m in
      match exec Pat.aliasLine block with
      | Some aliasMatch => Some (orElse (grp 1 aliasMatch) "gin")
      | None => firstAlias blocks'
      end
  end.

Definition detectGinAliasFromImports (text : string) : string :=
  match firstAlias (execAll Pat.importBlockRegex text) with
  | Some found => found
  | None =>
      match exec Pat.singleImport text with
      | Some m => orElse (grp 1 m) "gin"
      | None => "gin"
      end
  end.

Definition extractContextParamName (signatureParams ginAlias : string) : option string :=
  match exec (Pat.contextParam ginAlias) signatureParams with
  | Some m => grp 1 m
  | None => None
  end.

Definition findVarTypeInText (text varName : string) : option string :=
  match exec (Pat.varDecl varName) text with
  | Some m => grp 1 m
  | None =>
  match exec (Pat.varLiteral1 varName) text with
  | Some m => grp 1 m
  | None =>
  match exec (Pat.varLiteral2 varName) text with
  | Some m => grp 1 m
  | None =>
  match exec (Pat.varNew varName) text with
  | Some m => grp 1 m
  | None => None
  end end end end.

(** The body of the loop over the lines of a struct body: the field a line
    contributes, if the line is a field line. *)
Definition fieldOfLine (line : string) : option Field :=
  match exec Pat.fieldLine line with
  | None => None
  | Some fr =>
      let goField := grp' 1 fr in
      let goType := grp' 2 fr in
      let tag := orElse (grp 3 fr) "" in
      let fallback := Some (mkField (lowerCamel goField) goType) in
      match exec Pat.jsonTag tag with
      | Some jm =>
          let name := hd "" (Js.split "," (grp' 1 jm)) in
          if negb (String.eqb name "") && negb (String.eqb name "-")
          then Some (mkField name goType)
          else fallback
      | None => fallback
      end
  end.

(** Deduplicate by name: the first field of each name. *)
Fixpoint uniqueFields (seen : list string) (fields : list Field) : list Field :=
  match fields with
  | [] => []
  | f :: fields' =>
      if bool_decide (fname f ∈ seen) then uniqueFields seen fields'
      else f :: uniqueFields (fname f :: seen) fields'
  end.

Definition extractStructFieldsFromText (text typeName : string) : list Field :=
  match exec (Pat.defRe typeName) text with
  | None => []
  | Some m =>
      let body := grp' 1 m in
      let lines := Js.split "010" body in
      let fields := omap fieldOfLine lines in
      uniqueFields [] fields
  end.

Definition classifyBody (body : string) (c : regex) : BodyType :=
  if test (Pat.jsonBind c) body then json
  else if test (Pat.multipart c) body then multipart
  else if test (Pat.formBind c) body then form
  else if test (Pat.queryBind c) body then none
  else if test (Pat.genericBind c) body then none
  else none.

(** The struct a JSON body is bound to, and its fields. *)
Definition boundStruct (body : string) (c : regex) (fullText : string)
    : option string * option (list Field) :=
  match exec (Pat.structLit c) body with
  | Some tm =>
      let structName := grp' 2 tm in
      (Some structName, Some (extractStructFieldsFromText fullText structName))
  | None =>
      match exec (Pat.addrVar c) body with
      | Some tm =>
          let varName := grp' 2 tm in
          match findVarTypeInText fullText varName with
          | Some (String a t) =>
              let typeName := String a t in
              (Some typeName, Some (extractStructFieldsFromText fullText typeName))
          | _ => (None, None)
          end
      | None => (None, None)
      end
  end.

(** The pushes of one [while ((m = re.exec(body)))] loop: group [n] of
    every match, in the order of the matches. *)
Definition collect (r : regex) (n : nat) (body : string) : list string :=
  map (grp' n) (execAll r body).

Definition inferParamsFromBody (body : string) (ctxVar : option string)
    (ginAlias fullText : string) : HandlerParams :=
  let c := Pat.cPattern ctxVar in
  let bodyType := classifyBody body c in
  let '(structName, fields) :=
    match bodyType with
    | json => boundStruct body c fullText
    | _ => (None, None)
    end in
  let queryParams := collect (Pat.qpRe c) 2 body in
  let pathParams := collect (Pat.ppRe c) 1 body in
  let headers := collect (Pat.ghRe c) 1 body ++ collect (Pat.rhRe c) 1 body in
  let cookies := collect (Pat.ckRe c) 1 body in
  {| pathParams := Js.unique pathParams;
     queryParams := Js.unique queryParams;
     headers := Js.unique headers;
     cookies := Js.unique cookies;
     bodyType := bodyType;
     jsonStructName := structName;
     jsonFields := fields |}.

(** [findMatchingBrace]: the loop [for (i = openIndex; i < text.length; i++)]
    runs [n = text.length - i] more times.  Next to the result the embedding
    returns the offsets at which the loop reads [text[i]]. *)
Fixpoint braceLoop (text : string) (n i : nat) (depth : Z) : Z * list nat :=
  match n with
  | O => ((-1)%Z, [])
  | S n' =>
      let ch := Js.at_ text i in
      let '(result, reads) :=
        if bool_decide (ch = Some "{"%char) then braceLoop text n' (S i) (depth + 1)%Z
        else if bool_decide (ch = Some "}"%char) then
          let depth := (depth - 1)%Z in
          if (depth =? 0)%Z then (Z.of_nat i, [])
          else braceLoop text n' (S i) depth
        else braceLoop text n' (S i) depth in
      (result, i :: reads)
  end.

Definition findMatchingBrace (text : string) (openIndex : nat) : Z :=
  fst (braceLoop text (String.length text - openIndex) openIndex 0%Z).

Definition bracesRead (text : string) (openIndex : nat) : list nat :=
  snd (braceLoop text (String.length text - openIndex) openIndex 0%Z).

(** The handler body pattern 1 hands to [inferParamsFromBody]. *)
Definition bodyTextAt (text : string) (bodyStart : nat) : string :=
  let bodyEnd := findMatchingBrace text bodyStart in
  if (Z.of_nat bodyStart <? bodyEnd)%Z
  then Js.slice text (Z.of_nat bodyStart) (bodyEnd + 1)%Z
  else "".

(** The factory body patterns 2 and 2b hand to it. *)
Definition innerAt (text : string) (startIndex : nat) : string :=
  let bodyEnd := findMatchingBrace text startIndex in
  Js.slice text (Z.of_nat startIndex) (bodyEnd + 1)%Z.

Definition handler1 (doc : TextDocument) (ginAlias : string) (m : rmatch) : HandlerFunction :=
  let text := getText doc in
  let name := grp' 1 m in
  let paramsSig := grp' 2 m in
  let startIndex := lastIndex m - 1 in
  let contextParamName := extractContextParamName paramsSig ginAlias in
  let bodyText := bodyTextAt text startIndex in
  {| name := name;
     filePath := fsPath doc;
     nameRange := (index m, index m + String.length name);
     contextParamName := contextParamName;
     ginAlias := ginAlias;
     params := inferParamsFromBody bodyText contextParamName ginAlias text |}.

Definition handler2 (doc : TextDocument) (ginAlias : string) (m : rmatch) : HandlerFunction :=
  let text := getText doc in
  let name := grp' 1 m in
  let startIndex := lastIndex m - 1 in
  let inner := innerAt text startIndex in
  let ctxVar :=
    match exec (Pat.innerCtxParam ginAlias) inner with
    | Some im => grp 1 im
    | None => None
    end in
  {| name := name;
     filePath := fsPath doc;
     nameRange := (index m, index m + String.length name);
     contextParamName := ctxVar;
     ginAlias := ginAlias;
     params := inferParamsFromBody inner ctxVar ginAlias text |}.

Definition findHandlersInText (doc : TextDocument) (ginAlias : string) : list HandlerFunction :=
  let text := getText doc in
  map (handler1 doc ginAlias) (execAll (Pat.pattern1 ginAlias) text)
  ++ map (handler2 doc ginAlias) (execAll (Pat.pattern2 ginAlias) text)
  ++ map (handler2 doc ginAlias) (execAll (Pat.pattern2Method ginAlias) text).

(** The root router variables: a parameter typed as the engine, and every
    variable assigned from [Default()] or [New()]. *)
Definition rootRouters (text ginAlias : string) : gmap string string :=
  let map0 : gmap string string :=
    match exec (Pat.rootParam ginAlias) text with
    | Some pm => <[grp' 1 pm := ""]> ∅
    | None => ∅
    end in
  foldl (fun map m => <[grp' 1 m := ""]> map) map0 (execAll (Pat.rootAssign ginAlias) text).

(** One iteration of the inner loop over the [.Group] call sites. *)
Definition groupStep (st : gmap string string * bool) (gm : rmatch)
    : gmap string string * bool :=
  let '(map, updated) := st in
  let child := grp' 1 gm in
  let base := grp' 2 gm in
  let rel := grp' 3 gm in
  let basePrefix := default "" (map !! base) in
  let full := joinPaths basePrefix rel in
  if bool_decide (map !! child = Some full) then (map, updated)
  else (<[child := full]> map, true).

(** One pass of [while (updated)]: the inner loop, from [updated = false]. *)
Definition groupPass (text : string) (map : gmap string string)
    : gmap string string * bool :=
  foldl groupStep (map, false) (execAll Pat.groupRegex text).

(** [while (updated) { ... }]: [fuel] bounds the number of passes, and
    [None] says that the loop has not ended within them. *)
Fixpoint resolveGroups (fuel : nat) (text : string) (map : gmap string string)
    : option (gmap string string) :=
  match fuel with
  | O => None
  | S fuel' =>
      let '(map', updated) := groupPass text map in
      if updated then resolveGroups fuel' text map' else Some map'
  end.

Definition buildGroupPrefixMap (fuel : nat) (text ginAlias : string)
    : option (gmap string string) :=
  resolveGroups fuel text (rootRouters text ginAlias).

(** [groupPrefixes.get(recv) || ''] *)
Definition prefixOf (groupPrefixes : gmap string string) (recv : string) : string :=
  orElse (groupPrefixes !! recv) "".

Definition has (handlerNames : gset string) (handlerName : string) : bool :=
  bool_decide (handlerName ∈ handlerNames).

Definition includes (l : list string) (x : string) : bool :=
  bool_decide (x ∈ l).

Section Routes.

Variable doc : TextDocument.
Variable handlerNames : gset string.
Variable groupPrefixes : gmap string string.

(** The three loops of [findRoutesInTextByNames]; each function is the body
    of one loop: the registrations one match pushes. *)
Definition routeOfMethodCall (m : rmatch) : list RouteRegistration :=
  let recv := grp' 1 m in
  let method := grp' 2 m in
  let relPath := grp' 3 m in
  let handlerExpr := grp' 4 m in
  let handlerName := lastSegment handlerExpr in
  if negb (has handlerNames handlerName) then []
  else
    let prefix := prefixOf groupPrefixes recv in
    let path := joinPaths prefix relPath in
    [mkRoute method path handlerName (fsPath doc) (index m, lastIndex m)].

Definition routeOfHandleCall (m : rmatch) : list RouteRegistration :=
  let recv := grp' 1 m in
  let method := grp' 2 m in
  let relPath := grp' 3 m in
  let handlerExpr := grp' 4 m in
  let handlerName := lastSegment handlerExpr in
  if negb (includes HTTP_METHODS method) || negb (has handlerNames handlerName) then []
  else
    let prefix := prefixOf groupPrefixes recv in
    let path := joinPaths prefix relPath in
    [mkRoute method path handlerName (fsPath doc) (index m, lastIndex m)].

Definition routeOfAnyCall (m : rmatch) : list RouteRegistration :=
  let recv := grp' 1 m in
  let relPath := grp' 2 m in
  let handlerExpr := grp' 3 m in
  let handlerName := lastSegment handlerExpr in
  if negb (has handlerNames handlerName) then []
  else
    let prefix := prefixOf groupPrefixes recv in
    let path := joinPaths prefix relPath in
    [mkRoute METHOD_ANY path handlerName (fsPath doc) (index m, lastIndex m)].

Definition routesWithPrefixes : list RouteRegistration :=
  let text := getText doc in
  flat_map routeOfMethodCall (execAll Pat.routeRegex text)
  ++ flat_map routeOfHandleCall (execAll Pat.handleRegex text)
  ++ flat_map routeOfAnyCall (execAll Pat.anyRegex text).

End Routes.

Definition findRoutesInTextByNames (fuel : nat) (doc : TextDocument)
    (handlerNames : gset string) : option (list RouteRegistration) :=
  let text := getText doc in
  let ginAlias := detectGinAliasFromImports text in
  match buildGroupPrefixMap fuel text ginAlias with
  | Some groupPrefixes => Some (routesWithPrefixes doc handlerNames groupPrefixes)
  | None => None
  end.

(** [scanWorkspace] over the documents the workspace search returns. *)
Fixpoint routesOfDocs (fuel : nat) (docs : list TextDocument) (handlerNames : gset string)
    : option (list RouteRegistration) :=
  match docs with
  | [] => Some []
  | doc :: docs' =>
      match findRoutesInTextByNames fuel doc handlerNames with
      | Some routes =>
          match routesOfDocs fuel docs' handlerNames with
          | Some routes' => Some (routes ++ routes')
          | None => None
          end
      | None => None
      end
  end.

Definition scanWorkspace (fuel : nat) (goFiles : list TextDocument)
    : option (list HandlerFunction * list RouteRegistration) :=
  let handlers :=
    flat_map (fun doc => findHandlersInText doc (detectGinAliasFromImports (getText doc)))
             goFiles in
  let handlerNames : gset string := list_to_set (map name handlers) in
  match routesOfDocs fuel goFiles handlerNames with
  | Some routes => Some (handlers, routes)
  | None => None
  end.

(** *** Base address *)

Definition normalizeAddr (addr : string) : option string :=
  let a := Js.trim addr in
  if String.eqb a "" then None
  else if Js.startsWith a ":" then Some ("localhost" +:+ a)
  else if test Pat.ipPort a then Some a
  else if test Pat.hostPort a then Some a
  else None.

Inductive Scheme : Type := http | https.

Definition schemeText (s : Scheme) : string :=
  match s with http => "http" | https => "https" end.

(** The loop over the [Run] call sites of one text, left at the first
    address that normalizes. *)
Fixpoint firstRun (text : string) (ms : list rmatch) : option (Scheme * string) :=
  match ms with
  | [] => None
  | m :: ms' =>
      let addr := grp' 1 m in
      let isTLS :=
        test Pat.runTLS (Js.slice text (Z.of_nat (index m) - 10) (Z.of_nat (index m) + 10)) in
      match normalizeAddr addr with
      | Some hp => Some (if isTLS then https else http, hp)
      | None => firstRun text ms'
      end
  end.

(** The loop over the [http.ListenAndServe] call sites of one text. *)
Fixpoint firstListen (ms : list rmatch) : option (Scheme * string) :=
  match ms with
  | [] => None
  | m :: ms' =>
      match normalizeAddr (grp' 1 m) with
      | Some hp => Some (http, hp)
      | None => firstListen ms'
      end
  end.

(** The first loop over the files. *)
Fixpoint inferFromFiles (goFiles : list string) : option (Scheme * string) :=
  match goFiles with
  | [] => None
  | text :: goFiles' =>
      match firstRun text (execAll Pat.runRe text) with
      | Some inferred => Some inferred
      | None =>
          match firstListen (execAll Pat.listenRe text) with
          | Some inferred => Some inferred
          | None => inferFromFiles goFiles'
          end
      end
  end.

(** The second loop over the files. *)
Fixpoint anyRunWithoutArgs (goFiles : list string) : bool :=
  match goFiles with
  | [] => false
  | text :: goFiles' => if test Pat.runNoArgs text then true else anyRunWithoutArgs goFiles'
  end.

(** [goFiles] holds the texts of the files the workspace search returns, in
    its order. *)
Definition detectBaseUrlFromWorkspace (goFiles : list string) : option string :=
  match inferFromFiles goFiles with
  | Some (scheme, hostPort) => Some (schemeText scheme +:+ "://" +:+ hostPort)
  | None => if anyRunWithoutArgs goFiles then Some "http://localhost:8080" else None
  end.

(** ** curlGenerator.ts *)

(** *** Objects used as records of strings

    The own properties of an object are kept in the order [Object.entries]
    and [JSON.stringify] list them: the array indices in ascending order,
    then the other keys in the order they were created. *)

Module Obj.

Section Values.

Context {V : Type}.

Fixpoint digitsValue (acc : N) (s : string) : option N :=
  match s with
  | EmptyString => Some acc
  | String a s' =>
      if Chars.digit a then digitsValue (acc * 10 + (Chars.code a - 48))%N s' else None
  end.

(** The array index a key is the canonical spelling of. *)
Definition arrayIndex (k : string) : option N :=
  match k with
  | EmptyString => None
  | String "0" EmptyString => Some 0%N
  | String "0" _ => None
  | _ =>
      if (String.length k <=? 10)%nat then
        match digitsValue 0 k with
        | Some n => if (n <? 4294967295)%N then Some n else None
        | None => None
        end
      else None
  end.

Fixpoint getOwn (k : string) (o : list (string * V)) : option V :=
  match o with
  | [] => None
  | (k', v) :: o' => if String.eqb k k' then Some v else getOwn k o'
  end.

Fixpoint overwrite (k : string) (v : V) (o : list (string * V)) : list (string * V) :=
  match o with
  | [] => []
  | (k', v') :: o' => if String.eqb k k' then (k, v) :: o' else (k', v') :: overwrite k v o'
  end.

(** A new array index [n] goes before the first key that is a larger index
    or no index at all. *)
Fixpoint insertIndex (n : N) (k : string) (v : V) (o : list (string * V)) : list (string * V) :=
  match o with
  | [] => [(k, v)]
  | (k', v') :: o' =>
      match arrayIndex k' with
      | Some n' => if (n' <? n)%N then (k', v') :: insertIndex n k v o' else (k, v) :: o
      | None => (k, v) :: o
      end
  end.

(** Defining the own property [k], as [o[k] = v] does for every key but
    [__proto__] and as a spread does for every key. *)
Definition define (k : string) (v : V) (o : list (string * V)) : list (string * V) :=
  match getOwn k o with
  | Some _ => overwrite k v o
  | None =>
      match arrayIndex k with
      | Some n => insertIndex n k v o
      | None => o ++ [(k, v)]
      end
  end.

(** The copy a spread of [o] makes. *)
Definition spread (o : list (string * V)) : list (string * V) :=
  foldl (fun acc kv => define (fst kv) (snd kv) acc) [] o.

End Values.

(** The properties every object inherits from [Object.prototype]. *)
Definition inherited : list string :=
  ["constructor"; "__defineGetter__"; "__defineSetter__"; "hasOwnProperty";
   "__lookupGetter__"; "__lookupSetter__"; "isPrototypeOf"; "propertyIsEnumerable";
   "toString"; "valueOf"; "__proto__"; "toLocaleString"].

(** [o[k] !== undefined] on an object whose own values are strings *)
Definition isDefined (k : string) (o : list (string * string)) : bool :=
  match getOwn k o with
  | Some _ => true
  | None => bool_decide (k ∈ inherited)
  end.

End Obj.

(** The values [sampleValueForGoType] returns and [JSON.stringify] prints. *)
Local Unset Elimination Schemes.
Inductive jsval : Type :=
| JStr (s : string)
| JNum (z : Z)
| JBool (b : bool)
| JArr (l : list jsval)
| JObj (l : list (string * jsval)).
Local Set Elimination Schemes.

Module Json.

Definition hexDigit (n : N) : ascii :=
  ascii_of_N (if (n <? 10)%N then 48 + n else 87 + n).

Definition backslash : string := String Chars.backslash "".
Definition doubleQuote : string := String Chars.quote "".

Definition escapeUnit (a : ascii) : string :=
  let n := Chars.code a in
  if Ascii.eqb a Chars.quote then backslash +:+ doubleQuote
  else if Ascii.eqb a Chars.backslash then backslash +:+ backslash
  else if (n =? 8)%N then backslash +:+ "b"
  else if (n =? 9)%N then backslash +:+ "t"
  else if (n =? 10)%N then backslash +:+ "n"
  else if (n =? 12)%N then backslash +:+ "f"
  else if (n =? 13)%N then backslash +:+ "r"
  else if (n <? 32)%N then
    backslash +:+ "u00" +:+ String (hexDigit (n / 16)) (String (hexDigit (n mod 16)) "")
  else String a "".

Fixpoint escape (s : string) : string :=
  match s with
  | EmptyString => ""
  | String a s' => escapeUnit a +:+ escape s'
  end.

Definition quote (s : string) : string := doubleQuote +:+ escape s +:+ doubleQuote.

Definition newline : string := String "010" "".

(** [JSON.stringify(v, null, 2)] of a value nested under the indentation
    [indent]. *)
Fixpoint print (indent : string) (v : jsval) : string :=
  let inner := indent +:+ "  " in
  match v with
  | JStr s => quote s
  | JNum z => pretty z
  | JBool b => if b then "true" else "false"
  | JArr [] => "[]"
  | JArr l =>
      "[" +:+ newline
      +:+ Js.join ("," +:+ newline) (map (fun x => inner +:+ print inner x) l)
      +:+ newline +:+ indent +:+ "]"
  | JObj [] => "{}"
  | JObj l =>
      "{" +:+ newline
      +:+ Js.join ("," +:+ newline)
            (map (fun kx =>
                    match kx with
                    | (k, x) => inner +:+ quote k +:+ ": " +:+ print inner x
                    end) l)
      +:+ newline +:+ indent +:+ "}"
  end.

Definition stringify (v : jsval) : string := print "" v.

End Json.

Record CurlGenerationOptions : Type := mkOptions {
  baseUrl : string;
  defaultHeaders : list (string * string);
  useHttpieStyle : bool
}.

Definition normalizePlaceholder (name : string) : string :=
  Js.replace (Rx.plus (Chr (fun a => negb (Chars.word a)))) true name "_".

(** The template that holds the replacement is written with a backslash
    before its second quote; a template drops that backslash, and the
    replacement is three quotes. *)
Definition shellQuote (s : string) : string :=
  if String.eqb s "" then "''"
  else "'" +:+ Js.replace (Rx.lit "'") true s "'''" +:+ "'".

Definition inspect {A : Type} (a : A) : {b : A | a = b} := exist _ a eq_refl.

Definition primitives : list string :=
  ["int"; "int8"; "int16"; "int32"; "int64";
   "uint"; "uint8"; "uint16"; "uint32"; "uint64"; "uintptr"].

Definition mapType : regex :=
  Rx.seq [Bol; Rx.lit "map["; Rx.star (Chr Chars.dot); Rx.lit "]"].
Definition capitalized : regex :=
  Rx.seq [Bol; Chr Chars.upper; Rx.star (Chr Chars.word); Eol].

(** The cases of [sampleValueForGoType] that do not recurse.  [now] is what
    [new Date().toISOString()] returns when the case is reached. *)
Definition sampleLeaf (base fieldName now : string) : jsval :=
  let placeholder := JStr ("<" +:+ normalizePlaceholder fieldName +:+ ">") in
  if test mapType base then JObj [("key", JStr "<key>"); ("value", JStr "<value>")]
  else if String.eqb base "string" then placeholder
  else if includes primitives base then JNum 0
  else if String.eqb base "float32" || String.eqb base "float64" then JNum 0
  else if String.eqb base "bool" then JBool false
  else if String.eqb base "time.Time" then JStr now
  else if String.eqb base "json.RawMessage" then JObj []
  else if test capitalized base then JObj [(fieldName, placeholder)]
  else placeholder.

(** [sampleValueForGoType]; the recursion is on a shorter text, which the
    two obligations show. *)
Equations? sampleValueForGoType (goType fieldName now : string) : jsval
    by wf (String.length goType) lt :=
  sampleValueForGoType goType fieldName now
    with inspect (Js.startsWith (Js.trim goType) "*") := {
    | exist _ true _ =>
        sampleValueForGoType (Js.sliceFrom (Js.trim goType) 1) fieldName now
    | exist _ false _ with inspect (Js.startsWith (Js.trim goType) "[]") := {
        | exist _ true _ =>
            JArr [sampleValueForGoType (Js.sliceFrom (Js.trim goType) 2) fieldName now]
        | exist _ false _ => sampleLeaf (Js.trim goType) fieldName now } }.
Proof.
  all: assert (Hstart : forall s, String.length (Js.trimStart s) <= String.length s)
    by (intros s; induction s as [|a s IH]; simpl; [lia|destruct (Chars.space a); simpl; lia]).
  all: assert (Hend : forall s, String.length (Js.trimEnd s) <= String.length s)
    by (intros s; induction s as [|a s IH]; simpl; [lia|];
        destruct (Js.trimEnd s); [destruct (Chars.space a)|]; simpl in *; lia).
  all: assert (Hsub : forall n s, String.length (substring n (String.length s - n) s)
                                 = String.length s - n)
    by (intros n; induction n as [|n IH]; intros s;
        [ rewrite Nat.sub_0_r; induction s as [|a s IHs]; simpl; [reflexivity|];
          f_equal; exact IHs
        | destruct s as [|a s]; simpl; [reflexivity|apply IH] ]).
  all: assert (Hlen : forall s, String.length (Js.trim s) <= String.length s)
    by (intros s; unfold Js.trim; etransitivity; [apply Hend|apply Hstart]).
  all: unfold Js.sliceFrom, Js.clampIndex; simpl (_ <? 0)%Z; cbv iota.
  all: rewrite Hsub.
  all: match goal with
       | |- context [Js.trim ?g] =>
           specialize (Hlen g); destruct (Js.trim g) as [|a [|b t]]
       end; simpl in *; try discriminate; lia.
Qed.

Module Uri.

Definition unreserved (a : ascii) : bool :=
  Chars.upper a || Chars.lower a || Chars.digit a
  || bool_decide (a ∈ list_ascii_of_string "-_.!~*'()").

Definition upperHex (n : N) : ascii :=
  ascii_of_N (if (n <? 10)%N then 48 + n else 55 + n).

Definition percent (n : N) : string :=
  String "%" (String (upperHex (n / 16)) (String (upperHex (n mod 16)) "")).

(** A code unit below 128 is one octet of UTF-8, one from 128 on is two. *)
Definition encodeUnit (a : ascii) : string :=
  let n := Chars.code a in
  if unreserved a then String a ""
  else if (n <? 128)%N then percent n
  else percent (192 + n / 64) +:+ percent (128 + n mod 64).

Fixpoint encodeURIComponent (s : string) : string :=
  match s with
  | EmptyString => ""
  | String a s' => encodeUnit a +:+ encodeURIComponent s'
  end.

End Uri.

(** [s.toUpperCase()], where the result stays within the code units of the
    embedding: two code units have their capital outside. *)
Definition upperUnit (a : ascii) : option string :=
  let n := Chars.code a in
  if Chars.lower a || (Chars.between 224 254 a && negb (n =? 247)%N)
  then Some (String (ascii_of_N (n - 32)) "")
  else if (n =? 223)%N then Some "SS"
  else if (n =? 181)%N || (n =? 255)%N then None
  else Some (String a "").

Fixpoint toUpperCase (s : string) : option string :=
  match s with
  | EmptyString => Some ""
  | String a s' =>
      match upperUnit a, toUpperCase s' with
      | Some u, Some t => Some (u +:+ t)
      | _, _ => None
      end
  end.

(** How a call ends: it returns a value, it throws, or it leaves what the
    embedding covers. *)
Inductive completion (A : Type) : Type :=
| Returns (value : A)
| Throws (error : string)
| Beyond.

Arguments Returns {A} value.
Arguments Throws {A} error.
Arguments Beyond {A}.

(** A code unit that is no pattern syntax. *)
Definition plainUnit (a : ascii) : bool :=
  negb (bool_decide (a ∈ Chars.backslash :: list_ascii_of_string "^$.|?*+()[]{}/")).

(** A sequence of terms, as the pattern of a literal text is one. *)
Definition termsOf (terms : list regex) : regex := fold_right Seq Eps terms.

(** What [new RegExp] makes of the name it finds between the colon and the
    lookahead of the template.  The name is read from the left: a code unit
    that is no pattern syntax, and the slash, stand for themselves, the dot
    for any code unit of a line, an opening parenthesis opens a capture
    group, numbered by the order of opening, and a closing one closes the
    group opened last.  A closing parenthesis with no group open is a
    SyntaxError, and so is a group still open where the name ends: the only
    closing parenthesis of the template closes its own lookahead.  [terms]
    are the terms read in the group that is open, last first, and [outer]
    the groups around it, each with its number and the terms before it.
    Other pattern syntax is beyond the embedding. *)
Fixpoint compileName (name : list ascii) (opened : nat) (terms : list regex)
    (outer : list (nat * list regex)) : completion regex :=
  match name with
  | [] =>
      match outer with
      | [] => Returns (termsOf (rev terms))
      | _ :: _ => Throws "SyntaxError"
      end
  | a :: name' =>
      if Ascii.eqb a "(" then compileName name' (S opened) [] ((S opened, terms) :: outer)
      else if Ascii.eqb a ")" then
        match outer with
        | [] => Throws "SyntaxError"
        | (n, before) :: outer' =>
            compileName name' opened (Group n (termsOf (rev terms)) :: before) outer'
        end
      else if Ascii.eqb a "." then compileName name' opened (Chr Chars.dot :: terms) outer
      else if plainUnit a || Ascii.eqb a "/"
      then compileName name' opened (Chr (Chars.one a) :: terms) outer
      else Beyond
  end.

(** [new RegExp(`:${p}(?![A-Za-z0-9_])`, 'g')] *)
Definition pathParamPattern (p : string) : completion regex :=
  match compileName (list_ascii_of_string p) 0 [] [] with
  | Returns name => Returns (Rx.seq [Rx.lit ":"; name; NegLook (Chr Chars.word)])
  | Throws error => Throws error
  | Beyond => Beyond
  end.

(** The loop over the path parameters; the replacement text of a name the
    embedding has a pattern for holds no dollar sign. *)
Fixpoint substitutePathParams (urlPath : string) (ps : list string) : completion string :=
  match ps with
  | [] => Returns urlPath
  | p :: ps' =>
      match pathParamPattern p with
      | Returns re =>
          substitutePathParams (Js.replace re true urlPath ("<" +:+ p +:+ ">")) ps'
      | Throws error => Throws error
      | Beyond => Beyond
      end
  end.

Definition inferredHeader (headers : list (string * string)) (h : string)
    : list (string * string) :=
  if Obj.isDefined h headers then headers
  else if String.eqb (Js.toLowerCase h) "authorization"
  then Obj.define h "Bearer <token>" headers
  else Obj.define h ("<" +:+ normalizePlaceholder h +:+ ">") headers.

(** [headers[k] = headers[k] || d] *)
Definition defaultTo (k d : string) (headers : list (string * string))
    : list (string * string) :=
  Obj.define k (orElse (Obj.getOwn k headers) d) headers.

(** A value has an own property [__proto__]: an object that was given the
    key can have one, an array has its indices and its length. *)
Definition hasOwnProto (v : jsval) : bool :=
  match v with
  | JObj props =>
      match Obj.getOwn "__proto__" props with
      | Some _ => true
      | None => false
      end
  | _ => false
  end.

(** [obj[k] = v] on an object literal that is being filled: its own
    properties and, once it was given one, its prototype.  Every key but
    [__proto__] becomes an own property.  [__proto__] becomes one when the
    object has it already, or when its prototype has it as an own property;
    otherwise the assignment reaches the setter of [Object.prototype], which
    makes an object or array the prototype and ignores any other value. *)
Definition assign (k : string) (v : jsval)
    (st : list (string * jsval) * option jsval) : list (string * jsval) * option jsval :=
  let '(obj, proto) := st in
  if String.eqb k "__proto__" then
    match Obj.getOwn k obj with
    | Some _ => (Obj.define k v obj, proto)
    | None =>
        if match proto with Some p => hasOwnProto p | None => false end
        then (Obj.define k v obj, proto)
        else match v with
             | JObj _ | JArr _ => (obj, Some v)
             | _ => (obj, proto)
             end
    end
  else (Obj.define k v obj, proto).

(** The loop that fills the sample object; [clock i] is the instant the
    clock shows while the field at position [i] is sampled. *)
Fixpoint fillSample (clock : nat -> string) (i : nat) (fields : list Field)
    (st : list (string * jsval) * option jsval) : list (string * jsval) * option jsval :=
  match fields with
  | [] => st
  | f :: fields' =>
      let v := sampleValueForGoType (goType f) (fname f) (clock i) in
      fillSample clock (S i) fields' (assign (fname f) v st)
  end.

(** The own properties of the object after the loop, which is what
    [JSON.stringify] prints. *)
Definition sampleObject (clock : nat -> string) (i : nat) (fields : list Field)
    (obj : list (string * jsval)) : list (string * jsval) :=
  fst (fillSample clock i fields (obj, None)).

(** The separator of the parts: a space, a backslash, a line feed, a tab. *)
Definition continuation : string :=
  String " " (String Chars.backslash (String "010" (String "009" ""))).

Definition carriesBody (method : string) : bool :=
  includes ["POST"; "PUT"; "PATCH"; "DELETE"] method.

(** The body section: the headers after it, the data flag and the body. *)
Definition bodyOf (clock : nat -> string) (handler : HandlerFunction) (method : string)
    (headers : list (string * string)) : list (string * string) * string * string :=
  let p := params handler in
  if carriesBody method then
    match bodyType p with
    | json =>
        let headers := defaultTo "Content-Type" "application/json" headers in
        let bodyPart :=
          match jsonFields p with
          | Some (f :: fs) =>
              shellQuote (Json.stringify (JObj (sampleObject clock 0 (f :: fs) [])))
          | _ => "'{}'"
          end in
        (headers, "-d", bodyPart)
    | form =>
        let headers := defaultTo "Content-Type" "application/x-www-form-urlencoded" headers in
        let bodyPart :=
          match queryParams p with
          | q0 :: _ => "'" +:+ q0 +:+ "=<" +:+ normalizePlaceholder q0 +:+ ">'"
          | [] => "''"
          end in
        (headers, "--data-urlencode", bodyPart)
    | multipart =>
        let headers := defaultTo "Content-Type" "multipart/form-data" headers in
        (headers, "-F", "'file=@<path_to_file>'")
    | _ => (headers, "", "")
    end
  else (headers, "", "").

(** [generateCurl].  It throws where [new RegExp] does.  It is beyond the
    embedding for a method whose capitals leave the code units 0..255, and
    for a path parameter whose pattern is. *)
Definition generateCurl (clock : nat -> string) (handler : HandlerFunction)
    (route : option RouteRegistration) (opts : CurlGenerationOptions) : completion string :=
  match toUpperCase (orElse (option_map method route) "GET") with
  | None => Beyond
  | Some method =>
  let path := orElse (option_map path route) ("/" +:+ name handler) in
  match substitutePathParams path (pathParams (params handler)) with
  | Throws error => Throws error
  | Beyond => Beyond
  | Returns urlPath =>
  let queryPairs :=
    map (fun q => Uri.encodeURIComponent q +:+ "=<" +:+ q +:+ ">")
        (queryParams (params handler)) in
  let queryString :=
    match queryPairs with
    | [] => ""
    | _ => "?" +:+ Js.join "&" queryPairs
    end in
  let inferred := headers (params handler) in
  let headers := Obj.spread (defaultHeaders opts) in
  let headers := foldl inferredHeader headers inferred in
  let headers :=
    match cookies (params handler) with
    | [] => headers
    | cs =>
        let cookieString :=
          Js.join "; " (map (fun n => n +:+ "=<" +:+ normalizePlaceholder n +:+ ">") cs) in
        Obj.define "Cookie" cookieString headers
    end in
  let '(headers, dataFlag, bodyPart) := bodyOf clock handler method headers in
  let headerFlags :=
    Js.join continuation
      (map (fun kv => "-H " +:+ shellQuote (fst kv +:+ ": " +:+ snd kv)) headers) in
  let baseUrl := Js.replace (Rx.seq [Rx.lit "/"; Eol]) false (baseUrl opts) "" in
  let url := baseUrl +:+ urlPath +:+ queryString in
  let parts :=
    ["curl"; "-X " +:+ method]
    ++ (if String.eqb headerFlags "" then [] else [headerFlags])
    ++ (if String.eqb dataFlag "" || String.eqb bodyPart "" then []
        else [dataFlag +:+ " " +:+ bodyPart])
    ++ [shellQuote url] in
  Returns (Js.join continuation parts)
  end end.

(** ** Vocabulary of the statements *)

(** The least number of code units a match of a pattern consumes. *)
Fixpoint minLen (r : regex) : nat :=
  match r with
  | Chr _ => 1
  | Seq r1 r2 => minLen r1 + minLen r2
  | Alt r1 r2 => Nat.min (minLen r1) (minLen r2)
  | Group _ r1 => minLen r1
  | Eps | Star _ _ | WordB | Bol | Eol | NegLook _ => 0
  end.

(** Where a match ends: the continuation of a successful run is entered at
    a cursor at least [minLen] further, and offset and rest still add up to
    the length of the text. *)
Definition reaches (r : regex) (c c' : cursor) : Prop :=
  pos c + minLen r <= pos c'
  /\ pos c' + List.length (rest c') = pos c + List.length (rest c).

(** Matches that follow one another in a text: each is non-empty and ends
    before the next one starts. *)
Definition inTextOrder (ms : list rmatch) : Prop :=
  StronglySorted (fun m1 m2 => index m1 < lastIndex m1 <= index m2) ms.

(** The cursor at offset [i] of a text. *)
Definition cursorAt (text : string) (i : nat) : cursor :=
  let units := list_ascii_of_string text in
  Cursor i (match i with O => None | S j => nth_error units j end) (skipn i units).

(** A pattern occurs in a text when it matches at one of its offsets. *)
Definition occurs (r : regex) (text : string) : Prop :=
  exists i, i <= String.length text /\ matchAt r (cursorAt text i) <> None.

(** [names] lists the distinct values of [extracted] once each, in the order
    of their first occurrences: when [x] comes before [y] in [names], the
    first [x] of [extracted] has no [y] before it. *)
Definition firstOccurrences (extracted names : list string) : Prop :=
  NoDup names
  /\ (forall x, x ∈ names <-> x ∈ extracted)
  /\ (forall n1 x n2 y n3, names = n1 ++ x :: n2 ++ y :: n3 ->
        exists e1 e2, extracted = e1 ++ x :: e2 /\ (x ∉ e1) /\ (y ∉ e1)).

(** The number of occurrences of a code unit in a text. *)
Definition count (a : ascii) (s : string) : nat :=
  count_occ ascii_dec (list_ascii_of_string s) a.

(** Opening braces minus closing braces. *)
Definition balance (l : list ascii) : Z :=
  (Z.of_nat (count_occ ascii_dec l "{"%char) - Z.of_nat (count_occ ascii_dec l "}"%char))%Z.

(** The lines of the struct body [extractStructFieldsFromText] reads. *)
Definition structLines (text typeName : string) : list string :=
  match exec (Pat.defRe typeName) text with
  | Some m => Js.split "010" (grp' 1 m)
  | None => []
  end.

(** The identifier a field line declares. *)
Definition declaredName (line : string) : option string :=
  option_map (grp' 1) (exec Pat.fieldLine line).

(** The name part of the json tag of a field line: the text before the
    first comma. *)
Definition tagName (line : string) : option string :=
  match exec Pat.fieldLine line with
  | Some fr =>
      match exec Pat.jsonTag (orElse (grp 3 fr) "") with
      | Some jm => Some (hd "" (Js.split "," (grp' 1 jm)))
      | None => None
      end
  | None => None
  end.

(** Field resolution as the specification words it: a line whose tag name
    is the marker contributes nothing. *)
Definition fieldsOmittingSuppressed (text typeName : string) : list Field :=
  uniqueFields []
    (omap fieldOfLine
       (filter (fun line => tagName line <> Some "-") (structLines text typeName))).

(** The test for the TLS variant: the window of ten code units to each side
    of the start of a [Run] call site. *)
Definition tlsInWindow (text : string) (m : rmatch) : bool :=
  test Pat.runTLS (Js.slice text (Z.of_nat (index m) - 10) (Z.of_nat (index m) + 10)).




(** A text without the slash it may end with, and a text with the slash it
    must start with: the two halves of [joinPaths]. *)
Fixpoint dropTrailingSlash (s : string) : string :=
  match s with
  | EmptyString => EmptyString
  | String c EmptyString => if Ascii.eqb c "/" then EmptyString else s
  | String c s' => String c (dropTrailingSlash s')
  end.

Definition withLeadingSlash (s : string) : string :=
  if Js.startsWith s "/" then s else "/" +:+ s.

(** The segments one after the other, each with its leading slash, and each
    but the last without the slash it may end with. *)
Fixpoint joined (segments : list string) : string :=
  match segments with
  | [] => ""
  | [s] => withLeadingSlash s
  | s :: rest => dropTrailingSlash (withLeadingSlash s) +:+ joined rest
  end.

(** A text holds two slashes in a row. *)
Fixpoint hasDoubleSlash (s : string) : bool :=
  match s with
  | EmptyString => false
  | String c s' =>
      match s' with
      | String c' _ => (Ascii.eqb c "/" && Ascii.eqb c' "/") || hasDoubleSlash s'
      | EmptyString => false
      end
  end.

(** What one [.Group] call site says: the variable assigned, the variable
    the group is made from, the literal. *)
Definition callSite (m : rmatch) : string * string * string :=
  (grp' 1 m, grp' 2 m, grp' 3 m).

(** The call sites of a chain of nested groups: each variable is made from
    the one before it, the first from [base]. *)
Fixpoint links (base : string) (chain : list (string * string))
    : list (string * string * string) :=
  match chain with
  | [] => []
  | (child, rel) :: chain' => (child, base, rel) :: links child chain'
  end.

(** Every variable of a chain is mapped to the join of the prefix before it
    and its literal. *)
Fixpoint resolved (basePrefix : string) (chain : list (string * string))
    (map : gmap string string) : Prop :=
  match chain with
  | [] => True
  | (child, rel) :: chain' =>
      map !! child = Some (joinPaths basePrefix rel)
      /\ resolved (joinPaths basePrefix rel) chain' map
  end.

(** A call site is settled in a map that holds, for its variable, the join
    the call site asks for. *)
Definition settled (pm : gmap string string) (site : string * string * string) : Prop :=
  match site with
  | (child, base, rel) => pm !! child = Some (joinPaths (default "" (pm !! base)) rel)
  end.

(** What the chain's last prefix and a path registered on it are: the
    segments joined, with a leading slash, and free of double slashes when
    the literals are. *)
Definition joinedOnce (prefix : string) (segments : list string) (relPath : string) : Prop :=
  prefix = joined segments
  /\ joinPaths prefix relPath = joined (segments ++ [relPath])
  /\ Js.startsWith prefix "/" = true
  /\ Js.startsWith (joinPaths prefix relPath) "/" = true
  /\ (Forall (fun s => hasDoubleSlash s = false) (segments ++ [relPath]) ->
      hasDoubleSlash prefix = false
      /\ hasDoubleSlash (joinPaths prefix relPath) = false).

(** A text ends with a slash. *)
Fixpoint endsSlash (s : string) : bool :=
  match s with
  | EmptyString => false
  | String c EmptyString => Ascii.eqb c "/"
  | String _ s' => endsSlash s'
  end.

(** ** Texts the statements are tried on *)

Module Sample.

Definition lf : string := String "010" "".
Definition tab : string := String "009" "".

(** A text between double quotes. *)
Definition q (s : string) : string := String Chars.quote (s +:+ String Chars.quote "").

Definition lines (l : list string) : string := Js.join lf l.

Definition secretLine : string := tab +:+ "Secret string `json:" +:+ q "-" +:+ "`".

Definition server : string := lines [
  "package main";
  "";
  "import (";
  tab +:+ q "net/http";
  tab +:+ q "github.com/gin-gonic/gin";
  ")";
  "";
  "type Signup struct {";
  tab +:+ "Email string `json:" +:+ q "email,omitempty" +:+ "`";
  tab +:+ "Age   int";
  secretLine;
  "}";
  "";
  "func CreateUser(c *gin.Context) {";
  tab +:+ "var req Signup";
  tab +:+ "id := c.Param(" +:+ q "id" +:+ ")";
  tab +:+ "f := c.Query(" +:+ q "filter" +:+ ")";
  tab +:+ "t := c.GetHeader(" +:+ q "Authorization" +:+ ")";
  tab +:+ "if err := c.ShouldBindJSON(&req); err != nil { return }";
  tab +:+ "c.FormFile(" +:+ q "avatar" +:+ ")";
  tab +:+ "c.Param(" +:+ q "id" +:+ ")";
  "}";
  "";
  "func main() {";
  tab +:+ "r := gin.Default()";
  tab +:+ "api := r.Group(" +:+ q "/api" +:+ ")";
  tab +:+ "v1 := api.Group(" +:+ q "/v1/" +:+ ")";
  tab +:+ "v1.POST(" +:+ q "/users/:id" +:+ ", CreateUser)";
  tab +:+ "v1.GET(" +:+ q "/health" +:+ ", Health)";
  tab +:+ "r.Run(" +:+ q ":9090" +:+ ")";
  "}"
].

Definition serverDoc : TextDocument := mkDoc "main.go" server.

End Sample.

Module Bodies.

Import Sample.

Definition jsonAndMultipart : string :=
  lines [
    "{";
    tab +:+ "if err := c.ShouldBindJSON(&req); err != nil { return }";
    tab +:+ "c.FormFile(" +:+ q "avatar" +:+ ")";
    "}"
  ].

Definition multipartAndForm : string :=
  lines [
    "{";
    tab +:+ "name := c.PostForm(" +:+ q "name" +:+ ")";
    tab +:+ "f, _ := c.FormFile(" +:+ q "avatar" +:+ ")";
    "}"
  ].

Definition formOnly : string :=
  lines [
    "{";
    tab +:+ "name := c.PostForm(" +:+ q "name" +:+ ")";
    tab +:+ "c.ShouldBind(&req)";
    "}"
  ].

Definition genericOnly : string :=
  lines [
    "{";
    tab +:+ "c.ShouldBind(&req)";
    tab +:+ "c.BindQuery(&filter)";
    "}"
  ].

Definition accessors : string :=
  lines [
    "{";
    tab +:+ "c.Query(" +:+ q "b" +:+ ")";
    tab +:+ "c.Param(" +:+ q "id" +:+ ")";
    tab +:+ "c.Request.Header.Get(" +:+ q "X-B" +:+ ")";
    tab +:+ "c.DefaultQuery(" +:+ q "a" +:+ ", " +:+ q "1" +:+ ")";
    tab +:+ "c.GetHeader(" +:+ q "X-A" +:+ ")";
    tab +:+ "c.Query(" +:+ q "b" +:+ ")";
    tab +:+ "c.Request.Header.Get(" +:+ q "X-A" +:+ ")";
    tab +:+ "c.Cookie(" +:+ q "sid" +:+ ")";
    tab +:+ "c.GetHeader(" +:+ q "X-C" +:+ ")";
    "}"
  ].

End Bodies.

Module Braces.

Definition closed : string := "func f() { if x { y() } } // {".
Definition open : string := "func f() { if x { y() }".

End Braces.

Module Groups.

Import Sample.

Definition nested : string :=
  lines [
    "r := gin.Default()";
    "api := r.Group(" +:+ q "api/" +:+ ")";
    "v1 := api.Group(" +:+ q "/v1/" +:+ ")";
    "users := v1.Group(" +:+ q "users" +:+ ")";
    "users.GET(" +:+ q "/:id" +:+ ", GetUser)"
  ].

Definition doubled : string :=
  lines [
    "r := gin.Default()";
    "api := r.Group(" +:+ q "/api//" +:+ ")";
    "v1 := api.Group(" +:+ q "/v1" +:+ ")";
    "v1.GET(" +:+ q "/users" +:+ ", ListUsers)"
  ].

Definition cyclic : string :=
  lines [
    "a := b.Group(" +:+ q "/x" +:+ ")";
    "b := a.Group(" +:+ q "/y" +:+ ")"
  ].

Definition redeclared : string :=
  lines [
    "func admin(r *gin.Engine) {";
    tab +:+ "g := r.Group(" +:+ q "/admin" +:+ ")";
    tab +:+ "g.GET(" +:+ q "/stats" +:+ ", Stats)";
    "}";
    "";
    "func public(r *gin.Engine) {";
    tab +:+ "g := r.Group(" +:+ q "/public" +:+ ")";
    tab +:+ "g.GET(" +:+ q "/ping" +:+ ", Ping)";
    "}"
  ].

(** The prefix of [a] after [k] further passes over the cyclic text. *)
Fixpoint turns (k : nat) : string :=
  match k with
  | O => ""
  | S k' => turns k' +:+ "/x/y"
  end.

End Groups.

Module Servers.

Import Sample.

Definition certificate : string := ", " +:+ q "cert.pem" +:+ ", " +:+ q "key.pem".

(** A [RunTLS] call with three code units of white space before its
    parenthesis. *)
Definition spacedTLS : string :=
  lines [
    "package main";
    "";
    "func main() {";
    tab +:+ "r := gin.Default()";
    tab +:+ "r.RunTLS   (" +:+ q ":8443" +:+ certificate +:+ ")";
    "}"
  ].

(** The same call with two code units of white space, which the window
    still holds. *)
Definition twiceSpacedTLS : string :=
  lines [
    "package main";
    "";
    "func main() {";
    tab +:+ "r := gin.Default()";
    tab +:+ "r.RunTLS  (" +:+ q ":8443" +:+ certificate +:+ ")";
    "}"
  ].

Definition tls : string :=
  lines [
    "package main";
    "";
    "func main() {";
    tab +:+ "r := gin.Default()";
    tab +:+ "r.RunTLS(" +:+ q ":8443" +:+ certificate +:+ ")";
    "}"
  ].


Definition noArgs : string :=
  lines [
    "package main";
    "";
    "func main() {";
    tab +:+ "r := gin.Default()";
    tab +:+ "r.Run()";
    "}"
  ].

Definition library : string :=
  lines [
    "package lib";
    "";
    "func Add(a, b int) int { return a + b }"
  ].

End Servers.

Module Orphan.

Import Sample.

(** A handler bound to a type the text does not declare. *)
Definition text : string :=
  lines [
    "package main";
    "";
    "func Create(c *gin.Context) {";
    tab +:+ "if err := c.BindJSON(&Missing{}); err != nil { return }";
    "}";
    "";
    "func main() {";
    tab +:+ "r := gin.Default()";
    tab +:+ "r.POST(" +:+ q "/things" +:+ ", Create)";
    "}"
  ].

Definition handler : HandlerFunction :=
  {| name := "Create";
     filePath := "orphan.go";
     nameRange := (14, 20);
     contextParamName := Some "c";
     ginAlias := "gin";
     params :=
       {| pathParams := []; queryParams := []; headers := []; cookies := [];
          bodyType := json; jsonStructName := Some "Missing"; jsonFields := Some [] |} |}.

Definition route : RouteRegistration :=
  mkRoute "POST" "/things" "Create" "orphan.go" (139, 163).

Definition options : CurlGenerationOptions :=
  mkOptions "http://localhost:8080/" [("Accept", "application/json")] false.

Definition clock (_ : nat) : string := "2024-01-01T00:00:00.000Z".

End Orphan.

Module Unescaped.

Import Sample.

(** The handler of [Orphan] with a path parameter named by an opening
    parenthesis. *)
Definition text : string :=
  lines [
    "package main";
    "";
    "func Create(c *gin.Context) {";
    tab +:+ "id := c.Param(" +:+ q "(" +:+ ")";
    tab +:+ "if err := c.BindJSON(&Missing{}); err != nil { return }";
    tab +:+ "_ = id";
    "}";
    "";
    "func main() {";
    tab +:+ "r := gin.Default()";
    tab +:+ "r.POST(" +:+ q "/things" +:+ ", Create)";
    "}"
  ].

Definition handler : HandlerFunction :=
  {| name := "Create";
     filePath := "unescaped.go";
     nameRange := (14, 20);
     contextParamName := Some "c";
     ginAlias := "gin";
     params :=
       {| pathParams := ["("]; queryParams := []; headers := []; cookies := [];
          bodyType := json; jsonStructName := Some "Missing"; jsonFields := Some [] |} |}.

Definition route : RouteRegistration :=
  mkRoute "POST" "/things" "Create" "unescaped.go" (167, 191).

End Unescaped.


(** ** The rest of goScanner.ts *)

(** [findRoutesInText]: the loops are those of [findRoutesInTextByNames],
    over the names of the handlers it is given. *)
Definition findRoutesInText (fuel : nat) (doc : TextDocument) (handlers : list HandlerFunction)
    : option (list RouteRegistration) :=
  let text := getText doc in
  let handlerNames : gset string := list_to_set (map name handlers) in
  let ginAlias := detectGinAliasFromImports text in
  match buildGroupPrefixMap fuel text ginAlias with
  | Some groupPrefixes => Some (routesWithPrefixes doc handlerNames groupPrefixes)
  | None => None
  end.

Definition scanDocument (fuel : nat) (doc : TextDocument)
    : option (list HandlerFunction * list RouteRegistration) :=
  let ginAlias := detectGinAliasFromImports (getText doc) in
  let handlers := findHandlersInText doc ginAlias in
  match findRoutesInText fuel doc handlers with
  | Some routes => Some (handlers, routes)
  | None => None
  end.

Module OpenPat.

(** The three route patterns as [scanRoutesAcrossWorkspace] writes them for
    its unfiltered branch: the handler reference ends the pattern. *)
Definition handlerArg (n : nat) : regex :=
  Rx.seq [Rx.ws; Rx.lit ","; Rx.ws; Group n Rx.qualified].

Definition routeRegex : regex :=
  Rx.seq [WordB; Group 1 Rx.ident; Rx.lit ".";
          Group 2 (Rx.alt (map Rx.lit
                             ["GET"; "POST"; "PUT"; "DELETE"; "PATCH"; "OPTIONS"; "HEAD"]));
          Rx.ws; Rx.lit "("; Pat.pathArg 3; handlerArg 4].
Definition handleRegex : regex :=
  Rx.seq [WordB; Group 1 Rx.ident; Rx.lit ".Handle"; Rx.ws; Rx.lit "("; Rx.ws; Pat.q;
          Group 2 (Rx.plus (Chr Chars.upper)); Pat.q; Rx.ws; Rx.lit ","; Pat.pathArg 3;
          handlerArg 4].
Definition anyRegex : regex :=
  Rx.seq [WordB; Group 1 Rx.ident; Rx.lit ".Any"; Rx.ws; Rx.lit "("; Pat.pathArg 2;
          handlerArg 3].

End OpenPat.

Section AllRoutes.

Variable doc : TextDocument.
Variable groupPrefixes : gmap string string.

(** The loop bodies of the unfiltered branch. *)
Definition anyHandlerMethodCall (m : rmatch) : list RouteRegistration :=
  let recv := grp' 1 m in
  let method := grp' 2 m in
  let relPath := grp' 3 m in
  let handlerExpr := grp' 4 m in
  let handlerName := lastSegment handlerExpr in
  let prefix := prefixOf groupPrefixes recv in
  let path := joinPaths prefix relPath in
  [mkRoute method path handlerName (fsPath doc) (index m, lastIndex m)].

Definition anyHandlerHandleCall (m : rmatch) : list RouteRegistration :=
  if negb (includes HTTP_METHODS (grp' 2 m)) then []
  else
    let recv := grp' 1 m in
    let method := grp' 2 m in
    let relPath := grp' 3 m in
    let handlerExpr := grp' 4 m in
    let handlerName := lastSegment handlerExpr in
    let prefix := prefixOf groupPrefixes recv in
    let path := joinPaths prefix relPath in
    [mkRoute method path handlerName (fsPath doc) (index m, lastIndex m)].

Definition anyHandlerAnyCall (m : rmatch) : list RouteRegistration :=
  let recv := grp' 1 m in
  let relPath := grp' 2 m in
  let handlerExpr := grp' 3 m in
  let handlerName := lastSegment handlerExpr in
  let prefix := prefixOf groupPrefixes recv in
  let path := joinPaths prefix relPath in
  [mkRoute METHOD_ANY path handlerName (fsPath doc) (index m, lastIndex m)].

Definition allRoutesWithPrefixes : list RouteRegistration :=
  let text := getText doc in
  flat_map anyHandlerMethodCall (execAll OpenPat.routeRegex text)
  ++ flat_map anyHandlerHandleCall (execAll OpenPat.handleRegex text)
  ++ flat_map anyHandlerAnyCall (execAll OpenPat.anyRegex text).

End AllRoutes.

(** [scanRoutesAcrossWorkspace] over the documents the workspace search
    returns; [handlerNames] is [None] for the argument left out.  An array,
    empty or not, takes the filtered branch. *)
Fixpoint scanRoutesAcrossWorkspace (fuel : nat) (docs : list TextDocument)
    (handlerNames : option (list string)) : option (list RouteRegistration) :=
  match docs with
  | [] => Some []
  | doc :: docs' =>
      let text := getText doc in
      let ginAlias := detectGinAliasFromImports text in
      match buildGroupPrefixMap fuel text ginAlias with
      | None => None
      | Some groupPrefixes =>
          let here :=
            match handlerNames with
            | None => Some (allRoutesWithPrefixes doc groupPrefixes)
            | Some names => findRoutesInTextByNames fuel doc (list_to_set names)
            end in
          match here, scanRoutesAcrossWorkspace fuel docs' handlerNames with
          | Some routes, Some routes' => Some (routes ++ routes')
          | _, _ => None
          end
      end
  end.

(** A handler with its routes: the object [{ ...h, routes }]. *)
Record LinkedHandler : Type := mkLinked {
  linked : HandlerFunction;
  routes : list RouteRegistration
}.

(** One iteration of the loop that groups the routes by handler name; the
    array of a name is created at its first route. *)
Definition linkStep (map : gmap string (list RouteRegistration)) (r : RouteRegistration)
    : gmap string (list RouteRegistration) :=
  let arr := default [] (map !! handlerName r) in
  <[handlerName r := arr ++ [r]]> map.

Definition linkHandlersToRoutes (handlers : list HandlerFunction)
    (routes : list RouteRegistration) : list LinkedHandler :=
  let map := foldl linkStep ∅ routes in
  List.map (fun h => mkLinked h (default [] (map !! name h))) handlers.

(** ** ui.ts *)

(** [text.includes(sub)] *)
Fixpoint textIncludes (text sub : string) : bool :=
  if Js.startsWith text sub then true
  else match text with
       | EmptyString => false
       | String _ text' => textIncludes text' sub
       end.

(** A vscode.CodeLens is kept as the offset its range starts and ends at,
    the title and the command, and the two arguments of the command. *)
Record CodeLens : Type := mkLens {
  lensOffset : nat;
  title : string;
  command : string;
  lensFile : string;
  functionName : string
}.

(** The two lenses of a handler. *)
Definition lensesOf (doc : TextDocument) (handler : HandlerFunction) : list CodeLens :=
  let rangeStart := fst (nameRange handler) in
  [mkLens rangeStart "gURL: Generate cURL" "gurl.generateForSymbolAt" (fsPath doc)
          (name handler);
   mkLens rangeStart "copy" "gurl.copyForSymbolAt" (fsPath doc) (name handler)].

Definition provideCodeLenses (fuel : nat) (doc : TextDocument) : option (list CodeLens) :=
  let text := getText doc in
  if negb (textIncludes text "github.com/gin-gonic/gin") then Some []
  else
    match scanDocument fuel doc with
    | Some (handlers, _) => Some (flat_map (lensesOf doc) handlers)
    | None => None
    end.

(** The local [escaped] of [getCurlHtml], the text the page shows in its
    code element: the ampersands are replaced first, then the opening angle
    brackets.  The script of the page gets the command through
    JSON.stringify; that copy is not embedded. *)
Definition escaped (curl : string) : string :=
  Js.replace (Rx.lit "<") true (Js.replace (Rx.lit "&") true curl "&amp;") "&lt;".

(** ** extension.ts *)

(** [linked.find(h => h.name === functionName)] *)
Definition findByName (symbol : string) (l : list LinkedHandler) : option LinkedHandler :=
  List.find (fun h => String.eqb (name (linked h)) symbol) l.

(** What the two commands on a symbol work on: the handlers of the
    document, linked to the routes of the workspace that name them, and of
    those the first one of the name asked for.  The outer [None] is a scan
    that does not end. *)
Definition handlerForSymbol (fuel : nat) (doc : TextDocument) (goFiles : list TextDocument)
    (functionName : string) : option (option LinkedHandler) :=
  match scanDocument fuel doc with
  | None => None
  | Some (handlers, _) =>
      match scanRoutesAcrossWorkspace fuel goFiles (Some (List.map name handlers)) with
      | None => None
      | Some routes => Some (findByName functionName (linkHandlersToRoutes handlers routes))
      end
  end.

(** ** What a match is

    The matcher is a search; what it finds is described without the search:
    which cursor and captures a pattern leads to from which. *)

Inductive matches : regex -> cursor -> captures -> cursor -> captures -> Prop :=
| matches_eps c g : matches Eps c g c g
| matches_chr p c g a t :
    rest c = a :: t -> p a = true -> matches (Chr p) c g (advance c) g
| matches_seq r1 r2 c g c1 g1 c2 g2 :
    matches r1 c g c1 g1 -> matches r2 c1 g1 c2 g2 -> matches (Seq r1 r2) c g c2 g2
| matches_left r1 r2 c g c' g' :
    matches r1 c g c' g' -> matches (Alt r1 r2) c g c' g'
| matches_right r1 r2 c g c' g' :
    matches r2 c g c' g' -> matches (Alt r1 r2) c g c' g'
| matches_stop greedy r c g : matches (Star greedy r) c g c g
| matches_again greedy r c g c1 g1 c2 g2 :
    matches r c g c1 g1 -> pos c < pos c1 -> matches (Star greedy r) c1 g1 c2 g2 ->
    matches (Star greedy r) c g c2 g2
| matches_group n r c g c' g' :
    matches r c g c' g' ->
    matches (Group n r) c g c' (setCapture (Nat.pred n) (consumed c c') g')
| matches_wordB c g :
    xorb (isWordAt (prev c)) (isWordAt (head (rest c))) = true -> matches WordB c g c g
| matches_bol c g : pos c = 0 -> matches Bol c g c g
| matches_eol c g : rest c = [] -> matches Eol c g c g
| matches_negLook r c g :
    run r c g (fun c' g' => Some (c', g')) = None -> matches (NegLook r) c g c g.

(** The result [m] of an [exec] on a text is a match of the pattern, from
    the cursor at m.index to the cursor at the end of the match. *)
Definition matched (text : string) (r : regex) (m : rmatch) : Prop :=
  matches r (cursorAt text (index m)) [] (cursorAt text (lastIndex m)) (groups m)
  /\ index m <= lastIndex m <= String.length text.

(** The code units a match of a pattern can consume; the conditions a
    pattern puts on what is around the match are left out. *)
Fixpoint accepts (r : regex) (w : list ascii) : Prop :=
  match r with
  | Eps | WordB | Bol | Eol | NegLook _ => w = []
  | Chr p => exists a, w = [a] /\ p a = true
  | Seq r1 r2 => exists w1 w2, w = w1 ++ w2 /\ accepts r1 w1 /\ accepts r2 w2
  | Alt r1 r2 => accepts r1 w \/ accepts r2 w
  | Star _ r1 => exists ws, w = concat ws /\ Forall (accepts r1) ws
  | Group _ r1 => accepts r1 w
  end.

(** The texts group [n] of a pattern can capture. *)
Fixpoint groupAccepts (r : regex) (n : nat) (v : string) : Prop :=
  match r with
  | Group m r1 =>
      (S (Nat.pred m) = n /\ accepts r1 (list_ascii_of_string v)) \/ groupAccepts r1 n v
  | Seq r1 r2 | Alt r1 r2 => groupAccepts r1 n v \/ groupAccepts r2 n v
  | Star _ r1 => groupAccepts r1 n v
  | _ => False
  end.

(** Group [n] takes part in every match of the pattern. *)
Fixpoint sets (r : regex) (n : nat) : bool :=
  match r with
  | Group m r1 => (S (Nat.pred m) =? n)%nat || sets r1 n
  | Seq r1 r2 => sets r1 n || sets r2 n
  | Alt r1 r2 => sets r1 n && sets r2 n
  | _ => false
  end.

(** An identifier: one of [A-Za-z_], then any number of [A-Za-z0-9_]. *)
Definition isIdentifier (s : string) : bool :=
  match s with
  | EmptyString => false
  | String a t => Chars.identStart a && forallb Chars.word (list_ascii_of_string t)
  end.

(** A context variable, where a handler has one, is an identifier. *)
Definition identifierIfSet (ctxVar : option string) : bool :=
  match ctxVar with
  | Some c => isIdentifier c
  | None => true
  end.

(** A prefix is rooted: it is empty or starts with a slash. *)
Definition rooted (s : string) : bool := String.eqb s "" || Js.startsWith s "/".

(** The variable a call site assigns. *)
Definition childOf (site : string * string * string) : string := fst (fst site).

(** Call sites in declaration order: each assigns a variable other than
    the one it makes the group from, and no later call site assigns either
    of the two again. *)
Fixpoint declaredInOrder (sites : list (string * string * string)) : bool :=
  match sites with
  | [] => true
  | (child, base, _) :: later =>
      negb (String.eqb child base)
      && forallb (fun site => negb (String.eqb (childOf site) child)
                              && negb (String.eqb (childOf site) base)) later
      && declaredInOrder later
  end.

(** Every prefix of a map is rooted. *)
Definition allRooted (pm : gmap string string) : Prop :=
  forall x v, pm !! x = Some v -> rooted v = true.

(** A name an accessor call can yield: not empty, and without a double
    quote. *)
Definition extractedName (x : string) : Prop :=
  x <> "" /\ Chars.quote ∉ list_ascii_of_string x.

(** ** Replacing the matches of a pattern

    For a pattern whose match at a cursor is told by the code units ahead
    alone, [stretch] gives the length of the match that starts a list of
    code units, if there is one; [substituted] is the list with every such
    stretch, from the left, replaced. *)

Definition stretchOf (r : regex) (stretch : list ascii -> option nat) : Prop :=
  forall i pv rs,
    match stretch rs with
    | Some n =>
        0 < n <= List.length rs
        /\ exists m c', matchAt r (Cursor i pv rs) = Some (m, c')
             /\ index m = i /\ lastIndex m = i + n
             /\ pos c' = i + n /\ rest c' = drop n rs
    | None => matchAt r (Cursor i pv rs) = None
    end.

Fixpoint substituted (stretch : list ascii -> option nat) (by_ : list ascii)
    (fuel : nat) (l : list ascii) : list ascii :=
  match fuel with
  | O => l
  | S fuel' =>
      match l with
      | [] => []
      | a :: t =>
          match stretch l with
          | Some n => by_ ++ substituted stretch by_ fuel' (drop n l)
          | None => a :: substituted stretch by_ fuel' t
          end
      end
  end.

(** The number of leading code units of a class. *)
Fixpoint lengthWhile (p : ascii -> bool) (l : list ascii) : nat :=
  match l with
  | a :: t => if p a then S (lengthWhile p t) else 0
  | [] => 0
  end.

(** The stretches of a class: one code unit of it and all that follow. *)
Definition runOf (p : ascii -> bool) (l : list ascii) : option nat :=
  match l with
  | a :: t => if p a then Some (S (lengthWhile p t)) else None
  | [] => None
  end.

(** The stretches of one code unit. *)
Definition unitOf (x : ascii) (l : list ascii) : option nat :=
  match l with
  | a :: _ => if Ascii.eqb a x then Some 1 else None
  | [] => None
  end.

(** What [shellQuote] makes of a code unit. *)
Definition tripleQuote (a : ascii) : list ascii :=
  if Ascii.eqb a "'" then ["'"; "'"; "'"]%char else [a].

(** A list of code units starts with another. *)
Fixpoint startsUnits (l p : list ascii) {struct p} : bool :=
  match p, l with
  | [], _ => true
  | x :: p', a :: l' => Ascii.eqb a x && startsUnits l' p'
  | _ :: _, [] => false
  end.

(** The first code unit is one of a word. *)
Definition wordAhead (l : list ascii) : bool :=
  match l with
  | a :: _ => Chars.word a
  | [] => false
  end.

(** The stretches of a path parameter: a colon and the name, not followed
    by a code unit of a word. *)
Definition paramOf (p : string) (l : list ascii) : option nat :=
  let pattern := ":"%char :: list_ascii_of_string p in
  if startsUnits l pattern && negb (wordAhead (drop (List.length pattern) l))
  then Some (List.length pattern) else None.

(** A code unit that is not one of a word. *)
Definition nonWord (a : ascii) : bool := negb (Chars.word a).

(** A pattern anchored at the end of the text, and one anchored at its
    start. *)
Fixpoint anchoredEnd (r : regex) : bool :=
  match r with
  | Eol => true
  | Seq _ r2 => anchoredEnd r2
  | _ => false
  end.

Definition anchoredStart (r : regex) : bool :=
  match r with
  | Seq Bol _ => true
  | _ => false
  end.

(** What [escaped] makes of a code unit. *)
Definition escapedUnit (a : ascii) : list ascii :=
  if Ascii.eqb a "&" then list_ascii_of_string "&amp;"
  else if Ascii.eqb a "<" then list_ascii_of_string "&lt;"
  else [a].

(** ** What a match leaves untouched, and what needs no search *)

(** The pattern has a group numbered [n]. *)
Fixpoint mentions (r : regex) (n : nat) : bool :=
  match r with
  | Group m r1 => (S (Nat.pred m) =? n)%nat || mentions r1 n
  | Seq r1 r2 | Alt r1 r2 => mentions r1 n || mentions r2 n
  | Star _ r1 | NegLook r1 => mentions r1 n
  | _ => false
  end.

(** The pattern puts no condition on what is around a match: every word of
    it is matched wherever it stands. *)
Fixpoint assertionFree (r : regex) : bool :=
  match r with
  | Eps | Chr _ => true
  | Seq r1 r2 | Alt r1 r2 => assertionFree r1 && assertionFree r2
  | Star _ r1 | Group _ r1 => assertionFree r1
  | WordB | Bol | Eol | NegLook _ => false
  end.

(** The cursor after the code units [w] it stands before. *)
Definition forward (w : list ascii) (c : cursor) : cursor :=
  fold_left (fun c' _ => advance c') w c.

(** ** Field lines *)

(** The type a field line declares. *)
Definition declaredType (line : string) : option string :=
  option_map (grp' 2) (exec Pat.fieldLine line).

(** A line declares a field: it reads white space, if any, the identifier,
    white space, and the type, which holds no space, tab or backtick. *)
Definition declares (line goField goType : string) : Prop :=
  exists indent gap tail,
    list_ascii_of_string line
    = indent ++ list_ascii_of_string goField ++ gap ++ list_ascii_of_string goType ++ tail
    /\ forallb Chars.space indent = true
    /\ gap <> [] /\ forallb Chars.space gap = true
    /\ isIdentifier goField = true
    /\ goType <> "" /\ forallb Pat.typeUnit (list_ascii_of_string goType) = true.

(** ** Accessor calls

    What a call of an accessor is, said of the text alone. *)

(** The receiver of the calls of a handler: its context variable, or any
    identifier when it has none. *)
Definition receiverOf (ctxVar : option string) (recv : list ascii) : Prop :=
  match ctxVar with
  | Some (String a v) => recv = list_ascii_of_string (String a v)
  | _ => isIdentifier (string_of_list_ascii recv) = true
  end.

(** [w] is the text of a call of one of [accessors], up to the end of its
    first argument, the literal [name]: the receiver, a dot, the accessor, an
    opening parenthesis and the name between double quotes, with white
    space, if any, before and after the parenthesis. *)
Definition accessorCall (ctxVar : option string) (accessors : list string)
    (w : list ascii) (name : string) : Prop :=
  exists recv accessor gap1 gap2,
    w = recv ++ "."%char :: list_ascii_of_string accessor ++ gap1
          ++ "("%char :: gap2 ++ Chars.quote :: list_ascii_of_string name ++ [Chars.quote]
    /\ receiverOf ctxVar recv
    /\ accessor ∈ accessors
    /\ forallb Chars.space gap1 = true
    /\ forallb Chars.space gap2 = true
    /\ extractedName name.

(** ** Calls in a text

    A shape tells which texts are a call and which literal a call has as
    its first argument; [accessorCall] is one. *)

(** A call in a text: the offset it starts at, its length, and the
    literal of its first argument. *)
Record Call : Type := mkCall {
  callStart : nat;
  callLength : nat;
  callLiteral : string
}.

Definition callIn (shape : list ascii -> string -> Prop) (text : string) (call : Call)
    : Prop :=
  callStart call + callLength call <= String.length text
  /\ shape (take (callLength call) (drop (callStart call) (list_ascii_of_string text)))
           (callLiteral call).

(** The calls met when the text is read from offset [from]: the first call
    that starts at or after [from], then the calls met from its end on.  A
    call that starts inside another one is not met. *)
Inductive callsFrom (shape : list ascii -> string -> Prop) (text : string)
    : nat -> list Call -> Prop :=
| callsFrom_none from :
    (forall call, from <= callStart call -> ~ callIn shape text call) ->
    callsFrom shape text from []
| callsFrom_next from call calls :
    from <= callStart call ->
    callIn shape text call ->
    (forall other, from <= callStart other < callStart call -> ~ callIn shape text other) ->
    callsFrom shape text (callStart call + callLength call) calls ->
    callsFrom shape text from (call :: calls).

(** [calls] are the calls met when the whole text is read, and no other
    list is. *)
Definition callsOf (shape : list ascii -> string -> Prop) (text : string)
    (calls : list Call) : Prop :=
  callsFrom shape text 0 calls
  /\ forall calls', callsFrom shape text 0 calls' -> calls' = calls.

(** [names] are the literals of the calls of the text, once each, in the
    order of the first call of each. *)
Definition namesOfCalls (shape : list ascii -> string -> Prop) (text : string)
    (names : list string) : Prop :=
  exists calls,
    callsOf shape text calls /\ firstOccurrences (map callLiteral calls) names.

(** The call a match of a pattern is, when group [n] of the pattern keeps
    the literal. *)
Definition callOf (n : nat) (m : rmatch) : Call :=
  mkCall (index m) (lastIndex m - index m) (grp' n m).

(** A shape whose calls end with their literal between the only two double
    quotes they hold: where a call starts tells where it ends. *)
Definition quoted (shape : list ascii -> string -> Prop) : Prop :=
  forall w literal,
    shape w literal ->
    exists front,
      w = front ++ Chars.quote :: list_ascii_of_string literal ++ [Chars.quote]
      /\ (Chars.quote ∉ front) /\ (Chars.quote ∉ list_ascii_of_string literal).

(** ** Server-start calls *)









(** ** The matcher *)

Lemma advance_cons c a t :
  rest c = a :: t ->
  pos (advance c) = S (pos c) /\ List.length (rest (advance c)) = List.length t.
Proof. intros E. unfold advance. rewrite E. split; reflexivity. Qed.

Lemma run_reaches r : forall c g k o,
  run r c g k = Some o ->
  exists c' g', k c' g' = Some o /\ reaches r c c'.
Proof.
  unfold reaches.
  induction r as [|p|r1 IH1 r2 IH2|r1 IH1 r2 IH2|greedy r1 IH1|n r1 IH1| | | |r1 IH1];
    intros c g k o H; cbn [run] in H.
  - exists c, g. split; [exact H|simpl; lia].
  - destruct (rest c) as [|a t] eqn:E; [discriminate|].
    destruct (p a); [|discriminate].
    exists (advance c), g. split; [exact H|].
    destruct (advance_cons c a t E) as [E1 E2]. rewrite E1, E2. simpl. lia.
  - apply IH1 in H as (c1 & g1 & H & L1).
    apply IH2 in H as (c2 & g2 & H & L2).
    exists c2, g2. split; [exact H|simpl; lia].
  - destruct (run r1 c g k) eqn:E.
    + injection H as <-. apply IH1 in E as (c1 & g1 & E & L).
      exists c1, g1. split; [exact E|simpl; lia].
    + apply IH2 in H as (c1 & g1 & E' & L).
      exists c1, g1. split; [exact E'|simpl; lia].
  - revert H. generalize (S (List.length (rest c))) as n.
    intros n. revert c g o. induction n as [|n IHn]; intros c g o H; simpl in H.
    + exists c, g. split; [exact H|simpl; lia].
    + assert (Hiter : forall o',
        run r1 c g (fun c' g' =>
          if (pos c <? pos c')%nat then iterate (run r1) greedy k n c' g' else None) = Some o' ->
        exists c' g', k c' g' = Some o'
          /\ pos c + minLen (Star greedy r1) <= pos c'
          /\ pos c' + List.length (rest c') = pos c + List.length (rest c)).
      { intros o' E. apply IH1 in E as (c1 & g1 & E & L).
        destruct (pos c <? pos c1)%nat eqn:Hlt; [|discriminate].
        apply Nat.ltb_lt in Hlt.
        apply IHn in E as (c2 & g2 & E & L2).
        exists c2, g2. split; [exact E|simpl in *; lia]. }
      destruct greedy.
      * destruct (run r1 c g _) eqn:E in H.
        -- injection H as <-. apply Hiter. exact E.
        -- exists c, g. split; [exact H|simpl; lia].
      * destruct (k c g) eqn:E.
        -- injection H as <-. exists c, g. split; [exact E|simpl; lia].
        -- apply Hiter. exact H.
  - apply IH1 in H as (c1 & g1 & H & L).
    eexists c1, _. split; [exact H|simpl; lia].
  - destruct (xorb _ _); [|discriminate].
    exists c, g. split; [exact H|simpl; lia].
  - destruct (pos c =? 0)%nat; [|discriminate].
    exists c, g. split; [exact H|simpl; lia].
  - destruct (rest c) eqn:E; [|discriminate].
    exists c, g. split; [exact H|rewrite E; simpl; lia].
  - destruct (run r1 c g _); [discriminate|].
    exists c, g. split; [exact H|simpl; lia].
Qed.

Lemma matchAt_bounds r c m c' :
  matchAt r c = Some (m, c') ->
  index m = pos c /\ lastIndex m = pos c' /\ reaches r c c'.
Proof.
  unfold matchAt. intros H.
  destruct (run r c [] _) as [[c1 g1]|] eqn:E; [|discriminate].
  injection H as <- <-. simpl.
  apply run_reaches in E as (c2 & g2 & E & L).
  injection E as -> ->. auto.
Qed.

Lemma scan_bounds r : forall rs p pv m c',
  scan r p pv rs = Some (m, c') ->
  p <= index m /\ lastIndex m = pos c' /\ index m + minLen r <= lastIndex m
  /\ pos c' + List.length (rest c') = p + List.length rs.
Proof.
  induction rs as [|a t IH]; intros p pv m c' H; simpl in H.
  - destruct (matchAt r (Cursor p pv [])) as [[m1 c1]|] eqn:E; [|discriminate].
    injection H as -> ->. apply matchAt_bounds in E as (E1 & E2 & E3 & E4).
    simpl in *. lia.
  - destruct (matchAt r (Cursor p pv (a :: t))) as [[m1 c1]|] eqn:E.
    + injection H as -> ->. apply matchAt_bounds in E as (E1 & E2 & E3 & E4).
      simpl in *. lia.
    + apply IH in H. simpl. lia.
Qed.

(** A pattern that cannot match the empty text makes [exec] progress: the
    branch of [execLoop] for an empty match is then never taken. *)
Lemma scan_progress r c m c' :
  0 < minLen r -> scanFrom r c = Some (m, c') -> index m < lastIndex m.
Proof.
  intros Hpos H. apply scan_bounds in H. lia.
Qed.

Lemma execLoop_order r : forall fuel c,
  Forall (fun m => pos c <= index m) (execLoop r fuel c)
  /\ inTextOrder (execLoop r fuel c).
Proof.
  induction fuel as [|fuel IH]; intros c; simpl.
  - split; constructor.
  - destruct (scanFrom r c) as [[m c']|] eqn:E.
    + pose proof (scan_bounds _ _ _ _ _ _ E) as (B1 & B2 & B3 & _).
      destruct (index m <? lastIndex m)%nat eqn:Hlt.
      * apply Nat.ltb_lt in Hlt. destruct (IH c') as (F & S').
        split.
        -- constructor; [exact B1|].
           eapply Forall_impl; [exact F|]. simpl. intros m' Hm'. lia.
        -- constructor; [exact S'|].
           eapply Forall_impl; [exact F|]. simpl. intros m' Hm'. lia.
      * split; repeat constructor. exact B1.
    + split; constructor.
Qed.

Lemma execAll_order r text : inTextOrder (execAll r text).
Proof. apply execLoop_order. Qed.

(** The bound of [execAll] on the iterations of an [exec] loop is never
    met: any larger bound gives the same matches. *)
Lemma execLoop_enough r : forall fuel fuel' c,
  List.length (rest c) < fuel -> List.length (rest c) < fuel' ->
  execLoop r fuel c = execLoop r fuel' c.
Proof.
  induction fuel as [|fuel IH]; intros fuel' c H H'; [lia|].
  destruct fuel' as [|fuel']; [lia|]. simpl.
  destruct (scanFrom r c) as [[m c']|] eqn:E; [|reflexivity].
  destruct (index m <? lastIndex m)%nat eqn:Hlt; [|reflexivity].
  apply Nat.ltb_lt in Hlt.
  pose proof (scan_bounds _ _ _ _ _ _ E) as (B1 & B2 & B3 & B4).
  f_equal. apply IH; lia.
Qed.

Lemma execAll_enough r text extra :
  execLoop r (S (String.length text) + extra) (start text) = execAll r text.
Proof.
  unfold execAll. apply execLoop_enough; simpl.
  - induction text; simpl; lia.
  - induction text; simpl; lia.
Qed.

(** The patterns the source loops over with [exec], and replaces the
    matches of, consume at least one code unit each. *)
Lemma looped_patterns_progress (c : regex) (ginAlias p : string) :
  Forall (fun r => 0 < minLen r)
    [Pat.importBlockRegex; Pat.rootAssign ginAlias; Pat.groupRegex;
     Pat.routeRegex; Pat.handleRegex; Pat.anyRegex;
     Pat.pattern1 ginAlias; Pat.pattern2 ginAlias; Pat.pattern2Method ginAlias;
     Pat.qpRe c; Pat.ppRe c; Pat.ghRe c; Pat.rhRe c; Pat.ckRe c;
     Pat.runRe; Pat.listenRe;
     Rx.plus (Chr (fun a => negb (Chars.word a))); Rx.lit "'";
     Rx.seq [Rx.lit ":"; Rx.lit p; NegLook (Chr Chars.word)]].
Proof.
  repeat (apply Forall_cons_2; [simpl; lia|]). apply Forall_nil_2.
Qed.

Lemma scan_none r : forall rs p pv,
  scan r p pv rs = None <->
  forall j, j <= List.length rs ->
    matchAt r (Cursor (p + j) (match j with O => pv | S j' => nth_error rs j' end)
                 (skipn j rs)) = None.
Proof.
  induction rs as [|a t IH]; intros p pv; simpl.
  - split.
    + intros H j Hj. assert (j = 0) as -> by lia.
      rewrite Nat.add_0_r. simpl.
      destruct (matchAt r (Cursor p pv [])); [discriminate|reflexivity].
    + intros H. specialize (H 0 (Nat.le_refl _)). rewrite Nat.add_0_r in H.
      simpl in H. rewrite H. reflexivity.
  - split.
    + intros H j Hj.
      destruct (matchAt r (Cursor p pv (a :: t))) eqn:E; [discriminate|].
      destruct j as [|j].
      * rewrite Nat.add_0_r. exact E.
      * rewrite (IH (S p) (Some a)) in H.
        specialize (H j ltac:(lia)).
        replace (p + S j) with (S p + j) by lia.
        destruct j; exact H.
    + intros H. pose proof (H 0 ltac:(lia)) as H0.
      rewrite Nat.add_0_r in H0. simpl in H0. rewrite H0.
      apply IH. intros j Hj. specialize (H (S j) ltac:(lia)).
      replace (p + S j) with (S p + j) in H by lia.
      destruct j; exact H.
Qed.

Lemma scan_some r : forall rs p pv x,
  scan r p pv rs = Some x ->
  exists j, j <= List.length rs /\
    matchAt r (Cursor (p + j) (match j with O => pv | S j' => nth_error rs j' end)
                 (skipn j rs)) = Some x.
Proof.
  induction rs as [|a t IH]; intros p pv x H; simpl in H.
  - exists 0. rewrite Nat.add_0_r. simpl. split; [lia|].
    destruct (matchAt r (Cursor p pv [])); [exact H|discriminate].
  - destruct (matchAt r (Cursor p pv (a :: t))) eqn:E.
    + exists 0. rewrite Nat.add_0_r. simpl. split; [lia|]. rewrite E. exact H.
    + apply IH in H as (j & Hj & H). exists (S j). split; [simpl; lia|].
      replace (p + S j) with (S p + j) by lia.
      destruct j; exact H.
Qed.

Lemma length_list_ascii s : List.length (list_ascii_of_string s) = String.length s.
Proof. induction s as [|a s IH]; simpl; [reflexivity|f_equal; exact IH]. Qed.

Lemma test_occurs r text : test r text = true <-> occurs r text.
Proof.
  unfold test, exec, scanFrom, start, occurs. simpl.
  destruct (scan r 0 None (list_ascii_of_string text)) as [x|] eqn:E; simpl.
  - split; [intros _|reflexivity].
    apply scan_some in E as (j & Hj & E). rewrite length_list_ascii in Hj.
    exists j. split; [exact Hj|]. unfold cursorAt. simpl in E. rewrite E. discriminate.
  - split; [discriminate|].
    intros (i & Hi & Hm). exfalso. apply Hm.
    rewrite scan_none in E. rewrite length_list_ascii in E.
    specialize (E i Hi). simpl in E. unfold cursorAt. exact E.
Qed.

Lemma test_false_occurs r text : test r text = false <-> ~ occurs r text.
Proof.
  rewrite <- test_occurs. destruct (test r text); split; intros H; congruence.
Qed.

(** ** Routes *)

Lemma routeOfMethodCall_known doc names prefixes m r :
  r ∈ routeOfMethodCall doc names prefixes m -> handlerName r ∈ names.
Proof.
  unfold routeOfMethodCall, has.
  destruct (bool_decide_reflect (lastSegment (grp' 4 m) ∈ names)) as [Hin|Hout]; simpl.
  - intros ->%list_elem_of_singleton. exact Hin.
  - intros []%elem_of_nil.
Qed.

Lemma routeOfHandleCall_known doc names prefixes m r :
  r ∈ routeOfHandleCall doc names prefixes m -> handlerName r ∈ names.
Proof.
  unfold routeOfHandleCall, has.
  destruct (negb (includes HTTP_METHODS (grp' 2 m))); simpl.
  - intros []%elem_of_nil.
  - destruct (bool_decide_reflect (lastSegment (grp' 4 m) ∈ names)) as [Hin|Hout]; simpl.
    + intros ->%list_elem_of_singleton. exact Hin.
    + intros []%elem_of_nil.
Qed.

Lemma routeOfAnyCall_known doc names prefixes m r :
  r ∈ routeOfAnyCall doc names prefixes m -> handlerName r ∈ names.
Proof.
  unfold routeOfAnyCall, has.
  destruct (bool_decide_reflect (lastSegment (grp' 3 m) ∈ names)) as [Hin|Hout]; simpl.
  - intros ->%list_elem_of_singleton. exact Hin.
  - intros []%elem_of_nil.
Qed.

Lemma elem_of_flat_map {A B} (f : A -> list B) (l : list A) (y : B) :
  y ∈ flat_map f l -> exists x, x ∈ l /\ y ∈ f x.
Proof.
  intros H. apply list_elem_of_In in H. apply in_flat_map in H as (x & Hx & Hy).
  exists x. split; apply list_elem_of_In; assumption.
Qed.

Lemma routesWithPrefixes_known doc names prefixes r :
  r ∈ routesWithPrefixes doc names prefixes -> handlerName r ∈ names.
Proof.
  unfold routesWithPrefixes.
  rewrite !elem_of_app.
  intros [H|[H|H]]; apply elem_of_flat_map in H as (m & _ & H).
  - eapply routeOfMethodCall_known; exact H.
  - eapply routeOfHandleCall_known; exact H.
  - eapply routeOfAnyCall_known; exact H.
Qed.

(** C5.  Every registration [findRoutesInTextByNames] emits names a handler
    of the known set, and a call site of any of the three shapes whose
    handler reference ends in a name outside the set pushes nothing. *)
Theorem routes_name_known_handlers :
  forall (fuel : nat) (doc : TextDocument) (handlerNames : gset string)
         (routes : list RouteRegistration),
    findRoutesInTextByNames fuel doc handlerNames = Some routes ->
    (forall r, r ∈ routes -> handlerName r ∈ handlerNames)
    /\ (forall groupPrefixes m,
          lastSegment (grp' 4 m) ∉ handlerNames ->
          routeOfMethodCall doc handlerNames groupPrefixes m = []
          /\ routeOfHandleCall doc handlerNames groupPrefixes m = [])
    /\ (forall groupPrefixes m,
          lastSegment (grp' 3 m) ∉ handlerNames ->
          routeOfAnyCall doc handlerNames groupPrefixes m = []).
Proof.
  intros fuel doc names routes H. unfold findRoutesInTextByNames in H.
  destruct (buildGroupPrefixMap fuel _ _) as [prefixes|]; [|discriminate].
  injection H as <-.
  split; [|split].
  - intros r. apply routesWithPrefixes_known.
  - intros gp m Hout. unfold routeOfMethodCall, routeOfHandleCall, has.
    rewrite (bool_decide_eq_false_2 _ Hout). simpl.
    rewrite orb_true_r. split; reflexivity.
  - intros gp m Hout. unfold routeOfAnyCall, has.
    rewrite (bool_decide_eq_false_2 _ Hout). reflexivity.
Qed.

Lemma routes_name_known_handlers_witness :
  findRoutesInTextByNames 3 Sample.serverDoc {["CreateUser"]}
    = Some [mkRoute "POST" "/api/v1/users/:id" "CreateUser" "main.go" (477, 509)]
  /\ (forall r,
        r ∈ [mkRoute "POST" "/api/v1/users/:id" "CreateUser" "main.go" (477, 509)] ->
        handlerName r ∈ ({["CreateUser"]} : gset string)).
Proof.
  assert (E : findRoutesInTextByNames 3 Sample.serverDoc {["CreateUser"]}
    = Some [mkRoute "POST" "/api/v1/users/:id" "CreateUser" "main.go" (477, 509)])
    by (vm_compute; reflexivity).
  split; [exact E|].
  exact (proj1 (routes_name_known_handlers 3 Sample.serverDoc {["CreateUser"]} _ E)).
Defined.

(** ** Body encoding *)

(** C4.  The classification follows the fixed precedence: a JSON-bind call
    anywhere in the body gives json, whatever else the body holds; without
    one, a multipart call gives multipart, also next to a form call; without
    either, a form call gives form; and a body with none of the three, be it
    with a query bind, a generic bind or no bind, gives none. *)
Theorem body_encoding_precedence :
  forall (body : string) (ctxVar : option string) (ginAlias fullText : string),
    let c := Pat.cPattern ctxVar in
    let classified := bodyType (inferParamsFromBody body ctxVar ginAlias fullText) in
    (occurs (Pat.jsonBind c) body -> classified = json)
    /\ (~ occurs (Pat.jsonBind c) body -> occurs (Pat.multipart c) body ->
        classified = multipart)
    /\ (~ occurs (Pat.jsonBind c) body -> ~ occurs (Pat.multipart c) body ->
        occurs (Pat.formBind c) body -> classified = form)
    /\ (~ occurs (Pat.jsonBind c) body -> ~ occurs (Pat.multipart c) body ->
        ~ occurs (Pat.formBind c) body -> classified = none).
Proof.
  intros body ctxVar ginAlias fullText c classified.
  assert (E : classified = classifyBody body c).
  { unfold classified, inferParamsFromBody. fold c.
    destruct (classifyBody body c); try reflexivity.
    destruct (boundStruct body c fullText); reflexivity. }
  rewrite E. unfold classifyBody.
  repeat split.
  - intros H%test_occurs. rewrite H. reflexivity.
  - intros H1%test_false_occurs H2%test_occurs. rewrite H1, H2. reflexivity.
  - intros H1%test_false_occurs H2%test_false_occurs H3%test_occurs.
    rewrite H1, H2, H3. reflexivity.
  - intros H1%test_false_occurs H2%test_false_occurs H3%test_false_occurs.
    rewrite H1, H2, H3.
    destruct (test (Pat.queryBind c) body); [reflexivity|].
    destruct (test (Pat.genericBind c) body); reflexivity.
Qed.

Lemma body_encoding_precedence_witness :
  let c := Pat.cPattern (Some "c") in
  (occurs (Pat.jsonBind c) Bodies.jsonAndMultipart
   /\ occurs (Pat.multipart c) Bodies.jsonAndMultipart
   /\ bodyType (inferParamsFromBody Bodies.jsonAndMultipart (Some "c") "gin" "") = json)
  /\ (occurs (Pat.formBind c) Bodies.multipartAndForm
      /\ bodyType (inferParamsFromBody Bodies.multipartAndForm (Some "c") "gin" "") = multipart)
  /\ (occurs (Pat.genericBind c) Bodies.formOnly
      /\ bodyType (inferParamsFromBody Bodies.formOnly (Some "c") "gin" "") = form)
  /\ (occurs (Pat.genericBind c) Bodies.genericOnly
      /\ occurs (Pat.queryBind c) Bodies.genericOnly
      /\ bodyType (inferParamsFromBody Bodies.genericOnly (Some "c") "gin" "") = none).
Proof.
  intros c.
  assert (yes : forall r text, test r text = true -> occurs r text)
    by (intros r text; apply test_occurs).
  assert (no : forall r text, test r text = false -> ~ occurs r text)
    by (intros r text; apply test_false_occurs).
  pose proof (body_encoding_precedence Bodies.jsonAndMultipart (Some "c") "gin" "")
    as (J & _).
  pose proof (body_encoding_precedence Bodies.multipartAndForm (Some "c") "gin" "")
    as (_ & M & _).
  pose proof (body_encoding_precedence Bodies.formOnly (Some "c") "gin" "")
    as (_ & _ & F & _).
  pose proof (body_encoding_precedence Bodies.genericOnly (Some "c") "gin" "")
    as (_ & _ & _ & N).
  split; [|split; [|split]].
  - split; [|split].
    + apply yes. vm_compute. reflexivity.
    + apply yes. vm_compute. reflexivity.
    + apply J. apply yes. vm_compute. reflexivity.
  - split.
    + apply yes. vm_compute. reflexivity.
    + apply M; [apply no|apply yes]; vm_compute; reflexivity.
  - split.
    + apply yes. vm_compute. reflexivity.
    + apply F; [apply no|apply no|apply yes]; vm_compute; reflexivity.
  - split; [|split].
    + apply yes. vm_compute. reflexivity.
    + apply yes. vm_compute. reflexivity.
    + apply N; apply no; vm_compute; reflexivity.
Defined.

(** ** Parameter names *)

Lemma dedupe_elem : forall l seen x,
  x ∈ Js.dedupe seen l <-> (x ∈ l) /\ (x ∉ seen).
Proof.
  induction l as [|a l IH]; intros seen x; simpl.
  - split; [intros []%elem_of_nil|intros [[]%elem_of_nil _]].
  - destruct (bool_decide_reflect (a ∈ seen)) as [Ha|Ha].
    + rewrite IH, elem_of_cons. split.
      * intros [H1 H2]. auto.
      * intros [[->|H1] H2]; [contradiction|auto].
    + rewrite !elem_of_cons, IH, elem_of_cons. split.
      * intros [->|[H1 H2]]; [auto|]. split; [auto|]. intros H. apply H2. auto.
      * intros [[->|H1] H2]; [auto|].
        destruct (decide (x = a)) as [->|Hne]; [auto|].
        right. split; [exact H1|]. intros [?|?]; contradiction.
Qed.

Lemma dedupe_NoDup : forall l seen, NoDup (Js.dedupe seen l).
Proof.
  induction l as [|a l IH]; intros seen; simpl.
  - constructor.
  - destruct (bool_decide (a ∈ seen)); [apply IH|].
    constructor; [|apply IH].
    rewrite dedupe_elem. intros [_ H]. apply H. left.
Qed.

Lemma dedupe_order : forall l seen n1 x n2 y n3,
  Js.dedupe seen l = n1 ++ x :: n2 ++ y :: n3 ->
  exists e1 e2, l = e1 ++ x :: e2 /\ (x ∉ e1) /\ (y ∉ e1).
Proof.
  induction l as [|a l IH]; intros seen n1 x n2 y n3 H; simpl in H.
  - destruct n1; discriminate.
  - assert (Hx : forall s k, Js.dedupe s l = k ++ x :: n2 ++ y :: n3 -> (x ∉ s) /\ (y ∉ s)).
    { intros s k E. split.
      - assert (Hin : x ∈ Js.dedupe s l) by (rewrite E; set_solver).
        apply dedupe_elem in Hin. tauto.
      - assert (Hin : y ∈ Js.dedupe s l) by (rewrite E; set_solver).
        apply dedupe_elem in Hin. tauto. }
    destruct (bool_decide_reflect (a ∈ seen)) as [Ha|Ha].
    + destruct (Hx _ _ H) as [Hxs Hys].
      apply IH in H as (e1 & e2 & -> & H1 & H2).
      exists (a :: e1), e2. split; [reflexivity|].
      split; intros [->|?]%elem_of_cons; contradiction.
    + destruct n1 as [|b n1]; simpl in H.
      * injection H as -> H. exists [], l. split; [reflexivity|].
        split; apply not_elem_of_nil.
      * injection H as -> H. destruct (Hx _ _ H) as [Hxs Hys].
        apply IH in H as (e1 & e2 & -> & H1 & H2).
        exists (b :: e1), e2. split; [reflexivity|].
        split; intros [->|?]%elem_of_cons; try contradiction.
        -- apply Hxs. left.
        -- apply Hys. left.
Qed.

Lemma unique_firstOccurrences l : firstOccurrences l (Js.unique l).
Proof.
  unfold firstOccurrences, Js.unique. split; [apply dedupe_NoDup|]. split.
  - intros x. rewrite dedupe_elem. split; [tauto|]. intros H. split; [exact H|].
    apply not_elem_of_nil.
  - apply dedupe_order.
Qed.

Lemma dedupe_seen_equiv : forall l s1 s2,
  (forall x, x ∈ l -> x ∈ s1 <-> x ∈ s2) -> Js.dedupe s1 l = Js.dedupe s2 l.
Proof.
  induction l as [|a l IH]; intros s1 s2 E; simpl; [reflexivity|].
  assert (Ea : a ∈ s1 <-> a ∈ s2) by (apply E; left).
  rewrite (bool_decide_ext _ _ Ea).
  destruct (bool_decide (a ∈ s2)).
  - apply IH. intros x Hx. apply E. right. exact Hx.
  - f_equal. apply IH. intros x Hx. rewrite !elem_of_cons, E; [reflexivity|].
    right. exact Hx.
Qed.

Lemma dedupe_more_seen : forall l s seen,
  Js.dedupe (s ++ seen) l = filter (fun y => y ∉ s) (Js.dedupe seen l).
Proof.
  induction l as [|a l IH]; intros s seen; simpl; [reflexivity|].
  destruct (bool_decide_reflect (a ∈ seen)) as [Ha|Ha].
  - rewrite bool_decide_eq_true_2 by (apply elem_of_app; auto). apply IH.
  - rewrite filter_cons. destruct (decide (a ∉ s)) as [Hs|Hs].
    + rewrite bool_decide_eq_false_2 by (rewrite elem_of_app; tauto).
      f_equal. rewrite <- IH. apply dedupe_seen_equiv.
      intros x _. rewrite !elem_of_cons, !elem_of_app, elem_of_cons. tauto.
    + apply dec_stable in Hs.
      rewrite bool_decide_eq_true_2 by (apply elem_of_app; auto).
      rewrite <- IH. apply dedupe_seen_equiv.
      intros x _. rewrite !elem_of_app, elem_of_cons. split; [tauto|].
      intros [?|[->|?]]; auto.
Qed.

Lemma dedupe_app : forall a seen b,
  Js.dedupe seen (a ++ b) = Js.dedupe seen a ++ Js.dedupe (a ++ seen) b.
Proof.
  induction a as [|x a IH]; intros seen b; simpl; [reflexivity|].
  destruct (bool_decide_reflect (x ∈ seen)) as [Hx|Hx].
  - rewrite IH. f_equal. apply dedupe_seen_equiv.
    intros y _. rewrite elem_of_cons, !elem_of_app. split; [tauto|].
    intros [->|?]; tauto.
  - simpl. f_equal. rewrite IH. f_equal. apply dedupe_seen_equiv.
    intros y _. rewrite elem_of_cons, !elem_of_app, elem_of_cons. tauto.
Qed.

Lemma dedupe_filter (P : string -> Prop) `{!forall x, Decision (P x)} : forall l seen,
  Js.dedupe seen (filter P l) = filter P (Js.dedupe seen l).
Proof.
  induction l as [|a l IH]; intros seen; simpl; [reflexivity|].
  rewrite filter_cons. destruct (decide (P a)) as [Hp|Hp]; simpl.
  - destruct (bool_decide (a ∈ seen)); [apply IH|].
    rewrite filter_cons, decide_True by exact Hp. f_equal. apply IH.
  - destruct (bool_decide (a ∈ seen)); [apply IH|].
    rewrite filter_cons, decide_False by exact Hp. rewrite <- IH.
    apply dedupe_seen_equiv. intros x Hx. rewrite elem_of_cons.
    split; [auto|]. intros [->|?]; [|assumption].
    apply list_elem_of_filter in Hx as [? _]. contradiction.
Qed.

Lemma unique_app a b :
  Js.unique (a ++ b) = Js.unique a ++ filter (fun y => y ∉ a) (Js.unique b).
Proof.
  unfold Js.unique. rewrite dedupe_app. f_equal. apply dedupe_more_seen.
Qed.


(** ** Sample values *)

Lemma length_trimStart s : String.length (Js.trimStart s) <= String.length s.
Proof.
  induction s as [|a s IH]; simpl; [lia|]. destruct (Chars.space a); simpl; lia.
Qed.

Lemma length_trimEnd s : String.length (Js.trimEnd s) <= String.length s.
Proof.
  induction s as [|a s IH]; simpl; [lia|].
  destruct (Js.trimEnd s); [destruct (Chars.space a)|]; simpl in *; lia.
Qed.

Lemma length_trim s : String.length (Js.trim s) <= String.length s.
Proof.
  unfold Js.trim. etransitivity; [apply length_trimEnd|apply length_trimStart].
Qed.

Lemma length_substring_tail : forall n s,
  String.length (substring n (String.length s - n) s) = String.length s - n.
Proof.
  induction n as [|n IH]; intros s.
  - rewrite Nat.sub_0_r. induction s as [|a s IHs]; simpl; [reflexivity|].
    f_equal. exact IHs.
  - destruct s as [|a s]; simpl; [reflexivity|apply IH].
Qed.

Lemma length_sliceFrom s (z : Z) :
  (0 <= z)%Z -> String.length (Js.sliceFrom s z) = String.length s - Z.to_nat z.
Proof.
  intros Hz. unfold Js.sliceFrom, Js.clampIndex.
  destruct (Z.ltb_spec z 0) as [Hneg|_]; [lia|].
  rewrite length_substring_tail. lia.
Qed.

Lemma startsWith_length : forall p s,
  Js.startsWith s p = true -> String.length p <= String.length s.
Proof.
  induction p as [|a p IH]; intros s H; simpl; [lia|].
  destruct s as [|b s]; simpl in *; [discriminate|].
  apply andb_prop in H as [_ H]. apply IH in H. lia.
Qed.

(** C9.  [sampleValueForGoType] is a total function: it calls itself only
    on the trimmed type without its leading star or without its leading pair
    of brackets, a text strictly shorter than the type it was given, and in
    every other case it returns the value of a case that makes no call. *)
Theorem sampleValueForGoType_terminates :
  forall (goType fieldName now : string),
    let base := Js.trim goType in
    sampleValueForGoType goType fieldName now =
      (if Js.startsWith base "*"
       then sampleValueForGoType (Js.sliceFrom base 1) fieldName now
       else if Js.startsWith base "[]"
       then JArr [sampleValueForGoType (Js.sliceFrom base 2) fieldName now]
       else sampleLeaf base fieldName now)
    /\ (Js.startsWith base "*" = true ->
        String.length (Js.sliceFrom base 1) < String.length goType)
    /\ (Js.startsWith base "[]" = true ->
        String.length (Js.sliceFrom base 2) < String.length goType).
Proof.
  intros goType0 fieldName now base.
  pose proof (length_trim goType0) as Hlen. fold base in Hlen.
  split; [|split].
  - rewrite sampleValueForGoType_equation_1. unfold base.
    match goal with |- _ = ?rhs => set (R := rhs) end.
    generalize (inspect (Js.startsWith (Js.trim goType0) "*")).
    intros [[|] e1]; cbn -[inspect Js.startsWith].
    { assert (ER : R = sampleValueForGoType (Js.sliceFrom (Js.trim goType0) 1) fieldName now)
        by (unfold R; rewrite e1; reflexivity).
      rewrite ER. reflexivity. }
    assert (ER : R = if Js.startsWith (Js.trim goType0) "[]"
                     then JArr [sampleValueForGoType (Js.sliceFrom (Js.trim goType0) 2)
                                  fieldName now]
                     else sampleLeaf (Js.trim goType0) fieldName now)
      by (unfold R; rewrite e1; reflexivity).
    rewrite ER. clear R ER.
    match goal with |- _ = ?rhs => set (R := rhs) end.
    generalize (inspect (Js.startsWith (Js.trim goType0) "[]")).
    intros [[|] e2]; cbn -[inspect Js.startsWith]; unfold R; rewrite e2; reflexivity.
  - intros H. apply startsWith_length in H. simpl in H.
    rewrite (length_sliceFrom base 1) by lia. lia.
  - intros H. apply startsWith_length in H. simpl in H.
    rewrite (length_sliceFrom base 2) by lia. lia.
Qed.

(** ** Brace matching *)

Lemma get_lookup : forall s i, String.get i s = list_ascii_of_string s !! i.
Proof.
  induction s as [|a s IH]; intros i; simpl.
  - destruct i; reflexivity.
  - destruct i; simpl; [reflexivity|apply IH].
Qed.

Lemma substring_units : forall n m s,
  list_ascii_of_string (substring n m s) = take m (drop n (list_ascii_of_string s)).
Proof.
  induction n as [|n IHn]; intros m s.
  - rewrite drop_0. revert s. induction m as [|m IHm]; intros s.
    + destruct s; reflexivity.
    + destruct s as [|a s]; simpl; [reflexivity|]. f_equal. apply IHm.
  - destruct s as [|a s]; simpl.
    + destruct m; reflexivity.
    + apply IHn.
Qed.

Lemma slice_units text (a b : nat) :
  a <= b <= String.length text ->
  list_ascii_of_string (Js.slice text (Z.of_nat a) (Z.of_nat b))
  = take (b - a) (drop a (list_ascii_of_string text)).
Proof.
  intros H. unfold Js.slice, Js.clampIndex.
  destruct (Z.ltb_spec (Z.of_nat a) 0); [lia|].
  destruct (Z.ltb_spec (Z.of_nat b) 0); [lia|].
  rewrite !Nat2Z.id, !Nat.min_l by lia. apply substring_units.
Qed.

Lemma substring_empty : forall n s, substring n 0 s = "".
Proof.
  induction n as [|n IH]; intros [|a s]; simpl; try reflexivity. apply IH.
Qed.

Lemma balance_snoc l ch :
  balance (l ++ [ch]) =
  (balance l + (if bool_decide (ch = "{"%char) then 1
                else if bool_decide (ch = "}"%char) then -1 else 0))%Z.
Proof.
  unfold balance. rewrite !count_occ_app. simpl.
  destruct (bool_decide_reflect (ch = "{"%char)) as [->|H1].
  - simpl. lia.
  - destruct (ascii_dec ch "{"); [contradiction|].
    destruct (bool_decide_reflect (ch = "}"%char)) as [->|H2].
    + simpl. lia.
    + destruct (ascii_dec ch "}"); [contradiction|]. lia.
Qed.

Lemma range_snoc (l : list ascii) (start i : nat) ch :
  start <= i -> l !! i = Some ch ->
  take (S i - start) (drop start l) = take (i - start) (drop start l) ++ [ch].
Proof.
  intros Hle Hi. replace (S i - start) with (S (i - start)) by lia.
  apply take_S_r. rewrite lookup_drop. replace (start + (i - start)) with i by lia.
  exact Hi.
Qed.

Lemma braceLoop_spec text start l : l = list_ascii_of_string text -> forall n i depth,
  start <= i -> i + n = List.length l -> (1 <= depth)%Z ->
  depth = balance (take (i - start) (drop start l)) ->
  Forall (fun k => i <= k < List.length l) (snd (braceLoop text n i depth))
  /\ (fst (braceLoop text n i depth) = (-1)%Z
      \/ exists j, fst (braceLoop text n i depth) = Z.of_nat j
           /\ i <= j < List.length l
           /\ l !! j = Some "}"%char
           /\ balance (take (S j - start) (drop start l)) = 0%Z).
Proof.
  intros Hl n. induction n as [|n IH]; intros i depth Hle Hn Hd Hb; simpl.
  - split; [constructor|left; reflexivity].
  - unfold Js.at_. rewrite get_lookup, <- Hl.
    assert (Hi : i < List.length l) by lia.
    destruct (lookup_lt_is_Some_2 l i Hi) as [ch Hch]. rewrite Hch.
    pose proof (range_snoc l start i ch Hle Hch) as Hr.
    pose proof (balance_snoc (take (i - start) (drop start l)) ch) as Hs.
    rewrite <- Hr, <- Hb in Hs.
    assert (Hstep : forall d, (1 <= d)%Z ->
              d = balance (take (S i - start) (drop start l)) ->
              Forall (fun k => i <= k < List.length l)
                     (i :: snd (braceLoop text n (S i) d))
              /\ (fst (braceLoop text n (S i) d) = (-1)%Z
                  \/ exists j, fst (braceLoop text n (S i) d) = Z.of_nat j
                       /\ i <= j < List.length l
                       /\ l !! j = Some "}"%char
                       /\ balance (take (S j - start) (drop start l)) = 0%Z)).
    { intros d Hd1 Hd2.
      destruct (IH (S i) d ltac:(lia) ltac:(lia) Hd1 Hd2) as (F & R).
      split.
      - constructor; [lia|]. eapply Forall_impl; [exact F|]. simpl. intros k Hk. lia.
      - destruct R as [R|(j & R1 & R2 & R3 & R4)]; [left; exact R|].
        right. exists j. repeat split; try assumption; lia. }
    destruct (bool_decide_reflect (Some ch = Some "{"%char)) as [E1|E1].
    + injection E1 as ->. simpl in Hs.
      destruct (braceLoop text n (S i) (depth + 1)) as [r reads] eqn:E.
      specialize (Hstep (depth + 1)%Z ltac:(lia) ltac:(lia)). rewrite E in Hstep.
      exact Hstep.
    + rewrite bool_decide_eq_false_2 in Hs by congruence.
      destruct (bool_decide_reflect (Some ch = Some "}"%char)) as [E2|E2].
      * injection E2 as ->. simpl in Hs.
        destruct (Z.eqb_spec (depth - 1) 0) as [Hz|Hz]; simpl.
        -- split; [repeat constructor; lia|].
           right. exists i. repeat split; try assumption; lia.
        -- destruct (braceLoop text n (S i) (depth - 1)) as [r reads] eqn:E.
           specialize (Hstep (depth - 1)%Z ltac:(lia) ltac:(lia)). rewrite E in Hstep.
           exact Hstep.
      * rewrite bool_decide_eq_false_2 in Hs by congruence.
        destruct (braceLoop text n (S i) depth) as [r reads] eqn:E.
        specialize (Hstep depth Hd ltac:(lia)). rewrite E in Hstep.
        exact Hstep.
Qed.

(** C8.  From an opening brace, [findMatchingBrace] reads only offsets of
    the text, from the brace on, and returns -1, or the offset of a closing
    brace after it such that the slice from the one to the other holds as
    many opening as closing braces.  With -1 the handler extractor takes the
    empty text as the body, for each of the three handler shapes; with an
    offset it takes that slice. *)
Theorem findMatchingBrace_balanced :
  forall (text : string) (openIndex : nat),
    Js.at_ text openIndex = Some "{"%char ->
    Forall (fun k => openIndex <= k < String.length text) (bracesRead text openIndex)
    /\ ((findMatchingBrace text openIndex = (-1)%Z
         /\ bodyTextAt text openIndex = ""
         /\ innerAt text openIndex = "")
        \/ exists j,
             findMatchingBrace text openIndex = Z.of_nat j
             /\ openIndex < j < String.length text
             /\ Js.at_ text j = Some "}"%char
             /\ count "{" (Js.slice text (Z.of_nat openIndex) (Z.of_nat j + 1))
                = count "}" (Js.slice text (Z.of_nat openIndex) (Z.of_nat j + 1))
             /\ bodyTextAt text openIndex
                = Js.slice text (Z.of_nat openIndex) (Z.of_nat j + 1)
             /\ innerAt text openIndex
                = Js.slice text (Z.of_nat openIndex) (Z.of_nat j + 1)).
Proof.
  intros text openIndex Hopen.
  unfold Js.at_ in Hopen. rewrite get_lookup in Hopen.
  set (l := list_ascii_of_string text) in *.
  assert (Hlen : List.length l = String.length text) by apply length_list_ascii.
  pose proof (lookup_lt_Some _ _ _ Hopen) as Hlt.
  unfold bracesRead, findMatchingBrace, bodyTextAt, innerAt, findMatchingBrace.
  destruct (String.length text - openIndex) as [|n] eqn:En; [lia|].
  simpl. unfold Js.at_. rewrite get_lookup. fold l. rewrite Hopen.
  rewrite bool_decide_eq_true_2 by reflexivity.
  pose proof (braceLoop_spec text openIndex l eq_refl n (S openIndex) 1%Z) as Hspec.
  destruct Hspec as (F & R); [lia|lia|lia| |].
  { rewrite (range_snoc l openIndex openIndex "{"%char) by (auto; lia).
    rewrite Nat.sub_diag. reflexivity. }
  change (0 + 1)%Z with 1%Z.
  destruct (braceLoop text n (S openIndex) 1) as [r reads] eqn:E.
  simpl in *. split.
  - constructor; [lia|]. eapply Forall_impl; [exact F|]. simpl. intros k Hk. lia.
  - destruct R as [->|(j & -> & R2 & R3 & R4)].
    + left. split; [reflexivity|].
      destruct (Z.ltb_spec (Z.of_nat openIndex) (-1)); [lia|].
      split; [reflexivity|].
      unfold Js.slice, Js.clampIndex. simpl.
      destruct (Z.ltb_spec (Z.of_nat openIndex) 0); [lia|].
      rewrite Nat.sub_0_l. apply substring_empty.
    + right. exists j.
      destruct (Z.ltb_spec (Z.of_nat openIndex) (Z.of_nat j)); [|lia].
      repeat split; try reflexivity; try lia.
      * unfold Js.at_. rewrite get_lookup. exact R3.
      * unfold count. replace (Z.of_nat j + 1)%Z with (Z.of_nat (S j)) by lia.
        rewrite slice_units by lia. fold l.
        unfold balance in R4. lia.
Qed.

(** ** Unresolved struct types *)

Lemma define_nonempty {V} k (v : V) o : Obj.define k v o <> [].
Proof.
  unfold Obj.define. destruct (Obj.getOwn k o) eqn:E.
  - destruct o as [|[k' v'] o]; simpl in *; [discriminate|].
    destruct (String.eqb k k'); discriminate.
  - destruct (Obj.arrayIndex k).
    + destruct o as [|[k' v'] o]; simpl; [discriminate|].
      destruct (Obj.arrayIndex k'); [destruct (_ <? _)%N|]; discriminate.
    + destruct o; discriminate.
Qed.

Lemma join_flags_nonempty sep (f : string * string -> string) o :
  o <> [] -> String.eqb (Js.join sep (map (fun kv => "-H " +:+ f kv) o)) "" = false.
Proof.
  destruct o as [|kv [|kv' o]]; [congruence| |]; intros _; reflexivity.
Qed.

Lemma bodyOf_unresolved clock handler method hs :
  carriesBody method = true ->
  bodyType (params handler) = json ->
  jsonFields (params handler) = None \/ jsonFields (params handler) = Some [] ->
  bodyOf clock handler method hs
  = (defaultTo "Content-Type" "application/json" hs, "-d", "'{}'").
Proof.
  intros Hm Hb Hf. unfold bodyOf. rewrite Hm, Hb.
  destruct Hf as [-> | ->]; reflexivity.
Qed.

(** When the declaration of a type occurs nowhere in the text, field
    resolution returns the empty list.  For a method that carries a body, a
    JSON body type and no resolved fields, be the list absent or empty, the
    synthesized request has the data flag with the empty object as its body,
    after the header flags and before the address, whenever the substitution
    of the path parameters returns. *)
Lemma unresolved_type_gives_empty_object :
  (forall text typeName : string,
     ~ occurs (Pat.defRe typeName) text ->
     extractStructFieldsFromText text typeName = [])
  /\ (forall (clock : nat -> string) (handler : HandlerFunction)
             (route : option RouteRegistration) (opts : CurlGenerationOptions)
             (verb urlPath : string),
        toUpperCase (orElse (option_map method route) "GET") = Some verb ->
        carriesBody verb = true ->
        substitutePathParams (orElse (option_map path route) ("/" +:+ name handler))
          (pathParams (params handler)) = Returns urlPath ->
        bodyType (params handler) = json ->
        jsonFields (params handler) = None \/ jsonFields (params handler) = Some [] ->
        exists headerFlags url,
          generateCurl clock handler route opts
          = Returns (Js.join continuation
                    ["curl"; "-X " +:+ verb; headerFlags; "-d '{}'"; shellQuote url])).
Proof.
  split.
  - intros text typeName H%test_false_occurs.
    unfold extractStructFieldsFromText. unfold test in H.
    destruct (exec (Pat.defRe typeName) text); [discriminate|reflexivity].
  - intros clock handler route opts verb urlPath Hverb Hbody Hpath Hjson Hfields.
    unfold generateCurl. rewrite Hverb, Hpath.
    rewrite (bodyOf_unresolved _ _ _ _ Hbody Hjson Hfields).
    cbv zeta. unfold defaultTo at 1.
    rewrite join_flags_nonempty by apply define_nonempty.
    simpl (String.eqb "-d" ""). simpl (String.eqb "'{}'" ""). simpl (false || false).
    cbv iota. eexists _, _. reflexivity.
Qed.

(** ** Joining paths *)

Lemma string_snoc : forall a : string, a = "" \/ exists s c, a = s +:+ String c "".
Proof.
  induction a as [|c a IH]; [left; reflexivity|right].
  destruct IH as [->|(s & c' & ->)].
  - exists "", c. reflexivity.
  - exists (String c s), c'. reflexivity.
Qed.

Lemma app_cons c s t : String c s +:+ t = String c (s +:+ t).
Proof. reflexivity. Qed.

Lemma length_app s t : String.length (s +:+ t) = String.length s + String.length t.
Proof.
  induction s as [|c s IH]; [reflexivity|]. rewrite app_cons. simpl. rewrite IH. reflexivity.
Qed.

Lemma app_assoc_string s t u : (s +:+ t) +:+ u = s +:+ (t +:+ u).
Proof.
  induction s as [|c s IH]; [reflexivity|]. rewrite !app_cons, IH. reflexivity.
Qed.

Lemma substring_app_tail : forall s t m,
  substring (String.length s) m (s +:+ t) = substring 0 m t.
Proof.
  induction s as [|c s IH]; intros t m; [reflexivity|]. rewrite app_cons. simpl. apply IH.
Qed.

Lemma substring_app_head : forall s t,
  substring 0 (String.length s) (s +:+ t) = s.
Proof.
  induction s as [|c s IH]; intros t.
  - destruct t; reflexivity.
  - rewrite app_cons. simpl. rewrite IH. reflexivity.
Qed.

Lemma endsWith_snoc s c : Js.endsWith (s +:+ String c "") "/" = Ascii.eqb c "/".
Proof.
  unfold Js.endsWith. rewrite length_app. simpl.
  replace (String.length s + 1 - 1) with (String.length s) by lia.
  rewrite substring_app_tail. simpl.
  destruct (String.length s + 1) eqn:E; [lia|]. simpl.
  destruct (Ascii.eqb c "/"); reflexivity.
Qed.

Lemma slice_drop_last s c : Js.slice (s +:+ String c "") 0 (-1) = s.
Proof.
  unfold Js.slice, Js.clampIndex. rewrite length_app. simpl.
  replace (Z.to_nat (Z.max (Z.of_nat (String.length s + 1) + -1) 0))
    with (String.length s) by lia.
  rewrite Nat.sub_0_r. apply substring_app_head.
Qed.

Lemma dropTrailingSlash_snoc : forall s c,
  dropTrailingSlash (s +:+ String c "") = if Ascii.eqb c "/" then s else s +:+ String c "".
Proof.
  induction s as [|a s IH]; intros c; [reflexivity|].
  change (String a s +:+ String c "") with (String a (s +:+ String c "")).
  simpl. rewrite IH.
  destruct (s +:+ String c "") eqn:E.
  - destruct s; discriminate.
  - destruct (Ascii.eqb c "/"); [reflexivity|]. rewrite <- E. reflexivity.
Qed.

Lemma joinPaths_halves a b :
  joinPaths a b = dropTrailingSlash a +:+ withLeadingSlash b.
Proof.
  unfold joinPaths, withLeadingSlash. f_equal.
  destruct (string_snoc a) as [->|(s & c & ->)]; [reflexivity|].
  rewrite endsWith_snoc, dropTrailingSlash_snoc, slice_drop_last. reflexivity.
Qed.

Lemma startsWith_slash s :
  Js.startsWith s "/" = true <-> exists t, s = String "/" t.
Proof.
  destruct s as [|c t].
  - split; [discriminate|intros (t & H); discriminate].
  - change (Js.startsWith (String c t) "/") with (Ascii.eqb c "/" && true).
    rewrite andb_true_r. split.
    + intros ->%Ascii.eqb_eq. exists t. reflexivity.
    + intros (t' & H). injection H as -> _. apply Ascii.eqb_refl.
Qed.

Lemma withLeadingSlash_starts s : Js.startsWith (withLeadingSlash s) "/" = true.
Proof.
  unfold withLeadingSlash. destruct (Js.startsWith s "/") eqn:E; [exact E|].
  reflexivity.
Qed.

Lemma withLeadingSlash_cons s : exists t, withLeadingSlash s = String "/" t.
Proof. apply startsWith_slash, withLeadingSlash_starts. Qed.

Lemma dropTrailingSlash_app : forall x t,
  t <> "" -> dropTrailingSlash (x +:+ t) = x +:+ dropTrailingSlash t.
Proof.
  induction x as [|c x IH]; intros t Ht; [reflexivity|].
  change (String c x +:+ t) with (String c (x +:+ t)).
  simpl. rewrite IH by exact Ht.
  destruct (x +:+ t) eqn:E; [|reflexivity].
  destruct x; simpl in E; [contradiction|discriminate].
Qed.

Lemma foldl_joinPaths : forall segments base,
  foldl joinPaths base segments =
    match segments with
    | [] => base
    | _ => dropTrailingSlash base +:+ joined segments
    end.
Proof.
  induction segments as [|s rest IH]; intros base; [reflexivity|].
  simpl foldl. rewrite IH. destruct rest as [|s' rest].
  - apply joinPaths_halves.
  - rewrite joinPaths_halves.
    destruct (withLeadingSlash_cons s) as (t & Et).
    rewrite dropTrailingSlash_app by (rewrite Et; discriminate).
    rewrite app_assoc_string. reflexivity.
Qed.

Lemma dropTrailingSlash_starts a :
  Js.startsWith a "/" = true ->
  dropTrailingSlash a = "" \/ Js.startsWith (dropTrailingSlash a) "/" = true.
Proof.
  intros (t & ->)%startsWith_slash. destruct t as [|c t].
  - left. reflexivity.
  - right. apply startsWith_slash. eexists. reflexivity.
Qed.

Lemma joinPaths_starts a b :
  a = "" \/ Js.startsWith a "/" = true -> Js.startsWith (joinPaths a b) "/" = true.
Proof.
  intros H. rewrite joinPaths_halves.
  assert (H' : dropTrailingSlash a = "" \/ Js.startsWith (dropTrailingSlash a) "/" = true).
  { destruct H as [->|H]; [left; reflexivity|apply dropTrailingSlash_starts; exact H]. }
  destruct H' as [->|H']; [apply withLeadingSlash_starts|].
  apply startsWith_slash in H' as (t & ->). reflexivity.
Qed.

Lemma hasDoubleSlash_cons2 c c' s :
  hasDoubleSlash (String c (String c' s))
  = (Ascii.eqb c "/" && Ascii.eqb c' "/") || hasDoubleSlash (String c' s).
Proof. reflexivity. Qed.

Lemma dropTrailingSlash_cons2 c c' s :
  dropTrailingSlash (String c (String c' s)) = String c (dropTrailingSlash (String c' s)).
Proof. reflexivity. Qed.

Lemma endsSlash_cons2 c c' s : endsSlash (String c (String c' s)) = endsSlash (String c' s).
Proof. reflexivity. Qed.

Lemma dropTrailingSlash_empty c s :
  dropTrailingSlash (String c s) = "" -> s = "" /\ Ascii.eqb c "/" = true.
Proof.
  destruct s as [|c' s].
  - cbn [dropTrailingSlash]. destruct (Ascii.eqb c "/"); [auto|discriminate].
  - rewrite dropTrailingSlash_cons2. discriminate.
Qed.

Lemma dropTrailingSlash_tidy : forall a,
  hasDoubleSlash a = false ->
  hasDoubleSlash (dropTrailingSlash a) = false /\ endsSlash (dropTrailingSlash a) = false.
Proof.
  induction a as [|c a IH]; intros H; [split; reflexivity|].
  destruct a as [|c' a].
  - cbn [dropTrailingSlash]. destruct (Ascii.eqb c "/") eqn:E; [split; reflexivity|].
    split; [reflexivity|exact E].
  - rewrite hasDoubleSlash_cons2 in H. apply orb_false_elim in H as [Hc Ha].
    destruct (IH Ha) as [IH1 IH2]. rewrite dropTrailingSlash_cons2.
    destruct (dropTrailingSlash (String c' a)) as [|d t] eqn:Ed.
    + apply dropTrailingSlash_empty in Ed as [-> Ec']. rewrite Ec', andb_true_r in Hc.
      split; [reflexivity|exact Hc].
    + rewrite hasDoubleSlash_cons2, endsSlash_cons2, IH1, IH2, orb_false_r.
      split; [|reflexivity].
      destruct (Ascii.eqb c "/") eqn:Ec; [|reflexivity]. simpl in Hc |- *.
      destruct a as [|c'' a].
      * cbn [dropTrailingSlash] in Ed. rewrite Hc in Ed. injection Ed as <- _. exact Hc.
      * rewrite dropTrailingSlash_cons2 in Ed. injection Ed as <- _. exact Hc.
Qed.

Lemma withLeadingSlash_tidy b :
  hasDoubleSlash b = false -> hasDoubleSlash (withLeadingSlash b) = false.
Proof.
  intros H. unfold withLeadingSlash. destruct (Js.startsWith b "/") eqn:E; [exact H|].
  destruct b as [|c b]; [reflexivity|].
  change ("/" +:+ String c b) with (String "/" (String c b)).
  rewrite hasDoubleSlash_cons2, H, orb_false_r.
  change (Js.startsWith (String c b) "/") with (Ascii.eqb c "/" && true) in E.
  rewrite andb_true_r in E. rewrite E. reflexivity.
Qed.

Lemma hasDoubleSlash_app : forall x y,
  hasDoubleSlash x = false -> endsSlash x = false -> hasDoubleSlash y = false ->
  hasDoubleSlash (x +:+ y) = false.
Proof.
  induction x as [|c x IH]; intros y Hx He Hy; [exact Hy|].
  destruct x as [|c' x].
  - change (String c "" +:+ y) with (String c y).
    destruct y as [|d y]; [reflexivity|].
    rewrite hasDoubleSlash_cons2, Hy, orb_false_r.
    cbn [endsSlash] in He. rewrite He. reflexivity.
  - change (String c (String c' x) +:+ y) with (String c (String c' (x +:+ y))).
    rewrite hasDoubleSlash_cons2 in Hx |- *. apply orb_false_elim in Hx as [Hc Hx].
    rewrite Hc. simpl orb. change (String c' (x +:+ y)) with (String c' x +:+ y).
    apply IH; assumption.
Qed.

Lemma joinPaths_tidy a b :
  hasDoubleSlash a = false -> hasDoubleSlash b = false ->
  hasDoubleSlash (joinPaths a b) = false.
Proof.
  intros Ha Hb. rewrite joinPaths_halves.
  destruct (dropTrailingSlash_tidy a Ha) as [H1 H2].
  apply hasDoubleSlash_app; [exact H1|exact H2|apply withLeadingSlash_tidy; exact Hb].
Qed.

Lemma foldl_joinPaths_tidy : forall segments base,
  hasDoubleSlash base = false ->
  Forall (fun s => hasDoubleSlash s = false) segments ->
  hasDoubleSlash (foldl joinPaths base segments) = false.
Proof.
  induction segments as [|s rest IH]; intros base Hb Hs; [exact Hb|].
  inversion Hs as [|? ? H1 H2]; subst. simpl. apply IH; [|exact H2].
  apply joinPaths_tidy; assumption.
Qed.

(** ** Group prefixes *)

Lemma rootRouters_values text ginAlias x :
  default "" (rootRouters text ginAlias !! x) = "".
Proof.
  unfold rootRouters.
  set (map0 := match exec (Pat.rootParam ginAlias) text with
               | Some pm => <[grp' 1 pm:=""]> ∅
               | None => ∅
               end : gmap string string).
  assert (H0 : forall y, default "" (map0 !! y) = "").
  { intros y. unfold map0. destruct (exec _ text) as [pm|].
    - destruct (decide (grp' 1 pm = y)) as [->|Hne].
      + rewrite lookup_insert_eq. reflexivity.
      + rewrite lookup_insert_ne by exact Hne. rewrite lookup_empty. reflexivity.
    - rewrite lookup_empty. reflexivity. }
  revert H0. generalize map0. clear map0.
  induction (execAll (Pat.rootAssign ginAlias) text) as [|m ms IH]; intros map0 H0; simpl.
  - apply H0.
  - apply IH. intros y. destruct (decide (grp' 1 m = y)) as [->|Hne].
    + rewrite lookup_insert_eq. reflexivity.
    + rewrite lookup_insert_ne by exact Hne. apply H0.
Qed.

Lemma groupStep_site pm u m child base rel :
  callSite m = (child, base, rel) ->
  exists pm',
    groupStep (pm, u) m
      = (pm', if bool_decide (pm !! child = Some (joinPaths (default "" (pm !! base)) rel))
               then u else true)
    /\ pm' !! child = Some (joinPaths (default "" (pm !! base)) rel)
    /\ (forall x, x <> child -> pm' !! x = pm !! x).
Proof.
  unfold callSite. intros H. injection H as H1 H2 H3. unfold groupStep.
  rewrite H1, H2, H3.
  destruct (bool_decide_reflect
              (pm !! child = Some (joinPaths (default "" (pm !! base)) rel))) as [E|E].
  - exists pm. split; [reflexivity|]. split; [exact E|reflexivity].
  - eexists. split; [reflexivity|]. split.
    + apply lookup_insert_eq.
    + intros x Hx. apply lookup_insert_ne. congruence.
Qed.

Lemma chain_pass : forall chain ms base pm u,
  map callSite ms = links base chain ->
  NoDup (base :: map fst chain) ->
  exists pm' u',
    foldl groupStep (pm, u) ms = (pm', u')
    /\ (forall x, x ∉ map fst chain -> pm' !! x = pm !! x)
    /\ resolved (default "" (pm !! base)) chain pm'.
Proof.
  induction chain as [|[child rel] chain IH]; intros ms base pm u Hms Hnd.
  - destruct ms; [|discriminate]. exists pm, u. repeat split.
  - destruct ms as [|m ms]; [discriminate|]. cbn [List.map links] in Hms.
    assert (Hm : callSite m = (child, base, rel)) by congruence.
    assert (Hms' : map callSite ms = links child chain) by congruence.
    clear Hms. rename Hms' into Hms.
    destruct (groupStep_site pm u m child base rel Hm) as (pm1 & E1 & L1 & O1).
    simpl in Hnd. apply NoDup_cons in Hnd as [Hbase Hnd].
    pose proof Hnd as Hnd'. apply NoDup_cons in Hnd' as [Hchild _].
    set (u1 := if bool_decide (pm !! child
                                = Some (joinPaths (default "" (pm !! base)) rel))
               then u else true) in E1.
    destruct (IH ms child pm1 u1 Hms Hnd) as (pm' & u' & E & O & R).
    exists pm', u'.
    change (foldl groupStep (pm, u) (m :: ms))
      with (foldl groupStep (groupStep (pm, u) m) ms).
    rewrite E1. split; [exact E|]. split.
    + intros x Hx. rewrite O by (intros ?; apply Hx; right; assumption).
      apply O1. intros ->. apply Hx. left.
    + simpl. rewrite L1 in R. simpl in R. split; [|exact R].
      rewrite O by exact Hchild. exact L1.
Qed.

Lemma chain_stable : forall chain ms base pm u,
  map callSite ms = links base chain ->
  resolved (default "" (pm !! base)) chain pm ->
  foldl groupStep (pm, u) ms = (pm, u).
Proof.
  induction chain as [|[child rel] chain IH]; intros ms base pm u Hms R.
  - destruct ms; [reflexivity|discriminate].
  - destruct ms as [|m ms]; [discriminate|]. cbn [List.map links] in Hms.
    assert (Hm : callSite m = (child, base, rel)) by congruence.
    assert (Hms' : map callSite ms = links child chain) by congruence.
    clear Hms. rename Hms' into Hms.
    destruct R as [R1 R2].
    destruct (groupStep_site pm u m child base rel Hm) as (pm1 & E1 & L1 & O1).
    rewrite bool_decide_eq_true_2 in E1 by exact R1.
    assert (pm1 = pm) as ->.
    { unfold groupStep, callSite in *. injection Hm as H1 H2 H3.
      rewrite H1, H2, H3, bool_decide_eq_true_2 in E1 by exact R1.
      congruence. }
    change (foldl groupStep (pm, u) (m :: ms))
      with (foldl groupStep (groupStep (pm, u) m) ms).
    rewrite E1. apply (IH ms child); [exact Hms|].
    rewrite R1. exact R2.
Qed.

Lemma resolved_last : forall chain basePrefix pm child rel,
  resolved basePrefix chain pm ->
  last chain = Some (child, rel) ->
  pm !! child = Some (foldl joinPaths basePrefix (map snd chain)).
Proof.
  induction chain as [|[c s] chain IH]; intros bp pm child rel R Hl; [discriminate|].
  destruct R as [R1 R2]. destruct chain as [|cs chain].
  - injection Hl as -> ->. exact R1.
  - simpl. apply (IH _ _ child rel R2). exact Hl.
Qed.

Lemma foldl_joinPaths_slash : forall segments base,
  Js.startsWith base "/" = true ->
  Js.startsWith (foldl joinPaths base segments) "/" = true.
Proof.
  induction segments as [|s rest IH]; intros base H; [exact H|].
  simpl. apply IH. apply joinPaths_starts. right. exact H.
Qed.

Lemma joined_fold segments :
  segments <> [] -> foldl joinPaths "" segments = joined segments.
Proof.
  intros H. rewrite foldl_joinPaths. destruct segments; [contradiction|reflexivity].
Qed.

Lemma orElse_slash p d : Js.startsWith p "/" = true -> orElse (Some p) d = p.
Proof. intros (t & ->)%startsWith_slash. reflexivity. Qed.

Lemma groupStep_flag st m : snd st = true -> snd (groupStep st m) = true.
Proof.
  destruct st as [pm u]. simpl. intros ->. unfold groupStep.
  destruct (bool_decide _); reflexivity.
Qed.

Lemma foldl_groupStep_flag : forall ms st,
  snd st = true -> snd (foldl groupStep st ms) = true.
Proof.
  induction ms as [|m ms IH]; intros st H; [exact H|].
  simpl. apply IH. apply groupStep_flag. exact H.
Qed.

(** A pass that reports no update has changed nothing and found every call
    site settled. *)
Lemma pass_quiet : forall ms pm pm',
  foldl groupStep (pm, false) ms = (pm', false) ->
  pm' = pm /\ Forall (settled pm) (map callSite ms).
Proof.
  induction ms as [|m ms IH]; intros pm pm' H.
  - injection H as <-. split; [reflexivity|constructor].
  - change (foldl groupStep (pm, false) (m :: ms))
      with (foldl groupStep (groupStep (pm, false) m) ms) in H.
    unfold groupStep at 2 in H.
    destruct (bool_decide_reflect
                (pm !! grp' 1 m
                 = Some (joinPaths (default "" (pm !! grp' 2 m)) (grp' 3 m)))) as [E|E].
    + apply IH in H as [-> F]. split; [reflexivity|].
      constructor; [exact E|exact F].
    + pose proof (foldl_groupStep_flag ms
                    (<[grp' 1 m := joinPaths (default "" (pm !! grp' 2 m)) (grp' 3 m)]> pm,
                     true) eq_refl) as Hflag.
      rewrite H in Hflag. discriminate Hflag.
Qed.

Lemma resolveGroups_settled text : forall fuel pm0 pm,
  resolveGroups fuel text pm0 = Some pm ->
  Forall (settled pm) (map callSite (execAll Pat.groupRegex text)).
Proof.
  induction fuel as [|fuel IH]; intros pm0 pm H; [discriminate|].
  cbn [resolveGroups] in H. destruct (groupPass text pm0) as [pm1 u] eqn:E.
  destruct u; [apply (IH pm1); exact H|].
  injection H as <-. unfold groupPass in E. apply pass_quiet in E as [-> F]. exact F.
Qed.

Lemma settled_chain (pm : gmap string string) sites : forall chain base,
  Forall (settled pm) sites ->
  links base chain ⊆ sites ->
  resolved (default "" (pm !! base)) chain pm.
Proof.
  induction chain as [|[child rel] chain IH]; intros base F Hsub; [exact I|].
  assert (Hhead : settled pm (child, base, rel)).
  { rewrite Forall_forall in F. apply F. apply Hsub. left. }
  simpl in Hhead. split; [exact Hhead|].
  replace (joinPaths (default "" (pm !! base)) rel) with (default "" (pm !! child))
    by (rewrite Hhead; reflexivity).
  apply (IH child F).
  intros site Hsite. apply Hsub. right. exact Hsite.
Qed.

Lemma resolved_joinedOnce pm chain child rel relPath :
  resolved "" chain pm ->
  last chain = Some (child, rel) ->
  joinedOnce (prefixOf pm child) (map snd chain) relPath.
Proof.
  intros R Hlast.
  pose proof (resolved_last chain "" pm child rel R Hlast) as Hchild.
  assert (Hne : map snd chain <> []) by (destruct chain; [discriminate|discriminate]).
  assert (Hslash : Js.startsWith (foldl joinPaths "" (map snd chain)) "/" = true).
  { destruct (map snd chain) as [|s rest]; [contradiction|]. simpl.
    apply foldl_joinPaths_slash. apply joinPaths_starts. left. reflexivity. }
  assert (Hprefix : prefixOf pm child = foldl joinPaths "" (map snd chain)).
  { unfold prefixOf. rewrite Hchild. apply orElse_slash. exact Hslash. }
  unfold joinedOnce. rewrite Hprefix.
  assert (Hroute : joinPaths (foldl joinPaths "" (map snd chain)) relPath
                   = foldl joinPaths "" (map snd chain ++ [relPath]))
    by (rewrite foldl_app; reflexivity).
  split; [apply joined_fold; exact Hne|].
  split; [rewrite Hroute; apply joined_fold; destruct (map snd chain); discriminate|].
  split; [exact Hslash|].
  split; [apply joinPaths_starts; right; exact Hslash|].
  intros Htidy. split.
  - apply foldl_joinPaths_tidy; [reflexivity|].
    apply Forall_app in Htidy as [H _]. exact H.
  - rewrite Hroute. apply foldl_joinPaths_tidy; [reflexivity|exact Htidy].
Qed.

Lemma prefixOf_empty pm x : prefixOf pm x = "" -> default "" (pm !! x) = "".
Proof.
  unfold prefixOf. destruct (pm !! x) as [[|a s]|]; simpl; [reflexivity|discriminate|reflexivity].
Qed.

(** C3, as amended.  Take a chain of nested [.Group] registrations, each
    variable made from the one before it, on a router variable whose prefix
    is empty.  Whenever [buildGroupPrefixMap] returns, the prefix resolved
    for the last variable, and the path of a registration made on it, is the
    sequence of the segment literals in declaration order, each given a
    leading slash when it has none and each but the last relieved of one
    trailing slash.  The result starts with a slash; it holds no double slash
    when no literal holds one, and one slash only is taken from the end of a
    literal.  And [buildGroupPrefixMap] returns, within two passes, when the
    call sites of the chain are those of the text and its variables are
    distinct. *)
Theorem nested_groups_join_once :
  forall (text ginAlias root : string) (chain : list (string * string))
         (child rel relPath : string),
    last chain = Some (child, rel) ->
    (forall fuel groupPrefixes,
       buildGroupPrefixMap fuel text ginAlias = Some groupPrefixes ->
       links root chain ⊆ map callSite (execAll Pat.groupRegex text) ->
       prefixOf groupPrefixes root = "" ->
       joinedOnce (prefixOf groupPrefixes child) (map snd chain) relPath)
    /\ (NoDup (root :: map fst chain) ->
        map callSite (execAll Pat.groupRegex text) = links root chain ->
        forall fuel, exists groupPrefixes,
          buildGroupPrefixMap (S (S fuel)) text ginAlias = Some groupPrefixes
          /\ prefixOf groupPrefixes root = "").
Proof.
  intros text ginAlias root chain child rel relPath Hlast. split.
  - intros fuel pm Hbuild Hsub Hroot. unfold buildGroupPrefixMap in Hbuild.
    apply resolveGroups_settled in Hbuild.
    pose proof (settled_chain pm _ chain root Hbuild Hsub) as R.
    rewrite (prefixOf_empty _ _ Hroot) in R.
    apply (resolved_joinedOnce pm chain child rel relPath R Hlast).
  - intros Hnd Hms fuel. unfold buildGroupPrefixMap.
    set (pm0 := rootRouters text ginAlias).
    destruct (chain_pass chain _ root pm0 false Hms Hnd) as (pm1 & u1 & E & O & R).
    unfold pm0 in R. rewrite rootRouters_values in R.
    assert (Hroot : default "" (pm1 !! root) = "").
    { rewrite O; [apply rootRouters_values|]. apply NoDup_cons in Hnd as [H _]. exact H. }
    assert (Hstable : groupPass text pm1 = (pm1, false)).
    { unfold groupPass. apply (chain_stable chain _ root); [exact Hms|].
      rewrite Hroot. exact R. }
    exists pm1. split.
    + cbn [resolveGroups]. unfold groupPass at 1. rewrite E.
      destruct u1; [|reflexivity]. rewrite Hstable. reflexivity.
    + unfold prefixOf. destruct (pm1 !! root) as [s|]; [|reflexivity].
      simpl in Hroot. rewrite Hroot. reflexivity.
Qed.

Lemma nested_groups_join_once_witness :
  NoDup ("r" :: map fst [("api", "api/"); ("v1", "/v1/"); ("users", "users")])
  /\ map callSite (execAll Pat.groupRegex Groups.nested)
     = links "r" [("api", "api/"); ("v1", "/v1/"); ("users", "users")]
  /\ exists groupPrefixes,
       buildGroupPrefixMap 2 Groups.nested "gin" = Some groupPrefixes
       /\ prefixOf groupPrefixes "r" = ""
       /\ prefixOf groupPrefixes "users" = "/api/v1/users"
       /\ joinPaths (prefixOf groupPrefixes "users") "/:id" = "/api/v1/users/:id".
Proof.
  assert (H1 : NoDup ("r" :: map fst [("api", "api/"); ("v1", "/v1/"); ("users", "users")])).
  { apply (proj1 (bool_decide_eq_true _)). vm_compute. reflexivity. }
  assert (H2 : map callSite (execAll Pat.groupRegex Groups.nested)
               = links "r" [("api", "api/"); ("v1", "/v1/"); ("users", "users")])
    by (vm_compute; reflexivity).
  split; [exact H1|]. split; [exact H2|].
  destruct (nested_groups_join_once Groups.nested "gin" "r"
              [("api", "api/"); ("v1", "/v1/"); ("users", "users")]
              "users" "users" "/:id" eq_refl) as (Hjoin & Hends).
  destruct (Hends H1 H2 0) as (pm & E & Hroot).
  assert (Hsub : links "r" [("api", "api/"); ("v1", "/v1/"); ("users", "users")]
                 ⊆ map callSite (execAll Pat.groupRegex Groups.nested))
    by (rewrite H2; intros site Hsite; exact Hsite).
  destruct (Hjoin 2 pm E Hsub Hroot) as (P1 & P2 & _).
  exists pm. split; [exact E|]. split; [exact Hroot|]. split.
  - rewrite P1. vm_compute. reflexivity.
  - rewrite P2. vm_compute. reflexivity.
Defined.

(** The statement without the amendment fails: with a literal that ends in
    two slashes the resolved prefix and the path of the registration hold a
    double slash. *)
Lemma nested_groups_double_slash :
  map callSite (execAll Pat.groupRegex Groups.doubled)
    = links "r" [("api", "/api//"); ("v1", "/v1")]
  /\ exists groupPrefixes,
       buildGroupPrefixMap 2 Groups.doubled "gin" = Some groupPrefixes
       /\ prefixOf groupPrefixes "v1" = "/api//v1"
       /\ hasDoubleSlash (prefixOf groupPrefixes "v1") = true
       /\ joinPaths (prefixOf groupPrefixes "v1") "/users" = "/api//v1/users"
       /\ findRoutesInTextByNames 2 (mkDoc "routes.go" Groups.doubled) {["ListUsers"]}
          = Some [mkRoute "GET" "/api//v1/users" "ListUsers" "routes.go" (67, 93)].
Proof.
  split; [vm_compute; reflexivity|].
  eexists. split; [vm_compute; reflexivity|].
  repeat split; vm_compute; reflexivity.
Qed.

Lemma length_turns k : String.length (Groups.turns k) = 4 * k.
Proof.
  induction k as [|k IH]; [reflexivity|].
  cbn [Groups.turns]. rewrite length_app, IH. simpl. lia.
Qed.

Lemma joinPaths_turns_x k :
  joinPaths (Groups.turns (S k)) "/x" = Groups.turns (S k) +:+ "/x".
Proof.
  rewrite joinPaths_halves. cbn [Groups.turns].
  rewrite dropTrailingSlash_app by discriminate. reflexivity.
Qed.

Lemma joinPaths_turns_y k :
  joinPaths (Groups.turns k +:+ "/x") "/y" = Groups.turns (S k).
Proof.
  rewrite joinPaths_halves, dropTrailingSlash_app by discriminate.
  cbn [Groups.turns]. rewrite app_assoc_string. reflexivity.
Qed.

Lemma cyclic_pass (pm : gmap string string) :
  pm = ∅ \/ (exists k, pm !! "a" = Some (Groups.turns k +:+ "/x")
                       /\ pm !! "b" = Some (Groups.turns (S k))) ->
  exists pm' k,
    groupPass Groups.cyclic pm = (pm', true)
    /\ pm' !! "a" = Some (Groups.turns k +:+ "/x")
    /\ pm' !! "b" = Some (Groups.turns (S k)).
Proof.
  intros Hpm. unfold groupPass.
  assert (Hsites : map callSite (execAll Pat.groupRegex Groups.cyclic)
                   = [("a", "b", "/x"); ("b", "a", "/y")]) by (vm_compute; reflexivity).
  destruct (execAll Pat.groupRegex Groups.cyclic) as [|m1 [|m2 [|m3 ms]]]; try discriminate.
  cbn [List.map] in Hsites.
  assert (H1 : callSite m1 = ("a", "b", "/x")) by congruence.
  assert (H2 : callSite m2 = ("b", "a", "/y")) by congruence.
  clear Hsites.
  destruct (groupStep_site pm false m1 _ _ _ H1) as (pm1 & E1 & L1 & O1).
  assert (Hfirst : exists j,
            groupStep (pm, false) m1 = (pm1, true)
            /\ pm1 !! "a" = Some (Groups.turns j +:+ "/x")).
  { destruct Hpm as [->|(k & Ha & Hb)].
    - exists 0. rewrite lookup_empty in E1, L1.
      rewrite bool_decide_eq_false_2 in E1 by discriminate.
      split; [exact E1|exact L1].
    - exists (S k). rewrite Ha, Hb in E1. rewrite Hb in L1.
      cbn [from_option] in E1, L1. unfold id in E1, L1.
      rewrite joinPaths_turns_x in E1, L1.
      rewrite bool_decide_eq_false_2 in E1; [split; [exact E1|exact L1]|].
      intros H. injection H as H. apply (f_equal String.length) in H.
      rewrite !length_app, !length_turns in H. cbn [String.length] in H. lia. }
  destruct Hfirst as (j & E1' & La).
  destruct (groupStep_site pm1 true m2 _ _ _ H2) as (pm2 & E2 & L2 & O2).
  exists pm2, j.
  change (foldl groupStep (pm, false) [m1; m2])
    with (groupStep (groupStep (pm, false) m1) m2).
  rewrite E1', E2. clear E1 E2. split.
  { match goal with |- context [bool_decide ?P] => destruct (bool_decide P) end;
      reflexivity. }
  split.
  - rewrite O2 by discriminate. exact La.
  - rewrite L2, La. cbn [from_option]. unfold id. rewrite joinPaths_turns_y. reflexivity.
Qed.

Lemma cyclic_never_settles : forall fuel (pm : gmap string string),
  pm = ∅ \/ (exists k, pm !! "a" = Some (Groups.turns k +:+ "/x")
                       /\ pm !! "b" = Some (Groups.turns (S k))) ->
  resolveGroups fuel Groups.cyclic pm = None.
Proof.
  induction fuel as [|fuel IH]; intros pm Hpm; [reflexivity|].
  destruct (cyclic_pass pm Hpm) as (pm' & k & E & Ha & Hb).
  cbn [resolveGroups]. rewrite E. apply IH. right. exists k. split; assumption.
Qed.

(** C2, which the code breaks.  On the text of two variables each assigned
    from a [.Group] call on the other, no number of passes ends the loop of
    [buildGroupPrefixMap]: every pass makes both prefixes longer. *)
Theorem group_cycle_never_settles :
  forall fuel : nat, buildGroupPrefixMap fuel Groups.cyclic "gin" = None.
Proof.
  intros fuel. unfold buildGroupPrefixMap. apply cyclic_never_settles. left.
  vm_compute. reflexivity.
Qed.

Lemma redeclared_pass (pm : gmap string string) :
  pm !! "r" = Some "" ->
  exists pm', groupPass Groups.redeclared pm = (pm', true) /\ pm' !! "r" = Some "".
Proof.
  intros Hr. unfold groupPass.
  assert (Hsites : map callSite (execAll Pat.groupRegex Groups.redeclared)
                   = [("g", "r", "/admin"); ("g", "r", "/public")])
    by (vm_compute; reflexivity).
  destruct (execAll Pat.groupRegex Groups.redeclared) as [|m1 [|m2 [|m3 ms]]];
    try discriminate.
  cbn [List.map] in Hsites.
  assert (H1 : callSite m1 = ("g", "r", "/admin")) by congruence.
  assert (H2 : callSite m2 = ("g", "r", "/public")) by congruence.
  clear Hsites.
  destruct (groupStep_site pm false m1 _ _ _ H1) as (pm1 & E1 & L1 & O1).
  set (u1 := if bool_decide _ then false else true) in E1.
  destruct (groupStep_site pm1 u1 m2 _ _ _ H2) as (pm2 & E2 & L2 & O2).
  exists pm2.
  change (foldl groupStep (pm, false) [m1; m2])
    with (groupStep (groupStep (pm, false) m1) m2).
  rewrite E1. rewrite Hr in L1. rewrite (O1 "r"), Hr in E2 by discriminate.
  rewrite L1 in E2.
  rewrite bool_decide_eq_false_2 in E2 by (intros H; vm_compute in H; discriminate H).
  clear E1. rewrite E2.
  split; [reflexivity|]. rewrite O2, O1 by discriminate. exact Hr.
Qed.

(** The loop does not end either on a text that assigns one variable from
    two different groups, as two functions of one file do that each name
    their group alike: the passes set the prefix to the one and the other in
    turn. *)
Lemma redeclared_group_never_settles :
  forall fuel : nat, buildGroupPrefixMap fuel Groups.redeclared "gin" = None.
Proof.
  intros fuel. unfold buildGroupPrefixMap.
  assert (Hr : rootRouters Groups.redeclared "gin" !! "r" = Some "")
    by (vm_compute; reflexivity).
  revert Hr. generalize (rootRouters Groups.redeclared "gin").
  induction fuel as [|fuel IH]; intros pm Hr; [reflexivity|].
  destruct (redeclared_pass pm Hr) as (pm' & E & Hr').
  cbn [resolveGroups]. rewrite E. apply IH. exact Hr'.
Qed.

(** ** Struct fields *)

Lemma uniqueFields_names : forall fields seen x,
  x ∈ map fname fields -> x ∉ seen -> x ∈ map fname (uniqueFields seen fields).
Proof.
  induction fields as [|f fields IH]; intros seen x Hin Hseen; simpl in *.
  - exact Hin.
  - destruct (bool_decide_reflect (fname f ∈ seen)) as [Hf|Hf].
    + apply elem_of_cons in Hin as [->|Hin]; [contradiction|]. apply IH; assumption.
    + simpl. destruct (decide (x = fname f)) as [->|Hne]; [left|].
      apply elem_of_cons in Hin as [->|Hin]; [contradiction|].
      right. apply IH; [assumption|]. intros [?|?]%elem_of_cons; contradiction.
Qed.

(** The statement without the amendment fails: the struct of the sample text
    has a field line whose tag name is the marker, and the resolved list has
    its field, under the lower-camel transform of its identifier; the
    resolution that omits such lines gives another list. *)
Lemma suppressed_tag_not_omitted :
  tagName Sample.secretLine = Some "-"
  /\ Sample.secretLine ∈ structLines Sample.server "Signup"
  /\ extractStructFieldsFromText Sample.server "Signup"
     = [mkField "email" "string"; mkField "age" "int"; mkField "secret" "string"]
  /\ fieldsOmittingSuppressed Sample.server "Signup"
     = [mkField "email" "string"; mkField "age" "int"]
  /\ extractStructFieldsFromText Sample.server "Signup"
     <> fieldsOmittingSuppressed Sample.server "Signup".
Proof.
  split; [vm_compute; reflexivity|].
  split; [vm_compute; do 3 right; left|].
  split; [vm_compute; reflexivity|].
  split; [vm_compute; reflexivity|].
  vm_compute. discriminate.
Qed.

(** ** Base address *)






Lemma runTLS_matches p pv tail :
  matchAt Pat.runTLS (Cursor p pv (list_ascii_of_string ".RunTLS(" ++ tail)) <> None.
Proof. vm_compute. discriminate. Qed.


Lemma slice_units_clamped text (a b : nat) :
  list_ascii_of_string (Js.slice text (Z.of_nat a) (Z.of_nat b))
  = take (Nat.min b (String.length text) - Nat.min a (String.length text))
         (drop (Nat.min a (String.length text)) (list_ascii_of_string text)).
Proof.
  unfold Js.slice, Js.clampIndex.
  destruct (Z.ltb_spec (Z.of_nat a) 0); [lia|].
  destruct (Z.ltb_spec (Z.of_nat b) 0); [lia|].
  rewrite !Nat2Z.id. apply substring_units.
Qed.

(** A [RunTLS] call written without white space before its parenthesis, ten
    code units or more into the text, has [.RunTLS(] in its window. *)
Lemma tls_in_window text (m : rmatch) :
  10 <= index m ->
  Js.slice text (Z.of_nat (index m)) (Z.of_nat (index m) + 8) = ".RunTLS(" ->
  tlsInWindow text m = true.
Proof.
  intros Hten Hcall. unfold tlsInWindow. apply test_occurs.
  set (i := index m) in *. set (l := list_ascii_of_string text).
  assert (Hlen : List.length l = String.length text) by apply length_list_ascii.
  apply (f_equal list_ascii_of_string) in Hcall.
  replace (Z.of_nat i + 8)%Z with (Z.of_nat (i + 8)) in Hcall by lia.
  rewrite slice_units_clamped in Hcall. fold l in Hcall.
  assert (Hfit : i + 8 <= String.length text).
  { apply (f_equal (@List.length ascii)) in Hcall.
    rewrite length_take, length_drop in Hcall. simpl in Hcall. lia. }
  rewrite !Nat.min_l in Hcall by lia.
  replace (i + 8 - i) with 8 in Hcall by lia.
  replace (Z.of_nat i - 10)%Z with (Z.of_nat (i - 10)) by lia.
  replace (Z.of_nat i + 10)%Z with (Z.of_nat (i + 10)) by lia.
  set (window := Js.slice text (Z.of_nat (i - 10)) (Z.of_nat (i + 10))).
  assert (Hw : list_ascii_of_string window
               = take (Nat.min (i + 10) (String.length text) - (i - 10)) (drop (i - 10) l)).
  { unfold window. rewrite slice_units_clamped. fold l.
    rewrite (Nat.min_l (i - 10)) by lia. reflexivity. }
  set (k := Nat.min (i + 10) (String.length text) - (i - 10)) in Hw.
  assert (Hk : 18 <= k) by (unfold k; lia).
  exists 10. split.
  - rewrite <- length_list_ascii, Hw, length_take, length_drop. lia.
  - unfold cursorAt. rewrite Hw.
    rewrite skipn_firstn_comm, drop_drop.
    replace (i - 10 + 10) with i by lia.
    replace (k - 10) with (8 + (k - 18)) by lia.
    rewrite <- (take_drop 8 (drop i l)) at 1.
    rewrite take_app_add' by (rewrite length_take, length_drop; lia).
    rewrite Hcall. apply runTLS_matches.
Qed.


(** The test for the TLS variant allows white space before the parenthesis,
    but it is tried on the twenty code units around the start of the call
    site: a [RunTLS] call site written with three code units of white space
    before its parenthesis is returned with the scheme http, although the
    pattern of the test occurs in the text.  With two code units of white
    space, or none, the scheme is https.  The window also loses a call site
    less than ten code units into a text: its start, counted from the end of
    the text, lies behind its end. *)
Lemma runTLS_scheme_lost :
  (exists m,
     exec Pat.runRe Servers.spacedTLS = Some m
     /\ Js.slice Servers.spacedTLS (Z.of_nat (index m)) (Z.of_nat (index m) + 7)
        = ".RunTLS"
     /\ normalizeAddr (grp' 1 m) = Some "localhost:8443"
     /\ occurs Pat.runTLS Servers.spacedTLS
     /\ Js.slice Servers.spacedTLS (Z.of_nat (index m) - 10) (Z.of_nat (index m) + 10)
        = "fault()" +:+ Sample.lf +:+ Sample.tab +:+ "r.RunTLS   "
     /\ tlsInWindow Servers.spacedTLS m = false)
  /\ detectBaseUrlFromWorkspace [Servers.spacedTLS] = Some "http://localhost:8443"
  /\ detectBaseUrlFromWorkspace [Servers.twiceSpacedTLS] = Some "https://localhost:8443"
  /\ detectBaseUrlFromWorkspace [Servers.tls] = Some "https://localhost:8443"
  /\ detectBaseUrlFromWorkspace
       ["r.RunTLS(" +:+ Sample.q ":8443" +:+ Servers.certificate +:+ ")"]
     = Some "http://localhost:8443".
Proof.
  split.
  - eexists. split; [vm_compute; reflexivity|].
    split; [vm_compute; reflexivity|]. split; [vm_compute; reflexivity|].
    split; [apply test_occurs; vm_compute; reflexivity|].
    split; vm_compute; reflexivity.
  - repeat split; vm_compute; reflexivity.
Qed.


(** ** The statements on the sample texts *)

Lemma unresolved_type_gives_empty_object_witness :
  ~ occurs (Pat.defRe "Missing") Orphan.text
  /\ extractStructFieldsFromText Orphan.text "Missing" = []
  /\ scanWorkspace 3 [mkDoc "orphan.go" Orphan.text]
     = Some ([Orphan.handler], [Orphan.route])
  /\ exists headerFlags url,
       generateCurl Orphan.clock Orphan.handler (Some Orphan.route) Orphan.options
       = Returns (Js.join continuation
                 ["curl"; "-X " +:+ "POST"; headerFlags; "-d '{}'"; shellQuote url]).
Proof.
  destruct unresolved_type_gives_empty_object as (Hfields & Hcurl).
  assert (Habsent : ~ occurs (Pat.defRe "Missing") Orphan.text)
    by (apply test_false_occurs; vm_compute; reflexivity).
  split; [exact Habsent|].
  split; [exact (Hfields Orphan.text "Missing" Habsent)|].
  split; [vm_compute; reflexivity|].
  apply (Hcurl Orphan.clock Orphan.handler (Some Orphan.route) Orphan.options
           "POST" "/things").
  - vm_compute. reflexivity.
  - vm_compute. reflexivity.
  - vm_compute. reflexivity.
  - reflexivity.
  - right. reflexivity.
Defined.

Lemma findMatchingBrace_balanced_witness :
  Js.at_ Braces.closed 9 = Some "{"%char
  /\ findMatchingBrace Braces.closed 9 = 24%Z
  /\ Forall (fun k => 9 <= k < String.length Braces.closed) (bracesRead Braces.closed 9)
  /\ Js.at_ Braces.open 9 = Some "{"%char
  /\ findMatchingBrace Braces.open 9 = (-1)%Z
  /\ bodyTextAt Braces.open 9 = ""
  /\ innerAt Braces.open 9 = "".
Proof.
  assert (H1 : Js.at_ Braces.closed 9 = Some "{"%char) by reflexivity.
  assert (H2 : Js.at_ Braces.open 9 = Some "{"%char) by reflexivity.
  destruct (findMatchingBrace_balanced Braces.closed 9 H1) as (Hreads & _).
  destruct (findMatchingBrace_balanced Braces.open 9 H2) as (_ & Hopen).
  split; [exact H1|]. split; [vm_compute; reflexivity|]. split; [exact Hreads|].
  split; [exact H2|].
  destruct Hopen as [(E1 & E2 & E3)|(j & E & _)].
  - split; [exact E1|]. split; [exact E2|exact E3].
  - exfalso. vm_compute in E. destruct j; discriminate E.
Defined.

Lemma sampleValueForGoType_terminates_witness :
  Js.startsWith (Js.trim " *[]int") "*" = true
  /\ String.length (Js.sliceFrom (Js.trim " *[]int") 1) < String.length " *[]int"
  /\ Js.startsWith (Js.trim "[]int") "[]" = true
  /\ String.length (Js.sliceFrom (Js.trim "[]int") 2) < String.length "[]int"
  /\ sampleValueForGoType " *[]int" "count" "" = JArr [JNum 0].
Proof.
  destruct (sampleValueForGoType_terminates " *[]int" "count" "") as (_ & L1 & _).
  destruct (sampleValueForGoType_terminates "[]int" "count" "") as (_ & _ & L2).
  assert (H1 : Js.startsWith (Js.trim " *[]int") "*" = true) by reflexivity.
  assert (H2 : Js.startsWith (Js.trim "[]int") "[]" = true) by reflexivity.
  split; [exact H1|]. split; [exact (L1 H1)|]. split; [exact H2|].
  split; [exact (L2 H2)|]. vm_compute. reflexivity.
Defined.

Example accessors_in_order :
  let p := inferParamsFromBody Bodies.accessors (Some "c") "gin" "" in
  pathParams p = ["id"]
  /\ queryParams p = ["b"; "a"]
  /\ headers p = ["X-A"; "X-C"; "X-B"]
  /\ cookies p = ["sid"].
Proof. vm_compute. repeat split; reflexivity. Qed.

Example sample_request :
  generateCurl Orphan.clock Orphan.handler (Some Orphan.route) Orphan.options
  = Returns (Js.join continuation
            ["curl"; "-X POST"; "-H 'Accept: application/json'";
             "-H 'Content-Type: application/json'"; "-d '{}'";
             "'http://localhost:8080/things'"]).
Proof. vm_compute. reflexivity. Qed.

Example nested_groups_resolve :
  findRoutesInTextByNames 2 (mkDoc "routes.go" Groups.nested) {["GetUser"]}
  = Some [mkRoute "GET" "/api/v1/users/:id" "GetUser" "routes.go" (93, 118)].
Proof. vm_compute. reflexivity. Qed.

(** ** What the matcher finds *)

Lemma run_matches r : forall c g k o,
  run r c g k = Some o ->
  exists c' g', matches r c g c' g' /\ k c' g' = Some o.
Proof.
  induction r as [|p|r1 IH1 r2 IH2|r1 IH1 r2 IH2|greedy r1 IH1|n r1 IH1| | | |r1 IH1];
    intros c g k o H; cbn [run] in H.
  - exists c, g. split; [constructor|exact H].
  - destruct (rest c) as [|a t] eqn:E; [discriminate|].
    destruct (p a) eqn:Hp; [|discriminate].
    exists (advance c), g. split; [econstructor; eassumption|exact H].
  - apply IH1 in H as (c1 & g1 & M1 & H).
    apply IH2 in H as (c2 & g2 & M2 & H).
    exists c2, g2. split; [econstructor; eassumption|exact H].
  - destruct (run r1 c g k) eqn:E.
    + injection H as <-. apply IH1 in E as (c1 & g1 & M & E).
      exists c1, g1. split; [apply matches_left; exact M|exact E].
    + apply IH2 in H as (c1 & g1 & M & E').
      exists c1, g1. split; [apply matches_right; exact M|exact E'].
  - revert H. generalize (S (List.length (rest c))) as n.
    intros n. revert c g o. induction n as [|n IHn]; intros c g o H; simpl in H.
    + exists c, g. split; [constructor|exact H].
    + assert (Hiter : forall o',
        run r1 c g (fun c' g' =>
          if (pos c <? pos c')%nat then iterate (run r1) greedy k n c' g' else None) = Some o' ->
        exists c' g', matches (Star greedy r1) c g c' g' /\ k c' g' = Some o').
      { intros o' E. apply IH1 in E as (c1 & g1 & M1 & E).
        destruct (pos c <? pos c1)%nat eqn:Hlt; [|discriminate].
        apply Nat.ltb_lt in Hlt.
        apply IHn in E as (c2 & g2 & M2 & E).
        exists c2, g2. split; [eapply matches_again; eassumption|exact E]. }
      destruct greedy.
      * destruct (run r1 c g _) eqn:E in H.
        -- injection H as <-. apply Hiter. exact E.
        -- exists c, g. split; [constructor|exact H].
      * destruct (k c g) eqn:E.
        -- injection H as <-. exists c, g. split; [constructor|exact E].
        -- apply Hiter. exact H.
  - apply IH1 in H as (c1 & g1 & M & H).
    eexists c1, _. split; [constructor; exact M|exact H].
  - destruct (xorb _ _) eqn:E; [|discriminate].
    exists c, g. split; [constructor; exact E|exact H].
  - destruct (pos c =? 0)%nat eqn:E; [|discriminate].
    exists c, g. split; [constructor; apply Nat.eqb_eq; exact E|exact H].
  - destruct (rest c) eqn:E; [|discriminate].
    exists c, g. split; [constructor; exact E|exact H].
  - destruct (run r1 c g _) eqn:E; [discriminate|].
    exists c, g. split; [constructor; exact E|exact H].
Qed.

Lemma cursorAt_start text : start text = cursorAt text 0.
Proof. reflexivity. Qed.

Lemma drop_head {A} : forall p (l : list A) a t,
  skipn p l = a :: t -> nth_error l p = Some a /\ skipn (S p) l = t.
Proof.
  induction p as [|p IH]; intros l a t H.
  - destruct l; [discriminate|]. injection H as -> ->. split; reflexivity.
  - destruct l as [|x l]; [discriminate|]. apply (IH l a t H).
Qed.

Lemma cursorAt_step text p pv a t :
  Cursor p pv (a :: t) = cursorAt text p -> Cursor (S p) (Some a) t = cursorAt text (S p).
Proof.
  unfold cursorAt. intros H. injection H as _ H. symmetry in H.
  apply drop_head in H as [H1 H2]. rewrite H1, H2. reflexivity.
Qed.

Lemma pos_cursorAt text i : pos (cursorAt text i) = i.
Proof. reflexivity. Qed.

(** A match moves the cursor along the text. *)
Lemma matches_cursorAt text r c g c' g' :
  matches r c g c' g' -> c = cursorAt text (pos c) -> c' = cursorAt text (pos c').
Proof.
  induction 1 as [c g|p c g a t E Hp|r1 r2 c g c1 g1 c2 g2 _ IH1 _ IH2
                  |r1 r2 c g c' g' _ IH|r1 r2 c g c' g' _ IH
                  |greedy r c g|greedy r c g c1 g1 c2 g2 _ IH1 Hlt _ IH2
                  |n r c g c' g' _ IH|c g E|c g E|c g E|r c g E]; auto.
  intros Hc. destruct c as [p0 pv rs]. simpl in *. subst rs.
  unfold advance. simpl. eapply cursorAt_step. exact Hc.
Qed.

Lemma length_drop_cursor text i :
  List.length (rest (cursorAt text i)) = String.length text - i.
Proof. simpl. rewrite length_skipn, length_list_ascii. reflexivity. Qed.

Lemma matchAt_matched text r i m c' :
  i <= String.length text ->
  matchAt r (cursorAt text i) = Some (m, c') ->
  matched text r m /\ c' = cursorAt text (lastIndex m) /\ index m = i.
Proof.
  unfold matchAt. intros Hi H.
  destruct (run r (cursorAt text i) [] _) as [[c1 g1]|] eqn:E; [|discriminate].
  injection H as <- <-.
  pose proof E as E'. apply run_reaches in E' as (c3 & g3 & E' & L0 & L).
  injection E' as -> ->.
  apply run_matches in E as (c2 & g2 & M & E). injection E as -> ->.
  pose proof (matches_cursorAt text _ _ _ _ _ M eq_refl) as Hc.
  rewrite pos_cursorAt in L, L0. rewrite length_drop_cursor in L.
  unfold matched. simpl. rewrite <- Hc. repeat split; try assumption; lia.
Qed.

Lemma scan_matched text r : forall rs p pv m c',
  Cursor p pv rs = cursorAt text p -> p <= String.length text ->
  scan r p pv rs = Some (m, c') ->
  matched text r m /\ c' = cursorAt text (lastIndex m) /\ p <= index m.
Proof.
  induction rs as [|a t IH]; intros p pv m c' Hc Hp H; simpl in H.
  - rewrite Hc in H.
    destruct (matchAt r (cursorAt text p)) as [[m1 c1]|] eqn:E; [|discriminate].
    injection H as -> ->. apply matchAt_matched in E as (E1 & E2 & E3); [|exact Hp].
    repeat split; try apply E1; [exact E2|lia].
  - destruct (matchAt r (Cursor p pv (a :: t))) as [[m1 c1]|] eqn:E.
    + injection H as -> ->. rewrite Hc in E.
      apply matchAt_matched in E as (E1 & E2 & E3); [|exact Hp].
      repeat split; try apply E1; [exact E2|lia].
    + assert (Hlen : S p <= String.length text).
      { assert (L : List.length (rest (Cursor p pv (a :: t))) = String.length text - p)
          by (rewrite Hc; apply length_drop_cursor).
        simpl in L. lia. }
      apply (IH (S p) (Some a) m c' (cursorAt_step _ _ _ _ _ Hc) Hlen) in H
        as (H1 & H2 & H3).
      repeat split; try apply H1; [exact H2|lia].
Qed.

Lemma scanFrom_matched text r i m c' :
  i <= String.length text ->
  scanFrom r (cursorAt text i) = Some (m, c') ->
  matched text r m /\ c' = cursorAt text (lastIndex m) /\ i <= index m.
Proof.
  intros Hi H. unfold scanFrom in H. eapply scan_matched; [|exact Hi|exact H].
  reflexivity.
Qed.

Lemma exec_matched r text m : exec r text = Some m -> matched text r m.
Proof.
  unfold exec. rewrite cursorAt_start. intros H.
  destruct (scanFrom r (cursorAt text 0)) as [[m1 c1]|] eqn:E; [|discriminate].
  injection H as <-. apply scanFrom_matched in E as (E & _); [exact E|lia].
Qed.

Lemma execLoop_matched text r : forall fuel i,
  i <= String.length text ->
  Forall (matched text r) (execLoop r fuel (cursorAt text i)).
Proof.
  induction fuel as [|fuel IH]; intros i Hi; simpl; [constructor|].
  destruct (scanFrom r (cursorAt text i)) as [[m c']|] eqn:E; [|constructor].
  apply scanFrom_matched in E as (E1 & -> & E3); [|exact Hi].
  destruct (index m <? lastIndex m)%nat.
  - constructor; [exact E1|]. apply IH. apply E1.
  - constructor; [exact E1|constructor].
Qed.

Lemma execAll_matched r text : Forall (matched text r) (execAll r text).
Proof. unfold execAll. rewrite cursorAt_start. apply execLoop_matched. lia. Qed.

(** What a match consumes is a word of the pattern, and lies between the
    two cursors. *)
Lemma matches_accepts r c g c' g' :
  matches r c g c' g' ->
  exists w, rest c = w ++ rest c' /\ pos c' = pos c + List.length w /\ accepts r w.
Proof.
  induction 1 as [c g|p c g a t E Hp|r1 r2 c g c1 g1 c2 g2 _ IH1 _ IH2
                  |r1 r2 c g c' g' _ IH|r1 r2 c g c' g' _ IH
                  |greedy r c g|greedy r c g c1 g1 c2 g2 _ IH1 Hlt _ IH2
                  |n r c g c' g' _ IH|c g E|c g E|c g E|r c g E].
  - exists []. simpl. repeat split; lia.
  - exists [a]. unfold advance. rewrite E. simpl. repeat split; [lia|]. exists a. auto.
  - destruct IH1 as (w1 & E1 & P1 & A1), IH2 as (w2 & E2 & P2 & A2).
    exists (w1 ++ w2). rewrite E1, E2, List.length_app, <- app_assoc.
    repeat split; [lia|]. exists w1, w2. auto.
  - destruct IH as (w & E & P & A). exists w. simpl. auto.
  - destruct IH as (w & E & P & A). exists w. simpl. auto.
  - exists []. simpl. repeat split; [lia|]. exists []. split; [reflexivity|constructor].
  - destruct IH1 as (w1 & E1 & P1 & A1), IH2 as (w2 & E2 & P2 & ws & -> & A2).
    exists (w1 ++ concat ws). rewrite E1, E2, List.length_app, <- app_assoc.
    repeat split; [lia|]. exists (w1 :: ws). split; [reflexivity|constructor; assumption].
  - destruct IH as (w & E & P & A). exists w. simpl. auto.
  - exists []. simpl. repeat split; lia.
  - exists []. simpl. repeat split; lia.
  - exists []. simpl. repeat split; lia.
  - exists []. simpl. repeat split; lia.
Qed.

Lemma nth_error_setCapture v : forall k (g : captures) n,
  nth_error (setCapture k v g) n
  = if (n =? k)%nat then Some (Some v) else
      match nth_error g n with
      | Some x => Some x
      | None => if (n <? k)%nat then Some None else None
      end.
Proof.
  induction k as [|k IH]; intros g n.
  - destruct g as [|x g], n as [|n]; simpl; try reflexivity.
    + destruct n; reflexivity.
    + destruct (nth_error g n); reflexivity.
  - destruct g as [|x g], n as [|n]; simpl; try reflexivity.
    + rewrite IH. destruct (n =? k)%nat; [reflexivity|].
      destruct n; simpl; reflexivity.
    + rewrite IH. reflexivity.
Qed.

Lemma capture_setCapture n v k g :
  capture n (setCapture k v g) = if (n =? S k)%nat then Some v else capture n g.
Proof.
  destruct n as [|n]; [reflexivity|]. simpl. rewrite nth_error_setCapture.
  destruct (n =? k)%nat; [reflexivity|].
  destruct (nth_error g n) as [[x|]|]; try reflexivity.
  destruct (n <? k)%nat; reflexivity.
Qed.

Lemma consumed_word c c' w :
  rest c = w ++ rest c' -> pos c' = pos c + List.length w ->
  consumed c c' = string_of_list_ascii w.
Proof.
  intros E P. unfold consumed. rewrite E, P.
  replace (pos c + List.length w - pos c) with (List.length w) by lia.
  rewrite take_app_length. reflexivity.
Qed.

(** Whatever a match leaves in group [n] was there before or is a word of
    a sub-pattern numbered [n]. *)
Lemma matches_captures r c g c' g' :
  matches r c g c' g' ->
  forall n v, capture n g' = Some v -> capture n g = Some v \/ groupAccepts r n v.
Proof.
  induction 1 as [c g|p c g a t E Hp|r1 r2 c g c1 g1 c2 g2 _ IH1 _ IH2
                  |r1 r2 c g c' g' _ IH|r1 r2 c g c' g' _ IH
                  |greedy r c g|greedy r c g c1 g1 c2 g2 _ IH1 Hlt _ IH2
                  |m r c g c' g' M IH|c g E|c g E|c g E|r c g E];
    intros n v Hv; auto.
  - apply IH2 in Hv as [Hv|Hv]; [|simpl; auto].
    apply IH1 in Hv as [Hv|Hv]; simpl; auto.
  - apply IH in Hv as [Hv|Hv]; simpl; auto.
  - apply IH in Hv as [Hv|Hv]; simpl; auto.
  - apply IH2 in Hv as [Hv|Hv]; [|simpl; auto].
    apply IH1 in Hv as [Hv|Hv]; simpl; auto.
  - rewrite capture_setCapture in Hv.
    destruct (Nat.eqb_spec n (S (Nat.pred m))) as [->|Hne].
    + injection Hv as <-. right. simpl. left. split; [reflexivity|].
      destruct (matches_accepts _ _ _ _ _ M) as (w & E & P & A).
      rewrite (consumed_word _ _ _ E P), list_ascii_of_string_of_list_ascii. exact A.
    + apply IH in Hv as [Hv|Hv]; simpl; auto.
Qed.

Lemma matches_keeps r c g c' g' :
  matches r c g c' g' ->
  forall n, (sets r n = true \/ is_Some (capture n g)) -> is_Some (capture n g').
Proof.
  induction 1 as [c g|p c g a t E Hp|r1 r2 c g c1 g1 c2 g2 _ IH1 _ IH2
                  |r1 r2 c g c' g' _ IH|r1 r2 c g c' g' _ IH
                  |greedy r c g|greedy r c g c1 g1 c2 g2 _ IH1 Hlt _ IH2
                  |m r c g c' g' M IH|c g E|c g E|c g E|r c g E];
    intros n [Hs|Hs]; cbn [sets] in *; try discriminate; auto.
  - apply orb_true_iff in Hs as [Hs|Hs]; auto.
  - apply andb_true_iff in Hs as [Hs _]; auto.
  - apply andb_true_iff in Hs as [_ Hs]; auto.
  - rewrite capture_setCapture. apply orb_true_iff in Hs as [Hs|Hs].
    + apply Nat.eqb_eq in Hs. subst n. rewrite Nat.eqb_refl. eauto.
    + destruct (n =? _)%nat; eauto.
  - rewrite capture_setCapture. destruct (n =? _)%nat; eauto.
Qed.

Lemma capture_nil n : capture n [] = None.
Proof. destruct n as [|[|n]]; reflexivity. Qed.

(** The facts about the groups of a result and the text it spans. *)
Lemma grp_accepts text r m n v : matched text r m -> grp n m = Some v -> groupAccepts r n v.
Proof.
  intros (M & _) Hv. unfold grp in Hv.
  destruct (matches_captures _ _ _ _ _ M n v Hv) as [H|H]; [|exact H].
  rewrite capture_nil in H. discriminate.
Qed.

Lemma grp_sets text r m n : matched text r m -> sets r n = true -> grp n m = Some (grp' n m).
Proof.
  intros (M & _) Hs. unfold grp', grp.
  destruct (matches_keeps _ _ _ _ _ M n (or_introl Hs)) as [v ->]. reflexivity.
Qed.

Lemma grp'_accepts text r m n :
  matched text r m -> sets r n = true -> groupAccepts r n (grp' n m).
Proof.
  intros M Hs. eapply grp_accepts; [exact M|]. eapply grp_sets; eassumption.
Qed.

Lemma matched_slice text r m :
  matched text r m ->
  accepts r (list_ascii_of_string
               (Js.slice text (Z.of_nat (index m)) (Z.of_nat (lastIndex m)))).
Proof.
  intros (M & Hle). destruct (matches_accepts _ _ _ _ _ M) as (w & E & P & A).
  rewrite slice_units by exact Hle. simpl in E, P.
  change (skipn (index m) (list_ascii_of_string text))
    with (drop (index m) (list_ascii_of_string text)) in E.
  rewrite E, P. replace (index m + List.length w - index m) with (List.length w) by lia.
  rewrite take_app_length. exact A.
Qed.

Lemma accepts_class greedy p w :
  accepts (Star greedy (Chr p)) w -> forallb p w = true.
Proof.
  intros (ws & -> & F). induction F as [|x ws (a & -> & Hp) _ IH]; [reflexivity|].
  simpl. rewrite Hp. exact IH.
Qed.

Lemma accepts_ident w :
  accepts Rx.ident w -> isIdentifier (string_of_list_ascii w) = true.
Proof.
  intros (w1 & w2 & -> & (a & -> & Ha) & Hw). apply accepts_class in Hw.
  simpl. rewrite Ha, list_ascii_of_string_of_list_ascii. exact Hw.
Qed.

Lemma accepts_ident_text v :
  accepts Rx.ident (list_ascii_of_string v) -> isIdentifier v = true.
Proof.
  intros H. apply accepts_ident in H. rewrite string_of_list_ascii_of_string in H. exact H.
Qed.

(** ** Handlers and their routes *)

Lemma linkStep_lookup (m : gmap string (list RouteRegistration)) r k :
  default [] (linkStep m r !! k)
  = default [] (m !! k) ++ (if decide (handlerName r = k) then [r] else []).
Proof.
  unfold linkStep. destruct (decide (handlerName r = k)) as [->|Hne].
  - rewrite lookup_insert_eq. reflexivity.
  - rewrite lookup_insert_ne by exact Hne. rewrite app_nil_r. reflexivity.
Qed.

Lemma foldl_linkStep_lookup k : forall rs (m : gmap string (list RouteRegistration)),
  default [] (foldl linkStep m rs !! k)
  = default [] (m !! k) ++ filter (fun r => handlerName r = k) rs.
Proof.
  induction rs as [|r rs IH]; intros m; simpl.
  - rewrite app_nil_r. reflexivity.
  - rewrite IH, linkStep_lookup, filter_cons.
    destruct (decide (handlerName r = k)); simpl.
    + rewrite <- app_assoc. reflexivity.
    + rewrite app_nil_r. reflexivity.
Qed.

Lemma linkHandlersToRoutes_filter handlers rs :
  linkHandlersToRoutes handlers rs
  = map (fun h => mkLinked h (filter (fun r => handlerName r = name h) rs)) handlers.
Proof.
  unfold linkHandlersToRoutes. apply map_ext. intros h.
  rewrite foldl_linkStep_lookup, lookup_empty. reflexivity.
Qed.

(** X1.  [linkHandlersToRoutes] keeps the handlers, one entry each and in their
    order, and gives each one the registrations that bear its name, in the
    order of the registrations: the map it fills is a filter by name.  A
    handler no registration names gets the empty list, and a registration
    that names no handler is in no entry. *)
Theorem linkHandlersToRoutes_groups_by_name :
  forall (handlers : list HandlerFunction) (registrations : list RouteRegistration),
    map linked (linkHandlersToRoutes handlers registrations) = handlers
    /\ Forall (fun l => routes l
                        = filter (fun r => handlerName r = name (linked l)) registrations)
              (linkHandlersToRoutes handlers registrations)
    /\ (forall r, (forall h, h ∈ handlers -> name h <> handlerName r) ->
          forall l, l ∈ linkHandlersToRoutes handlers registrations -> r ∉ routes l).
Proof.
  intros handlers rs. rewrite linkHandlersToRoutes_filter. split; [|split].
  - rewrite map_map. simpl. apply map_id.
  - apply Forall_map. apply Forall_forall. intros h _. reflexivity.
  - intros r Hnone l Hl Hr.
    apply list_elem_of_In, in_map_iff in Hl as (h & <- & Hh). simpl in Hr.
    apply list_elem_of_filter in Hr as [Hname _].
    apply (Hnone h); [apply list_elem_of_In; exact Hh|]. symmetry. exact Hname.
Qed.

Lemma routesOfDocs_known fuel names : forall docs rs,
  routesOfDocs fuel docs names = Some rs -> forall r, r ∈ rs -> handlerName r ∈ names.
Proof.
  induction docs as [|doc docs IH]; intros rs H r Hr; simpl in H.
  - injection H as <-. apply elem_of_nil in Hr as [].
  - unfold findRoutesInTextByNames in H.
    destruct (buildGroupPrefixMap fuel _ _) as [prefixes|]; [|discriminate].
    destruct (routesOfDocs fuel docs names) as [rs'|]; [|discriminate].
    injection H as <-. apply elem_of_app in Hr as [Hr|Hr].
    + eapply routesWithPrefixes_known; exact Hr.
    + eapply IH; [reflexivity|exact Hr].
Qed.

(** X2.  Of a workspace scan no registration is lost when handlers and
    registrations are linked: every registration [scanWorkspace] returns
    is among the routes of a handler it returns, one that bears the name the
    registration gives. *)
Theorem scanWorkspace_links_every_route :
  forall (fuel : nat) (goFiles : list TextDocument)
         (handlers : list HandlerFunction) (registrations : list RouteRegistration),
    scanWorkspace fuel goFiles = Some (handlers, registrations) ->
    forall r, r ∈ registrations ->
      exists l, l ∈ linkHandlersToRoutes handlers registrations
                /\ linked l ∈ handlers
                /\ name (linked l) = handlerName r
                /\ r ∈ routes l.
Proof.
  intros fuel goFiles handlers rs H r Hr. unfold scanWorkspace in H.
  destruct (routesOfDocs fuel goFiles _) as [rs'|] eqn:E; [|discriminate].
  injection H as <- <-.
  set (handlers := flat_map _ goFiles) in *.
  pose proof (routesOfDocs_known _ _ _ _ E r Hr) as Hname.
  apply elem_of_list_to_set, list_elem_of_In, in_map_iff in Hname as (h & Hname & Hh).
  exists (mkLinked h (filter (fun r' => handlerName r' = name h) rs')).
  rewrite linkHandlersToRoutes_filter. simpl. repeat split.
  - apply list_elem_of_In, in_map_iff. exists h. auto.
  - apply list_elem_of_In. exact Hh.
  - exact Hname.
  - apply list_elem_of_filter. split; [symmetry; exact Hname|exact Hr].
Qed.

Lemma scanWorkspace_links_every_route_witness :
  scanWorkspace 3 [mkDoc "orphan.go" Orphan.text] = Some ([Orphan.handler], [Orphan.route])
  /\ exists l, l ∈ linkHandlersToRoutes [Orphan.handler] [Orphan.route]
               /\ linked l ∈ [Orphan.handler]
               /\ name (linked l) = handlerName Orphan.route
               /\ Orphan.route ∈ routes l.
Proof.
  assert (E : scanWorkspace 3 [mkDoc "orphan.go" Orphan.text]
              = Some ([Orphan.handler], [Orphan.route])) by (vm_compute; reflexivity).
  split; [exact E|].
  apply (scanWorkspace_links_every_route _ _ _ _ E Orphan.route). left.
Defined.

(** ** The prefix map *)

Lemma settled_step pm u m :
  settled pm (callSite m) -> groupStep (pm, u) m = (pm, u).
Proof.
  unfold settled, callSite, groupStep. intros H.
  rewrite bool_decide_eq_true_2 by exact H. reflexivity.
Qed.

Lemma settled_pass : forall ms pm u,
  Forall (settled pm) (map callSite ms) -> foldl groupStep (pm, u) ms = (pm, u).
Proof.
  induction ms as [|m ms IH]; intros pm u F; [reflexivity|].
  apply Forall_cons in F as [F1 F2].
  change (foldl groupStep (pm, u) (m :: ms))
    with (foldl groupStep (groupStep (pm, u) m) ms).
  rewrite settled_step by exact F1. apply IH. exact F2.
Qed.

Lemma declaredInOrder_cons child base rel later :
  declaredInOrder ((child, base, rel) :: later) = true ->
  child <> base
  /\ (child ∉ map childOf later) /\ (base ∉ map childOf later)
  /\ declaredInOrder later = true.
Proof.
  simpl. intros H. apply andb_true_iff in H as [H H3].
  apply andb_true_iff in H as [H1 H2].
  apply negb_true_iff, String.eqb_neq in H1.
  rewrite forallb_forall in H2.
  repeat split; try assumption.
  - intros Hin. apply list_elem_of_In, in_map_iff in Hin as (site & E & Hin).
    specialize (H2 site Hin). apply andb_true_iff in H2 as [H2 _].
    apply negb_true_iff, String.eqb_neq in H2. congruence.
  - intros Hin. apply list_elem_of_In, in_map_iff in Hin as (site & E & Hin).
    specialize (H2 site Hin). apply andb_true_iff in H2 as [_ H2].
    apply negb_true_iff, String.eqb_neq in H2. congruence.
Qed.

(** One pass over call sites in declaration order settles them all. *)
Lemma ordered_pass : forall ms pm u,
  declaredInOrder (map callSite ms) = true ->
  exists pm' u',
    foldl groupStep (pm, u) ms = (pm', u')
    /\ (forall x, x ∉ map childOf (map callSite ms) -> pm' !! x = pm !! x)
    /\ Forall (settled pm') (map callSite ms).
Proof.
  induction ms as [|m ms IH]; intros pm u H.
  - exists pm, u. repeat split. constructor.
  - cbn [List.map] in H. destruct (callSite m) as [[child base] rel] eqn:Hm.
    apply declaredInOrder_cons in H as (Hne & Hchild & Hbase & Hlater).
    destruct (groupStep_site pm u m child base rel Hm) as (pm1 & E1 & L1 & O1).
    destruct (IH pm1 (if bool_decide (pm !! child
                                       = Some (joinPaths (default "" (pm !! base)) rel))
                      then u else true) Hlater) as (pm' & u' & E & O & F).
    exists pm', u'.
    change (foldl groupStep (pm, u) (m :: ms))
      with (foldl groupStep (groupStep (pm, u) m) ms).
    rewrite E1. split; [exact E|]. split.
    + intros x Hx. cbn [List.map] in Hx. rewrite Hm in Hx.
      rewrite O by (intros ?; apply Hx; right; assumption).
      apply O1. intros ->. apply Hx. left.
    + cbn [List.map]. rewrite Hm. constructor; [|exact F].
      simpl. rewrite (O child Hchild), (O base Hbase), L1.
      rewrite (O1 base) by congruence. reflexivity.
Qed.

Lemma rooted_spec s : rooted s = true <-> s = "" \/ Js.startsWith s "/" = true.
Proof.
  unfold rooted. rewrite orb_true_iff, String.eqb_eq. reflexivity.
Qed.

Lemma allRooted_default pm x : allRooted pm -> rooted (default "" (pm !! x)) = true.
Proof.
  intros H. destruct (pm !! x) as [v|] eqn:E; [exact (H x v E)|reflexivity].
Qed.

Lemma rootRouters_rooted text ginAlias : allRooted (rootRouters text ginAlias).
Proof.
  intros x v E. pose proof (rootRouters_values text ginAlias x) as H.
  rewrite E in H. simpl in H. subst v. reflexivity.
Qed.

Lemma groupStep_rooted st m : allRooted (fst st) -> allRooted (fst (groupStep st m)).
Proof.
  destruct st as [pm u]. cbn [fst]. intros H. unfold groupStep.
  destruct (bool_decide _); [exact H|]. cbn [fst]. intros x v E.
  destruct (decide (x = grp' 1 m)) as [->|Hne].
  - rewrite lookup_insert_eq in E. injection E as <-.
    apply rooted_spec. right. apply joinPaths_starts.
    apply rooted_spec, allRooted_default. exact H.
  - rewrite lookup_insert_ne in E by congruence. exact (H x v E).
Qed.

Lemma foldl_groupStep_rooted : forall ms st,
  allRooted (fst st) -> allRooted (fst (foldl groupStep st ms)).
Proof.
  induction ms as [|m ms IH]; intros st H; [exact H|].
  simpl. apply IH. apply groupStep_rooted. exact H.
Qed.

Lemma resolveGroups_rooted text : forall fuel pm0 pm,
  allRooted pm0 -> resolveGroups fuel text pm0 = Some pm -> allRooted pm.
Proof.
  induction fuel as [|fuel IH]; intros pm0 pm H0 H; [discriminate|].
  cbn [resolveGroups] in H.
  pose proof (foldl_groupStep_rooted (execAll Pat.groupRegex text) (pm0, false) H0) as H1.
  fold (groupPass text pm0) in H1.
  destruct (groupPass text pm0) as [pm1 u]. simpl in H1.
  destruct u; [apply (IH pm1 pm H1 H)|]. injection H as <-. exact H1.
Qed.

Lemma buildGroupPrefixMap_rooted fuel text ginAlias pm :
  buildGroupPrefixMap fuel text ginAlias = Some pm -> allRooted pm.
Proof. apply resolveGroups_rooted, rootRouters_rooted. Qed.

Lemma prefixOf_rooted pm recv : allRooted pm -> rooted (prefixOf pm recv) = true.
Proof.
  intros H. unfold prefixOf. destruct (pm !! recv) as [[|a s]|] eqn:E; try reflexivity.
  exact (H recv _ E).
Qed.

(** X3.  When [buildGroupPrefixMap] returns, for an import alias that is an
    identifier, the map is a solution of the call sites: for every [.Group]
    call site the variable assigned has the join of the prefix of the
    variable the group is made from (empty when that one has none) and the
    literal.  And every prefix of the map is empty or starts with a slash. *)
Theorem group_prefixes_solve_call_sites :
  forall (fuel : nat) (text ginAlias : string) (groupPrefixes : gmap string string),
    isIdentifier ginAlias = true ->
    buildGroupPrefixMap fuel text ginAlias = Some groupPrefixes ->
    (forall gm, gm ∈ execAll Pat.groupRegex text ->
       groupPrefixes !! grp' 1 gm
       = Some (joinPaths (default "" (groupPrefixes !! grp' 2 gm)) (grp' 3 gm)))
    /\ (forall variable prefix, groupPrefixes !! variable = Some prefix ->
          prefix = "" \/ Js.startsWith prefix "/" = true).
Proof.
  intros fuel text ginAlias pm _ H. split.
  - intros gm Hgm. unfold buildGroupPrefixMap in H.
    apply resolveGroups_settled in H. rewrite Forall_forall in H.
    apply (H (callSite gm)). apply list_elem_of_In, in_map, list_elem_of_In. exact Hgm.
  - intros x v E. apply rooted_spec.
    exact (buildGroupPrefixMap_rooted _ _ _ _ H x v E).
Qed.

Lemma group_prefixes_solve_call_sites_witness :
  isIdentifier "gin" = true
  /\ exists groupPrefixes,
    buildGroupPrefixMap 2 Groups.nested "gin" = Some groupPrefixes
    /\ (forall gm, gm ∈ execAll Pat.groupRegex Groups.nested ->
          groupPrefixes !! grp' 1 gm
          = Some (joinPaths (default "" (groupPrefixes !! grp' 2 gm)) (grp' 3 gm)))
    /\ groupPrefixes !! "users" = Some "/api/v1/users".
Proof.
  split; [reflexivity|].
  destruct (buildGroupPrefixMap 2 Groups.nested "gin") as [pm|] eqn:E;
    [|vm_compute in E; discriminate E].
  exists pm. split; [reflexivity|].
  split; [exact (proj1 (group_prefixes_solve_call_sites 2 Groups.nested "gin" pm
                          eq_refl E))|].
  assert (E' : match buildGroupPrefixMap 2 Groups.nested "gin" with
               | Some found => found !! "users"
               | None => None
               end = Some "/api/v1/users")
    by (vm_compute; reflexivity).
  rewrite E in E'. exact E'.
Defined.

(** X4.  The loop of [buildGroupPrefixMap] ends within two passes when the
    [.Group] call sites of the text come in declaration order: each assigns
    a variable other than the one it makes the group from, and no later call
    site assigns either of the two again.  The import alias is an
    identifier. *)
Theorem group_prefixes_settle_in_declaration_order :
  forall (text ginAlias : string),
    isIdentifier ginAlias = true ->
    declaredInOrder (map callSite (execAll Pat.groupRegex text)) = true ->
    forall fuel, exists groupPrefixes,
      buildGroupPrefixMap (S (S fuel)) text ginAlias = Some groupPrefixes.
Proof.
  intros text ginAlias _ H fuel. unfold buildGroupPrefixMap.
  set (pm0 := rootRouters text ginAlias).
  destruct (ordered_pass _ pm0 false H) as (pm1 & u1 & E & _ & F).
  exists pm1. cbn [resolveGroups]. unfold groupPass at 1. rewrite E.
  destruct u1; [|reflexivity].
  unfold groupPass. rewrite (settled_pass _ pm1 false F). reflexivity.
Qed.

Lemma group_prefixes_settle_in_declaration_order_witness :
  isIdentifier "gin" = true
  /\ declaredInOrder (map callSite (execAll Pat.groupRegex Sample.server)) = true
  /\ exists groupPrefixes, buildGroupPrefixMap 2 Sample.server "gin" = Some groupPrefixes.
Proof.
  assert (H : declaredInOrder (map callSite (execAll Pat.groupRegex Sample.server)) = true)
    by (vm_compute; reflexivity).
  split; [reflexivity|]. split; [exact H|].
  exact (group_prefixes_settle_in_declaration_order Sample.server "gin" eq_refl H 0).
Defined.

Lemma routesWithPrefixes_rooted doc names pm r :
  allRooted pm -> r ∈ routesWithPrefixes doc names pm -> Js.startsWith (path r) "/" = true.
Proof.
  intros Hpm. unfold routesWithPrefixes. rewrite !elem_of_app.
  assert (Hjoin : forall recv rel,
            Js.startsWith (joinPaths (prefixOf pm recv) rel) "/" = true).
  { intros recv rel. apply joinPaths_starts, rooted_spec, prefixOf_rooted. exact Hpm. }
  intros [H|[H|H]]; apply elem_of_flat_map in H as (m & _ & H).
  - unfold routeOfMethodCall in H. destruct (negb _); [apply elem_of_nil in H as []|].
    apply list_elem_of_singleton in H as ->. apply Hjoin.
  - unfold routeOfHandleCall in H. destruct (_ || _); [apply elem_of_nil in H as []|].
    apply list_elem_of_singleton in H as ->. apply Hjoin.
  - unfold routeOfAnyCall in H. destruct (negb _); [apply elem_of_nil in H as []|].
    apply list_elem_of_singleton in H as ->. apply Hjoin.
Qed.

(** X5.  The path of every registration [findRoutesInTextByNames] returns starts
    with a slash, whatever the receiver, the groups and the literal of the
    call site are. *)
Theorem route_paths_start_with_slash :
  forall (fuel : nat) (doc : TextDocument) (handlerNames : gset string)
         (registrations : list RouteRegistration),
    findRoutesInTextByNames fuel doc handlerNames = Some registrations ->
    forall r, r ∈ registrations -> Js.startsWith (path r) "/" = true.
Proof.
  intros fuel doc names rs H r Hr. unfold findRoutesInTextByNames in H.
  destruct (buildGroupPrefixMap fuel _ _) as [pm|] eqn:E; [|discriminate].
  injection H as <-.
  apply (routesWithPrefixes_rooted doc names pm r); [|exact Hr].
  exact (buildGroupPrefixMap_rooted _ _ _ _ E).
Qed.

Lemma route_paths_start_with_slash_witness :
  findRoutesInTextByNames 3 Sample.serverDoc {["CreateUser"]}
    = Some [mkRoute "POST" "/api/v1/users/:id" "CreateUser" "main.go" (477, 509)]
  /\ Js.startsWith "/api/v1/users/:id" "/" = true.
Proof.
  assert (E : findRoutesInTextByNames 3 Sample.serverDoc {["CreateUser"]}
    = Some [mkRoute "POST" "/api/v1/users/:id" "CreateUser" "main.go" (477, 509)])
    by (vm_compute; reflexivity).
  split; [exact E|].
  apply (route_paths_start_with_slash 3 Sample.serverDoc {["CreateUser"]} _ E
           (mkRoute "POST" "/api/v1/users/:id" "CreateUser" "main.go" (477, 509))).
  left.
Defined.

(** ** Paths and qualified names *)

Lemma withLeadingSlash_after_drop b c :
  withLeadingSlash (dropTrailingSlash b +:+ withLeadingSlash c)
  = dropTrailingSlash (withLeadingSlash b) +:+ withLeadingSlash c.
Proof.
  destruct (withLeadingSlash_cons c) as [t ->].
  destruct b as [|x b]; [reflexivity|].
  unfold withLeadingSlash at 2.
  change (Js.startsWith (String x b) "/") with (Ascii.eqb x "/" && true).
  rewrite andb_true_r. destruct (Ascii.eqb_spec x "/") as [->|Hx].
  - destruct b as [|y b]; [reflexivity|].
    rewrite dropTrailingSlash_cons2, app_cons. reflexivity.
  - change ("/" +:+ String x b) with (String "/" (String x b)).
    rewrite dropTrailingSlash_cons2, app_cons.
    assert (Hd : exists d, dropTrailingSlash (String x b) = String x d).
    { destruct b as [|y b].
      - simpl. apply Ascii.eqb_neq in Hx. rewrite Hx. eexists. reflexivity.
      - rewrite dropTrailingSlash_cons2. eexists. reflexivity. }
    destruct Hd as [d ->]. rewrite app_cons. unfold withLeadingSlash.
    change (Js.startsWith (String x (d +:+ String "/" t)) "/") with (Ascii.eqb x "/" && true).
    apply Ascii.eqb_neq in Hx. rewrite Hx. reflexivity.
Qed.

(** X6.  [joinPaths] is associative: the prefix of a group within a group
    within a group does not depend on which two are joined first. *)
Theorem joinPaths_assoc :
  forall a b c : string, joinPaths (joinPaths a b) c = joinPaths a (joinPaths b c).
Proof.
  intros a b c. rewrite !joinPaths_halves.
  destruct (withLeadingSlash_cons b) as [t Hb].
  rewrite dropTrailingSlash_app by (rewrite Hb; discriminate).
  rewrite app_assoc_string, withLeadingSlash_after_drop. reflexivity.
Qed.

(** X7.  The empty path and the path of one slash are the same to
    [joinPaths], on either side: an empty literal registers the prefix
    followed by a slash, and the empty prefix is the root. *)
Theorem joinPaths_empty_is_slash :
  forall a b : string,
    joinPaths a "" = joinPaths a "/"
    /\ joinPaths "" b = joinPaths "/" b
    /\ joinPaths "" "" = "/".
Proof.
  intros a b. rewrite !joinPaths_halves. repeat split.
Qed.

Lemma split_nonempty sep s : Js.split sep s <> [].
Proof.
  destruct s as [|a s]; simpl; [discriminate|].
  destruct (Ascii.eqb a sep); [discriminate|].
  destruct (Js.split sep s); discriminate.
Qed.

Lemma split_app_sep sep x : forall p,
  Js.split sep (p +:+ String sep x) = Js.split sep p ++ Js.split sep x.
Proof.
  induction p as [|a p IH].
  - change ("" +:+ String sep x) with (String sep x). simpl.
    rewrite Ascii.eqb_refl. reflexivity.
  - rewrite app_cons. simpl. rewrite IH. destruct (Ascii.eqb a sep); [reflexivity|].
    pose proof (split_nonempty sep p) as Hne.
    destruct (Js.split sep p) as [|w ws]; [contradiction|]. reflexivity.
Qed.

Lemma split_whole sep : forall x,
  sep ∉ list_ascii_of_string x -> Js.split sep x = [x].
Proof.
  induction x as [|a x IH]; intros H; [reflexivity|]. simpl in *.
  apply not_elem_of_cons in H as [Hne H].
  destruct (Ascii.eqb_spec a sep) as [->|_]; [contradiction|].
  rewrite IH by exact H. reflexivity.
Qed.

Lemma split_pieces sep : forall s,
  Forall (fun piece => sep ∉ list_ascii_of_string piece) (Js.split sep s).
Proof.
  induction s as [|a s IH]; simpl.
  - repeat constructor. apply not_elem_of_nil.
  - destruct (Ascii.eqb_spec a sep) as [->|Hne].
    + constructor; [apply not_elem_of_nil|exact IH].
    + destruct (Js.split sep s) as [|w ws]; [repeat constructor|].
      * simpl. apply not_elem_of_cons. split; [congruence|apply not_elem_of_nil].
      * apply Forall_cons in IH as [Hw Hws]. constructor; [|exact Hws].
        simpl. apply not_elem_of_cons. split; [congruence|exact Hw].
Qed.

Lemma last_app_nonempty {A} (l1 l2 : list A) d :
  l2 <> [] -> List.last (l1 ++ l2) d = List.last l2 d.
Proof.
  intros H. induction l1 as [|x l1 IH]; [reflexivity|].
  simpl. destruct (l1 ++ l2) eqn:E; [|exact IH].
  apply app_eq_nil in E as [_ E]. contradiction.
Qed.

Lemma lastSegment_qualified p x :
  "."%char ∉ list_ascii_of_string x -> lastSegment (p +:+ String "." x) = x.
Proof.
  intros H. unfold lastSegment. rewrite split_app_sep, (split_whole _ x H).
  rewrite last_app_nonempty by discriminate. reflexivity.
Qed.

Lemma lastSegment_plain x : "."%char ∉ list_ascii_of_string x -> lastSegment x = x.
Proof. intros H. unfold lastSegment. rewrite (split_whole _ x H). reflexivity. Qed.

Lemma lastSegment_no_dot q : "."%char ∉ list_ascii_of_string (lastSegment q).
Proof.
  unfold lastSegment. pose proof (split_pieces "." q) as F.
  pose proof (split_nonempty "." q) as Hne.
  induction (Js.split "." q) as [|w ws IH]; [contradiction|].
  apply Forall_cons in F as [Hw Hws]. destruct ws as [|w' ws]; [exact Hw|].
  apply IH; [exact Hws|discriminate].
Qed.

(** X8.  [lastSegment] strips the qualification of a name: of a text that ends
    in a dot and a dot-free name it returns that name, whatever precedes the
    dot; a dot-free text it returns as it is; and what it returns holds no
    dot. *)
Theorem lastSegment_strips_qualifier :
  forall qualifier name_ : string,
    "."%char ∉ list_ascii_of_string name_ ->
    lastSegment (qualifier +:+ "." +:+ name_) = name_
    /\ lastSegment name_ = name_
    /\ (forall qualified, "."%char ∉ list_ascii_of_string (lastSegment qualified)).
Proof.
  intros p x H. split; [|split].
  - apply lastSegment_qualified. exact H.
  - apply lastSegment_plain. exact H.
  - apply lastSegment_no_dot.
Qed.

Lemma lastSegment_strips_qualifier_witness :
  lastSegment ("handlers.users" +:+ "." +:+ "Create") = "Create"
  /\ lastSegment "Create" = "Create".
Proof.
  assert (H : "."%char ∉ list_ascii_of_string "Create")
    by (apply (proj1 (bool_decide_eq_true _)); vm_compute; reflexivity).
  destruct (lastSegment_strips_qualifier "handlers.users" "Create" H) as (H1 & H2 & _).
  split; [exact H1|exact H2].
Defined.

(** ** The names the scanner extracts *)

Lemma groupAccepts_lit s n v : groupAccepts (Rx.lit s) n v -> False.
Proof. induction s as [|a s IH]; simpl; [tauto|]. intros [[]|H]. exact (IH H). Qed.

Lemma sets_lit s n : sets (Rx.lit s) n = false.
Proof. induction s as [|a s IH]; simpl; [reflexivity|exact IH]. Qed.

Lemma groupAccepts_cPattern ctxVar n v : groupAccepts (Pat.cPattern ctxVar) n v -> False.
Proof.
  destruct ctxVar as [[|a s]|]; simpl; try tauto.
  intros [[]|H]. exact (groupAccepts_lit _ _ _ H).
Qed.

Lemma sets_cPattern ctxVar n : sets (Pat.cPattern ctxVar) n = false.
Proof. destruct ctxVar as [[|a s]|]; simpl; try reflexivity. apply sets_lit. Qed.

Ltac unfold_patterns :=
  cbn [groupAccepts sets Rx.seq Rx.alt Rx.opt Rx.star Rx.plus Rx.lazyStar Rx.ws Rx.ws1
       Rx.qualified Rx.digits Nat.pred List.map
       Pat.q Pat.ginPath Pat.importBlockRegex Pat.aliasLine Pat.singleImport Pat.contextParam
       Pat.call Pat.jsonBind Pat.formBind Pat.multipart Pat.queryBind Pat.genericBind
       Pat.anyBind Pat.structLit Pat.addrVar Pat.literalArg Pat.qpRe Pat.accessor Pat.ppRe
       Pat.ghRe Pat.rhRe Pat.ckRe Pat.varDecl Pat.varLiteral1 Pat.varLiteral2 Pat.varNew
       Pat.defRe Pat.fieldLine Pat.jsonTag Pat.receiver Pat.pattern1 Pat.handlerFuncType
       Pat.factoryTail Pat.pattern2 Pat.pattern2Method Pat.innerCtxParam Pat.pathArg
       Pat.handlerArg Pat.routeRegex Pat.handleRegex Pat.anyRegex Pat.rootParam Pat.rootAssign
       Pat.groupRegex] in *.

Ltac split_groups :=
  repeat match goal with
  | H : _ \/ _ |- _ => destruct H as [H|H]
  | H : False |- _ => destruct H
  | H : groupAccepts (Rx.lit _) _ _ |- _ => apply groupAccepts_lit in H
  | H : groupAccepts (Pat.cPattern _) _ _ |- _ => apply groupAccepts_cPattern in H
  | H : groupAccepts Rx.ident _ _ |- _ => simpl in H
  | H : _ = _ /\ accepts _ _ |- _ =>
      let E := fresh "E" in destruct H as [E H]; try discriminate E; clear E
  end.

(** Group [n] of a result takes part in the match and holds a word of the
    one sub-pattern the pattern numbers [n]. *)
Ltac group_of M n :=
  let Ha := fresh "Ha" in
  pose proof (grp'_accepts _ _ _ n M) as Ha;
  unfold_patterns; rewrite ?sets_lit, ?sets_cPattern in Ha;
  specialize (Ha eq_refl); split_groups.

Lemma firstAlias_identifier : forall blocks found,
  firstAlias blocks = Some found -> isIdentifier found = true.
Proof.
  induction blocks as [|m blocks IH]; intros found H; cbn [firstAlias] in H; [discriminate|].
  destruct (exec Pat.aliasLine (grp' 1 m)) as [aliasMatch|] eqn:E; [|exact (IH found H)].
  apply exec_matched in E.
  destruct (grp 1 aliasMatch) as [[|a v]|] eqn:Hg; injection H as <-; try reflexivity.
  pose proof (grp_accepts _ _ _ _ _ E Hg) as Ha. unfold_patterns. split_groups.
  exact (accepts_ident_text _ Ha).
Qed.

(** X9.  [detectGinAliasFromImports] returns an identifier, for every text: the
    alias an import gives the package, or [gin]. *)
Theorem gin_alias_is_identifier :
  forall text : string, isIdentifier (detectGinAliasFromImports text) = true.
Proof.
  intros text. unfold detectGinAliasFromImports.
  destruct (firstAlias _) as [found|] eqn:E; [exact (firstAlias_identifier _ _ E)|].
  destruct (exec Pat.singleImport text) as [m|] eqn:Em; [|reflexivity].
  apply exec_matched in Em.
  destruct (grp 1 m) as [[|a v]|] eqn:Hg; try reflexivity.
  pose proof (grp_accepts _ _ _ _ _ Em Hg) as Ha. unfold_patterns. split_groups.
  exact (accepts_ident_text _ Ha).
Qed.

Lemma extractContextParamName_identifier signatureParams ginAlias :
  match extractContextParamName signatureParams ginAlias with
  | Some c => isIdentifier c = true
  | None => True
  end.
Proof.
  unfold extractContextParamName.
  destruct (exec (Pat.contextParam ginAlias) signatureParams) as [m|] eqn:E; [|exact I].
  apply exec_matched in E. destruct (grp 1 m) as [c|] eqn:Hg; [|exact I].
  pose proof (grp_accepts _ _ _ _ _ E Hg) as Ha. unfold_patterns. split_groups.
  exact (accepts_ident_text _ Ha).
Qed.

Lemma handler1_named doc ginAlias m :
  matched (getText doc) (Pat.pattern1 ginAlias) m ->
  isIdentifier (name (handler1 doc ginAlias m)) = true
  /\ match contextParamName (handler1 doc ginAlias m) with
     | Some c => isIdentifier c = true
     | None => True
     end.
Proof.
  intros M. split.
  - unfold handler1. cbn [name]. group_of M 1. exact (accepts_ident_text _ Ha).
  - apply extractContextParamName_identifier.
Qed.

Lemma handler2_context doc ginAlias m :
  match contextParamName (handler2 doc ginAlias m) with
  | Some c => isIdentifier c = true
  | None => True
  end.
Proof.
  unfold handler2. cbn [contextParamName].
  destruct (exec (Pat.innerCtxParam ginAlias) _) as [im|] eqn:E; [|exact I].
  apply exec_matched in E. destruct (grp 1 im) as [c|] eqn:Hg; [|exact I].
  pose proof (grp_accepts _ _ _ _ _ E Hg) as Ha. unfold_patterns. split_groups.
  exact (accepts_ident_text _ Ha).
Qed.

Lemma findHandlersInText_named doc ginAlias :
  Forall (fun h =>
            isIdentifier (name h) = true
            /\ match contextParamName h with
               | Some c => isIdentifier c = true
               | None => True
               end
            /\ filePath h = fsPath doc)
         (findHandlersInText doc ginAlias).
Proof.
  unfold findHandlersInText.
  repeat apply Forall_app_2; apply Forall_map.
  - eapply Forall_impl; [apply execAll_matched|]. intros m M.
    destruct (handler1_named doc ginAlias m M) as [H1 H2]. auto.
  - eapply Forall_impl; [apply execAll_matched|]. intros m M.
    split; [|split; [apply handler2_context|reflexivity]].
    unfold handler2. cbn [name]. group_of M 1. exact (accepts_ident_text _ Ha).
  - eapply Forall_impl; [apply execAll_matched|]. intros m M.
    split; [|split; [apply handler2_context|reflexivity]].
    unfold handler2. cbn [name]. group_of M 1. exact (accepts_ident_text _ Ha).
Qed.

(** X10.  Every handler [findHandlersInText] returns, for an import alias that
    is an identifier, is named by an identifier, and so is its context
    parameter when it has one; its file is the document's. *)
Theorem handlers_carry_identifiers :
  forall (doc : TextDocument) (ginAlias : string),
    isIdentifier ginAlias = true ->
    Forall (fun h =>
              isIdentifier (name h) = true
              /\ match contextParamName h with
                 | Some c => isIdentifier c = true
                 | None => True
                 end
              /\ filePath h = fsPath doc)
           (findHandlersInText doc ginAlias).
Proof. intros doc ginAlias _. apply findHandlersInText_named. Qed.

Lemma handlers_carry_identifiers_witness :
  isIdentifier "gin" = true
  /\ map name (findHandlersInText Sample.serverDoc "gin") = ["CreateUser"]
  /\ Forall (fun h =>
               isIdentifier (name h) = true
               /\ match contextParamName h with
                  | Some c => isIdentifier c = true
                  | None => True
                  end
               /\ filePath h = fsPath Sample.serverDoc)
            (findHandlersInText Sample.serverDoc "gin").
Proof.
  split; [reflexivity|]. split; [vm_compute; reflexivity|].
  apply (handlers_carry_identifiers Sample.serverDoc "gin"). reflexivity.
Defined.

Lemma accepts_plus_class p w :
  accepts (Rx.plus (Chr p)) w -> w <> [] /\ forallb p w = true.
Proof.
  intros (w1 & w2 & -> & (a & -> & Ha) & Hw). apply accepts_class in Hw.
  split; [discriminate|]. simpl. rewrite Ha. exact Hw.
Qed.

Lemma accepts_lit s : forall w, accepts (Rx.lit s) w -> w = list_ascii_of_string s.
Proof.
  induction s as [|a s IH]; intros w H; simpl in H; [exact H|].
  destruct H as (w1 & w2 & -> & (b & -> & Hb) & H). apply IH in H as ->.
  unfold Chars.one in Hb. apply Ascii.eqb_eq in Hb as ->. reflexivity.
Qed.

Lemma units_inj s t : list_ascii_of_string s = list_ascii_of_string t -> s = t.
Proof.
  intros H. apply (f_equal string_of_list_ascii) in H.
  rewrite !string_of_list_ascii_of_string in H. exact H.
Qed.

Lemma units_nonempty s : list_ascii_of_string s <> [] -> s <> "".
Proof. intros H ->. apply H. reflexivity. Qed.

Lemma substring_whole : forall s, substring 0 (String.length s) s = s.
Proof. induction s as [|a s IH]; simpl; [reflexivity|]. rewrite IH. reflexivity. Qed.

Lemma sliceFrom_tail a t : Js.sliceFrom (String a t) 1 = t.
Proof.
  unfold Js.sliceFrom, Js.clampIndex. simpl (_ <? _)%Z. cbv iota.
  change (Z.to_nat 1) with 1. cbn [String.length].
  rewrite Nat.min_l by lia. simpl. rewrite Nat.sub_0_r. apply substring_whole.
Qed.

Lemma lowerCamel_cons a t : lowerCamel (String a t) = String (Js.lowerUnit a) t.
Proof. unfold lowerCamel. rewrite sliceFrom_tail. reflexivity. Qed.

Lemma lowerUnit_identStart a :
  Chars.identStart a = true -> Js.lowerUnit a <> "-"%char.
Proof.
  destruct a as [b0 b1 b2 b3 b4 b5 b6 b7].
  destruct b0, b1, b2, b3, b4, b5, b6, b7; vm_compute; congruence.
Qed.

Lemma lowerCamel_identifier s :
  isIdentifier s = true -> lowerCamel s <> "" /\ lowerCamel s <> "-".
Proof.
  destruct s as [|a t]; [discriminate|]. intros H. apply andb_true_iff in H as [Ha _].
  rewrite lowerCamel_cons. split; [discriminate|].
  intros E. injection E as E _. exact (lowerUnit_identStart a Ha E).
Qed.

Lemma fieldOfLine_key line f :
  fieldOfLine line = Some f ->
  fname f <> "" /\ fname f <> "-"
  /\ goType f <> "" /\ forallb Pat.typeUnit (list_ascii_of_string (goType f)) = true.
Proof.
  unfold fieldOfLine.
  destruct (exec Pat.fieldLine line) as [fr|] eqn:E; [|discriminate].
  apply exec_matched in E. intros H.
  assert (Hfield : isIdentifier (grp' 1 fr) = true).
  { group_of E 1. exact (accepts_ident_text _ Ha). }
  assert (Htype : grp' 2 fr <> ""
                  /\ forallb Pat.typeUnit (list_ascii_of_string (grp' 2 fr)) = true).
  { group_of E 2. apply accepts_plus_class in Ha as [H1 H2].
    split; [apply units_nonempty; exact H1|exact H2]. }
  destruct (lowerCamel_identifier _ Hfield) as [L1 L2].
  destruct (exec Pat.jsonTag _) as [jm|].
  - destruct (negb (String.eqb _ "") && negb (String.eqb _ "-")) eqn:Hname;
      injection H as <-; simpl; [|tauto].
    apply andb_true_iff in Hname as [N1 N2].
    apply negb_true_iff, String.eqb_neq in N1, N2. tauto.
  - injection H as <-. simpl. tauto.
Qed.

Lemma uniqueFields_subset : forall fields seen f,
  f ∈ uniqueFields seen fields -> f ∈ fields.
Proof.
  induction fields as [|g fields IH]; intros seen f H; simpl in H; [exact H|].
  destruct (bool_decide (fname g ∈ seen)).
  - right. exact (IH _ _ H).
  - apply elem_of_cons in H as [->|H]; [left|right; exact (IH _ _ H)].
Qed.

Lemma uniqueFields_unseen : forall fields seen x,
  x ∈ map fname (uniqueFields seen fields) -> x ∉ seen.
Proof.
  induction fields as [|g fields IH]; intros seen x H; simpl in H.
  - apply elem_of_nil in H as [].
  - destruct (bool_decide_reflect (fname g ∈ seen)) as [Hg|Hg]; [exact (IH _ _ H)|].
    simpl in H. apply elem_of_cons in H as [->|H]; [exact Hg|].
    apply IH in H. intros Hx. apply H. right. exact Hx.
Qed.

Lemma uniqueFields_NoDup : forall fields seen,
  NoDup (map fname (uniqueFields seen fields)).
Proof.
  induction fields as [|g fields IH]; intros seen; simpl; [constructor|].
  destruct (bool_decide (fname g ∈ seen)); [apply IH|].
  simpl. constructor; [|apply IH].
  intros H. apply uniqueFields_unseen in H. apply H. left.
Qed.

(** X11.  The fields [extractStructFieldsFromText] resolves for a type name, an
    identifier, can be the keys of a JSON object: their names are distinct,
    none is empty and none is the hyphen; and every type is a non-empty text
    without a space, a tab or a backtick. *)
Theorem struct_fields_are_distinct_keys :
  forall (text typeName : string),
    isIdentifier typeName = true ->
    NoDup (map fname (extractStructFieldsFromText text typeName))
    /\ Forall (fun f =>
                 fname f <> "" /\ fname f <> "-"
                 /\ goType f <> ""
                 /\ forallb Pat.typeUnit (list_ascii_of_string (goType f)) = true)
              (extractStructFieldsFromText text typeName).
Proof.
  intros text typeName _. unfold extractStructFieldsFromText.
  destruct (exec (Pat.defRe typeName) text) as [m|]; [|split; constructor].
  split; [apply uniqueFields_NoDup|].
  apply Forall_forall. intros f Hf. apply uniqueFields_subset in Hf.
  apply list_elem_of_omap in Hf as (line & _ & Hf).
  exact (fieldOfLine_key line f Hf).
Qed.

Lemma struct_fields_are_distinct_keys_witness :
  isIdentifier "Signup" = true
  /\ map fname (extractStructFieldsFromText Sample.server "Signup") = ["email"; "age"; "secret"]
  /\ NoDup (map fname (extractStructFieldsFromText Sample.server "Signup"))
  /\ Forall (fun f =>
               fname f <> "" /\ fname f <> "-"
               /\ goType f <> ""
               /\ forallb Pat.typeUnit (list_ascii_of_string (goType f)) = true)
            (extractStructFieldsFromText Sample.server "Signup").
Proof.
  split; [reflexivity|]. split; [vm_compute; reflexivity|].
  apply (struct_fields_are_distinct_keys Sample.server "Signup"). reflexivity.
Defined.

Lemma findVarTypeInText_identifier text varName :
  match findVarTypeInText text varName with
  | Some typeName => isIdentifier typeName = true
  | None => True
  end.
Proof.
  unfold findVarTypeInText.
  destruct (exec (Pat.varDecl varName) text) as [m|] eqn:E.
  { apply exec_matched in E. destruct (grp 1 m) as [v|] eqn:Hg; [|exact I].
    pose proof (grp_accepts _ _ _ _ _ E Hg) as Ha. unfold_patterns. split_groups.
    exact (accepts_ident_text _ Ha). }
  clear E. destruct (exec (Pat.varLiteral1 varName) text) as [m|] eqn:E.
  { apply exec_matched in E. destruct (grp 1 m) as [v|] eqn:Hg; [|exact I].
    pose proof (grp_accepts _ _ _ _ _ E Hg) as Ha. unfold_patterns. split_groups.
    exact (accepts_ident_text _ Ha). }
  clear E. destruct (exec (Pat.varLiteral2 varName) text) as [m|] eqn:E.
  { apply exec_matched in E. destruct (grp 1 m) as [v|] eqn:Hg; [|exact I].
    pose proof (grp_accepts _ _ _ _ _ E Hg) as Ha. unfold_patterns. split_groups.
    exact (accepts_ident_text _ Ha). }
  clear E. destruct (exec (Pat.varNew varName) text) as [m|] eqn:E; [|exact I].
  apply exec_matched in E. destruct (grp 1 m) as [v|] eqn:Hg; [|exact I].
  pose proof (grp_accepts _ _ _ _ _ E Hg) as Ha. unfold_patterns. split_groups.
  exact (accepts_ident_text _ Ha).
Qed.

Lemma boundStruct_bound body c fullText :
  (forall n v, groupAccepts c n v -> False) -> (forall n, sets c n = false) ->
  match fst (boundStruct body c fullText) with
  | Some structName =>
      isIdentifier structName = true
      /\ snd (boundStruct body c fullText)
         = Some (extractStructFieldsFromText fullText structName)
  | None => snd (boundStruct body c fullText) = None
  end.
Proof.
  intros Hc Hs. unfold boundStruct.
  destruct (exec (Pat.structLit c) body) as [tm|] eqn:E.
  { apply exec_matched in E. cbn [fst snd]. split; [|reflexivity].
    pose proof (grp'_accepts _ _ _ 2 E) as Ha. unfold_patterns.
    rewrite ?sets_lit, ?Hs in Ha. specialize (Ha eq_refl).
    repeat match goal with
           | H : groupAccepts c _ _ |- _ => apply Hc in H
           | _ => progress split_groups
           end.
    exact (accepts_ident_text _ Ha). }
  clear E. destruct (exec (Pat.addrVar c) body) as [tm|]; [|reflexivity].
  pose proof (findVarTypeInText_identifier fullText (grp' 2 tm)) as Hv.
  destruct (findVarTypeInText fullText (grp' 2 tm)) as [[|a t]|]; try reflexivity.
  cbn [fst snd]. split; [exact Hv|reflexivity].
Qed.

Lemma collect_extracted (r : regex) n body :
  sets r n = true ->
  (forall v, groupAccepts r n v -> accepts (Rx.plus (Chr Pat.notQuote)) (list_ascii_of_string v)) ->
  Forall extractedName (collect r n body).
Proof.
  intros Hs Hg. unfold collect. apply Forall_map.
  eapply Forall_impl; [apply execAll_matched|]. intros m M. simpl.
  pose proof (Hg _ (grp'_accepts _ _ _ n M Hs)) as Ha.
  apply accepts_plus_class in Ha as [H1 H2]. split; [apply units_nonempty; exact H1|].
  intros Hq. rewrite forallb_forall in H2. apply list_elem_of_In in Hq.
  specialize (H2 _ Hq). unfold Pat.notQuote, Chars.notOne in H2.
  rewrite Ascii.eqb_refl in H2. discriminate.
Qed.

Lemma accessor_extracted c accessorName body :
  (forall n v, groupAccepts c n v -> False) -> (forall n, sets c n = false) ->
  Forall extractedName (collect (Pat.accessor c accessorName) 1 body).
Proof.
  intros Hc Hs. apply collect_extracted.
  - unfold_patterns. rewrite ?sets_lit, ?Hs. reflexivity.
  - intros v Ha. unfold_patterns.
    repeat match goal with
           | H : groupAccepts c _ _ |- _ => apply Hc in H
           | _ => progress split_groups
           end.
    exact Ha.
Qed.

Lemma unique_Forall (P : string -> Prop) l : Forall P l -> Forall P (Js.unique l).
Proof.
  intros F. apply Forall_forall. intros x Hx. unfold Js.unique in Hx.
  apply dedupe_elem in Hx as [Hx _]. rewrite Forall_forall in F. exact (F x Hx).
Qed.

(** X12.  What [inferParamsFromBody] returns, for a context variable that is an
    identifier or none, is well formed.  The body type is never the unknown
    one.  A struct name is set only for a JSON body; it is
    then an identifier and the fields are those resolved for it in the full
    text, and without a struct name there are no fields.  And every path
    parameter, query parameter, header and cookie name is a non-empty text
    without a double quote. *)
Theorem inferred_params_are_well_formed :
  forall (body : string) (ctxVar : option string) (ginAlias fullText : string),
    identifierIfSet ctxVar = true ->
    let p := inferParamsFromBody body ctxVar ginAlias fullText in
    bodyType p <> unknown
    /\ match jsonStructName p with
       | Some structName =>
           bodyType p = json
           /\ isIdentifier structName = true
           /\ jsonFields p = Some (extractStructFieldsFromText fullText structName)
       | None => jsonFields p = None
       end
    /\ Forall extractedName (pathParams p ++ queryParams p ++ headers p ++ cookies p).
Proof.
  intros body ctxVar ginAlias fullText _ p.
  set (c := Pat.cPattern ctxVar).
  assert (Hc : forall n v, groupAccepts c n v -> False)
    by (intros n v; apply groupAccepts_cPattern).
  assert (Hs : forall n, sets c n = false) by (intros n; apply sets_cPattern).
  split; [|split].
  - unfold p, inferParamsFromBody. fold c.
    destruct (classifyBody body c) eqn:E; try discriminate;
      [destruct (boundStruct body c fullText)|]; try discriminate.
    unfold classifyBody in E.
    repeat match type of E with (if ?b then _ else _) = _ => destruct b end; discriminate.
  - unfold p, inferParamsFromBody. fold c.
    destruct (classifyBody body c) eqn:E; try reflexivity.
    pose proof (boundStruct_bound body c fullText Hc Hs) as Hb.
    destruct (boundStruct body c fullText) as [structName fields]. cbn [fst snd] in Hb.
    cbn [jsonStructName jsonFields bodyType].
    destruct structName as [s|]; [|exact Hb]. destruct Hb as [H1 H2]. auto.
  - assert (E : pathParams p = Js.unique (collect (Pat.ppRe c) 1 body)
                /\ queryParams p = Js.unique (collect (Pat.qpRe c) 2 body)
                /\ cookies p = Js.unique (collect (Pat.ckRe c) 1 body)
                /\ headers p = Js.unique (collect (Pat.ghRe c) 1 body
                                          ++ collect (Pat.rhRe c) 1 body)).
    { unfold p, inferParamsFromBody. fold c.
      destruct (match classifyBody body c with
                | json => boundStruct body c fullText
                | _ => (None, None)
                end). repeat split. }
    destruct E as (-> & -> & -> & ->).
    repeat apply Forall_app_2; apply unique_Forall.
    + apply accessor_extracted; assumption.
    + apply collect_extracted.
      * unfold_patterns. rewrite ?sets_lit, ?Hs. reflexivity.
      * intros v Ha. unfold_patterns.
        repeat match goal with
               | H : groupAccepts c _ _ |- _ => apply Hc in H
               | _ => progress split_groups
               end.
        exact Ha.
    + apply Forall_app_2; apply accessor_extracted; assumption.
    + apply accessor_extracted; assumption.
Qed.

Lemma inferred_params_are_well_formed_witness :
  identifierIfSet (Some "c") = true
  /\ let p := inferParamsFromBody Bodies.accessors (Some "c") "gin" Sample.server in
     bodyType p <> unknown
     /\ match jsonStructName p with
        | Some structName =>
            bodyType p = json
            /\ isIdentifier structName = true
            /\ jsonFields p = Some (extractStructFieldsFromText Sample.server structName)
        | None => jsonFields p = None
        end
     /\ Forall extractedName (pathParams p ++ queryParams p ++ headers p ++ cookies p).
Proof.
  split; [reflexivity|].
  apply (inferred_params_are_well_formed Bodies.accessors (Some "c") "gin" Sample.server).
  reflexivity.
Defined.


Lemma string_of_units_app : forall a b,
  string_of_list_ascii (a ++ b) = string_of_list_ascii a +:+ string_of_list_ascii b.
Proof.
  induction a as [|x a IH]; intros b; [reflexivity|]. simpl. rewrite IH. reflexivity.
Qed.

Lemma identifier_no_dot s :
  isIdentifier s = true -> "."%char ∉ list_ascii_of_string s.
Proof.
  destruct s as [|a t]; [discriminate|]. intros H. apply andb_true_iff in H as [Ha Ht].
  simpl. intros Hin. apply elem_of_cons in Hin as [<-|Hin]; [discriminate Ha|].
  rewrite forallb_forall in Ht. apply list_elem_of_In in Hin.
  specialize (Ht _ Hin). discriminate Ht.
Qed.

Lemma accepts_qualified w :
  accepts Rx.qualified w -> isIdentifier (lastSegment (string_of_list_ascii w)) = true.
Proof.
  intros (w1 & w2 & -> & H1 & ws & -> & F). apply accepts_ident in H1.
  induction ws as [|u ws IH] using rev_ind.
  - simpl. rewrite app_nil_r, lastSegment_plain; [exact H1|].
    apply identifier_no_dot. exact H1.
  - apply Forall_app in F as [_ Fu]. apply Forall_cons in Fu as [Fu _].
    destruct Fu as (u1 & u2 & -> & Hu1 & Hu2).
    apply accepts_lit in Hu1 as ->. apply accepts_ident in Hu2.
    rewrite concat_app. simpl. rewrite app_nil_r, !app_assoc, string_of_units_app.
    simpl. rewrite lastSegment_qualified; [exact Hu2|].
    apply identifier_no_dot. exact Hu2.
Qed.

Lemma accepts_qualified_text v :
  accepts Rx.qualified (list_ascii_of_string v) -> isIdentifier (lastSegment v) = true.
Proof.
  intros H. apply accepts_qualified in H. rewrite string_of_list_ascii_of_string in H.
  exact H.
Qed.

Lemma known_method_upper m :
  m ∈ HTTP_METHODS ++ [METHOD_ANY] -> toUpperCase m = Some m.
Proof.
  intros H. unfold HTTP_METHODS, METHOD_ANY in H. simpl in H.
  repeat (apply elem_of_cons in H as [->|H]; [vm_compute; reflexivity|]).
  apply elem_of_nil in H as [].
Qed.

(** What a registration is made of. *)
Lemma routesWithPrefixes_shape doc names pm :
  Forall (fun r =>
            method r ∈ HTTP_METHODS ++ [METHOD_ANY]
            /\ isIdentifier (handlerName r) = true
            /\ routeFile r = fsPath doc)
         (routesWithPrefixes doc names pm).
Proof.
  unfold routesWithPrefixes. repeat apply Forall_app_2; apply Forall_flat_map.
  - eapply Forall_impl; [apply execAll_matched|]. intros m M.
    unfold routeOfMethodCall. destruct (negb _); constructor; [|constructor].
    cbn [method handlerName routeFile]. split; [|split; [|reflexivity]].
    + apply elem_of_app. left. group_of M 2. cbn [accepts] in Ha.
      repeat (destruct Ha as [Ha|Ha];
              [apply accepts_lit, units_inj in Ha; rewrite Ha;
               apply (proj1 (bool_decide_eq_true _)); vm_compute; reflexivity|]).
      apply accepts_lit, units_inj in Ha. rewrite Ha.
      apply (proj1 (bool_decide_eq_true _)). vm_compute. reflexivity.
    + group_of M 4. exact (accepts_qualified_text _ Ha).
  - eapply Forall_impl; [apply execAll_matched|]. intros m M.
    unfold routeOfHandleCall.
    destruct (includes HTTP_METHODS (grp' 2 m)) eqn:Hm; cbn [negb orb]; [|constructor].
    destruct (has names _); cbn [negb]; constructor; [|constructor].
    cbn [method handlerName routeFile]. split; [|split; [|reflexivity]].
    + apply elem_of_app. left. unfold includes in Hm.
      apply bool_decide_eq_true in Hm. exact Hm.
    + group_of M 4. exact (accepts_qualified_text _ Ha).
  - eapply Forall_impl; [apply execAll_matched|]. intros m M.
    unfold routeOfAnyCall. destruct (negb _); constructor; [|constructor].
    cbn [method handlerName routeFile]. split; [|split; [|reflexivity]].
    + apply elem_of_app. right. left.
    + group_of M 3. exact (accepts_qualified_text _ Ha).
Qed.

(** X13.  Every registration [findRoutesInTextByNames] returns has one of the
    seven methods or ANY as its method, written in capitals as
    [generateCurl] will write it, names its handler by an identifier, the
    last segment of the reference at the call site, and has the document's
    path as its file. *)
Theorem registrations_are_well_formed :
  forall (fuel : nat) (doc : TextDocument) (handlerNames : gset string)
         (registrations : list RouteRegistration),
    findRoutesInTextByNames fuel doc handlerNames = Some registrations ->
    Forall (fun r =>
              method r ∈ HTTP_METHODS ++ [METHOD_ANY]
              /\ toUpperCase (method r) = Some (method r)
              /\ isIdentifier (handlerName r) = true
              /\ routeFile r = fsPath doc)
           registrations.
Proof.
  intros fuel doc names rs H. unfold findRoutesInTextByNames in H.
  destruct (buildGroupPrefixMap fuel _ _) as [pm|]; [|discriminate].
  injection H as <-.
  eapply Forall_impl; [apply routesWithPrefixes_shape|].
  intros r (H1 & H2 & H3). repeat split; try assumption.
  apply known_method_upper. exact H1.
Qed.

Lemma registrations_are_well_formed_witness :
  findRoutesInTextByNames 3 Sample.serverDoc {["CreateUser"]}
    = Some [mkRoute "POST" "/api/v1/users/:id" "CreateUser" "main.go" (477, 509)]
  /\ Forall (fun r =>
               method r ∈ HTTP_METHODS ++ [METHOD_ANY]
               /\ toUpperCase (method r) = Some (method r)
               /\ isIdentifier (handlerName r) = true
               /\ routeFile r = fsPath Sample.serverDoc)
            [mkRoute "POST" "/api/v1/users/:id" "CreateUser" "main.go" (477, 509)].
Proof.
  assert (E : findRoutesInTextByNames 3 Sample.serverDoc {["CreateUser"]}
    = Some [mkRoute "POST" "/api/v1/users/:id" "CreateUser" "main.go" (477, 509)])
    by (vm_compute; reflexivity).
  split; [exact E|].
  exact (registrations_are_well_formed 3 Sample.serverDoc {["CreateUser"]} _ E).
Defined.

(** ** Replacements *)

Lemma string_app_empty s : s +:+ "" = s.
Proof. induction s as [|a s IH]; [reflexivity|]. rewrite app_cons, IH. reflexivity. Qed.

Lemma units_app s t :
  list_ascii_of_string (s +:+ t) = list_ascii_of_string s ++ list_ascii_of_string t.
Proof. induction s as [|a s IH]; [reflexivity|]. rewrite app_cons. simpl. rewrite IH. reflexivity. Qed.

Lemma substring_snoc text from i a :
  from <= i -> list_ascii_of_string text !! i = Some a ->
  substring from (S i - from) text = substring from (i - from) text +:+ String a "".
Proof.
  intros Hle Hi. apply units_inj.
  rewrite units_app, !substring_units. simpl.
  apply range_snoc; assumption.
Qed.

Lemma drop_lookup_head {A} : forall p (l : list A) a t,
  drop p l = a :: t -> l !! p = Some a /\ drop (S p) l = t.
Proof.
  induction p as [|p IH]; intros l a t H.
  - destruct l; [discriminate|]. injection H as -> ->. split; reflexivity.
  - destruct l as [|x l]; [discriminate|]. apply (IH l a t H).
Qed.

Lemma substituted_nil stretch by_ fuel : substituted stretch by_ fuel [] = [].
Proof. destruct fuel; reflexivity. Qed.

Lemma execLoop_skip r fuel i pv a t :
  matchAt r (Cursor i pv (a :: t)) = None ->
  execLoop r fuel (Cursor i pv (a :: t)) = execLoop r fuel (Cursor (S i) (Some a) t).
Proof.
  intros H. destruct fuel as [|fuel]; [reflexivity|].
  cbn [execLoop]. unfold scanFrom. cbn [pos prev rest scan]. rewrite H.
  destruct t; reflexivity.
Qed.

Lemma rebuild_substituted text r stretch by_ :
  stretchOf r stretch ->
  forall fuel rs i pv from efuel,
    drop i (list_ascii_of_string text) = rs -> i <= String.length text ->
    from <= i -> List.length rs <= fuel -> List.length rs < efuel ->
    Js.rebuild text from (execLoop r efuel (Cursor i pv rs)) by_
    = substring from (i - from) text
      +:+ string_of_list_ascii (substituted stretch (list_ascii_of_string by_) fuel rs).
Proof.
  intros Hr. induction fuel as [|fuel IH]; intros rs i pv from efuel Hrs Hi Hfrom Hf He.
  - destruct rs; [|simpl in Hf; lia].
    assert (i = String.length text) as ->.
    { apply (f_equal (@List.length _)) in Hrs.
      rewrite length_drop, length_list_ascii in Hrs. simpl in Hrs. lia. }
    destruct efuel as [|efuel]; [simpl in He; lia|].
    pose proof (Hr (String.length text) pv []) as H.
    destruct (stretch []) as [n|]; [simpl in H; lia|].
    cbn [execLoop]. unfold scanFrom. cbn [pos prev rest scan]. rewrite H.
    simpl. rewrite string_app_empty. reflexivity.
  - destruct rs as [|a t].
    { assert (i = String.length text) as ->.
      { apply (f_equal (@List.length _)) in Hrs.
        rewrite length_drop, length_list_ascii in Hrs. simpl in Hrs. lia. }
      destruct efuel as [|efuel]; [simpl in He; lia|].
      pose proof (Hr (String.length text) pv []) as H.
      destruct (stretch []) as [n|]; [simpl in H; lia|].
      cbn [execLoop]. unfold scanFrom. cbn [pos prev rest scan]. rewrite H.
      simpl. rewrite string_app_empty. reflexivity. }
    destruct (drop_lookup_head _ _ _ _ Hrs) as [Ha Ht].
    assert (Hlen : S i <= String.length text).
    { apply lookup_lt_Some in Ha. rewrite length_list_ascii in Ha. lia. }
    pose proof (Hr i pv (a :: t)) as H. cbn [substituted].
    destruct (stretch (a :: t)) as [n|].
    + destruct H as (Hn & m & c' & Hm & H1 & H2 & H3 & H4).
      destruct efuel as [|efuel]; [simpl in He; lia|].
      cbn [execLoop]. unfold scanFrom. cbn [pos prev rest scan]. rewrite Hm.
      assert (Hlt : (index m <? lastIndex m)%nat = true) by (apply Nat.ltb_lt; lia).
      rewrite Hlt. cbn [Js.rebuild]. rewrite H1, H2.
      destruct c' as [p' pv' rs']. simpl in H3, H4. subst p' rs'.
      simpl in Hn, Hf, He.
      rewrite (IH (drop n (a :: t)) (i + n) pv' (i + n) efuel).
      * rewrite Nat.sub_diag, substring_empty, string_of_units_app.
        rewrite string_of_list_ascii_of_string. reflexivity.
      * rewrite <- Hrs, drop_drop. reflexivity.
      * assert (L : List.length (a :: t) = String.length text - i)
          by (rewrite <- Hrs, length_drop, length_list_ascii; reflexivity).
        simpl in L. lia.
      * lia.
      * rewrite length_drop. simpl. lia.
      * rewrite length_drop. simpl. lia.
    + rewrite execLoop_skip by exact H.
      simpl in Hf, He.
      rewrite (IH t (S i) (Some a) from efuel Ht Hlen ltac:(lia) ltac:(lia) ltac:(lia)).
      rewrite (substring_snoc text from i a Hfrom Ha), app_assoc_string. reflexivity.
Qed.

(** Replacing all matches of such a pattern. *)
Lemma replace_all text r stretch by_ :
  stretchOf r stretch ->
  Js.replace r true text by_
  = string_of_list_ascii
      (substituted stretch (list_ascii_of_string by_) (String.length text)
         (list_ascii_of_string text)).
Proof.
  intros Hr. unfold Js.replace, execAll, start.
  rewrite (rebuild_substituted text r stretch by_ Hr (String.length text)
             (list_ascii_of_string text) 0 None 0 (S (String.length text)));
    try (rewrite ?length_list_ascii; lia).
  - rewrite substring_empty. reflexivity.
  - reflexivity.
Qed.

Lemma lengthWhile_le p : forall l, lengthWhile p l <= List.length l.
Proof. induction l as [|a l IH]; simpl; [lia|]. destruct (p a); simpl; lia. Qed.

Lemma iterate_steps (p : ascii -> bool) (step : cursor -> captures -> (cursor -> captures -> option outcome)
                                 -> option outcome) :
  (forall c g k, step c g k = match rest c with
                              | a :: _ => if p a then k (advance c) g else None
                              | [] => None
                              end) ->
  forall n i pv rs g,
    List.length rs < n ->
    exists pv',
      iterate step true (fun c' g' => Some (c', g')) n (Cursor i pv rs) g
      = Some (Cursor (i + lengthWhile p rs) pv' (drop (lengthWhile p rs) rs), g).
Proof.
  intros Hstep. induction n as [|n IH]; intros i pv rs g Hn; [lia|].
  cbn [iterate]. rewrite Hstep. cbn [rest]. destruct rs as [|a t].
  - exists pv. simpl. rewrite Nat.add_0_r. reflexivity.
  - cbn [lengthWhile]. destruct (p a).
    + unfold advance. cbn [rest pos].
      assert (Hlt : (i <? S i)%nat = true) by (apply Nat.ltb_lt; lia).
      rewrite Hlt. simpl in Hn.
      assert (Hn' : List.length t < n) by lia.
      destruct (IH (S i) (Some a) t g Hn') as [pv' E].
      rewrite E. exists pv'. rewrite Nat.add_succ_r. reflexivity.
    + exists pv. simpl. rewrite Nat.add_0_r. reflexivity.
Qed.

Lemma iterate_class p : forall n i pv rs g,
  List.length rs < n ->
  exists pv',
    iterate (run (Chr p)) true (fun c' g' => Some (c', g')) n (Cursor i pv rs) g
    = Some (Cursor (i + lengthWhile p rs) pv' (drop (lengthWhile p rs) rs), g).
Proof. apply iterate_steps. intros c g k. reflexivity. Qed.

Lemma stretchOf_class p : stretchOf (Rx.plus (Chr p)) (runOf p).
Proof.
  intros i pv rs. unfold matchAt, Rx.plus.
  change (run (Seq (Chr p) (Star true (Chr p))) (Cursor i pv rs) []
              (fun c' g' => Some (c', g')))
    with (match rs with
          | a :: _ =>
              if p a
              then iterate (run (Chr p)) true (fun c' g' => Some (c', g'))
                     (S (List.length (rest (advance (Cursor i pv rs)))))
                     (advance (Cursor i pv rs)) []
              else None
          | [] => None
          end).
  destruct rs as [|a t]; [reflexivity|]. cbn [runOf]. destruct (p a); [|reflexivity].
  pose proof (lengthWhile_le p t) as Hle. split; [simpl; lia|].
  unfold advance. cbn [rest pos].
  destruct (iterate_class p (S (List.length t)) (S i) (Some a) t [] (Nat.lt_succ_diag_r _))
    as [pv' E].
  rewrite E. eexists _, _. split; [reflexivity|]. simpl. repeat split; lia.
Qed.

Lemma stretchOf_unit x : stretchOf (Rx.lit (String x "")) (unitOf x).
Proof.
  intros i pv rs. unfold matchAt. cbn [Rx.lit run rest].
  destruct rs as [|a t]; [reflexivity|]. cbn [unitOf]. unfold Chars.one.
  destruct (Ascii.eqb a x); [|reflexivity].
  split; [simpl; lia|]. eexists _, _. split; [reflexivity|].
  simpl. repeat split; lia.
Qed.

Lemma run_lit s : forall c g k,
  if startsUnits (rest c) (list_ascii_of_string s)
  then exists pv',
         run (Rx.lit s) c g k
         = k (Cursor (pos c + String.length s) pv' (drop (String.length s) (rest c))) g
  else run (Rx.lit s) c g k = None.
Proof.
  induction s as [|x s IH]; intros c g k.
  - simpl. exists (prev c). rewrite Nat.add_0_r. destruct c. reflexivity.
  - cbn [list_ascii_of_string Rx.lit run startsUnits].
    destruct (rest c) as [|a t] eqn:E; [reflexivity|].
    unfold Chars.one. destruct (Ascii.eqb a x); [|reflexivity]. cbn [andb].
    pose proof (IH (advance c) g k) as H. unfold advance in *. rewrite E in *.
    cbn [rest pos] in H. destruct (startsUnits t (list_ascii_of_string s)); [|exact H].
    destruct H as [pv' H]. exists pv'. rewrite H. cbn [String.length].
    rewrite Nat.add_succ_r. reflexivity.
Qed.

Lemma startsUnits_app : forall p1 p2 l,
  startsUnits l (p1 ++ p2) = startsUnits l p1 && startsUnits (drop (List.length p1) l) p2.
Proof.
  induction p1 as [|x p1 IH]; intros p2 l; [reflexivity|].
  destruct l as [|a l]; [reflexivity|]. simpl. rewrite IH, andb_assoc. reflexivity.
Qed.

Lemma startsUnits_length : forall p l,
  startsUnits l p = true -> List.length p <= List.length l.
Proof.
  induction p as [|x p IH]; intros l H; simpl; [lia|].
  destruct l as [|a l]; [discriminate|]. simpl in *.
  apply andb_true_iff in H as [_ H]. apply IH in H. lia.
Qed.

Lemma run_negLook_word c g :
  run (NegLook (Chr Chars.word)) c g (fun c' g' => Some (c', g'))
  = if wordAhead (rest c) then None else Some (c, g).
Proof.
  cbn [run]. destruct (rest c) as [|a t]; [reflexivity|]. simpl.
  destruct (Chars.word a); reflexivity.
Qed.

Lemma stretchOf_param p :
  stretchOf (Rx.seq [Rx.lit ":"; Rx.lit p; NegLook (Chr Chars.word)]) (paramOf p).
Proof.
  intros i pv rs. unfold matchAt, paramOf. cbn [Rx.seq].
  change (run (Seq (Rx.lit ":") (Seq (Rx.lit p) (NegLook (Chr Chars.word))))
              (Cursor i pv rs) [] (fun c' g' => Some (c', g')))
    with (run (Rx.lit ":") (Cursor i pv rs) []
            (fun c1 g1 => run (Rx.lit p) c1 g1
               (fun c2 g2 => run (NegLook (Chr Chars.word)) c2 g2
                  (fun c' g' => Some (c', g'))))).
  change (":"%char :: list_ascii_of_string p) with ([":"%char] ++ list_ascii_of_string p).
  rewrite startsUnits_app, List.length_app. cbn [List.length].
  pose proof (run_lit ":" (Cursor i pv rs) []
                (fun c1 g1 => run (Rx.lit p) c1 g1
                   (fun c2 g2 => run (NegLook (Chr Chars.word)) c2 g2
                      (fun c' g' => Some (c', g'))))) as H1.
  cbn [rest pos list_ascii_of_string String.length] in H1.
  destruct (startsUnits rs [":"%char]) eqn:Hcolon; [|rewrite H1; reflexivity].
  destruct H1 as [pv1 H1]. rewrite H1. clear H1. cbn [andb].
  pose proof (run_lit p (Cursor (i + 1) pv1 (drop 1 rs)) []
                (fun c2 g2 => run (NegLook (Chr Chars.word)) c2 g2
                   (fun c' g' => Some (c', g')))) as H2.
  cbn [rest pos] in H2.
  destruct (startsUnits (drop 1 rs) (list_ascii_of_string p)) eqn:Hp;
    [|rewrite H2; reflexivity].
  destruct H2 as [pv2 H2]. rewrite H2. clear H2. cbn [andb].
  rewrite run_negLook_word. cbn [rest].
  rewrite drop_drop, length_list_ascii.
  destruct (wordAhead (drop (1 + String.length p) rs)); cbn [negb]; [reflexivity|].
  apply startsUnits_length in Hcolon, Hp.
  rewrite length_drop, length_list_ascii in Hp. simpl in Hcolon.
  split; [lia|]. eexists _, _. split; [reflexivity|]. simpl. repeat split; lia.
Qed.

Section Substituted.

Variable stretch : list ascii -> option nat.
Variable by_ : list ascii.
Hypothesis stretch_positive : forall l n, stretch l = Some n -> 0 < n.

Lemma substituted_enough : forall fuel fuel' l,
  List.length l <= fuel -> List.length l <= fuel' ->
  substituted stretch by_ fuel l = substituted stretch by_ fuel' l.
Proof.
  induction fuel as [|fuel IH]; intros fuel' l H H'.
  - destruct l; [|simpl in H; lia]. rewrite !substituted_nil. reflexivity.
  - destruct l as [|a t]; [rewrite !substituted_nil; reflexivity|].
    destruct fuel' as [|fuel']; [simpl in H'; lia|]. simpl in H, H'.
    cbn [substituted]. destruct (stretch (a :: t)) as [n|] eqn:E.
    + apply stretch_positive in E. f_equal.
      apply IH; rewrite length_drop; simpl; lia.
    + f_equal. apply IH; lia.
Qed.

(** Code units at which no stretch starts are kept. *)
Lemma substituted_keep : forall pre l fuel,
  (forall k, k < List.length pre -> stretch (drop k (pre ++ l)) = None) ->
  List.length (pre ++ l) <= fuel ->
  substituted stretch by_ fuel (pre ++ l)
  = pre ++ substituted stretch by_ (fuel - List.length pre) l.
Proof.
  induction pre as [|a pre IH]; intros l fuel Hnone Hf.
  - simpl. rewrite Nat.sub_0_r. reflexivity.
  - destruct fuel as [|fuel]; [simpl in Hf; lia|]. simpl in Hf.
    cbn [app substituted List.length Nat.sub].
    assert (H0 : stretch (a :: pre ++ l) = None) by (apply (Hnone 0); simpl; lia).
    rewrite H0.
    f_equal. apply IH; [|lia].
    intros k Hk. apply (Hnone (S k)). simpl. lia.
Qed.

End Substituted.

Lemma runOf_positive p l n : runOf p l = Some n -> 0 < n.
Proof.
  destruct l as [|a t]; [discriminate|]. simpl. destruct (p a); [|discriminate].
  intros H. injection H as <-. lia.
Qed.

Lemma substituted_word : forall fuel l,
  List.length l <= fuel ->
  forallb Chars.word (substituted (runOf nonWord) ["_"%char] fuel l) = true.
Proof.
  induction fuel as [|fuel IH]; intros l H.
  - destruct l; [reflexivity|simpl in H; lia].
  - destruct l as [|a t]; [reflexivity|]. cbn [substituted runOf]. simpl in H.
    unfold nonWord at 1. destruct (Chars.word a) eqn:Ha; cbn [negb].
    + simpl. rewrite Ha. apply IH. lia.
    + change (drop (S (lengthWhile nonWord t)) (a :: t))
        with (drop (lengthWhile nonWord t) t).
      simpl. apply IH. rewrite length_drop. lia.
Qed.

Lemma substituted_words_kept : forall fuel l,
  forallb Chars.word l = true -> substituted (runOf nonWord) ["_"%char] fuel l = l.
Proof.
  induction fuel as [|fuel IH]; intros l H; [reflexivity|].
  destruct l as [|a t]; [reflexivity|]. simpl in H.
  apply andb_true_iff in H as [Ha Ht]. cbn [substituted runOf].
  unfold nonWord at 1. rewrite Ha. cbn [negb]. rewrite IH by exact Ht. reflexivity.
Qed.

Lemma substituted_shorter : forall fuel l,
  List.length (substituted (runOf nonWord) ["_"%char] fuel l) <= List.length l.
Proof.
  induction fuel as [|fuel IH]; intros l; [simpl; lia|].
  destruct l as [|a t]; [simpl; lia|]. cbn [substituted runOf].
  destruct (nonWord a).
  - change (drop (S (lengthWhile nonWord t)) (a :: t))
      with (drop (lengthWhile nonWord t) t).
    simpl. specialize (IH (drop (lengthWhile nonWord t) t)).
    rewrite length_drop in IH. lia.
  - simpl. specialize (IH t). lia.
Qed.

Lemma normalizePlaceholder_units name :
  list_ascii_of_string (normalizePlaceholder name)
  = substituted (runOf nonWord) ["_"%char] (String.length name) (list_ascii_of_string name).
Proof.
  change (normalizePlaceholder name)
    with (Js.replace (Rx.plus (Chr nonWord)) true name "_").
  rewrite (replace_all name _ (runOf nonWord) "_" (stretchOf_class nonWord)).
  rewrite list_ascii_of_string_of_list_ascii. reflexivity.
Qed.

(** X14.  What [normalizePlaceholder] returns holds code units of words only,
    letters, digits and the underscore, and is no longer than the name; a
    name of such code units is returned as it is, so normalizing twice is
    normalizing once; and of a name that is not empty the result is not
    empty. *)
Theorem normalizePlaceholder_yields_word_units :
  forall name : string,
    forallb Chars.word (list_ascii_of_string (normalizePlaceholder name)) = true
    /\ String.length (normalizePlaceholder name) <= String.length name
    /\ (forallb Chars.word (list_ascii_of_string name) = true ->
        normalizePlaceholder name = name)
    /\ normalizePlaceholder (normalizePlaceholder name) = normalizePlaceholder name
    /\ (name <> "" -> normalizePlaceholder name <> "").
Proof.
  intros name.
  assert (Hword : forallb Chars.word (list_ascii_of_string (normalizePlaceholder name)) = true).
  { rewrite normalizePlaceholder_units. apply substituted_word.
    rewrite length_list_ascii. lia. }
  assert (Hkept : forall s, forallb Chars.word (list_ascii_of_string s) = true ->
                            normalizePlaceholder s = s).
  { intros s H. apply units_inj. rewrite normalizePlaceholder_units.
    apply substituted_words_kept. exact H. }
  split; [exact Hword|]. split; [|split; [apply Hkept|split; [apply Hkept, Hword|]]].
  - rewrite <- !length_list_ascii, normalizePlaceholder_units. apply substituted_shorter.
  - intros Hne E. apply (f_equal list_ascii_of_string) in E.
    rewrite normalizePlaceholder_units in E.
    destruct name as [|a t]; [contradiction|]. cbn [String.length list_ascii_of_string] in E.
    cbn [substituted runOf] in E. destruct (nonWord a); discriminate E.
Qed.

Lemma normalizePlaceholder_yields_word_units_witness :
  normalizePlaceholder "X-Request-Id" = "X_Request_Id"
  /\ normalizePlaceholder "session_id" = "session_id"
  /\ normalizePlaceholder "X-Request-Id" <> "".
Proof.
  destruct (normalizePlaceholder_yields_word_units "session_id") as (_ & _ & H & _).
  destruct (normalizePlaceholder_yields_word_units "X-Request-Id") as (_ & _ & _ & _ & H').
  split; [vm_compute; reflexivity|]. split; [apply H; reflexivity|].
  apply H'. discriminate.
Defined.

Lemma substituted_unit x by_ : forall fuel l,
  List.length l <= fuel ->
  substituted (unitOf x) by_ fuel l
  = flat_map (fun a => if Ascii.eqb a x then by_ else [a]) l.
Proof.
  induction fuel as [|fuel IH]; intros l H.
  - destruct l; [reflexivity|simpl in H; lia].
  - destruct l as [|a t]; [reflexivity|]. simpl in H. cbn [substituted unitOf flat_map].
    destruct (Ascii.eqb a x).
    + change (drop 1 (a :: t)) with t. rewrite IH by lia. reflexivity.
    + rewrite IH by lia. reflexivity.
Qed.

Lemma flat_map_tripleQuote_plain : forall l,
  "'"%char ∉ l -> flat_map tripleQuote l = l.
Proof.
  induction l as [|a l IH]; intros H; [reflexivity|].
  apply not_elem_of_cons in H as [Ha Hl]. simpl. rewrite IH by exact Hl.
  unfold tripleQuote. destruct (Ascii.eqb_spec a "'"); [congruence|reflexivity].
Qed.

(** X15.  [shellQuote] puts the text between two single quotes and writes every
    single quote of the text three times; that is all it does, so a text
    without a single quote is put between the two quotes as it is. *)
Theorem shellQuote_triples_single_quotes :
  forall s : string,
    shellQuote s
    = "'" +:+ string_of_list_ascii (flat_map tripleQuote (list_ascii_of_string s)) +:+ "'"
    /\ ("'"%char ∉ list_ascii_of_string s -> shellQuote s = "'" +:+ s +:+ "'").
Proof.
  intros s.
  assert (H : shellQuote s
              = "'" +:+ string_of_list_ascii (flat_map tripleQuote (list_ascii_of_string s))
                +:+ "'").
  { unfold shellQuote. destruct (String.eqb_spec s "") as [->|_]; [reflexivity|].
    rewrite (replace_all s _ (unitOf "'") "'''" (stretchOf_unit "'")).
    rewrite substituted_unit by (rewrite length_list_ascii; lia). reflexivity. }
  split; [exact H|]. intros Hplain.
  rewrite H, flat_map_tripleQuote_plain by exact Hplain.
  rewrite string_of_list_ascii_of_string. reflexivity.
Qed.

Lemma shellQuote_triples_single_quotes_witness :
  shellQuote "it's" = "'it'''s'" /\ shellQuote "a b" = "'a b'".
Proof.
  split; [vm_compute; reflexivity|].
  apply (proj2 (shellQuote_triples_single_quotes "a b")).
  apply (proj1 (bool_decide_eq_true _)). vm_compute. reflexivity.
Defined.

Lemma paramOf_positive p l n : paramOf p l = Some n -> 0 < n.
Proof.
  unfold paramOf. destruct (_ && _); [|discriminate]. intros H. injection H as <-.
  simpl. lia.
Qed.

Lemma paramOf_other p l :
  head l <> Some ":"%char -> paramOf p l = None.
Proof.
  intros H. unfold paramOf. destruct l as [|a t]; [reflexivity|].
  cbn [startsUnits]. destruct (Ascii.eqb_spec a ":") as [->|_]; [|reflexivity].
  exfalso. apply H. reflexivity.
Qed.

Lemma paramOf_none_before p pre l :
  ":"%char ∉ pre -> forall k, k < List.length pre -> paramOf p (drop k (pre ++ l)) = None.
Proof.
  intros Hpre k Hk. apply paramOf_other.
  rewrite drop_app_le by lia.
  destruct (drop k pre) as [|a t] eqn:E.
  - apply (f_equal (@List.length _)) in E. rewrite length_drop in E. simpl in E. lia.
  - simpl. intros H. injection H as ->. apply Hpre.
    apply (list_elem_of_lookup_2 _ k). apply (drop_lookup_head _ _ _ _ E).
Qed.

Lemma startsUnits_self : forall p l, startsUnits (p ++ l) p = true.
Proof.
  induction p as [|x p IH]; intros l; [reflexivity|].
  simpl. rewrite Ascii.eqb_refl. apply IH.
Qed.

Lemma termsOf_lit : forall p : string,
  termsOf (map (fun a => Chr (Chars.one a)) (list_ascii_of_string p)) = Rx.lit p.
Proof.
  induction p as [|a p IH]; [reflexivity|].
  change (Seq (Chr (Chars.one a))
            (termsOf (map (fun a => Chr (Chars.one a)) (list_ascii_of_string p)))
          = Seq (Chr (Chars.one a)) (Rx.lit p)).
  rewrite IH. reflexivity.
Qed.

Lemma plainUnit_literal a :
  plainUnit a = true ->
  Ascii.eqb a "(" = false /\ Ascii.eqb a ")" = false /\ Ascii.eqb a "." = false.
Proof.
  intros H. repeat split.
  - destruct (Ascii.eqb_spec a "("%char) as [E|]; [|reflexivity].
    rewrite E in H. vm_compute in H. discriminate H.
  - destruct (Ascii.eqb_spec a ")"%char) as [E|]; [|reflexivity].
    rewrite E in H. vm_compute in H. discriminate H.
  - destruct (Ascii.eqb_spec a "."%char) as [E|]; [|reflexivity].
    rewrite E in H. vm_compute in H. discriminate H.
Qed.

Lemma compileName_plain : forall (units : list ascii) opened terms,
  forallb plainUnit units = true ->
  compileName units opened terms []
  = Returns (termsOf (rev terms ++ map (fun a => Chr (Chars.one a)) units)).
Proof.
  induction units as [|a units IH]; intros opened terms H; simpl.
  - rewrite app_nil_r. reflexivity.
  - simpl in H. apply andb_prop in H as [Ha H].
    destruct (plainUnit_literal a Ha) as (-> & -> & ->). rewrite Ha. simpl.
    rewrite IH by exact H. simpl. rewrite <- app_assoc. reflexivity.
Qed.

Lemma pathParamPattern_plain p :
  forallb plainUnit (list_ascii_of_string p) = true ->
  pathParamPattern p = Returns (Rx.seq [Rx.lit ":"; Rx.lit p; NegLook (Chr Chars.word)]).
Proof.
  intros H. unfold pathParamPattern. rewrite compileName_plain by exact H.
  simpl. rewrite termsOf_lit. reflexivity.
Qed.

(** Replacing the parameter [p] in a text that holds no colon. *)
Lemma substituted_no_colon p by_ : forall l fuel,
  ":"%char ∉ l -> List.length l <= fuel -> substituted (paramOf p) by_ fuel l = l.
Proof.
  intros l fuel Hl Hf.
  pose proof (substituted_keep (paramOf p) by_ l [] fuel
                (paramOf_none_before p l [] Hl)) as H.
  rewrite app_nil_r in H. rewrite H by exact Hf.
  rewrite substituted_nil, app_nil_r. reflexivity.
Qed.

Lemma replace_param text p by_ :
  Js.replace (Rx.seq [Rx.lit ":"; Rx.lit p; NegLook (Chr Chars.word)]) true text by_
  = string_of_list_ascii
      (substituted (paramOf p) (list_ascii_of_string by_) (String.length text)
         (list_ascii_of_string text)).
Proof. apply replace_all, stretchOf_param. Qed.

Lemma replace_param_at pre p post by_ :
  ":"%char ∉ list_ascii_of_string pre -> ":"%char ∉ list_ascii_of_string p ->
  Js.replace (Rx.seq [Rx.lit ":"; Rx.lit p; NegLook (Chr Chars.word)]) true
    (pre +:+ ":" +:+ p +:+ post) by_
  = pre +:+ (if wordAhead (list_ascii_of_string post) then ":" +:+ p else by_)
    +:+ Js.replace (Rx.seq [Rx.lit ":"; Rx.lit p; NegLook (Chr Chars.word)]) true post by_.
Proof.
  intros Hpre Hp. rewrite !replace_param. apply units_inj.
  rewrite list_ascii_of_string_of_list_ascii, !units_app, list_ascii_of_string_of_list_ascii.
  set (upre := list_ascii_of_string pre). set (up := list_ascii_of_string p).
  set (upost := list_ascii_of_string post). set (uby := list_ascii_of_string by_).
  rewrite !length_app, <- !length_list_ascii. fold upre up upost.
  change (list_ascii_of_string ":") with [":"%char]. cbn [List.length app].
  rewrite (substituted_keep (paramOf p) uby upre (":"%char :: up ++ upost));
    [|exact (paramOf_none_before p upre _ Hpre)
     |rewrite ?List.length_app; cbn [List.length]; rewrite ?List.length_app; lia].
  f_equal.
  replace (List.length upre + (1 + (List.length up + List.length upost)) - List.length upre)
    with (S (List.length up + List.length upost)) by lia.
  cbn [substituted].
  assert (Hstretch : paramOf p (":"%char :: up ++ upost)
                     = if wordAhead upost then None else Some (S (List.length up))).
  { unfold paramOf. fold up.
    change (":"%char :: up ++ upost) with ((":"%char :: up) ++ upost).
    rewrite startsUnits_self, drop_app_length. cbn [andb List.length].
    destruct (wordAhead upost); reflexivity. }
  rewrite Hstretch. destruct (wordAhead upost).
  - rewrite units_app. fold up. change (list_ascii_of_string ":") with [":"%char].
    cbn [app]. f_equal.
    rewrite (substituted_keep (paramOf p) uby up upost);
      [|exact (paramOf_none_before p up _ Hp)|rewrite List.length_app; lia].
    f_equal. apply (substituted_enough _ _ (paramOf_positive p)); lia.
  - f_equal. change (":"%char :: up ++ upost) with ((":"%char :: up) ++ upost).
    replace (S (List.length up)) with (List.length (":"%char :: up)) by reflexivity.
    rewrite drop_app_length.
    apply (substituted_enough _ _ (paramOf_positive p)); lia.
Qed.

(** X16.  [generateCurl] puts the placeholder for a path parameter where the
    path has a colon and the name, unless a letter, a digit or an underscore
    follows: up to the first colon the path is kept, and after the name the
    replacement goes on in the same way. *)
Theorem path_parameter_becomes_placeholder :
  forall (before p after : string),
    forallb plainUnit (list_ascii_of_string p) = true ->
    ":"%char ∉ list_ascii_of_string before ->
    ":"%char ∉ list_ascii_of_string p ->
    exists rest,
      substitutePathParams after [p] = Returns rest
      /\ substitutePathParams (before +:+ ":" +:+ p +:+ after) [p]
         = Returns (before
                 +:+ (if wordAhead (list_ascii_of_string after)
                      then ":" +:+ p else "<" +:+ p +:+ ">")
                 +:+ rest).
Proof.
  intros pre p post Hplain Hpre Hp. cbn [substitutePathParams].
  rewrite (pathParamPattern_plain p Hplain). eexists. split; [reflexivity|].
  rewrite (replace_param_at pre p post _ Hpre Hp). reflexivity.
Qed.

Lemma path_parameter_becomes_placeholder_witness :
  substitutePathParams ("/users/" +:+ ":" +:+ "id" +:+ "/posts") ["id"]
    = Returns "/users/<id>/posts"
  /\ substitutePathParams ("/users/" +:+ ":" +:+ "id" +:+ "entity") ["id"]
     = Returns "/users/:identity".
Proof.
  assert (H1 : forallb plainUnit (list_ascii_of_string "id") = true) by reflexivity.
  assert (H2 : ":"%char ∉ list_ascii_of_string "/users/")
    by (apply (proj1 (bool_decide_eq_true _)); vm_compute; reflexivity).
  assert (H3 : ":"%char ∉ list_ascii_of_string "id")
    by (apply (proj1 (bool_decide_eq_true _)); vm_compute; reflexivity).
  destruct (path_parameter_becomes_placeholder "/users/" "id" "/posts" H1 H2 H3)
    as (rest & E & H).
  destruct (path_parameter_becomes_placeholder "/users/" "id" "entity" H1 H2 H3)
    as (rest' & E' & H').
  vm_compute in E. injection E as <-. vm_compute in E'. injection E' as <-.
  split; [exact H|exact H'].
Defined.

(** X17.  A path without a colon comes out of the substitution as it went in,
    whatever path parameters the handler reads. *)
Theorem path_without_colon_is_kept :
  forall (urlPath : string) (ps : list string),
    ":"%char ∉ list_ascii_of_string urlPath ->
    Forall (fun p => forallb plainUnit (list_ascii_of_string p) = true) ps ->
    substitutePathParams urlPath ps = Returns urlPath.
Proof.
  intros urlPath ps Hpath F. induction F as [|p ps Hp _ IH]; [reflexivity|].
  cbn [substitutePathParams]. rewrite (pathParamPattern_plain p Hp), replace_param.
  rewrite substituted_no_colon; [|exact Hpath|rewrite length_list_ascii; lia].
  rewrite string_of_list_ascii_of_string. exact IH.
Qed.

Lemma path_without_colon_is_kept_witness :
  substitutePathParams "/health" ["id"; "name"] = Returns "/health".
Proof.
  apply path_without_colon_is_kept.
  - apply (proj1 (bool_decide_eq_true _)). vm_compute. reflexivity.
  - repeat constructor.
Defined.

(** ** The base address of the command *)

Lemma matchAt_trailing_slash p pv rs :
  matchAt (Rx.seq [Rx.lit "/"; Eol]) (Cursor p pv rs)
  = match rs with
    | [a] => if Ascii.eqb a "/"
             then Some (RMatch p (S p) [], Cursor (S p) (Some a) [])
             else None
    | _ => None
    end.
Proof.
  unfold matchAt. cbn [Rx.seq Rx.lit run rest]. unfold Chars.one.
  destruct rs as [|a [|b t]]; try reflexivity.
  - destruct (Ascii.eqb a "/"); reflexivity.
  - destruct (Ascii.eqb a "/"); reflexivity.
Qed.

Lemma scan_trailing_slash : forall rs p pv,
  match scan (Rx.seq [Rx.lit "/"; Eol]) p pv rs with
  | Some (m, _) =>
      exists init, rs = init ++ ["/"%char]
                   /\ index m = p + List.length init /\ lastIndex m = S (index m)
  | None => forall init, rs <> init ++ ["/"%char]
  end.
Proof.
  induction rs as [|a t IH]; intros p pv.
  - cbn [scan]. rewrite matchAt_trailing_slash. intros [|x init]; discriminate.
  - cbn [scan]. rewrite matchAt_trailing_slash. destruct t as [|b t].
    + destruct (Ascii.eqb_spec a "/") as [->|Hne].
      * exists []. simpl. repeat split. lia.
      * cbn [scan]. rewrite matchAt_trailing_slash.
        intros [|x init] H; [injection H as H; contradiction|].
        injection H as _ H. destruct init; discriminate.
    + specialize (IH (S p) (Some a)).
      destruct (scan _ (S p) (Some a) (b :: t)) as [[m c]|].
      * destruct IH as (init & E & H1 & H2). exists (a :: init).
        rewrite E. simpl. repeat split; lia.
      * intros [|x init] H; [discriminate|]. injection H as _ H. exact (IH init H).
Qed.

Lemma dropTrailingSlash_plain text :
  (forall init, list_ascii_of_string text <> init ++ ["/"%char]) ->
  dropTrailingSlash text = text.
Proof.
  intros H. destruct (string_snoc text) as [->|(s & c & ->)]; [reflexivity|].
  rewrite dropTrailingSlash_snoc. destruct (Ascii.eqb_spec c "/") as [->|_]; [|reflexivity].
  exfalso. apply (H (list_ascii_of_string s)). rewrite units_app. reflexivity.
Qed.

(** [baseUrl.replace(/\/$/, '')] takes one slash from the end. *)
Lemma replace_trailing_slash text :
  Js.replace (Rx.seq [Rx.lit "/"; Eol]) false text "" = dropTrailingSlash text.
Proof.
  unfold Js.replace, exec, scanFrom, start. cbn [pos prev rest].
  pose proof (scan_trailing_slash (list_ascii_of_string text) 0 None) as H.
  destruct (scan _ 0 None _) as [[m c]|]; cbn [option_map fst].
  - destruct H as (init & E & H1 & H2). cbn [Js.rebuild].
    assert (Et : text = string_of_list_ascii init +:+ "/").
    { apply units_inj. rewrite units_app, list_ascii_of_string_of_list_ascii. exact E. }
    assert (Hl : String.length (string_of_list_ascii init) = List.length init)
      by (rewrite <- length_list_ascii, list_ascii_of_string_of_list_ascii; reflexivity).
    rewrite H2, H1, Nat.sub_0_r. simpl (0 + _). clear E H1 H2. subst text.
    rewrite dropTrailingSlash_snoc. simpl (Ascii.eqb _ _). cbv iota.
    rewrite <- Hl, substring_app_head, length_app. cbn [String.length].
    replace (String.length (string_of_list_ascii init) + 1
             - S (String.length (string_of_list_ascii init))) with 0 by lia.
    rewrite substring_empty, string_app_empty. reflexivity.
  - symmetry. apply dropTrailingSlash_plain. exact H.
Qed.

Lemma endsWith_slash_units text :
  Js.endsWith text "/" = false ->
  forall init, list_ascii_of_string text <> init ++ ["/"%char].
Proof.
  intros H init E.
  assert (Et : text = string_of_list_ascii init +:+ "/").
  { apply units_inj. rewrite units_app, list_ascii_of_string_of_list_ascii. exact E. }
  rewrite Et, endsWith_snoc in H. discriminate.
Qed.

(** X18.  One slash at the end of the configured base address makes no
    difference to the command, and neither does the httpie option: the
    command for a base address that does not end in a slash is the command
    for that address followed by a slash. *)
Theorem generateCurl_drops_trailing_slash :
  forall (clock : nat -> string) (handler : HandlerFunction)
         (route : option RouteRegistration) (base : string)
         (configured : list (string * string)) (httpie httpie' : bool),
    Js.endsWith base "/" = false ->
    generateCurl clock handler route (mkOptions (base +:+ "/") configured httpie)
    = generateCurl clock handler route (mkOptions base configured httpie').
Proof.
  intros clock handler route base configured httpie httpie' H.
  unfold generateCurl. cbn [baseUrl defaultHeaders].
  rewrite !replace_trailing_slash, dropTrailingSlash_snoc. simpl (Ascii.eqb _ _). cbv iota.
  rewrite (dropTrailingSlash_plain base (endsWith_slash_units base H)). reflexivity.
Qed.

Lemma generateCurl_drops_trailing_slash_witness :
  generateCurl Orphan.clock Orphan.handler (Some Orphan.route)
    (mkOptions ("http://localhost:8080" +:+ "/") [("Accept", "application/json")] false)
  = generateCurl Orphan.clock Orphan.handler (Some Orphan.route)
      (mkOptions "http://localhost:8080" [("Accept", "application/json")] true).
Proof.
  apply generateCurl_drops_trailing_slash. reflexivity.
Defined.

(** ** Sample values *)

Lemma sampleValueForGoType_cases goType fieldName now :
  sampleValueForGoType goType fieldName now =
    (if Js.startsWith (Js.trim goType) "*"
     then sampleValueForGoType (Js.sliceFrom (Js.trim goType) 1) fieldName now
     else if Js.startsWith (Js.trim goType) "[]"
     then JArr [sampleValueForGoType (Js.sliceFrom (Js.trim goType) 2) fieldName now]
     else sampleLeaf (Js.trim goType) fieldName now).
Proof.
  rewrite sampleValueForGoType_equation_1.
  match goal with |- _ = ?rhs => set (R := rhs) end.
  generalize (inspect (Js.startsWith (Js.trim goType) "*")).
  intros [[|] e1]; cbn -[inspect Js.startsWith].
  { assert (ER : R = sampleValueForGoType (Js.sliceFrom (Js.trim goType) 1) fieldName now)
      by (unfold R; rewrite e1; reflexivity).
    rewrite ER. reflexivity. }
  assert (ER : R = if Js.startsWith (Js.trim goType) "[]"
                   then JArr [sampleValueForGoType (Js.sliceFrom (Js.trim goType) 2)
                                fieldName now]
                   else sampleLeaf (Js.trim goType) fieldName now)
    by (unfold R; rewrite e1; reflexivity).
  rewrite ER. clear R ER.
  match goal with |- _ = ?rhs => set (R := rhs) end.
  generalize (inspect (Js.startsWith (Js.trim goType) "[]")).
  intros [[|] e2]; cbn -[inspect Js.startsWith]; unfold R; rewrite e2; reflexivity.
Qed.

Lemma trimEnd_cons a s :
  Chars.space a = false -> Js.trimEnd (String a s) = String a (Js.trimEnd s).
Proof. intros H. simpl. rewrite H. destruct (Js.trimEnd s); reflexivity. Qed.

Lemma trimEnd_trimEnd : forall s, Js.trimEnd (Js.trimEnd s) = Js.trimEnd s.
Proof.
  induction s as [|a s IH]; [reflexivity|]. simpl.
  destruct (Js.trimEnd s) as [|b r] eqn:E.
  - destruct (Chars.space a) eqn:Ha; [reflexivity|]. simpl. rewrite Ha. reflexivity.
  - change (Js.trimEnd (String a (String b r)))
      with (match Js.trimEnd (String b r) with
            | EmptyString => if Chars.space a then EmptyString else String a EmptyString
            | t => String a t
            end).
    rewrite IH. reflexivity.
Qed.

Lemma trimStart_trimEnd : forall s,
  Js.trimStart (Js.trimEnd s) = Js.trimEnd (Js.trimStart s).
Proof.
  induction s as [|a s IH]; [reflexivity|].
  destruct (Chars.space a) eqn:Ha.
  - cbn [Js.trimStart]. rewrite Ha, <- IH. cbn [Js.trimEnd].
    destruct (Js.trimEnd s) as [|b r]; [rewrite Ha; reflexivity|].
    cbn [Js.trimStart]. rewrite Ha. reflexivity.
  - cbn [Js.trimStart]. rewrite Ha, trimEnd_cons by exact Ha.
    cbn [Js.trimStart]. rewrite Ha. reflexivity.
Qed.

Lemma trim_trimEnd s : Js.trim (Js.trimEnd s) = Js.trim s.
Proof. unfold Js.trim. rewrite trimStart_trimEnd, trimEnd_trimEnd. reflexivity. Qed.

Lemma trim_trim s : Js.trim (Js.trim s) = Js.trim s.
Proof.
  assert (H : forall t, Js.trimStart (Js.trimStart t) = Js.trimStart t).
  { induction t as [|a t IH]; [reflexivity|]. cbn [Js.trimStart].
    destruct (Chars.space a) eqn:Ha; [exact IH|]. cbn [Js.trimStart]. rewrite Ha. reflexivity. }
  unfold Js.trim at 2. rewrite trim_trimEnd. unfold Js.trim. rewrite H. reflexivity.
Qed.

Lemma sample_same_trim s t fieldName now :
  Js.trim s = Js.trim t ->
  sampleValueForGoType s fieldName now = sampleValueForGoType t fieldName now.
Proof.
  intros H. rewrite (sampleValueForGoType_cases s), (sampleValueForGoType_cases t), H.
  reflexivity.
Qed.

Lemma trim_cons a s :
  Chars.space a = false -> Js.trim (String a s) = String a (Js.trimEnd s).
Proof. intros H. unfold Js.trim. cbn [Js.trimStart]. rewrite H. apply trimEnd_cons, H. Qed.

(** X19.  [sampleValueForGoType] sees through a pointer and wraps for a slice:
    a starred type samples as the type itself, a bracketed type as the
    one-element array of the sample of its element type, and white space
    around a type makes no difference. *)
Theorem sample_of_pointer_and_slice :
  forall (goType fieldName now : string),
    sampleValueForGoType ("*" +:+ goType) fieldName now
    = sampleValueForGoType goType fieldName now
    /\ sampleValueForGoType ("[]" +:+ goType) fieldName now
       = JArr [sampleValueForGoType goType fieldName now]
    /\ sampleValueForGoType (Js.trim goType) fieldName now
       = sampleValueForGoType goType fieldName now.
Proof.
  intros goType0 fieldName now. split; [|split].
  - rewrite sampleValueForGoType_cases.
    change ("*" +:+ goType0) with (String "*" goType0).
    rewrite trim_cons by reflexivity.
    change (Js.startsWith (String "*" (Js.trimEnd goType0)) "*") with true. cbv iota.
    rewrite sliceFrom_tail. apply sample_same_trim, trim_trimEnd.
  - rewrite sampleValueForGoType_cases.
    change ("[]" +:+ goType0) with (String "[" (String "]" goType0)).
    rewrite trim_cons, trimEnd_cons by reflexivity.
    change (Js.startsWith (String "[" (String "]" (Js.trimEnd goType0))) "*") with false.
    change (Js.startsWith (String "[" (String "]" (Js.trimEnd goType0))) "[]") with true.
    cbv iota. f_equal. f_equal.
    assert (Hs : Js.sliceFrom (String "[" (String "]" (Js.trimEnd goType0))) 2
                 = Js.trimEnd goType0).
    { unfold Js.sliceFrom, Js.clampIndex. simpl (_ <? _)%Z. cbv iota.
      change (Z.to_nat 2) with 2. cbn [String.length].
      rewrite Nat.min_l by lia. simpl. rewrite Nat.sub_0_r. apply substring_whole. }
    rewrite Hs. apply sample_same_trim, trim_trimEnd.
  - apply sample_same_trim, trim_trim.
Qed.

Lemma getOwn_fresh {V} k : forall (o : list (string * V)),
  k ∉ map fst o -> Obj.getOwn k o = None.
Proof.
  induction o as [|[k' v] o IH]; intros H; [reflexivity|]. simpl in *.
  apply not_elem_of_cons in H as [Hne H].
  destruct (String.eqb_spec k k') as [->|_]; [contradiction|]. exact (IH H).
Qed.

Lemma define_fresh {V} k (v : V) o :
  k ∉ map fst o -> Obj.arrayIndex k = None -> Obj.define k v o = o ++ [(k, v)].
Proof.
  intros H1 H2. unfold Obj.define. rewrite (getOwn_fresh k o H1), H2. reflexivity.
Qed.

Lemma fillSample_fresh clock : forall fields i obj proto,
  NoDup (map fst obj ++ map fname fields) ->
  Forall (fun f => Obj.arrayIndex (fname f) = None /\ fname f <> "__proto__") fields ->
  fillSample clock i fields (obj, proto)
  = (obj ++ imap (fun j f => (fname f,
                              sampleValueForGoType (goType f) (fname f) (clock (i + j))))
                 fields,
     proto).
Proof.
  induction fields as [|f fields IH]; intros i obj proto Hnd F.
  - simpl. rewrite app_nil_r. reflexivity.
  - apply Forall_cons in F as [[Hidx Hproto] F]. cbn [fillSample imap assign].
    apply String.eqb_neq in Hproto. rewrite Hproto.
    simpl in Hnd. pose proof Hnd as Hnd'. apply NoDup_app in Hnd' as (_ & Hfresh & _).
    rewrite define_fresh; [|intros Hin; apply (Hfresh _ Hin); left|exact Hidx].
    rewrite IH; [|rewrite map_app, <- app_assoc; exact Hnd|exact F].
    rewrite <- app_assoc, Nat.add_0_r. cbn [app]. do 3 f_equal.
    apply imap_ext. intros j g _. simpl. rewrite Nat.add_succ_r. reflexivity.
Qed.

Lemma sampleObject_fresh clock fields i obj :
  NoDup (map fst obj ++ map fname fields) ->
  Forall (fun f => Obj.arrayIndex (fname f) = None /\ fname f <> "__proto__") fields ->
  sampleObject clock i fields obj
  = obj ++ imap (fun j f => (fname f,
                             sampleValueForGoType (goType f) (fname f) (clock (i + j))))
                fields.
Proof.
  intros Hnd F. unfold sampleObject. rewrite fillSample_fresh by assumption. reflexivity.
Qed.

(** X20.  The sample object of a JSON body lists the fields in their order, each
    under its name with the sample of its type, when the names are distinct
    and none of them is the spelling of an array index or [__proto__]. *)
Theorem sample_object_lists_fields_in_order :
  forall (clock : nat -> string) (fields : list Field),
    NoDup (map fname fields) ->
    Forall (fun f => Obj.arrayIndex (fname f) = None /\ fname f <> "__proto__") fields ->
    sampleObject clock 0 fields []
    = imap (fun i f => (fname f, sampleValueForGoType (goType f) (fname f) (clock i))) fields.
Proof.
  intros clock fields Hnd F. rewrite sampleObject_fresh; [reflexivity|exact Hnd|exact F].
Qed.

Lemma sample_object_lists_fields_in_order_witness :
  sampleObject Orphan.clock 0 [mkField "email" "string"; mkField "tags" "[]string"] []
  = [("email", JStr "<email>"); ("tags", JArr [JStr "<tags>"])].
Proof.
  rewrite sample_object_lists_fields_in_order.
  - vm_compute. reflexivity.
  - apply (proj1 (bool_decide_eq_true _)). vm_compute. reflexivity.
  - repeat constructor; discriminate.
Defined.

(** ** The first brace that balances *)

Lemma braceLoop_open text start l : l = list_ascii_of_string text -> forall n i depth,
  start <= i -> i + n = List.length l -> (1 <= depth)%Z ->
  depth = balance (take (i - start) (drop start l)) ->
  forall k, i <= k < List.length l ->
    (fst (braceLoop text n i depth) = (-1)%Z
     \/ (Z.of_nat k < fst (braceLoop text n i depth))%Z) ->
    (1 <= balance (take (S k - start) (drop start l)))%Z.
Proof.
  intros Hl n. induction n as [|n IH]; intros i depth Hle Hn Hd Hb k Hk Hres; [lia|].
  cbn [braceLoop] in Hres. unfold Js.at_ in Hres. rewrite get_lookup, <- Hl in Hres.
  assert (Hi : i < List.length l) by lia.
  destruct (lookup_lt_is_Some_2 l i Hi) as [ch Hch]. rewrite Hch in Hres.
  pose proof (range_snoc l start i ch Hle Hch) as Hr.
  pose proof (balance_snoc (take (i - start) (drop start l)) ch) as Hs.
  rewrite <- Hr, <- Hb in Hs.
  assert (Hstep : forall d, (1 <= d)%Z ->
            d = balance (take (S i - start) (drop start l)) ->
            (fst (braceLoop text n (S i) d) = (-1)%Z
             \/ (Z.of_nat k < fst (braceLoop text n (S i) d))%Z) ->
            (1 <= balance (take (S k - start) (drop start l)))%Z).
  { intros d Hd1 Hd2 Hres'. destruct (decide (k = i)) as [->|Hne]; [lia|].
    apply (IH (S i) d); lia. }
  destruct (bool_decide_reflect (Some ch = Some "{"%char)) as [E1|E1].
  - injection E1 as ->. simpl in Hs.
    destruct (braceLoop text n (S i) (depth + 1)) as [r reads] eqn:E.
    apply (Hstep (depth + 1)%Z); [lia|lia|]. rewrite E. exact Hres.
  - rewrite bool_decide_eq_false_2 in Hs by congruence.
    destruct (bool_decide_reflect (Some ch = Some "}"%char)) as [E2|E2].
    + injection E2 as ->. simpl in Hs.
      destruct (Z.eqb_spec (depth - 1) 0) as [Hz|Hz].
      * simpl in Hres. lia.
      * destruct (braceLoop text n (S i) (depth - 1)) as [r reads] eqn:E.
        apply (Hstep (depth - 1)%Z); [lia|lia|]. rewrite E. exact Hres.
    + rewrite bool_decide_eq_false_2 in Hs by congruence.
      destruct (braceLoop text n (S i) depth) as [r reads] eqn:E.
      apply (Hstep depth); [lia|lia|]. rewrite E. exact Hres.
Qed.

(** X21.  The brace [findMatchingBrace] returns is the first that balances the
    opening one: every slice from the opening brace that ends before it
    holds more opening than closing braces; and when it returns -1, every
    slice from the opening brace does. *)
Theorem findMatchingBrace_is_first_balance :
  forall (text : string) (openIndex k : nat),
    Js.at_ text openIndex = Some "{"%char ->
    openIndex <= k < String.length text ->
    (findMatchingBrace text openIndex = (-1)%Z
     \/ (Z.of_nat k < findMatchingBrace text openIndex)%Z) ->
    count "}" (Js.slice text (Z.of_nat openIndex) (Z.of_nat k + 1))
    < count "{" (Js.slice text (Z.of_nat openIndex) (Z.of_nat k + 1)).
Proof.
  intros text openIndex k Hopen Hk Hres.
  unfold Js.at_ in Hopen. rewrite get_lookup in Hopen.
  set (l := list_ascii_of_string text) in *.
  assert (Hlen : List.length l = String.length text) by apply length_list_ascii.
  unfold findMatchingBrace in Hres.
  destruct (String.length text - openIndex) as [|n] eqn:En; [lia|].
  cbn [braceLoop] in Hres. unfold Js.at_ in Hres. rewrite get_lookup in Hres.
  fold l in Hres. rewrite Hopen in Hres.
  rewrite bool_decide_eq_true_2 in Hres by reflexivity.
  change (0 + 1)%Z with 1%Z in Hres.
  assert (Hfirst : balance (take (S openIndex - openIndex) (drop openIndex l)) = 1%Z).
  { rewrite (range_snoc l openIndex openIndex "{"%char) by (auto; lia).
    rewrite Nat.sub_diag. reflexivity. }
  assert (H : (1 <= balance (take (S k - openIndex) (drop openIndex l)))%Z).
  { destruct (decide (k = openIndex)) as [->|Hne]; [lia|].
    apply (braceLoop_open text openIndex l eq_refl n (S openIndex) 1%Z); try lia.
    destruct (braceLoop text n (S openIndex) 1) as [r reads]. exact Hres. }
  unfold count. replace (Z.of_nat k + 1)%Z with (Z.of_nat (S k)) by lia.
  rewrite slice_units by lia. fold l. unfold balance in H. lia.
Qed.

Lemma findMatchingBrace_is_first_balance_witness :
  count "}" (Js.slice Braces.closed 9 (Z.of_nat 20 + 1))
  < count "{" (Js.slice Braces.closed 9 (Z.of_nat 20 + 1))
  /\ count "}" (Js.slice Braces.open 9 (Z.of_nat 22 + 1))
     < count "{" (Js.slice Braces.open 9 (Z.of_nat 22 + 1)).
Proof.
  split.
  - apply (findMatchingBrace_is_first_balance Braces.closed 9 20).
    + reflexivity.
    + vm_compute. lia.
    + right. vm_compute. reflexivity.
  - apply (findMatchingBrace_is_first_balance Braces.open 9 22).
    + reflexivity.
    + vm_compute. lia.
    + left. vm_compute. reflexivity.
Defined.

(** ** Headers *)

Lemma getOwn_overwrite {V} k k' (v : V) : forall o,
  Obj.getOwn k (Obj.overwrite k' v o)
  = if String.eqb k k' then option_map (fun _ => v) (Obj.getOwn k' o) else Obj.getOwn k o.
Proof.
  induction o as [|[k0 v0] o IH].
  - simpl. destruct (String.eqb k k'); reflexivity.
  - cbn [Obj.overwrite Obj.getOwn].
    destruct (String.eqb k' k0) eqn:E0; cbn [Obj.getOwn].
    + destruct (String.eqb k k') eqn:E; [reflexivity|].
      apply String.eqb_eq in E0. subst k0. rewrite E. reflexivity.
    + rewrite IH. destruct (String.eqb k k') eqn:E; [|reflexivity].
      apply String.eqb_eq in E. subst k'. rewrite E0. reflexivity.
Qed.

Lemma getOwn_app {V} k : forall (o1 o2 : list (string * V)),
  Obj.getOwn k (o1 ++ o2)
  = match Obj.getOwn k o1 with Some v => Some v | None => Obj.getOwn k o2 end.
Proof.
  induction o1 as [|[k0 v0] o1 IH]; intros o2; simpl; [reflexivity|].
  destruct (String.eqb k k0); [reflexivity|apply IH].
Qed.

Lemma getOwn_insertIndex {V} k k' n (v : V) : forall o,
  Obj.getOwn k' o = None ->
  Obj.getOwn k (Obj.insertIndex n k' v o)
  = if String.eqb k k' then Some v else Obj.getOwn k o.
Proof.
  induction o as [|[k0 v0] o IH]; intros Hfresh; simpl.
  - destruct (String.eqb k k'); reflexivity.
  - simpl in Hfresh. destruct (String.eqb_spec k' k0) as [->|Hne]; [discriminate|].
    assert (Hhere : Obj.getOwn k ((k', v) :: (k0, v0) :: o)
                    = if String.eqb k k' then Some v else Obj.getOwn k ((k0, v0) :: o))
      by reflexivity.
    destruct (Obj.arrayIndex k0) as [n'|]; [|exact Hhere].
    destruct (n' <? n)%N; [|exact Hhere].
    simpl. rewrite (IH Hfresh).
    destruct (String.eqb_spec k k0) as [->|Hk]; [|reflexivity].
    destruct (String.eqb_spec k0 k'); [congruence|reflexivity].
Qed.

Lemma getOwn_define {V} k k' (v : V) o :
  Obj.getOwn k (Obj.define k' v o) = if String.eqb k k' then Some v else Obj.getOwn k o.
Proof.
  unfold Obj.define. destruct (Obj.getOwn k' o) as [v0|] eqn:E.
  - rewrite getOwn_overwrite, E. reflexivity.
  - destruct (Obj.arrayIndex k') as [n|].
    + apply getOwn_insertIndex. exact E.
    + rewrite getOwn_app. simpl. destruct (String.eqb_spec k k') as [->|Hne].
      * rewrite E. reflexivity.
      * destruct (Obj.getOwn k o); reflexivity.
Qed.

Lemma inferredHeader_keeps hs h k v :
  Obj.getOwn k hs = Some v -> Obj.getOwn k (inferredHeader hs h) = Some v.
Proof.
  intros H. unfold inferredHeader, Obj.isDefined.
  destruct (Obj.getOwn h hs) as [v0|] eqn:E; [exact H|].
  assert (Hne : String.eqb k h = false).
  { apply String.eqb_neq. intros ->. congruence. }
  destruct (bool_decide _); [exact H|].
  destruct (String.eqb _ "authorization"); rewrite getOwn_define, Hne; exact H.
Qed.

(** X22.  A header that is set is not replaced by an inferred one: the headers
    the handler reads are added only under names that are not set yet, so a
    configured default keeps its value; and the body section keeps a
    content type that is set and not empty. *)
Theorem set_headers_are_kept :
  forall (configured : list (string * string)) (inferred : list string) (k v : string),
    Obj.getOwn k configured = Some v ->
    Obj.getOwn k (foldl inferredHeader configured inferred) = Some v
    /\ (v <> "" -> forall d, Obj.getOwn k (defaultTo k d configured) = Some v).
Proof.
  intros hs inferred k v H. split.
  - revert hs H. induction inferred as [|h inferred IH]; intros hs H; [exact H|].
    simpl. apply IH, inferredHeader_keeps, H.
  - intros Hv d. unfold defaultTo. rewrite getOwn_define, String.eqb_refl, H.
    destruct v; [contradiction|reflexivity].
Qed.

Lemma set_headers_are_kept_witness :
  Obj.getOwn "Authorization"
    (foldl inferredHeader [("Authorization", "Basic abc")] ["X-Trace"; "Authorization"])
  = Some "Basic abc"
  /\ Obj.getOwn "Authorization"
       (defaultTo "Authorization" "none" [("Authorization", "Basic abc")])
     = Some "Basic abc".
Proof.
  destruct (set_headers_are_kept [("Authorization", "Basic abc")]
              ["X-Trace"; "Authorization"] "Authorization" "Basic abc" eq_refl) as [H1 H2].
  split; [exact H1|]. apply H2. discriminate.
Defined.

(** ** The body of the command *)

(** X23.  The command carries a body only for POST, PUT, PATCH and DELETE.  For
    any other method, GET when the handler has no route, what the handler
    binds makes no difference: two handlers of one name that read the same
    path parameters, query parameters, headers and cookies get the same
    command, whatever their body types and fields. *)
Theorem body_only_for_body_methods :
  forall (clock : nat -> string) (handler handler' : HandlerFunction)
         (route : option RouteRegistration) (opts : CurlGenerationOptions) (verb : string),
    toUpperCase (orElse (option_map method route) "GET") = Some verb ->
    carriesBody verb = false ->
    name handler' = name handler ->
    pathParams (params handler') = pathParams (params handler) ->
    queryParams (params handler') = queryParams (params handler) ->
    headers (params handler') = headers (params handler) ->
    cookies (params handler') = cookies (params handler) ->
    generateCurl clock handler' route opts = generateCurl clock handler route opts.
Proof.
  intros clock handler handler' route opts verb Hverb Hbody Hn Hp Hq Hh Hc.
  unfold generateCurl. rewrite Hverb, Hn, Hp, Hq, Hh, Hc.
  destruct (substitutePathParams _ _) as [urlPath|error|]; [|reflexivity|reflexivity].
  unfold bodyOf. rewrite Hbody. reflexivity.
Qed.

Lemma body_only_for_body_methods_witness :
  generateCurl Orphan.clock Orphan.handler None Orphan.options
  = generateCurl Orphan.clock
      (mkHandler "Create" "orphan.go" (14, 20) (Some "c") "gin"
         (mkParams [] [] [] [] none None None))
      None Orphan.options
  /\ generateCurl Orphan.clock Orphan.handler None Orphan.options
     = Returns (Js.join continuation
               ["curl"; "-X GET"; "-H 'Accept: application/json'";
                "'http://localhost:8080/Create'"]).
Proof.
  split.
  - apply (body_only_for_body_methods Orphan.clock _ Orphan.handler None Orphan.options "GET");
      reflexivity.
  - vm_compute. reflexivity.
Defined.

(** ** Addresses *)

Lemma matches_anchoredEnd r c g c' g' :
  matches r c g c' g' -> anchoredEnd r = true -> rest c' = [].
Proof.
  induction 1; simpl; intros Ha; try discriminate; auto.
Qed.

Lemma matches_anchoredStart r c g c' g' :
  matches r c g c' g' -> anchoredStart r = true -> pos c = 0.
Proof.
  intros M Ha. destruct r as [| |r1 r2| | | | | | |]; try discriminate.
  destruct r1; try discriminate.
  inversion M as [| |? ? ? ? c1 g1 ? ? M1 M2| | | | | | | | |]; subst.
  inversion M1; subst. assumption.
Qed.

(** A pattern anchored at both ends that matches a text accepts all of
    it. *)
Lemma test_anchored r text :
  anchoredStart r = true -> anchoredEnd r = true ->
  test r text = true -> accepts r (list_ascii_of_string text).
Proof.
  intros Hs He Ht. unfold test in Ht.
  destruct (exec r text) as [m|] eqn:E; [|discriminate].
  apply exec_matched in E as [M Hle].
  pose proof (matches_anchoredStart _ _ _ _ _ M Hs) as H0.
  pose proof (matches_anchoredEnd _ _ _ _ _ M He) as H1.
  destruct (matches_accepts _ _ _ _ _ M) as (w & Ew & _ & A).
  rewrite H1, app_nil_r in Ew. rewrite pos_cursorAt in H0.
  rewrite H0 in Ew. cbn [cursorAt rest] in Ew. rewrite drop_0 in Ew.
  rewrite Ew. exact A.
Qed.

Lemma digit_hostChar a : Chars.digit a = true -> Pat.hostChar a = true.
Proof.
  intros H. unfold Pat.hostChar, Chars.word. rewrite H, orb_true_r. reflexivity.
Qed.

Lemma forallb_digits_host w : forallb Chars.digit w = true -> forallb Pat.hostChar w = true.
Proof.
  intros H. rewrite forallb_forall in *. intros a Ha. apply digit_hostChar, H, Ha.
Qed.

Lemma accepts_hostPort w :
  accepts Pat.hostPort w ->
  exists host port,
    w = host ++ ":"%char :: port
    /\ host <> [] /\ forallb Pat.hostChar host = true
    /\ port <> [] /\ forallb Chars.digit port = true.
Proof.
  unfold Pat.hostPort. cbn [Rx.seq accepts].
  intros (w0 & w1 & -> & -> & h & w2 & -> & Hh & c & w3 & -> & Hc & d & w4 & -> & Hd & ->).
  apply accepts_plus_class in Hh as [H1 H2].
  apply accepts_lit in Hc as ->.
  apply accepts_plus_class in Hd as [H3 H4].
  exists h, d. rewrite app_nil_r. simpl. auto.
Qed.

Lemma accepts_ipPort w :
  accepts Pat.ipPort w ->
  exists host port,
    w = host ++ ":"%char :: port
    /\ host <> [] /\ forallb Pat.hostChar host = true
    /\ port <> [] /\ forallb Chars.digit port = true.
Proof.
  unfold Pat.ipPort. cbn [Rx.seq accepts].
  intros (w0 & w1 & -> & -> & d1 & r1 & -> & H1 & p1 & r2 & -> & P1
          & d2 & r3 & -> & H2 & p2 & r4 & -> & P2
          & d3 & r5 & -> & H3 & p3 & r6 & -> & P3
          & d4 & r7 & -> & H4 & c & r8 & -> & Hc & d5 & r9 & -> & H5 & ->).
  apply accepts_lit in P1 as ->, P2 as ->, P3 as ->, Hc as ->.
  apply accepts_plus_class in H1 as [N1 F1], H2 as [N2 F2], H3 as [N3 F3],
                              H4 as [N4 F4], H5 as [N5 F5].
  exists (d1 ++ "."%char :: d2 ++ "."%char :: d3 ++ "."%char :: d4), d5.
  rewrite app_nil_r. simpl. repeat split.
  - rewrite <- !app_assoc. simpl. rewrite <- !app_assoc. simpl.
    rewrite <- !app_assoc. reflexivity.
  - destruct d1; [contradiction|discriminate].
  - rewrite !forallb_app. simpl. rewrite !forallb_app. simpl. rewrite !forallb_app. simpl.
    rewrite !forallb_digits_host by assumption. reflexivity.
  - exact N5.
  - exact F5.
Qed.

(** X24.  An address [normalizeAddr] accepts is kept without the white space
    around it, and is of one of two forms: it starts with a colon, and the
    result is localhost followed by it; or it is a host, of letters, digits,
    underscores, dots and hyphens, a colon and a port of decimal digits, host
    and port not empty, and the result is the address itself. *)
Theorem normalizeAddr_returns_host_and_port :
  forall addr hp : string,
    normalizeAddr addr = Some hp ->
    (Js.startsWith (Js.trim addr) ":" = true /\ hp = "localhost" +:+ Js.trim addr)
    \/ (hp = Js.trim addr
        /\ exists host port,
             hp = host +:+ ":" +:+ port
             /\ host <> "" /\ forallb Pat.hostChar (list_ascii_of_string host) = true
             /\ port <> "" /\ forallb Chars.digit (list_ascii_of_string port) = true).
Proof.
  intros addr hp H. unfold normalizeAddr in H.
  destruct (String.eqb (Js.trim addr) ""); [discriminate|].
  destruct (Js.startsWith (Js.trim addr) ":") eqn:Hcolon.
  { injection H as <-. left. auto. }
  assert (Hshape : accepts Pat.ipPort (list_ascii_of_string (Js.trim addr))
                   \/ accepts Pat.hostPort (list_ascii_of_string (Js.trim addr))).
  { destruct (test Pat.ipPort (Js.trim addr)) eqn:E1.
    - left. apply test_anchored; [reflexivity|reflexivity|exact E1].
    - destruct (test Pat.hostPort (Js.trim addr)) eqn:E2; [|discriminate].
      right. apply test_anchored; [reflexivity|reflexivity|exact E2]. }
  assert (Ehp : hp = Js.trim addr).
  { destruct (test Pat.ipPort (Js.trim addr)); [congruence|].
    destruct (test Pat.hostPort (Js.trim addr)); [congruence|discriminate]. }
  right. split; [exact Ehp|]. rewrite Ehp.
  assert (Hparts : exists host port,
             list_ascii_of_string (Js.trim addr) = host ++ ":"%char :: port
             /\ host <> [] /\ forallb Pat.hostChar host = true
             /\ port <> [] /\ forallb Chars.digit port = true)
    by (destruct Hshape as [A|A]; [apply accepts_ipPort|apply accepts_hostPort]; exact A).
  destruct Hparts as (host & port & E & N1 & F1 & N2 & F2).
  exists (string_of_list_ascii host), (string_of_list_ascii port).
  rewrite !list_ascii_of_string_of_list_ascii. repeat split; try assumption.
  - apply units_inj. rewrite !units_app, !list_ascii_of_string_of_list_ascii. exact E.
  - intros E0. apply N1. apply (f_equal list_ascii_of_string) in E0.
    rewrite list_ascii_of_string_of_list_ascii in E0. exact E0.
  - intros E0. apply N2. apply (f_equal list_ascii_of_string) in E0.
    rewrite list_ascii_of_string_of_list_ascii in E0. exact E0.
Qed.

Lemma normalizeAddr_returns_host_and_port_witness :
  normalizeAddr " 0.0.0.0:8080 " = Some "0.0.0.0:8080"
  /\ exists host port,
       "0.0.0.0:8080" = host +:+ ":" +:+ port
       /\ host <> "" /\ forallb Pat.hostChar (list_ascii_of_string host) = true
       /\ port <> "" /\ forallb Chars.digit (list_ascii_of_string port) = true.
Proof.
  assert (E : normalizeAddr " 0.0.0.0:8080 " = Some "0.0.0.0:8080") by (vm_compute; reflexivity).
  split; [exact E|].
  destruct (normalizeAddr_returns_host_and_port _ _ E) as [[H _]|[_ H]].
  - vm_compute in H. discriminate H.
  - exact H.
Defined.

(** ** The scans of the commands *)

Lemma scanRoutesAcrossWorkspace_named fuel names : forall docs,
  scanRoutesAcrossWorkspace fuel docs (Some names)
  = routesOfDocs fuel docs (list_to_set names).
Proof.
  induction docs as [|doc docs IH]; [reflexivity|].
  cbn [scanRoutesAcrossWorkspace routesOfDocs]. rewrite IH.
  unfold findRoutesInTextByNames.
  destruct (buildGroupPrefixMap fuel _ _); reflexivity.
Qed.

(** X25.  The scan for one file's handlers sees what the workspace scan sees:
    asked for the names of the handlers [scanWorkspace] returns,
    [scanRoutesAcrossWorkspace] returns the registrations [scanWorkspace]
    returns, in the same order. *)
Theorem workspace_scans_agree :
  forall (fuel : nat) (goFiles : list TextDocument)
         (handlers : list HandlerFunction) (registrations : list RouteRegistration),
    scanWorkspace fuel goFiles = Some (handlers, registrations) ->
    scanRoutesAcrossWorkspace fuel goFiles (Some (map name handlers)) = Some registrations.
Proof.
  intros fuel goFiles handlers rs H. rewrite scanRoutesAcrossWorkspace_named.
  unfold scanWorkspace in H.
  destruct (routesOfDocs fuel goFiles _) as [rs'|] eqn:E; [|discriminate].
  injection H as <- <-. exact E.
Qed.

Lemma workspace_scans_agree_witness :
  scanWorkspace 3 [mkDoc "orphan.go" Orphan.text] = Some ([Orphan.handler], [Orphan.route])
  /\ scanRoutesAcrossWorkspace 3 [mkDoc "orphan.go" Orphan.text]
       (Some (map name [Orphan.handler]))
     = Some [Orphan.route].
Proof.
  assert (E : scanWorkspace 3 [mkDoc "orphan.go" Orphan.text]
              = Some ([Orphan.handler], [Orphan.route])) by (vm_compute; reflexivity).
  split; [exact E|]. exact (workspace_scans_agree _ _ _ _ E).
Defined.

(** X26.  Given handler names, [scanRoutesAcrossWorkspace] returns only
    registrations that name one of them; given the empty list, the array of
    a file without handlers, it returns none at all, not the registrations
    of the unfiltered branch. *)
Theorem routes_across_workspace_name_the_names_given :
  forall (fuel : nat) (docs : list TextDocument) (names : list string)
         (registrations : list RouteRegistration),
    scanRoutesAcrossWorkspace fuel docs (Some names) = Some registrations ->
    (forall r, r ∈ registrations -> handlerName r ∈ names)
    /\ (names = [] -> registrations = []).
Proof.
  intros fuel docs names rs H. rewrite scanRoutesAcrossWorkspace_named in H.
  assert (Hin : forall r, r ∈ rs -> handlerName r ∈ names).
  { intros r Hr. apply (routesOfDocs_known _ _ _ _ H) in Hr.
    apply elem_of_list_to_set in Hr. exact Hr. }
  split; [exact Hin|]. intros ->. destruct rs as [|r rs]; [reflexivity|].
  specialize (Hin r ltac:(left)). apply elem_of_nil in Hin as [].
Qed.

Lemma routes_across_workspace_name_the_names_given_witness :
  scanRoutesAcrossWorkspace 3 [Sample.serverDoc] (Some []) = Some []
  /\ scanRoutesAcrossWorkspace 3 [Sample.serverDoc] None
     = Some [mkRoute "POST" "/api/v1/users/:id" "CreateUser" "main.go" (477, 509);
             mkRoute "GET" "/api/v1/health" "Health" "main.go" (512, 536)].
Proof.
  destruct (scanRoutesAcrossWorkspace 3 [Sample.serverDoc] (Some [])) as [rs|] eqn:E;
    [|vm_compute in E; discriminate E].
  destruct (routes_across_workspace_name_the_names_given _ _ _ _ E) as [_ H].
  rewrite (H eq_refl). split; [reflexivity|]. vm_compute. reflexivity.
Defined.

Lemma find_first {A} (f : A -> bool) : forall l x,
  List.find f l = Some x ->
  exists before after, l = before ++ x :: after /\ f x = true
                       /\ Forall (fun y => f y = false) before.
Proof.
  induction l as [|a l IH]; intros x H; [discriminate|]. simpl in H.
  destruct (f a) eqn:Ea.
  - injection H as <-. exists [], l. repeat split; [exact Ea|constructor].
  - destruct (IH x H) as (before & after & -> & Hx & F).
    exists (a :: before), after. repeat split; [exact Hx|constructor; assumption].
Qed.

Lemma find_nothing {A} (f : A -> bool) : forall l,
  List.find f l = None -> Forall (fun y => f y = false) l.
Proof.
  induction l as [|a l IH]; intros H; [constructor|]. simpl in H.
  destruct (f a) eqn:Ea; [discriminate|]. constructor; [exact Ea|exact (IH H)].
Qed.

(** X27.  The commands on a symbol work on the first handler of the document
    that bears the symbol's name, with the registrations of the workspace
    that name it, in their order; they find no handler exactly when no
    handler of the document bears the name. *)
Theorem handler_for_symbol_is_first_of_name :
  forall (fuel : nat) (doc : TextDocument) (goFiles : list TextDocument)
         (functionName : string) (found : option LinkedHandler),
    handlerForSymbol fuel doc goFiles functionName = Some found ->
    let handlers := findHandlersInText doc (detectGinAliasFromImports (getText doc)) in
    exists registrations,
      scanRoutesAcrossWorkspace fuel goFiles (Some (map name handlers)) = Some registrations
      /\ match found with
         | Some l =>
             name (linked l) = functionName
             /\ routes l = filter (fun r => handlerName r = functionName) registrations
             /\ exists before after,
                  handlers = before ++ linked l :: after
                  /\ Forall (fun h => name h <> functionName) before
         | None => Forall (fun h => name h <> functionName) handlers
         end.
Proof.
  intros fuel doc goFiles functionName found H handlers.
  unfold handlerForSymbol, scanDocument in H. fold handlers in H.
  destruct (findRoutesInText fuel doc handlers) as [own|]; [|discriminate].
  destruct (scanRoutesAcrossWorkspace fuel goFiles _) as [rs|]; [|discriminate].
  injection H as <-. exists rs. split; [reflexivity|].
  unfold findByName. rewrite linkHandlersToRoutes_filter.
  destruct (List.find _ _) as [l|] eqn:E.
  - apply find_first in E as (before & after & E & Hname & F).
    apply String.eqb_eq in Hname.
    apply map_eq_app in E as (hb & ha & Eh & Eb & Ea).
    apply map_eq_cons in Ea as (h & ha' & -> & El & Ea). subst l.
    cbn [linked routes] in *. split; [exact Hname|].
    split; [rewrite Hname; reflexivity|].
    exists hb, ha'. split; [exact Eh|]. subst before.
    apply Forall_map in F. eapply Forall_impl; [exact F|].
    intros h' Hh'. cbn [linked] in Hh'. apply String.eqb_neq. exact Hh'.
  - apply find_nothing in E. apply Forall_map in E.
    eapply Forall_impl; [exact E|].
    intros h' Hh'. cbn [linked] in Hh'. apply String.eqb_neq. exact Hh'.
Qed.

Lemma handler_for_symbol_is_first_of_name_witness :
  handlerForSymbol 3 (mkDoc "orphan.go" Orphan.text) [mkDoc "orphan.go" Orphan.text] "Create"
    = Some (Some (mkLinked Orphan.handler [Orphan.route]))
  /\ name Orphan.handler = "Create"
  /\ handlerForSymbol 3 (mkDoc "orphan.go" Orphan.text) [mkDoc "orphan.go" Orphan.text] "main"
     = Some None.
Proof.
  assert (E : handlerForSymbol 3 (mkDoc "orphan.go" Orphan.text)
                [mkDoc "orphan.go" Orphan.text] "Create"
              = Some (Some (mkLinked Orphan.handler [Orphan.route])))
    by (vm_compute; reflexivity).
  split; [exact E|]. split; [|vm_compute; reflexivity].
  destruct (handler_for_symbol_is_first_of_name _ _ _ _ _ E) as (rs & _ & H & _).
  exact H.
Defined.

(** ** Field names *)

Lemma lowerUnit_lowerUnit a : Js.lowerUnit (Js.lowerUnit a) = Js.lowerUnit a.
Proof.
  destruct a as [b0 b1 b2 b3 b4 b5 b6 b7].
  destruct b0, b1, b2, b3, b4, b5, b6, b7; vm_compute; reflexivity.
Qed.

(** X28.  [lowerCamel] changes the first code unit at most: the length of the
    name and all that follows its first code unit are kept, and a name that
    came out of it goes through it unchanged. *)
Theorem lowerCamel_changes_first_unit_only :
  forall s : string,
    String.length (lowerCamel s) = String.length s
    /\ Js.sliceFrom (lowerCamel s) 1 = Js.sliceFrom s 1
    /\ lowerCamel (lowerCamel s) = lowerCamel s.
Proof.
  intros [|a t]; [repeat split|].
  rewrite !lowerCamel_cons, !sliceFrom_tail, lowerUnit_lowerUnit. repeat split.
Qed.

(** ** Lenses and the page *)

Lemma find_some_exists {A} (f : A -> bool) : forall l x,
  x ∈ l -> f x = true -> exists y, List.find f l = Some y.
Proof.
  induction l as [|a l IH]; intros x Hx Hf; [apply elem_of_nil in Hx as []|].
  simpl. destruct (f a) eqn:Ea; [eauto|].
  apply elem_of_cons in Hx as [->|Hx]; [congruence|]. exact (IH x Hx Hf).
Qed.

(** X29.  A lens leads to a handler: the symbol each lens of
    [provideCodeLenses] hands to its command is the name of a handler of the
    document, an identifier, and the command on that symbol finds a handler
    of that name whenever its scans end, so the lens never ends in the
    warning that the symbol has no handler.  There are two lenses for every
    handler of the document. *)
Theorem lenses_lead_to_handlers :
  forall (fuel : nat) (doc : TextDocument) (lenses : list CodeLens),
    provideCodeLenses fuel doc = Some lenses ->
    Forall (fun lens =>
              isIdentifier (functionName lens) = true
              /\ lensFile lens = fsPath doc
              /\ forall goFiles found,
                   handlerForSymbol fuel doc goFiles (functionName lens) = Some found ->
                   exists l, found = Some l /\ name (linked l) = functionName lens)
           lenses
    /\ (textIncludes (getText doc) "github.com/gin-gonic/gin" = true ->
        List.length lenses
        = 2 * List.length (findHandlersInText doc (detectGinAliasFromImports (getText doc)))).
Proof.
  intros fuel doc lenses H. unfold provideCodeLenses in H.
  destruct (textIncludes (getText doc) _) eqn:Hgin; cbn [negb] in H;
    [|injection H as <-; split; [constructor|discriminate]].
  unfold scanDocument in H.
  set (handlers := findHandlersInText doc (detectGinAliasFromImports (getText doc))) in *.
  destruct (findRoutesInText fuel doc handlers) as [own|] eqn:Eown; [|discriminate].
  injection H as <-. split.
  - apply Forall_flat_map. apply Forall_forall. intros h Hh.
    assert (Hid : isIdentifier (name h) = true).
    { pose proof (findHandlersInText_named doc (detectGinAliasFromImports (getText doc))) as F.
      rewrite Forall_forall in F. exact (proj1 (F h Hh)). }
    assert (Hlens : forall goFiles found,
              handlerForSymbol fuel doc goFiles (name h) = Some found ->
              exists l, found = Some l /\ name (linked l) = name h).
    { intros goFiles found Hfound. unfold handlerForSymbol, scanDocument in Hfound.
      fold handlers in Hfound. rewrite Eown in Hfound.
      destruct (scanRoutesAcrossWorkspace fuel goFiles _) as [rs|]; [|discriminate].
      injection Hfound as <-. unfold findByName.
      destruct (find_some_exists
                  (fun l => String.eqb (name (linked l)) (name h))
                  (linkHandlersToRoutes handlers rs)
                  (mkLinked h (filter (fun r => handlerName r = name h) rs))) as [l El].
      - rewrite linkHandlersToRoutes_filter. apply list_elem_of_In, in_map_iff.
        exists h. split; [reflexivity|apply list_elem_of_In; exact Hh].
      - apply String.eqb_refl.
      - exists l. split; [exact El|].
        apply find_some in El as [_ El]. apply String.eqb_eq in El. exact El. }
    unfold lensesOf. repeat constructor; cbn [functionName lensFile]; assumption.
  - intros _. generalize handlers. intros hs.
    induction hs as [|h hs IH]; [reflexivity|]. simpl. rewrite IH. lia.
Qed.

Lemma lenses_lead_to_handlers_witness :
  provideCodeLenses 3 Sample.serverDoc
    = Some [mkLens 166 "gURL: Generate cURL" "gurl.generateForSymbolAt" "main.go" "CreateUser";
            mkLens 166 "copy" "gurl.copyForSymbolAt" "main.go" "CreateUser"]
  /\ textIncludes (getText Sample.serverDoc) "github.com/gin-gonic/gin" = true
  /\ List.length [mkLens 166 "gURL: Generate cURL" "gurl.generateForSymbolAt" "main.go"
                    "CreateUser";
                  mkLens 166 "copy" "gurl.copyForSymbolAt" "main.go" "CreateUser"]
     = 2 * List.length (findHandlersInText Sample.serverDoc
                          (detectGinAliasFromImports (getText Sample.serverDoc))).
Proof.
  assert (E : provideCodeLenses 3 Sample.serverDoc
    = Some [mkLens 166 "gURL: Generate cURL" "gurl.generateForSymbolAt" "main.go" "CreateUser";
            mkLens 166 "copy" "gurl.copyForSymbolAt" "main.go" "CreateUser"])
    by (vm_compute; reflexivity).
  assert (G : textIncludes (getText Sample.serverDoc) "github.com/gin-gonic/gin" = true)
    by (vm_compute; reflexivity).
  split; [exact E|]. split; [exact G|].
  exact (proj2 (lenses_lead_to_handlers 3 Sample.serverDoc _ E) G).
Defined.

Lemma flat_map_escapedUnit : forall l,
  flat_map (fun b => if Ascii.eqb b "<" then list_ascii_of_string "&lt;" else [b])
           (flat_map (fun a => if Ascii.eqb a "&" then list_ascii_of_string "&amp;" else [a]) l)
  = flat_map escapedUnit l.
Proof.
  induction l as [|a l IH]; [reflexivity|].
  cbn [flat_map]. rewrite flat_map_app, IH. f_equal.
  unfold escapedUnit. destruct (Ascii.eqb_spec a "&") as [->|_]; [reflexivity|].
  simpl. rewrite app_nil_r. reflexivity.
Qed.

Lemma escaped_units curl :
  list_ascii_of_string (escaped curl) = flat_map escapedUnit (list_ascii_of_string curl).
Proof.
  unfold escaped.
  set (inner := Js.replace (Rx.lit "&") true curl "&amp;").
  assert (Hinner : list_ascii_of_string inner
                   = flat_map (fun a => if Ascii.eqb a "&"
                                        then list_ascii_of_string "&amp;" else [a])
                              (list_ascii_of_string curl)).
  { unfold inner.
    rewrite (replace_all curl _ (unitOf "&") "&amp;" (stretchOf_unit "&")).
    rewrite list_ascii_of_string_of_list_ascii.
    apply substituted_unit. rewrite length_list_ascii. lia. }
  rewrite (replace_all inner _ (unitOf "<") "&lt;" (stretchOf_unit "<")).
  rewrite list_ascii_of_string_of_list_ascii.
  rewrite substituted_unit by (rewrite length_list_ascii; lia).
  rewrite Hinner. apply flat_map_escapedUnit.
Qed.

(** X30.  The text [getCurlHtml] computes as [escaped], which is what it
    puts into the code element of the page, holds no opening angle bracket:
    each ampersand of the command is written as its entity and each opening
    angle bracket as its, and a command with neither is kept as it is.  The
    copy of the command the page's script gets is another text, and is not
    covered. *)
Theorem escaped_holds_no_angle_bracket :
  forall curl : string,
    ("<"%char ∉ list_ascii_of_string (escaped curl))
    /\ escaped curl
       = string_of_list_ascii (flat_map escapedUnit (list_ascii_of_string curl))
    /\ (("&"%char ∉ list_ascii_of_string curl) ->
        ("<"%char ∉ list_ascii_of_string curl) ->
        escaped curl = curl).
Proof.
  intros curl. split; [|split].
  - rewrite escaped_units. intros H. apply list_elem_of_In in H.
    apply in_flat_map in H as (a & _ & H).
    unfold escapedUnit in H. destruct (Ascii.eqb_spec a "&") as [Ea|_].
    + simpl in H. intuition discriminate.
    + destruct (Ascii.eqb_spec a "<") as [Ea|Hne].
      * simpl in H. intuition discriminate.
      * simpl in H. destruct H as [H|[]]. congruence.
  - apply units_inj. rewrite escaped_units, list_ascii_of_string_of_list_ascii. reflexivity.
  - intros Hamp Hlt. apply units_inj. rewrite escaped_units.
    induction (list_ascii_of_string curl) as [|a l IH]; [reflexivity|].
    apply not_elem_of_cons in Hamp as [Ha1 Hl1]. apply not_elem_of_cons in Hlt as [Ha2 Hl2].
    cbn [flat_map]. rewrite (IH Hl1 Hl2). unfold escapedUnit.
    destruct (Ascii.eqb_spec a "&"); [congruence|].
    destruct (Ascii.eqb_spec a "<"); [congruence|]. reflexivity.
Qed.

Lemma escaped_holds_no_angle_bracket_witness :
  escaped "curl 'http://h/users/<id>?a=<a>&b=<b>'"
  = "curl 'http://h/users/&lt;id>?a=&lt;a>&amp;b=&lt;b>'"
  /\ escaped "curl -X GET" = "curl -X GET".
Proof.
  split; [vm_compute; reflexivity|].
  apply (proj2 (proj2 (escaped_holds_no_angle_bracket "curl -X GET")));
    apply (proj1 (bool_decide_eq_true _)); vm_compute; reflexivity.
Defined.

(** ** Words that are matched, and groups that are left alone *)

Lemma forward_app w1 w2 c : forward (w1 ++ w2) c = forward w2 (forward w1 c).
Proof. unfold forward. apply fold_left_app. Qed.

Lemma forward_spec : forall w c t,
  rest c = w ++ t -> pos (forward w c) = pos c + List.length w /\ rest (forward w c) = t.
Proof.
  induction w as [|a w IH]; intros c t E; simpl in *.
  - split; [lia|exact E].
  - change (forward (a :: w) c) with (forward w (advance c)).
    assert (Ea : rest (advance c) = w ++ t /\ pos (advance c) = S (pos c)).
    { unfold advance. rewrite E. split; reflexivity. }
    destruct Ea as [Er Ep]. destruct (IH _ _ Er) as [P R]. rewrite P, Ep, R.
    split; [lia|reflexivity].
Qed.

(** A word of a pattern without assertions is matched wherever it stands,
    whatever is matched after it. *)
Lemma accepts_run r : assertionFree r = true ->
  forall w c t h k,
    rest c = w ++ t -> accepts r w ->
    (forall h', k (forward w c) h' <> None) ->
    run r c h k <> None.
Proof.
  induction r as [|p|r1 IH1 r2 IH2|r1 IH1 r2 IH2|greedy r1 IH1|n r1 IH1| | | |r1 IH1];
    intros Hfree w c t h k E A Hk; cbn [assertionFree] in Hfree; try discriminate;
    cbn [run accepts] in *.
  - subst w. apply Hk.
  - destruct A as (a & -> & Hp). simpl in E. rewrite E, Hp.
    apply (Hk h).
  - apply andb_prop in Hfree as [F1 F2]. destruct A as (w1 & w2 & -> & A1 & A2).
    rewrite <- app_assoc in E.
    apply (IH1 F1 w1 c (w2 ++ t) h _ E A1). intros h'.
    destruct (forward_spec _ _ _ E) as [_ R].
    apply (IH2 F2 w2 _ t h' k R A2). intros h''. rewrite <- forward_app. apply Hk.
  - apply andb_prop in Hfree as [F1 F2]. destruct A as [A|A].
    + pose proof (IH1 F1 w c t h k E A Hk) as H1.
      destruct (run r1 c h k); [discriminate|contradiction].
    + destruct (run r1 c h k); [discriminate|]. exact (IH2 F2 w c t h k E A Hk).
  - destruct A as (ws & -> & F).
    assert (Hfuel : List.length (concat ws) < S (List.length (rest c))).
    { rewrite E, List.length_app. lia. }
    revert Hfuel. generalize (S (List.length (rest c))) as n.
    intros n. revert n c h E Hk.
    induction F as [|w1 ws A1 F IHws]; intros n c h E Hk Hfuel.
    + simpl in *. destruct n as [|n]; [lia|]. simpl.
      destruct greedy.
      * destruct (run r1 c h _); [discriminate|apply Hk].
      * pose proof (Hk h) as H1. destruct (k c h); [discriminate|contradiction].
    + cbn [concat] in *. destruct w1 as [|a w1].
      { simpl in *. apply IHws; assumption. }
      destruct n as [|n]; [simpl in Hfuel; lia|]. cbn [iterate].
      rewrite <- app_assoc in E.
      assert (Hagain : run r1 c h (fun c' g' =>
                 if (pos c <? pos c')%nat
                 then iterate (run r1) greedy k n c' g' else None) <> None).
      { apply (IH1 Hfree (a :: w1) c (concat ws ++ t) h _ E A1). intros h'.
        destruct (forward_spec _ _ _ E) as [P R].
        assert (Hlt : (pos c <? pos (forward (a :: w1) c))%nat = true)
          by (apply Nat.ltb_lt; rewrite P; simpl; lia).
        rewrite Hlt. apply IHws; [exact R| |rewrite List.length_app in Hfuel; simpl in Hfuel; lia].
        intros h''. rewrite <- forward_app. apply Hk. }
      destruct greedy.
      * destruct (run r1 c h _); [discriminate|contradiction].
      * destruct (k c h); [discriminate|exact Hagain].
  - apply (IH1 Hfree w c t h _ E A). intros h'. apply Hk.
Qed.

Lemma accepts_matchAt r w c t :
  assertionFree r = true -> rest c = w ++ t -> accepts r w -> matchAt r c <> None.
Proof.
  intros Hfree E A. unfold matchAt.
  pose proof (accepts_run r Hfree w c t [] (fun c' g' => Some (c', g')) E A) as H.
  destruct (run r c [] _) as [[c' g']|]; [discriminate|].
  exfalso. apply H; [intros h'; discriminate|reflexivity].
Qed.

(** The parts of a match. *)
Lemma matches_seq_inv r1 r2 c g c2 g2 :
  matches (Seq r1 r2) c g c2 g2 ->
  exists c1 g1, matches r1 c g c1 g1 /\ matches r2 c1 g1 c2 g2.
Proof. inversion 1; subst. eauto. Qed.

Lemma matches_group_inv n r c g c' g'' :
  matches (Group n r) c g c' g'' ->
  exists g', matches r c g c' g' /\ g'' = setCapture (Nat.pred n) (consumed c c') g'.
Proof. inversion 1; subst. eauto. Qed.

Lemma matches_alt_inv r1 r2 c g c' g' :
  matches (Alt r1 r2) c g c' g' -> matches r1 c g c' g' \/ matches r2 c g c' g'.
Proof. inversion 1; subst; auto. Qed.

Lemma matches_bol_inv c g c' g' : matches Bol c g c' g' -> pos c = 0 /\ c' = c /\ g' = g.
Proof. inversion 1; subst; auto. Qed.

(** A match leaves the groups the pattern does not have as they were. *)
Lemma matches_untouched r c g c' g' :
  matches r c g c' g' -> forall n, mentions r n = false -> capture n g' = capture n g.
Proof.
  induction 1 as [c g|p c g a t E Hp|r1 r2 c g c1 g1 c2 g2 _ IH1 _ IH2
                  |r1 r2 c g c' g' _ IH|r1 r2 c g c' g' _ IH
                  |greedy r c g|greedy r c g c1 g1 c2 g2 _ IH1 Hlt _ IH2
                  |m r c g c' g' M IH|c g E|c g E|c g E|r c g E];
    intros n Hn; cbn [mentions] in Hn; try reflexivity.
  - apply orb_false_elim in Hn as [H1 H2]. rewrite IH2, IH1 by assumption. reflexivity.
  - apply orb_false_elim in Hn as [H1 H2]. apply IH. exact H1.
  - apply orb_false_elim in Hn as [H1 H2]. apply IH. exact H2.
  - rewrite IH2, IH1 by assumption. reflexivity.
  - apply orb_false_elim in Hn as [H1 H2]. rewrite capture_setCapture.
    apply Nat.eqb_neq in H1.
    destruct (Nat.eqb_spec n (S (Nat.pred m))) as [->|_]; [contradiction|].
    apply IH. exact H2.
Qed.

Lemma mentions_lit s n : mentions (Rx.lit s) n = false.
Proof. induction s as [|a s IH]; simpl; [reflexivity|exact IH]. Qed.

Lemma mentions_cPattern ctxVar n : mentions (Pat.cPattern ctxVar) n = false.
Proof. destruct ctxVar as [[|a s]|]; simpl; try reflexivity. apply mentions_lit. Qed.

Lemma assertionFree_lit s : assertionFree (Rx.lit s) = true.
Proof. induction s as [|a s IH]; simpl; [reflexivity|exact IH]. Qed.

Lemma assertionFree_cPattern ctxVar : assertionFree (Pat.cPattern ctxVar) = true.
Proof. destruct ctxVar as [[|a s]|]; simpl; try reflexivity. apply assertionFree_lit. Qed.

(** The words of the building blocks. *)
Lemma accepts_lit_units s : accepts (Rx.lit s) (list_ascii_of_string s).
Proof.
  induction s as [|a s IH]; simpl; [reflexivity|].
  exists [a], (list_ascii_of_string s). split; [reflexivity|]. split; [|exact IH].
  exists a. split; [reflexivity|]. unfold Chars.one. apply Ascii.eqb_refl.
Qed.

Lemma accepts_class_units greedy p w :
  forallb p w = true -> accepts (Star greedy (Chr p)) w.
Proof.
  intros H. exists (map (fun a => [a]) w). split.
  - induction w as [|a w IH]; [reflexivity|]. simpl in *.
    apply andb_prop in H as [_ H]. rewrite <- IH by exact H. reflexivity.
  - induction w as [|a w IH]; simpl in *; constructor.
    + apply andb_prop in H as [Ha _]. exists a. auto.
    + apply IH. apply andb_prop in H as [_ H]. exact H.
Qed.

Lemma accepts_plus_units p w :
  w <> [] -> forallb p w = true -> accepts (Rx.plus (Chr p)) w.
Proof.
  intros Hne H. destruct w as [|a w]; [contradiction|]. simpl in H.
  apply andb_prop in H as [Ha H].
  exists [a], w. split; [reflexivity|]. split; [exists a; auto|].
  apply accepts_class_units. exact H.
Qed.

Lemma accepts_ident_units w :
  isIdentifier (string_of_list_ascii w) = true -> accepts Rx.ident w.
Proof.
  destruct w as [|a w]; [discriminate|]. intros H. simpl in H.
  rewrite list_ascii_of_string_of_list_ascii in H. apply andb_prop in H as [Ha H].
  exists [a], w. split; [reflexivity|]. split; [exists a; auto|].
  apply accepts_class_units. exact H.
Qed.

Lemma accepts_alt_lit names : forall w,
  accepts (Rx.alt (map Rx.lit names)) w <->
  exists accessor, accessor ∈ names /\ w = list_ascii_of_string accessor.
Proof.
  induction names as [|a names IH]; intros w.
  - simpl. split.
    + intros (x & _ & H). discriminate.
    + intros (x & H & _). apply elem_of_nil in H as [].
  - destruct names as [|b names].
    + simpl. split.
      * intros H. apply accepts_lit in H. exists a. split; [left|exact H].
      * intros (x & ->%list_elem_of_singleton & ->). apply accepts_lit_units.
    + change (Rx.alt (map Rx.lit (a :: b :: names)))
        with (Alt (Rx.lit a) (Rx.alt (map Rx.lit (b :: names)))).
      cbn [accepts]. rewrite IH. split.
      * intros [H|(x & Hx & ->)].
        -- apply accepts_lit in H. exists a. split; [left|exact H].
        -- exists x. split; [right; exact Hx|reflexivity].
      * intros (x & [->|Hx]%elem_of_cons & ->).
        -- left. apply accepts_lit_units.
        -- right. exists x. auto.
Qed.

(** ** Accessor calls and the matches of the accessor patterns *)

Ltac norm_app :=
  repeat (progress (rewrite <- ?app_assoc; cbn [app list_ascii_of_string])).

Lemma accepts_chr_one x w : accepts (Chr (Chars.one x)) w -> w = [x].
Proof.
  intros (a & -> & Ha). unfold Chars.one in Ha. apply Ascii.eqb_eq in Ha as ->. reflexivity.
Qed.

Lemma accepts_chr_unit x : accepts (Chr (Chars.one x)) [x].
Proof. exists x. split; [reflexivity|]. unfold Chars.one. apply Ascii.eqb_refl. Qed.

(** The argument of a call: white space, and a name between double
    quotes, which is what the group keeps. *)
Lemma literalArg_peel n c g c' g' :
  matches (Pat.literalArg n) c g c' g' ->
  exists gap name,
    rest c = gap ++ Chars.quote :: list_ascii_of_string name ++ Chars.quote :: rest c'
    /\ pos c' = pos c + List.length gap + String.length name + 2
    /\ forallb Chars.space gap = true
    /\ extractedName name
    /\ capture (S (Nat.pred n)) g' = Some name.
Proof.
  unfold Pat.literalArg. cbn [Rx.seq]. intros M.
  apply matches_seq_inv in M as (c1 & g1 & M1 & M).
  apply matches_seq_inv in M as (c2 & g2 & M2 & M).
  apply matches_seq_inv in M as (c3 & g3 & M3 & M4).
  apply matches_group_inv in M3 as (g3' & M3 & ->).
  destruct (matches_accepts _ _ _ _ _ M1) as (w1 & E1 & P1 & A1).
  destruct (matches_accepts _ _ _ _ _ M2) as (w2 & E2 & P2 & A2).
  destruct (matches_accepts _ _ _ _ _ M3) as (w3 & E3 & P3 & A3).
  destruct (matches_accepts _ _ _ _ _ M4) as (w4 & E4 & P4 & A4).
  apply accepts_class in A1. apply accepts_chr_one in A2, A4. subst w2 w4.
  apply accepts_plus_class in A3 as [N3 Q3].
  exists w1, (string_of_list_ascii w3).
  rewrite list_ascii_of_string_of_list_ascii.
  split; [rewrite E1, E2, E3, E4; reflexivity|].
  split.
  { rewrite <- (list_ascii_of_string_of_list_ascii w3) in P3 at 1.
    rewrite length_list_ascii in P3. simpl in *. lia. }
  split; [exact A1|]. split.
  { split.
    - intros E. apply N3. apply (f_equal list_ascii_of_string) in E.
      rewrite list_ascii_of_string_of_list_ascii in E. exact E.
    - rewrite list_ascii_of_string_of_list_ascii. intros Hin.
      rewrite forallb_forall in Q3. apply list_elem_of_In in Hin.
      specialize (Q3 _ Hin). unfold Pat.notQuote, Chars.notOne in Q3.
      rewrite Ascii.eqb_refl in Q3. discriminate. }
  rewrite (matches_untouched _ _ _ _ _ M4) by reflexivity.
  rewrite capture_setCapture, Nat.eqb_refl.
  rewrite (consumed_word _ _ _ E3 P3). reflexivity.
Qed.

Lemma receiverOf_accepts ctxVar recv :
  accepts (Pat.cPattern ctxVar) recv <-> receiverOf ctxVar recv.
Proof.
  unfold receiverOf. destruct ctxVar as [[|a v]|]; cbn [Pat.cPattern].
  - split; [apply accepts_ident|apply accepts_ident_units].
  - split; [apply accepts_lit|intros ->; apply accepts_lit_units].
  - split; [apply accepts_ident|apply accepts_ident_units].
Qed.

Lemma accessor_sound ctxVar a c g c' g' :
  matches (Pat.accessor (Pat.cPattern ctxVar) a) c g c' g' ->
  exists w name,
    rest c = w ++ rest c' /\ pos c' = pos c + List.length w
    /\ accessorCall ctxVar [a] w name /\ capture 1 g' = Some name.
Proof.
  unfold Pat.accessor. cbn [Rx.seq]. intros M.
  apply matches_seq_inv in M as (c1 & g1 & M1 & M).
  apply matches_seq_inv in M as (c2 & g2 & M2 & M).
  apply matches_seq_inv in M as (c3 & g3 & M3 & M).
  apply matches_seq_inv in M as (c4 & g4 & M4 & M).
  apply matches_seq_inv in M as (c5 & g5 & M5 & M6).
  destruct (matches_accepts _ _ _ _ _ M1) as (w1 & E1 & P1 & A1).
  destruct (matches_accepts _ _ _ _ _ M2) as (w2 & E2 & P2 & A2).
  destruct (matches_accepts _ _ _ _ _ M3) as (w3 & E3 & P3 & A3).
  destruct (matches_accepts _ _ _ _ _ M4) as (w4 & E4 & P4 & A4).
  destruct (matches_accepts _ _ _ _ _ M5) as (w5 & E5 & P5 & A5).
  apply literalArg_peel in M6 as (gap2 & name & E6 & P6 & S6 & N6 & C6).
  apply receiverOf_accepts in A1. apply accepts_lit in A2, A3, A5. subst w2 w3 w5.
  apply accepts_class in A4.
  exists (w1 ++ "."%char :: list_ascii_of_string a ++ w4
             ++ "("%char :: gap2 ++ Chars.quote :: list_ascii_of_string name ++ [Chars.quote]),
         name.
  split.
  { rewrite E1, E2, E3, E4, E5, E6. norm_app. reflexivity. }
  split.
  { rewrite P6, P5, P4, P3, P2, P1. norm_app.
    repeat (rewrite ?List.length_app; cbn [List.length]).
    rewrite !length_list_ascii. lia. }
  split; [|exact C6].
  exists w1, a, w4, gap2. repeat split; try assumption; try apply N6. left.
Qed.

Lemma qpRe_sound ctxVar c g c' g' :
  matches (Pat.qpRe (Pat.cPattern ctxVar)) c g c' g' ->
  exists w name,
    rest c = w ++ rest c' /\ pos c' = pos c + List.length w
    /\ accessorCall ctxVar ["Query"; "DefaultQuery"; "QueryArray"; "QueryMap"] w name
    /\ capture 2 g' = Some name.
Proof.
  unfold Pat.qpRe, Pat.call. cbn [Rx.seq]. intros M.
  apply matches_seq_inv in M as (c5 & g5 & M & M6).
  apply matches_seq_inv in M as (c1 & g1 & M1 & M).
  apply matches_seq_inv in M as (c2 & g2 & M2 & M).
  apply matches_seq_inv in M as (c3 & g3 & M3 & M).
  apply matches_seq_inv in M as (c4 & g4 & M4 & M5).
  destruct (matches_accepts _ _ _ _ _ M1) as (w1 & E1 & P1 & A1).
  destruct (matches_accepts _ _ _ _ _ M2) as (w2 & E2 & P2 & A2).
  destruct (matches_accepts _ _ _ _ _ M3) as (w3 & E3 & P3 & A3).
  destruct (matches_accepts _ _ _ _ _ M4) as (w4 & E4 & P4 & A4).
  destruct (matches_accepts _ _ _ _ _ M5) as (w5 & E5 & P5 & A5).
  apply literalArg_peel in M6 as (gap2 & name & E6 & P6 & S6 & N6 & C6).
  apply receiverOf_accepts in A1. apply accepts_lit in A2, A5. subst w2 w5.
  cbn [accepts] in A3. apply accepts_alt_lit in A3 as (accessor & Hacc & ->).
  apply accepts_class in A4.
  exists (w1 ++ "."%char :: list_ascii_of_string accessor ++ w4
             ++ "("%char :: gap2 ++ Chars.quote :: list_ascii_of_string name ++ [Chars.quote]),
         name.
  split.
  { rewrite E1, E2, E3, E4, E5, E6. norm_app. reflexivity. }
  split.
  { rewrite P6, P5, P4, P3, P2, P1. norm_app.
    repeat (rewrite ?List.length_app; cbn [List.length]).
    rewrite !length_list_ascii. lia. }
  split; [|exact C6].
  exists w1, accessor, w4, gap2. repeat split; try assumption; apply N6.
Qed.

Lemma extractedName_units name :
  extractedName name ->
  list_ascii_of_string name <> []
  /\ forallb Pat.notQuote (list_ascii_of_string name) = true.
Proof.
  intros [Hne Hq]. split.
  - intros E. apply Hne. destruct name; [reflexivity|discriminate].
  - apply forallb_forall. intros a Ha. unfold Pat.notQuote, Chars.notOne.
    destruct (Ascii.eqb_spec a Chars.quote) as [->|_]; [|reflexivity].
    exfalso. apply Hq. apply list_elem_of_In. exact Ha.
Qed.

Lemma literalArg_accepts n gap name :
  forallb Chars.space gap = true -> extractedName name ->
  accepts (Pat.literalArg n)
    (gap ++ Chars.quote :: list_ascii_of_string name ++ [Chars.quote]).
Proof.
  intros Hgap Hname. apply extractedName_units in Hname as [N Q].
  unfold Pat.literalArg. cbn [Rx.seq].
  exists gap, (Chars.quote :: list_ascii_of_string name ++ [Chars.quote]).
  split; [reflexivity|]. split; [apply accepts_class_units; exact Hgap|].
  exists [Chars.quote], (list_ascii_of_string name ++ [Chars.quote]).
  split; [reflexivity|]. split; [apply accepts_chr_unit|].
  exists (list_ascii_of_string name), [Chars.quote].
  split; [reflexivity|]. split; [apply accepts_plus_units; assumption|].
  apply accepts_chr_unit.
Qed.

Lemma accessor_accepts ctxVar a w name :
  accessorCall ctxVar [a] w name -> accepts (Pat.accessor (Pat.cPattern ctxVar) a) w.
Proof.
  intros (recv & accessor & gap1 & gap2 & -> & Hrecv & Hacc & G1 & G2 & Hname).
  apply list_elem_of_singleton in Hacc as ->.
  unfold Pat.accessor. cbn [Rx.seq].
  eexists recv, _. split; [reflexivity|]. split; [apply receiverOf_accepts; exact Hrecv|].
  eexists ["."%char], _. split; [reflexivity|]. split; [apply (accepts_lit_units ".")|].
  eexists (list_ascii_of_string a), _. split; [reflexivity|].
  split; [apply accepts_lit_units|].
  eexists gap1, _. split; [reflexivity|]. split; [apply accepts_class_units; exact G1|].
  eexists ["("%char], _. split; [reflexivity|]. split; [apply (accepts_lit_units "(")|].
  apply literalArg_accepts; assumption.
Qed.

Lemma qpRe_accepts ctxVar w name :
  accessorCall ctxVar ["Query"; "DefaultQuery"; "QueryArray"; "QueryMap"] w name ->
  accepts (Pat.qpRe (Pat.cPattern ctxVar)) w.
Proof.
  intros (recv & accessor & gap1 & gap2 & -> & Hrecv & Hacc & G1 & G2 & Hname).
  unfold Pat.qpRe, Pat.call. cbn [Rx.seq].
  exists (recv ++ "."%char :: list_ascii_of_string accessor ++ gap1 ++ ["("%char]),
         (gap2 ++ Chars.quote :: list_ascii_of_string name ++ [Chars.quote]).
  split; [norm_app; reflexivity|].
  split; [|apply literalArg_accepts; assumption].
  eexists recv, _. split; [reflexivity|]. split; [apply receiverOf_accepts; exact Hrecv|].
  eexists ["."%char], _. split; [reflexivity|]. split; [apply (accepts_lit_units ".")|].
  eexists (list_ascii_of_string accessor), _. split; [reflexivity|].
  split; [cbn [accepts]; apply accepts_alt_lit; eauto|].
  eexists gap1, _. split; [reflexivity|]. split; [apply accepts_class_units; exact G1|].
  apply (accepts_lit_units "(").
Qed.

(** ** The calls an exec loop meets *)

Lemma scan_first text r : forall rs p pv x,
  Cursor p pv rs = cursorAt text p ->
  scan r p pv rs = Some x ->
  exists i, p <= i <= p + List.length rs
    /\ matchAt r (cursorAt text i) = Some x
    /\ forall j, p <= j < i -> matchAt r (cursorAt text j) = None.
Proof.
  induction rs as [|a t IH]; intros p pv x Hc H; simpl in H.
  - rewrite Hc in H.
    destruct (matchAt r (cursorAt text p)) as [y|] eqn:E; [|discriminate].
    injection H as ->. exists p. simpl. split; [lia|]. split; [exact E|]. intros j Hj. lia.
  - destruct (matchAt r (Cursor p pv (a :: t))) as [y|] eqn:E.
    + injection H as ->. exists p. rewrite Hc in E. split; [simpl; lia|].
      split; [exact E|]. intros j Hj. lia.
    + apply (IH (S p) (Some a) x (cursorAt_step _ _ _ _ _ Hc)) in H as (i & Hi & Hm & Hnone).
      exists i. split; [simpl; lia|]. split; [exact Hm|].
      intros j Hj. destruct (Nat.eq_dec j p) as [->|Hne].
      * rewrite <- Hc. exact E.
      * apply Hnone. lia.
Qed.

Lemma scan_nothing text r : forall rs p pv,
  Cursor p pv rs = cursorAt text p ->
  scan r p pv rs = None ->
  forall j, p <= j <= p + List.length rs -> matchAt r (cursorAt text j) = None.
Proof.
  induction rs as [|a t IH]; intros p pv Hc H j Hj; simpl in *.
  - assert (j = p) as -> by lia. rewrite <- Hc.
    destruct (matchAt r (Cursor p pv [])); [discriminate|reflexivity].
  - destruct (matchAt r (Cursor p pv (a :: t))) as [y|] eqn:E; [discriminate|].
    destruct (Nat.eq_dec j p) as [->|Hne].
    + rewrite <- Hc. exact E.
    + apply (IH (S p) (Some a) (cursorAt_step _ _ _ _ _ Hc) H). lia.
Qed.

Lemma split_at_first {A} (x : A) : forall l1 l1' l2 l2',
  l1 ++ x :: l2 = l1' ++ x :: l2' -> x ∉ l1 -> x ∉ l1' -> l1 = l1' /\ l2 = l2'.
Proof.
  induction l1 as [|a l1 IH]; intros l1' l2 l2' E H1 H1'.
  - destruct l1' as [|b l1']; simpl in E.
    + injection E as ->. split; reflexivity.
    + injection E as <- _. exfalso. apply H1'. left.
  - destruct l1' as [|b l1']; simpl in E.
    + injection E as -> _. exfalso. apply H1. left.
    + injection E as -> E. apply not_elem_of_cons in H1 as [_ H1].
      apply not_elem_of_cons in H1' as [_ H1'].
      destruct (IH _ _ _ E H1 H1') as [-> ->]. split; reflexivity.
Qed.

Lemma space_no_quote gap : forallb Chars.space gap = true -> Chars.quote ∉ gap.
Proof.
  intros H Hin. rewrite forallb_forall in H. apply list_elem_of_In in Hin.
  specialize (H _ Hin). vm_compute in H. discriminate.
Qed.

Lemma word_no_quote w : forallb Chars.word w = true -> Chars.quote ∉ w.
Proof.
  intros H Hin. rewrite forallb_forall in H. apply list_elem_of_In in Hin.
  specialize (H _ Hin). vm_compute in H. discriminate.
Qed.

Lemma identifier_no_quote s :
  isIdentifier s = true -> Chars.quote ∉ list_ascii_of_string s.
Proof.
  destruct s as [|a s]; [discriminate|]. simpl. intros H.
  apply andb_prop in H as [Ha H]. apply not_elem_of_cons. split.
  - intros <-. vm_compute in Ha. discriminate.
  - apply word_no_quote. exact H.
Qed.

Lemma receiverOf_no_quote ctxVar recv :
  identifierIfSet ctxVar = true -> receiverOf ctxVar recv -> Chars.quote ∉ recv.
Proof.
  unfold receiverOf, identifierIfSet. intros Hid H.
  assert (Hident : isIdentifier (string_of_list_ascii recv) = true -> Chars.quote ∉ recv).
  { intros Hi. apply identifier_no_quote in Hi.
    rewrite list_ascii_of_string_of_list_ascii in Hi. exact Hi. }
  destruct ctxVar as [[|a v]|]; [auto| |auto].
  subst recv. apply identifier_no_quote. exact Hid.
Qed.

Lemma accessorCall_quoted ctxVar accessors :
  identifierIfSet ctxVar = true ->
  Forall (fun a => Chars.quote ∉ list_ascii_of_string a) accessors ->
  quoted (accessorCall ctxVar accessors).
Proof.
  intros identifier plain w name
    (recv & accessor & gap1 & gap2 & -> & Hrecv & Hacc & G1 & G2 & Hne & Hq).
  exists (recv ++ "."%char :: list_ascii_of_string accessor ++ gap1 ++ "("%char :: gap2).
  split; [norm_app; reflexivity|]. split; [|exact Hq].
  rewrite Forall_forall in plain. specialize (plain _ Hacc).
  pose proof (receiverOf_no_quote _ _ identifier Hrecv) as Hr.
  pose proof (space_no_quote _ G1) as H1. pose proof (space_no_quote _ G2) as H2.
  rewrite !elem_of_app, !elem_of_cons, !elem_of_app, !elem_of_cons.
  intros [?|[E|[?|[?|[E|?]]]]]; try contradiction; discriminate E.
Qed.

Section Calls.

Variable shape : list ascii -> string -> Prop.
Variable r : regex.
Variable n : nat.

Hypothesis shaped : quoted shape.
Hypothesis free : assertionFree r = true.
Hypothesis sound : forall c g c' g',
  matches r c g c' g' ->
  exists w literal,
    rest c = w ++ rest c' /\ pos c' = pos c + List.length w
    /\ shape w literal /\ capture n g' = Some literal.
Hypothesis complete : forall w literal, shape w literal -> accepts r w.

Lemma callIn_unique text call call' :
  callIn shape text call -> callIn shape text call' ->
  callStart call = callStart call' -> call = call'.
Proof.
  destruct call as [i len name], call' as [i' len' name']. unfold callIn. simpl.
  intros [L H] [L' H'] <-.
  apply shaped in H as (front & E & F & N).
  apply shaped in H' as (front' & E' & F' & N').
  set (u := drop i (list_ascii_of_string text)) in *.
  assert (Eu : u = (front ++ Chars.quote :: list_ascii_of_string name ++ [Chars.quote])
                   ++ drop len u) by (rewrite <- E; symmetry; apply take_drop).
  assert (Eu' : u = (front' ++ Chars.quote :: list_ascii_of_string name' ++ [Chars.quote])
                    ++ drop len' u) by (rewrite <- E'; symmetry; apply take_drop).
  rewrite Eu' in Eu at 1. revert Eu. norm_app. intros Eu.
  apply split_at_first in Eu as [-> Eu]; [|assumption|assumption].
  apply split_at_first in Eu as [En _]; [|assumption|assumption].
  apply units_inj in En as ->.
  apply (f_equal (@List.length ascii)) in E, E'.
  rewrite length_take in E, E'. subst u.
  rewrite length_drop, length_list_ascii in E, E'.
  f_equal. lia.
Qed.

Lemma matchAt_call text i m c' :
  i <= String.length text ->
  matchAt r (cursorAt text i) = Some (m, c') ->
  callIn shape text (callOf n m)
  /\ index m = i /\ i < lastIndex m <= String.length text
  /\ c' = cursorAt text (lastIndex m).
Proof.
  intros Hi H. apply matchAt_matched in H as ((M & B) & Hc & Hidx); [|exact Hi].
  destruct (sound _ _ _ _ M) as (w & name & E & P & Hcall & Hcap).
  simpl in E, P.
  change (skipn (index m) (list_ascii_of_string text))
    with (drop (index m) (list_ascii_of_string text)) in E.
  destruct (shaped _ _ Hcall) as (front & Ew & _ & _).
  assert (Hlen : 0 < List.length w).
  { rewrite Ew, List.length_app. simpl. lia. }
  unfold callIn, callOf. simpl.
  replace (lastIndex m - index m) with (List.length w) by lia.
  rewrite E, take_app_length.
  assert (Hname : grp' n m = name) by (unfold grp', grp; rewrite Hcap; reflexivity).
  rewrite Hname. repeat split; try assumption; lia.
Qed.

Lemma callIn_matchAt text call :
  callIn shape text call -> matchAt r (cursorAt text (callStart call)) <> None.
Proof.
  intros [L H]. apply complete in H.
  eapply accepts_matchAt; [exact free| |exact H].
  simpl. symmetry. apply take_drop.
Qed.

Lemma execLoop_calls text : forall fuel from,
  from <= String.length text -> String.length text - from < fuel ->
  callsFrom shape text from (map (callOf n) (execLoop r fuel (cursorAt text from))).
Proof.
  induction fuel as [|fuel IH]; intros from Hfrom Hfuel; [lia|].
  cbn [execLoop]. unfold scanFrom.
  assert (Hc : Cursor (pos (cursorAt text from)) (prev (cursorAt text from))
                 (rest (cursorAt text from)) = cursorAt text (pos (cursorAt text from)))
    by reflexivity.
  assert (Hrest : List.length (rest (cursorAt text from)) = String.length text - from)
    by apply length_drop_cursor.
  destruct (scan r _ _ _) as [[m c']|] eqn:E.
  - apply (scan_first text) in E as (i & Hi & Hm & Hnone); [|exact Hc].
    rewrite pos_cursorAt, Hrest in Hi. rewrite pos_cursorAt in Hnone.
    apply matchAt_call in Hm as (Hcall & Hidx & Hlast & ->); [|lia].
    assert (Hlt : (index m <? lastIndex m)%nat = true) by (apply Nat.ltb_lt; lia).
    rewrite Hlt. cbn [map]. apply callsFrom_next.
    + simpl. lia.
    + exact Hcall.
    + intros other Hother Hin. apply callIn_matchAt in Hin. apply Hin, Hnone.
      simpl in Hother. lia.
    + simpl. replace (index m + (lastIndex m - index m)) with (lastIndex m) by lia.
      apply IH; lia.
  - apply callsFrom_none. intros call Hstart Hin.
    pose proof Hin as [L _]. apply callIn_matchAt in Hin. apply Hin.
    apply (scan_nothing text _ _ _ _ Hc E). rewrite pos_cursorAt, Hrest. lia.
Qed.

Lemma callsFrom_unique text : forall from calls calls',
  callsFrom shape text from calls -> callsFrom shape text from calls' -> calls' = calls.
Proof.
  intros from calls calls' H. revert calls'.
  induction H as [from Hnone|from call calls Hfrom Hin Hfirst _ IH]; intros calls' H'.
  - destruct H' as [from' _|from' call' calls' Hfrom' Hin' _ _]; [reflexivity|].
    exfalso. exact (Hnone call' Hfrom' Hin').
  - destruct H' as [from' Hnone'|from' call' calls' Hfrom' Hin' Hfirst' Htail'].
    + exfalso. exact (Hnone' call Hfrom Hin).
    + assert (Hstart : callStart call = callStart call').
      { destruct (Nat.lt_trichotomy (callStart call) (callStart call')) as [Hlt|[Heq|Hgt]].
        - exfalso. apply (Hfirst' call); [lia|exact Hin].
        - exact Heq.
        - exfalso. apply (Hfirst call'); [lia|exact Hin']. }
      pose proof (callIn_unique _ _ _ Hin Hin' Hstart) as <-.
      f_equal. apply IH. exact Htail'.
Qed.

Lemma execAll_callsOf text : callsOf shape text (map (callOf n) (execAll r text)).
Proof.
  assert (H : callsFrom shape text 0 (map (callOf n) (execAll r text))).
  { unfold execAll. rewrite cursorAt_start. apply execLoop_calls; lia. }
  split; [exact H|]. intros calls' H'. exact (callsFrom_unique _ _ _ _ H H').
Qed.

Lemma collect_callLiterals text :
  map callLiteral (map (callOf n) (execAll r text)) = collect r n text.
Proof. unfold collect. rewrite map_map. reflexivity. Qed.

End Calls.

(** ** Server-start calls and the matches of the start patterns *)














(** *** Start calls without arguments *)




(** *** Candidates and addresses *)







(** ** The order of the parameter names *)

Lemma accessor_free ctxVar a : assertionFree (Pat.accessor (Pat.cPattern ctxVar) a) = true.
Proof.
  unfold Pat.accessor, Pat.literalArg. cbn [Rx.seq assertionFree Rx.ws Rx.star Rx.plus Pat.q].
  rewrite assertionFree_cPattern, !assertionFree_lit. reflexivity.
Qed.

Lemma qpRe_free ctxVar : assertionFree (Pat.qpRe (Pat.cPattern ctxVar)) = true.
Proof.
  unfold Pat.qpRe, Pat.call, Pat.literalArg.
  cbn [Rx.seq Rx.alt map assertionFree Rx.ws Rx.star Rx.plus Pat.q].
  rewrite assertionFree_cPattern, !assertionFree_lit. reflexivity.
Qed.

Lemma accessor_plain a :
  forallb (fun x => negb (Ascii.eqb x Chars.quote)) (list_ascii_of_string a) = true ->
  Chars.quote ∉ list_ascii_of_string a.
Proof.
  intros H Hin. rewrite forallb_forall in H. apply list_elem_of_In in Hin.
  specialize (H _ Hin). rewrite Ascii.eqb_refl in H. discriminate.
Qed.

Lemma accessor_callsOf ctxVar a body :
  identifierIfSet ctxVar = true ->
  Chars.quote ∉ list_ascii_of_string a ->
  callsOf (accessorCall ctxVar [a]) body
    (map (callOf 1) (execAll (Pat.accessor (Pat.cPattern ctxVar) a) body)).
Proof.
  intros Hid Ha.
  apply (execAll_callsOf (accessorCall ctxVar [a]) (Pat.accessor (Pat.cPattern ctxVar) a) 1).
  - apply accessorCall_quoted; [exact Hid|]. constructor; [exact Ha|constructor].
  - apply accessor_free.
  - intros c g c' g'. apply accessor_sound.
  - apply accessor_accepts.
Qed.

Lemma qpRe_callsOf ctxVar body :
  identifierIfSet ctxVar = true ->
  callsOf (accessorCall ctxVar ["Query"; "DefaultQuery"; "QueryArray"; "QueryMap"]) body
    (map (callOf 2) (execAll (Pat.qpRe (Pat.cPattern ctxVar)) body)).
Proof.
  intros Hid.
  apply (execAll_callsOf _ (Pat.qpRe (Pat.cPattern ctxVar)) 2).
  - apply accessorCall_quoted; [exact Hid|].
    repeat (constructor; [apply accessor_plain; reflexivity|]). constructor.
  - apply qpRe_free.
  - intros c g c' g'. apply qpRe_sound.
  - apply qpRe_accepts.
Qed.


(** C10.  The parameter names are ordered by the calls in the body.  An
    accessor call is the receiver, a dot, the accessor, an opening
    parenthesis and a non-empty name between double quotes; the calls of a
    body are those met when it is read from the left, each from where the
    one before ended.  For a context variable that is an identifier or
    none, the path parameters, the query parameters and the cookies each
    list the names their calls yield, once each, in the order of the first
    call of each name; the headers list in that way the names of the
    GetHeader calls and after them, in that way, the names only
    Request.Header.Get calls yield. *)
Theorem request_shape_order :
  forall (body : string) (ctxVar : option string) (ginAlias fullText : string),
    identifierIfSet ctxVar = true ->
    let p := inferParamsFromBody body ctxVar ginAlias fullText in
    namesOfCalls (accessorCall ctxVar ["Param"]) body (pathParams p)
    /\ namesOfCalls (accessorCall ctxVar ["Query"; "DefaultQuery"; "QueryArray"; "QueryMap"])
         body (queryParams p)
    /\ namesOfCalls (accessorCall ctxVar ["Cookie"]) body (cookies p)
    /\ NoDup (headers p)
    /\ exists getCalls requestCalls fromGetHeader fromRequestHeader,
         callsOf (accessorCall ctxVar ["GetHeader"]) body getCalls
         /\ callsOf (accessorCall ctxVar ["Request.Header.Get"]) body requestCalls
         /\ headers p = fromGetHeader ++ fromRequestHeader
         /\ firstOccurrences (map callLiteral getCalls) fromGetHeader
         /\ firstOccurrences
              (filter (fun y => y ∉ map callLiteral getCalls)
                      (map callLiteral requestCalls))
              fromRequestHeader.
Proof.
  intros body ctxVar ginAlias fullText Hid p.
  set (c := Pat.cPattern ctxVar).
  assert (E : pathParams p = Js.unique (collect (Pat.ppRe c) 1 body)
              /\ queryParams p = Js.unique (collect (Pat.qpRe c) 2 body)
              /\ cookies p = Js.unique (collect (Pat.ckRe c) 1 body)
              /\ headers p = Js.unique (collect (Pat.ghRe c) 1 body
                                        ++ collect (Pat.rhRe c) 1 body)).
  { unfold p, inferParamsFromBody. fold c.
    destruct (classifyBody body c); try (repeat split; reflexivity).
    destruct (boundStruct body c fullText). repeat split; reflexivity. }
  destruct E as (E1 & E2 & E3 & E4). rewrite E1, E2, E3, E4.
  assert (Hcalls : forall a,
            forallb (fun x => negb (Ascii.eqb x Chars.quote)) (list_ascii_of_string a) = true ->
            callsOf (accessorCall ctxVar [a]) body
              (map (callOf 1) (execAll (Pat.accessor c a) body))
            /\ map callLiteral (map (callOf 1) (execAll (Pat.accessor c a) body))
               = collect (Pat.accessor c a) 1 body).
  { intros a Ha. split; [apply accessor_callsOf; [exact Hid|apply accessor_plain; exact Ha]|].
    apply collect_callLiterals. }
  destruct (Hcalls "Param" eq_refl) as [Cpp Npp].
  destruct (Hcalls "Cookie" eq_refl) as [Cck Nck].
  destruct (Hcalls "GetHeader" eq_refl) as [Cgh Ngh].
  destruct (Hcalls "Request.Header.Get" eq_refl) as [Crh Nrh].
  split; [|split; [|split; [|split]]].
  - eexists. split; [exact Cpp|]. rewrite Npp. apply unique_firstOccurrences.
  - eexists. split; [apply qpRe_callsOf; exact Hid|].
    rewrite (collect_callLiterals (Pat.qpRe c) 2). apply unique_firstOccurrences.
  - eexists. split; [exact Cck|]. rewrite Nck. apply unique_firstOccurrences.
  - apply dedupe_NoDup.
  - eexists _, _, (Js.unique (collect (Pat.ghRe c) 1 body)),
      (filter (fun y => y ∉ collect (Pat.ghRe c) 1 body)
              (Js.unique (collect (Pat.rhRe c) 1 body))).
    split; [exact Cgh|]. split; [exact Crh|]. rewrite Ngh, Nrh.
    split; [apply unique_app|]. split; [apply unique_firstOccurrences|].
    unfold Js.unique. rewrite <- dedupe_filter. apply unique_firstOccurrences.
Qed.

Lemma request_shape_order_witness :
  identifierIfSet (Some "c") = true
  /\ namesOfCalls (accessorCall (Some "c") ["Param"]) Bodies.accessors ["id"]
  /\ namesOfCalls (accessorCall (Some "c") ["Query"; "DefaultQuery"; "QueryArray"; "QueryMap"])
       Bodies.accessors ["b"; "a"]
  /\ namesOfCalls (accessorCall (Some "c") ["Cookie"]) Bodies.accessors ["sid"]
  /\ NoDup ["X-A"; "X-C"; "X-B"]
  /\ exists getCalls requestCalls fromGetHeader fromRequestHeader,
       callsOf (accessorCall (Some "c") ["GetHeader"]) Bodies.accessors getCalls
       /\ callsOf (accessorCall (Some "c") ["Request.Header.Get"]) Bodies.accessors
            requestCalls
       /\ ["X-A"; "X-C"; "X-B"] = fromGetHeader ++ fromRequestHeader
       /\ firstOccurrences (map callLiteral getCalls) fromGetHeader
       /\ firstOccurrences
            (filter (fun y => y ∉ map callLiteral getCalls)
                    (map callLiteral requestCalls))
            fromRequestHeader.
Proof.
  assert (Hid : identifierIfSet (Some "c") = true) by reflexivity.
  split; [exact Hid|].
  pose proof (request_shape_order Bodies.accessors (Some "c") "gin" "" Hid) as H.
  assert (E : inferParamsFromBody Bodies.accessors (Some "c") "gin" ""
              = mkParams ["id"] ["b"; "a"] ["X-A"; "X-C"; "X-B"] ["sid"] none None None)
    by (vm_compute; reflexivity).
  cbv zeta in H. rewrite E in H. exact H.
Defined.

(** ** Field lines with a suppressed tag *)

Lemma fieldLine_peel c g c' g' :
  matches Pat.fieldLine c g c' g' ->
  exists indent goField gap goType tail,
    pos c = 0
    /\ rest c = indent ++ goField ++ gap ++ goType ++ tail
    /\ forallb Chars.space indent = true
    /\ gap <> [] /\ forallb Chars.space gap = true
    /\ isIdentifier (string_of_list_ascii goField) = true
    /\ goType <> [] /\ forallb Pat.typeUnit goType = true
    /\ capture 1 g' = Some (string_of_list_ascii goField)
    /\ capture 2 g' = Some (string_of_list_ascii goType).
Proof.
  unfold Pat.fieldLine. cbn [Rx.seq]. intros M.
  apply matches_seq_inv in M as (c0 & g0 & M0 & M).
  apply matches_bol_inv in M0 as (P0 & -> & ->).
  apply matches_seq_inv in M as (c1 & g1 & M1 & M).
  apply matches_seq_inv in M as (c2 & g2 & M2 & M).
  apply matches_seq_inv in M as (c3 & g3 & M3 & M).
  apply matches_seq_inv in M as (c4 & g4 & M4 & M5).
  apply matches_group_inv in M2 as (g2' & M2 & ->).
  apply matches_group_inv in M4 as (g4' & M4 & ->).
  destruct (matches_accepts _ _ _ _ _ M1) as (w1 & E1 & P1 & A1).
  destruct (matches_accepts _ _ _ _ _ M2) as (w2 & E2 & P2 & A2).
  destruct (matches_accepts _ _ _ _ _ M3) as (w3 & E3 & P3 & A3).
  destruct (matches_accepts _ _ _ _ _ M4) as (w4 & E4 & P4 & A4).
  destruct (matches_accepts _ _ _ _ _ M5) as (w5 & E5 & P5 & A5).
  apply accepts_class in A1. apply accepts_ident in A2.
  apply accepts_plus_class in A3 as [N3 S3]. apply accepts_plus_class in A4 as [N4 T4].
  exists w1, w2, w3, w4, (w5 ++ rest c'). split; [exact P0|].
  split; [rewrite E1, E2, E3, E4, E5; reflexivity|].
  repeat (split; [assumption|]).
  split.
  - rewrite (matches_untouched _ _ _ _ _ M5) by reflexivity.
    rewrite capture_setCapture. cbn [Nat.pred Nat.eqb].
    rewrite (matches_untouched _ _ _ _ _ M4) by reflexivity.
    rewrite (matches_untouched _ _ _ _ _ M3) by reflexivity.
    rewrite capture_setCapture. cbn [Nat.pred Nat.eqb].
    rewrite (consumed_word _ _ _ E2 P2). reflexivity.
  - rewrite (matches_untouched _ _ _ _ _ M5) by reflexivity.
    rewrite capture_setCapture. cbn [Nat.pred Nat.eqb].
    rewrite (consumed_word _ _ _ E4 P4). reflexivity.
Qed.

Lemma fieldLine_declares line fr :
  exec Pat.fieldLine line = Some fr -> declares line (grp' 1 fr) (grp' 2 fr).
Proof.
  intros E. apply exec_matched in E as (M & B).
  apply fieldLine_peel in M
    as (indent & goField & gap & goType & tail & P & E & I & N & G & F & NT & T & C1 & C2).
  rewrite pos_cursorAt in P. simpl in E. rewrite P in E. simpl in E.
  unfold grp', grp. rewrite C1, C2. simpl.
  exists indent, gap, tail. rewrite !list_ascii_of_string_of_list_ascii.
  repeat (split; [assumption|]). split; [|exact T].
  intros H. apply NT. apply (f_equal list_ascii_of_string) in H.
  rewrite list_ascii_of_string_of_list_ascii in H. exact H.
Qed.

Lemma filter_absent (x : string) : forall fields : list Field,
  x ∉ map fname fields -> filter (fun f => fname f = x) fields = [].
Proof.
  induction fields as [|f fields IH]; intros H; [reflexivity|]. simpl in H.
  apply not_elem_of_cons in H as [Hne H]. rewrite filter_cons.
  destruct (decide (fname f = x)) as [E|_]; [congruence|]. exact (IH H).
Qed.

Lemma filter_named (x : string) : forall fields : list Field,
  NoDup (map fname fields) -> x ∈ map fname fields ->
  List.length (filter (fun f => fname f = x) fields) = 1.
Proof.
  induction fields as [|f fields IH]; intros Hnd Hin; simpl in *.
  - apply elem_of_nil in Hin as [].
  - apply NoDup_cons in Hnd as [Hf Hnd]. rewrite filter_cons.
    destruct (decide (fname f = x)) as [<-|Hne].
    + rewrite filter_absent by exact Hf. reflexivity.
    + apply elem_of_cons in Hin as [->|Hin]; [contradiction|]. exact (IH Hnd Hin).
Qed.

Lemma uniqueFields_first : forall before seen f after,
  fname f ∉ seen ->
  (forall g, g ∈ before -> fname g <> fname f) ->
  f ∈ uniqueFields seen (before ++ f :: after).
Proof.
  induction before as [|g before IH]; intros seen f after Hseen Hbefore; simpl.
  - rewrite bool_decide_eq_false_2 by exact Hseen. left.
  - destruct (bool_decide (fname g ∈ seen)).
    + apply IH; [exact Hseen|]. intros g' Hg'. apply Hbefore. right. exact Hg'.
    + right. apply IH.
      * intros [E|H]%elem_of_cons; [|contradiction].
        apply (Hbefore g); [left|]. symmetry. exact E.
      * intros g' Hg'. apply Hbefore. right. exact Hg'.
Qed.

(** C1, as amended.  A field line whose json tag has the marker as its name
    part is not omitted.  The tag is set aside and the line contributes the
    field named by the lower-camel transform of the identifier it declares,
    with the type it declares: the line reads white space, the identifier,
    white space and the type.  The resolved list has exactly one field of
    that name, and it is the line's own, with its type, when no earlier line
    of the struct yields the name. *)
Theorem suppressed_tag_falls_back :
  forall (text typeName line : string),
    line ∈ structLines text typeName ->
    tagName line = Some "-" ->
    exists goField goType,
      declaredName line = Some goField
      /\ declaredType line = Some goType
      /\ declares line goField goType
      /\ fieldOfLine line = Some (mkField (lowerCamel goField) goType)
      /\ List.length (filter (fun f => fname f = lowerCamel goField)
                        (extractStructFieldsFromText text typeName)) = 1
      /\ (forall before after,
            structLines text typeName = before ++ line :: after ->
            (forall earlier f, earlier ∈ before -> fieldOfLine earlier = Some f ->
                               fname f <> lowerCamel goField) ->
            mkField (lowerCamel goField) goType
              ∈ extractStructFieldsFromText text typeName).
Proof.
  intros text typeName line Hline Htag.
  unfold tagName, declaredName, declaredType in *.
  destruct (exec Pat.fieldLine line) as [fr|] eqn:Efr; [|discriminate].
  destruct (exec Pat.jsonTag (orElse (grp 3 fr) "")) as [jm|] eqn:Ejm; [|discriminate].
  injection Htag as Htag.
  assert (Hfield : fieldOfLine line = Some (mkField (lowerCamel (grp' 1 fr)) (grp' 2 fr))).
  { unfold fieldOfLine. rewrite Efr, Ejm, Htag. reflexivity. }
  exists (grp' 1 fr), (grp' 2 fr). split; [reflexivity|]. split; [reflexivity|].
  split; [apply fieldLine_declares; exact Efr|]. split; [exact Hfield|].
  unfold structLines, extractStructFieldsFromText in *.
  destruct (exec (Pat.defRe typeName) text) as [m|]; [|inversion Hline].
  split.
  - apply filter_named; [apply uniqueFields_NoDup|].
    apply uniqueFields_names; [|apply not_elem_of_nil].
    apply list_elem_of_fmap. eexists. split; [|apply list_elem_of_omap; eauto].
    reflexivity.
  - intros before after Hlines Hearlier. cbv zeta. rewrite Hlines.
    rewrite omap_app.
    change (omap fieldOfLine (line :: after))
      with (match fieldOfLine line with
            | Some f => f :: omap fieldOfLine after
            | None => omap fieldOfLine after
            end).
    rewrite Hfield.
    apply uniqueFields_first; [apply not_elem_of_nil|].
    intros g Hg. apply list_elem_of_omap in Hg as (earlier & Hin & Hg).
    exact (Hearlier earlier g Hin Hg).
Qed.

Lemma suppressed_tag_falls_back_witness :
  Sample.secretLine ∈ structLines Sample.server "Signup"
  /\ tagName Sample.secretLine = Some "-"
  /\ declaredName Sample.secretLine = Some "Secret"
  /\ declaredType Sample.secretLine = Some "string"
  /\ exists goField goType,
       declaredName Sample.secretLine = Some goField
       /\ declaredType Sample.secretLine = Some goType
       /\ declares Sample.secretLine goField goType
       /\ fieldOfLine Sample.secretLine = Some (mkField (lowerCamel goField) goType)
       /\ List.length (filter (fun f => fname f = lowerCamel goField)
                         (extractStructFieldsFromText Sample.server "Signup")) = 1
       /\ (forall before after,
             structLines Sample.server "Signup" = before ++ Sample.secretLine :: after ->
             (forall earlier f, earlier ∈ before -> fieldOfLine earlier = Some f ->
                                fname f <> lowerCamel goField) ->
             mkField (lowerCamel goField) goType
               ∈ extractStructFieldsFromText Sample.server "Signup").
Proof.
  assert (H1 : Sample.secretLine ∈ structLines Sample.server "Signup")
    by (vm_compute; do 3 right; left).
  assert (H2 : tagName Sample.secretLine = Some "-") by (vm_compute; reflexivity).
  split; [exact H1|]. split; [exact H2|].
  split; [vm_compute; reflexivity|]. split; [vm_compute; reflexivity|].
  exact (suppressed_tag_falls_back Sample.server "Signup" _ H1 H2).
Defined.

(** ** Path parameters that are no patterns *)

Lemma compileName_unclosed : forall (units : list ascii) opened terms outer,
  outer <> [] -> forallb plainUnit units = true ->
  compileName units opened terms outer = Throws "SyntaxError".
Proof.
  induction units as [|a units IH]; intros opened terms outer Hopen H; simpl.
  - destruct outer; [contradiction|reflexivity].
  - simpl in H. apply andb_prop in H as [Ha H].
    destruct (plainUnit_literal a Ha) as (-> & -> & ->). rewrite Ha. simpl.
    apply IH; assumption.
Qed.

Lemma compileName_plain_prefix : forall (units : list ascii) tail opened terms outer,
  forallb plainUnit units = true ->
  compileName (units ++ tail) opened terms outer
  = compileName tail opened (rev (map (fun a => Chr (Chars.one a)) units) ++ terms) outer.
Proof.
  induction units as [|a units IH]; intros tail opened terms outer H; [reflexivity|].
  simpl in H. apply andb_prop in H as [Ha H]. cbn [app compileName].
  destruct (plainUnit_literal a Ha) as (-> & -> & ->). rewrite Ha. cbn [orb].
  rewrite IH by exact H. cbn [map rev]. rewrite <- app_assoc. reflexivity.
Qed.

Lemma substitutePathParams_returns : forall ps urlPath,
  Forall (fun p => forallb plainUnit (list_ascii_of_string p) = true) ps ->
  exists substituted, substitutePathParams urlPath ps = Returns substituted.
Proof.
  induction ps as [|p ps IH]; intros urlPath F.
  - exists urlPath. reflexivity.
  - apply Forall_cons in F as [Hp F]. cbn [substitutePathParams].
    rewrite (pathParamPattern_plain p Hp). apply IH. exact F.
Qed.

(** For path parameters that hold no pattern syntax the request is
    generated, with the empty object as its body. *)
Lemma unresolved_type_plain_parameters :
  forall (clock : nat -> string) (handler : HandlerFunction)
         (route : option RouteRegistration) (opts : CurlGenerationOptions) (verb : string),
    toUpperCase (orElse (option_map method route) "GET") = Some verb ->
    carriesBody verb = true ->
    Forall (fun p => forallb plainUnit (list_ascii_of_string p) = true)
           (pathParams (params handler)) ->
    bodyType (params handler) = json ->
    jsonFields (params handler) = None \/ jsonFields (params handler) = Some [] ->
    exists headerFlags url,
      generateCurl clock handler route opts
      = Returns (Js.join continuation
                   ["curl"; "-X " +:+ verb; headerFlags; "-d '{}'"; shellQuote url]).
Proof.
  intros clock handler route opts verb Hverb Hbody Hplain Hjson Hfields.
  destruct (substitutePathParams_returns _
              (orElse (option_map path route) ("/" +:+ name handler)) Hplain)
    as (urlPath & Hpath).
  exact (proj2 unresolved_type_gives_empty_object clock handler route opts verb urlPath
           Hverb Hbody Hpath Hjson Hfields).
Qed.

(** C7, which the code breaks.  The handler of the sample text binds a
    type the text does not declare, so it has no fields, and is registered
    for POST; it reads a path parameter named by an opening parenthesis.
    [generateCurl] splices the name into a pattern as it is, the pattern has
    a group that is not closed, and the call throws: no request is
    synthesized, with or without the empty object.  So it is for every name
    that holds an opening parenthesis and no other pattern syntax. *)
Theorem unresolved_type_request_throws :
  ~ occurs (Pat.defRe "Missing") Unescaped.text
  /\ extractStructFieldsFromText Unescaped.text "Missing" = []
  /\ scanWorkspace 3 [mkDoc "unescaped.go" Unescaped.text]
     = Some ([Unescaped.handler], [Unescaped.route])
  /\ carriesBody (method Unescaped.route) = true
  /\ bodyType (params Unescaped.handler) = json
  /\ jsonFields (params Unescaped.handler) = Some []
  /\ pathParams (params Unescaped.handler) = ["("]
  /\ generateCurl Orphan.clock Unescaped.handler (Some Unescaped.route) Orphan.options
     = Throws "SyntaxError"
  /\ (forall before after : string,
        forallb plainUnit (list_ascii_of_string before) = true ->
        forallb plainUnit (list_ascii_of_string after) = true ->
        pathParamPattern (before +:+ "(" +:+ after) = Throws "SyntaxError").
Proof.
  split; [apply test_false_occurs; vm_compute; reflexivity|].
  do 7 (split; [vm_compute; reflexivity|]).
  intros before after Hbefore Hafter. unfold pathParamPattern.
  rewrite !units_app. rewrite compileName_plain_prefix by exact Hbefore.
  cbn [list_ascii_of_string app compileName Ascii.eqb].
  change (Ascii.eqb "(" "(") with true. cbv iota.
  rewrite compileName_unclosed; [reflexivity|discriminate|exact Hafter].
Qed.
